(** * Flow network and Ford-Fulkerson solver: a shallow embedding

  The development follows [src/Flow_project/src]: [graph.py] (Node, Edge,
  Graph), [algorithms.py] (FordFulkerson) and [flow_network.py]
  (FlowNetwork).  Python dictionaries keep insertion order, and the
  adjacency order decides which augmenting path the breadth-first search
  finds, so dictionaries are association lists in insertion order.
  Capacities and flows are integers here, embedded as [Z]; what that leaves
  out of Python's numbers, and the same solver over Python's ints and
  binary64 floats (module [Py]), comes with the specification vocabulary. *)

From Stdlib Require Import ZArith List String Ascii Bool Lia Permutation.
From Stdlib Require Floats.
Import ListNotations.
Local Open Scope string_scope.
Local Open Scope list_scope.
Local Open Scope Z_scope.

(** ** Outcomes of a call: a value, a raised exception, or no answer yet *)

(** The exception classes of [exceptions.py], and the built-in exceptions
  the code can run into ([OverflowError]: an int too large for a float). *)
Inductive exn : Type :=
| NodeNotFoundError (node_id : string)
| EdgeNotFoundError (edge_id : string)
| InvalidInputError
| NetworkNotValidError
| NameError (name : string)
| KeyError (key : string)
| OverflowError.

(** [OutOfFuel]: the loop bound handed to the model was too small.
  [NotModelled]: the float infinity that [_find_augmenting_path] starts its
  minimum with would have left the function. *)
Inductive outcome (A : Type) : Type :=
| Ret (a : A)
| Raise (e : exn)
| OutOfFuel
| NotModelled.
Arguments Ret {A} a.
Arguments Raise {A} e.
Arguments OutOfFuel {A}.
Arguments NotModelled {A}.

Definition bind {A B} (m : outcome A) (k : A -> outcome B) : outcome B :=
match m with
| Ret a => k a
| Raise e => Raise e
| OutOfFuel => OutOfFuel
| NotModelled => NotModelled
end.

Notation "x <- m ;; k" := (bind m (fun x => k))
(at level 61, m at next level, right associativity).
Notation "' pat <- m ;; k" := (bind m (fun x => match x with pat => k end))
(at level 61, pat pattern, m at next level, right associativity).

(** A [for] loop whose body may raise. *)
Fixpoint for_each {A S} (body : S -> A -> outcome S) (l : list A) (s : S)
: outcome S :=
match l with
| [] => Ret s
| a :: l' => s' <- body s a ;; for_each body l' s'
end.

(** ** Python strings *)

Module PyStr.

(** [s.endswith(suffix)] *)
Fixpoint endswith (s suffix : string) : bool :=
  if String.eqb s suffix then true
  else match s with
       | EmptyString => false
       | String _ s' => endswith s' suffix
       end.

(** [s.replace(old, new)] for a non-empty [old]: every occurrence of [old],
    found from left to right without overlap, is replaced.  [skip] counts the
    characters of a matched occurrence that are still to be dropped. *)
Fixpoint replace_from (old new : string) (skip : nat) (s : string) : string :=
  match s with
  | EmptyString => EmptyString
  | String c s' =>
      match skip with
      | S k => replace_from old new k s'
      | O => if String.prefix old s
             then (new ++ replace_from old new (String.length old - 1) s')%string
             else String c (replace_from old new 0 s')
      end
  end.

Definition replace (s old new : string) : string := replace_from old new 0 s.

End PyStr.

(** ** Python dictionaries, in insertion order *)

Module Dict.
Section Dict.
Context {V : Type}.

Definition t := list (string * V).

Fixpoint get (d : t) (k : string) : option V :=
  match d with
  | [] => None
  | (k', v) :: d' => if String.eqb k' k then Some v else get d' k
  end.

(** [k in d] *)
Definition mem (d : t) (k : string) : bool :=
  match get d k with Some _ => true | None => false end.

(** [d[k] = v]: an existing key keeps its place, a new key goes last. *)
Fixpoint set (d : t) (k : string) (v : V) : t :=
  match d with
  | [] => [(k, v)]
  | (k', v') :: d' =>
      if String.eqb k' k then (k', v) :: d' else (k', v') :: set d' k v
  end.

(** [del d[k]] *)
Fixpoint del (d : t) (k : string) : t :=
  match d with
  | [] => []
  | (k', v') :: d' => if String.eqb k' k then d' else (k', v') :: del d' k
  end.

Definition keys (d : t) : list string := map fst d.
Definition values (d : t) : list V := map snd d.

End Dict.
Arguments t : clear implicits.
End Dict.

(** [x in l] for a list or a set of strings *)
Definition mem_str (x : string) (l : list string) : bool :=
existsb (String.eqb x) l.

(** ** graph.py *)

Module Node.
Record t : Type := mk
  { id : string; name : string; is_source : bool; is_sink : bool }.

(** [Node(id, name, is_source, is_sink)] with its [__post_init__]. *)
Definition new (id name : string) (is_source is_sink : bool) : outcome t :=
  if String.eqb id "" then Raise InvalidInputError
  else Ret (mk id (if String.eqb name "" then id else name) is_source is_sink).
End Node.

Module Edge.
Record t : Type := mk
  { id : string; start_node_id : string; end_node_id : string;
    capacity : Z; flow : Z }.

(** [Edge(id, start, end, capacity, flow)] with its [__post_init__]. *)
Definition new (id start_node_id end_node_id : string) (capacity flow : Z)
  : outcome t :=
  if String.eqb id "" then Raise InvalidInputError
  else if capacity <? 0 then Raise InvalidInputError
  else if flow <? 0 then Raise InvalidInputError
  else if flow >? capacity then Raise InvalidInputError
  else Ret (mk id start_node_id end_node_id capacity flow).

Definition residual_capacity (e : t) : Z := capacity e - flow e.

Definition set_flow (e : t) (f : Z) : t :=
  mk (id e) (start_node_id e) (end_node_id e) (capacity e) f.
Definition set_capacity (e : t) (c : Z) : t :=
  mk (id e) (start_node_id e) (end_node_id e) c (flow e).
End Edge.

Module Graph.
Record t : Type := mk
  { nodes : Dict.t Node.t;
    edges : Dict.t Edge.t;
    adjacency_list : Dict.t (list string) }.

(** [Graph()] *)
Definition empty : t := mk [] [] [].

Definition add_node (g : t) (node_id name : string) (is_source is_sink : bool)
  : outcome (t * Node.t) :=
  if Dict.mem (nodes g) node_id then Raise InvalidInputError
  else
    node <- Node.new node_id (if String.eqb name "" then node_id else name)
                     is_source is_sink ;;
    Ret (mk (Dict.set (nodes g) node_id node) (edges g)
            (Dict.set (adjacency_list g) node_id []), node).

(** [graph.py] imports only [InvalidInputError] from [exceptions], so the
    name [NodeNotFoundError] in its [raise] statement is unbound there. *)
Definition get_node (g : t) (node_id : string) : outcome Node.t :=
  match Dict.get (nodes g) node_id with
  | None => Raise (NameError "NodeNotFoundError")
  | Some n => Ret n
  end.

(** As for [get_node]: [EdgeNotFoundError] is not bound in [graph.py]. *)
Definition get_edge (g : t) (edge_id : string) : outcome Edge.t :=
  match Dict.get (edges g) edge_id with
  | None => Raise (NameError "EdgeNotFoundError")
  | Some e => Ret e
  end.

Definition add_edge (g : t) (edge_id start_node_id end_node_id : string)
    (capacity : Z) : outcome (t * Edge.t) :=
  if Dict.mem (edges g) edge_id then Raise InvalidInputError
  else
    _ <- get_node g start_node_id ;;
    _ <- get_node g end_node_id ;;
    if String.eqb start_node_id end_node_id then Raise InvalidInputError
    else
      edge <- Edge.new edge_id start_node_id end_node_id capacity 0 ;;
      match Dict.get (adjacency_list g) start_node_id with
      | None => Raise (KeyError start_node_id)
      | Some out =>
          Ret (mk (nodes g) (Dict.set (edges g) edge_id edge)
                  (Dict.set (adjacency_list g) start_node_id
                            (out ++ [edge_id])), edge)
      end.

(** [list.remove(x)]: the first occurrence goes. *)
Fixpoint list_remove (x : string) (l : list string) : list string :=
  match l with
  | [] => []
  | y :: l' => if String.eqb y x then l' else y :: list_remove x l'
  end.

Definition remove_edge (g : t) (edge_id : string) : outcome t :=
  match Dict.get (edges g) edge_id with
  | None => Raise (NameError "EdgeNotFoundError")
  | Some edge =>
      let adj :=
        match Dict.get (adjacency_list g) (Edge.start_node_id edge) with
        | Some out =>
            if mem_str edge_id out
            then Dict.set (adjacency_list g) (Edge.start_node_id edge)
                          (list_remove edge_id out)
            else adjacency_list g
        | None => adjacency_list g
        end in
      Ret (mk (nodes g) (Dict.del (edges g) edge_id) adj)
  end.

Definition remove_node (g : t) (node_id : string) : outcome t :=
  if negb (Dict.mem (nodes g) node_id)
  then Raise (NameError "NodeNotFoundError")
  else
    let edges_to_remove :=
      map fst (filter (fun kv =>
                         String.eqb (Edge.start_node_id (snd kv)) node_id
                         || String.eqb (Edge.end_node_id (snd kv)) node_id)
                      (edges g)) in
    g' <- for_each remove_edge edges_to_remove g ;;
    if Dict.mem (adjacency_list g') node_id
    then Ret (mk (Dict.del (nodes g') node_id) (edges g')
                 (Dict.del (adjacency_list g') node_id))
    else Raise (KeyError node_id).

Definition get_edges_from_node (g : t) (node_id : string)
  : outcome (list Edge.t) :=
  match Dict.get (adjacency_list g) node_id with
  | None => Ret []
  | Some out =>
      for_each (fun acc edge_id =>
                  match Dict.get (edges g) edge_id with
                  | None => Raise (KeyError edge_id)
                  | Some e => Ret (acc ++ [e])
                  end) out []
  end.

Definition get_all_nodes (g : t) : list Node.t := Dict.values (nodes g).
Definition get_all_edges (g : t) : list Edge.t := Dict.values (edges g).

(** [for edge_id in self.adjacency_list[start_node_id]] of [has_edge], left
    by [return True] at the first edge that ends at [end_node_id]. *)
Fixpoint _has_edge_loop (g : t) (end_node_id : string) (out : list string)
  : outcome bool :=
  match out with
  | [] => Ret false
  | edge_id :: rest =>
      match Dict.get (edges g) edge_id with
      | None => Raise (KeyError edge_id)
      | Some edge =>
          if String.eqb (Edge.end_node_id edge) end_node_id then Ret true
          else _has_edge_loop g end_node_id rest
      end
  end.

Definition has_edge (g : t) (start_node_id end_node_id : string)
  : outcome bool :=
  match Dict.get (adjacency_list g) start_node_id with
  | None => Ret false
  | Some out => _has_edge_loop g end_node_id out
  end.

Definition get_source_nodes (g : t) : list Node.t :=
  filter Node.is_source (Dict.values (nodes g)).
Definition get_sink_nodes (g : t) : list Node.t :=
  filter Node.is_sink (Dict.values (nodes g)).
End Graph.

(** ** algorithms.py *)

Module FordFulkerson.

(** The solver object: the graph it was given (shared with the owner of the
    solver, so one component stands for both references) and the disposable
    residual graph. *)
Record t : Type := mk { graph : Graph.t; residual_graph : Graph.t }.

Definition copy_node (r : Graph.t) (node : Node.t) : outcome Graph.t :=
  '(r', _) <- Graph.add_node r (Node.id node) (Node.name node)
                             (Node.is_source node) (Node.is_sink node) ;;
  Ret r'.

Definition add_arcs (r : Graph.t) (edge : Edge.t) : outcome Graph.t :=
  r1 <- (if Edge.residual_capacity edge >? 0
         then '(r', _) <- Graph.add_edge r (Edge.id edge ++ "_forward")%string
                            (Edge.start_node_id edge) (Edge.end_node_id edge)
                            (Edge.residual_capacity edge) ;;
              Ret r'
         else Ret r) ;;
  if Edge.flow edge >? 0
  then '(r', _) <- Graph.add_edge r1 (Edge.id edge ++ "_backward")%string
                     (Edge.end_node_id edge) (Edge.start_node_id edge)
                     (Edge.flow edge) ;;
       Ret r'
  else Ret r1.

Definition _build_residual_graph (self : t) : outcome t :=
  r1 <- for_each copy_node (Graph.get_all_nodes (graph self))
                 (residual_graph self) ;;
  r2 <- for_each add_arcs (Graph.get_all_edges (graph self)) r1 ;;
  Ret (mk (graph self) r2).

(** [FordFulkerson(graph)] *)
Definition new (graph : Graph.t) : outcome t :=
  _build_residual_graph (mk graph Graph.empty).

Definition parents : Type := Dict.t (string * string).

(** The local variables of the two breadth-first loops.  [visited] is a
    Python set: only membership is asked of it inside the loops. *)
Record search : Type := mk_search
  { visited : list string; queue : list string; parent : parents }.

(** Body of [for edge in ...get_edges_from_node(current_id)] in [_bfs]. *)
Definition visit (current_id : string) (st : search) (edge : Edge.t) : search :=
  let neighbor_id := Edge.end_node_id edge in
  if negb (mem_str neighbor_id (visited st)) && (Edge.capacity edge >? 0)
  then mk_search (neighbor_id :: visited st)
                 (queue st ++ [neighbor_id])
                 (Dict.set (parent st) neighbor_id (current_id, Edge.id edge))
  else st.

Fixpoint _bfs_loop (fuel : nat) (self : t) (sink_id : string) (st : search)
  : outcome (option parents) :=
  match fuel with
  | O => OutOfFuel
  | S fuel' =>
      match queue st with
      | [] => Ret None
      | current_id :: rest =>
          if String.eqb current_id sink_id then Ret (Some (parent st))
          else
            out <- Graph.get_edges_from_node (residual_graph self) current_id ;;
            _bfs_loop fuel' self sink_id
              (fold_left (visit current_id) out
                         (mk_search (visited st) rest (parent st)))
      end
  end.

Definition _bfs (fuel : nat) (self : t) (source_id sink_id : string)
  : outcome (option parents) :=
  _bfs_loop fuel self sink_id (mk_search [source_id] [source_id] []).

(** [min(min_capacity, c)], where [None] is [float('inf')]. *)
Definition min_cap (min_capacity : option Z) (c : Z) : option Z :=
  match min_capacity with
  | None => Some c
  | Some m => Some (if c <? m then c else m)
  end.

(** [while current_id != source_id] of [_find_augmenting_path]. *)
Fixpoint _walk_back (fuel : nat) (self : t) (parent : parents)
    (source_id current_id : string) (min_capacity : option Z)
    (path : list string) : outcome (option Z * list string) :=
  match fuel with
  | O => OutOfFuel
  | S fuel' =>
      if String.eqb current_id source_id then Ret (min_capacity, path)
      else
        match Dict.get parent current_id with
        | None => Raise (KeyError current_id)
        | Some (prev_id, edge_id) =>
            edge <- Graph.get_edge (residual_graph self) edge_id ;;
            _walk_back fuel' self parent source_id prev_id
                       (min_cap min_capacity (Edge.capacity edge))
                       (path ++ [edge_id])
        end
  end.

Definition _find_augmenting_path (fuel : nat) (self : t)
    (source_id sink_id : string) : outcome (option (Z * list string)) :=
  found <- _bfs fuel self source_id sink_id ;;
  match found with
  | None => Ret None
  | Some [] => Ret None
  | Some parent =>
      '(min_capacity, path) <-
        _walk_back fuel self parent source_id sink_id None [] ;;
      match min_capacity with
      | None => NotModelled
      | Some m => Ret (Some (m, rev path))
      end
  end.

(** [original_edge.flow += delta] on the edge object stored under
    [original_edge_id]. *)
Definition bump (g : Graph.t) (original_edge_id : string) (delta : Z)
  : outcome Graph.t :=
  original_edge <- Graph.get_edge g original_edge_id ;;
  Ret (Graph.mk (Graph.nodes g)
         (Dict.set (Graph.edges g) original_edge_id
            (Edge.set_flow original_edge (Edge.flow original_edge + delta)))
         (Graph.adjacency_list g)).

Definition update_one (flow : Z) (g : Graph.t) (edge_id : string)
  : outcome Graph.t :=
  if PyStr.endswith edge_id "_forward"
  then bump g (PyStr.replace edge_id "_forward" "") flow
  else if PyStr.endswith edge_id "_backward"
  then bump g (PyStr.replace edge_id "_backward" "") (- flow)
  else Ret g.

Definition _update_flows (self : t) (path : list string) (flow : Z)
  : outcome t :=
  g <- for_each (update_one flow) path (graph self) ;;
  Ret (mk g (residual_graph self)).

(** [while True] of [calculate_max_flow]; [n] bounds the number of rounds,
    [fuel] is what each search inside a round may use. *)
Fixpoint _augment_loop (n fuel : nat) (self : t) (source_id sink_id : string)
    (max_flow : Z) : outcome (Z * t) :=
  match n with
  | O => OutOfFuel
  | S n' =>
      self1 <- _build_residual_graph (mk (graph self) Graph.empty) ;;
      result <- _find_augmenting_path fuel self1 source_id sink_id ;;
      match result with
      | None => Ret (max_flow, self1)
      | Some (flow, path) =>
          self2 <- _update_flows self1 path flow ;;
          _augment_loop n' fuel self2 source_id sink_id (max_flow + flow)
      end
  end.

(** [algorithms.py] imports only [NetworkNotValidError], so the name
    [NodeNotFoundError] is unbound in its first two [raise] statements. *)
Definition calculate_max_flow (fuel : nat) (self : t)
    (source_id sink_id : string) : outcome (Z * t) :=
  if negb (Dict.mem (Graph.nodes (graph self)) source_id)
  then Raise (NameError "NodeNotFoundError")
  else if negb (Dict.mem (Graph.nodes (graph self)) sink_id)
  then Raise (NameError "NodeNotFoundError")
  else if String.eqb source_id sink_id then Raise NetworkNotValidError
  else
    source_node <- Graph.get_node (graph self) source_id ;;
    if negb (Node.is_source source_node) then Raise NetworkNotValidError
    else
      sink_node <- Graph.get_node (graph self) sink_id ;;
      if negb (Node.is_sink sink_node) then Raise NetworkNotValidError
      else _augment_loop fuel fuel self source_id sink_id 0.

(** Body of the [for] loop of [get_min_cut]; [parent] is not touched. *)
Definition reach (st : search) (edge : Edge.t) : search :=
  let neighbor_id := Edge.end_node_id edge in
  if negb (mem_str neighbor_id (visited st)) && (Edge.capacity edge >? 0)
  then mk_search (neighbor_id :: visited st) (queue st ++ [neighbor_id])
                 (parent st)
  else st.

Fixpoint _cut_loop (fuel : nat) (self : t) (st : search)
  : outcome (list string) :=
  match fuel with
  | O => OutOfFuel
  | S fuel' =>
      match queue st with
      | [] => Ret (visited st)
      | current_id :: rest =>
          out <- Graph.get_edges_from_node (residual_graph self) current_id ;;
          _cut_loop fuel' self
            (fold_left reach out (mk_search (visited st) rest (parent st)))
      end
  end.

(** [list(visited)] lists a set in an order Python does not fix;
    [set_order] is that order. *)
Definition get_min_cut (set_order : list string -> list string) (fuel : nat)
    (self : t) (source_id : string) : outcome (list string * list string) :=
  visited <- _cut_loop fuel self (mk_search [source_id] [source_id] []) ;;
  Ret (set_order visited,
       filter (fun node_id => negb (mem_str node_id visited))
              (Dict.keys (Graph.nodes (graph self)))).

End FordFulkerson.

(** ** flow_network.py *)

Module FlowNetwork.

(** [self.graph] and [self.algorithm.graph] are one object, so the state of
    a network is the state of its solver. *)
Definition t : Type := FordFulkerson.t.
Definition graph (self : t) : Graph.t := FordFulkerson.graph self.
Definition with_graph (self : t) (g : Graph.t) : t :=
  FordFulkerson.mk g (FordFulkerson.residual_graph self).

(** [FlowNetwork()] *)
Definition new : outcome t := FordFulkerson.new Graph.empty.

Definition add_node (self : t) (node_id name : string)
    (is_source is_sink : bool) : outcome (t * Node.t) :=
  '(g, node) <- Graph.add_node (graph self) node_id name is_source is_sink ;;
  Ret (with_graph self g, node).

Definition get_node (self : t) (node_id : string) : outcome Node.t :=
  Graph.get_node (graph self) node_id.

Definition remove_node (self : t) (node_id : string) : outcome t :=
  g <- Graph.remove_node (graph self) node_id ;;
  Ret (with_graph self g).

(** [node.is_source = ...; node.is_sink = ...] on the node object stored
    under [node_id]. *)
Definition set_roles (self : t) (node_id : string) (node : Node.t)
    (is_source is_sink : bool) : t :=
  with_graph self
    (Graph.mk (Dict.set (Graph.nodes (graph self)) node_id
                 (Node.mk (Node.id node) (Node.name node) is_source is_sink))
              (Graph.edges (graph self))
              (Graph.adjacency_list (graph self))).

Definition set_node_as_source (self : t) (node_id : string) : outcome t :=
  node <- get_node self node_id ;;
  Ret (set_roles self node_id node true false).

Definition set_node_as_sink (self : t) (node_id : string) : outcome t :=
  node <- get_node self node_id ;;
  Ret (set_roles self node_id node false true).

Definition get_source_node (self : t) : outcome Node.t :=
  match Graph.get_source_nodes (graph self) with
  | [] => Raise NetworkNotValidError
  | source :: _ => Ret source
  end.

Definition get_sink_node (self : t) : outcome Node.t :=
  match Graph.get_sink_nodes (graph self) with
  | [] => Raise NetworkNotValidError
  | sink :: _ => Ret sink
  end.

Definition add_edge (self : t) (edge_id start_node_id end_node_id : string)
    (capacity : Z) : outcome (t * Edge.t) :=
  '(g, edge) <- Graph.add_edge (graph self) edge_id start_node_id
                               end_node_id capacity ;;
  Ret (with_graph self g, edge).

Definition get_edge (self : t) (edge_id : string) : outcome Edge.t :=
  Graph.get_edge (graph self) edge_id.

Definition remove_edge (self : t) (edge_id : string) : outcome t :=
  g <- Graph.remove_edge (graph self) edge_id ;;
  Ret (with_graph self g).

Definition update_edge_capacity (self : t) (edge_id : string)
    (new_capacity : Z) : outcome t :=
  edge <- get_edge self edge_id ;;
  if new_capacity <? Edge.flow edge then Raise InvalidInputError
  else Ret (with_graph self
              (Graph.mk (Graph.nodes (graph self))
                 (Dict.set (Graph.edges (graph self)) edge_id
                           (Edge.set_capacity edge new_capacity))
                 (Graph.adjacency_list (graph self)))).

Definition calculate_max_flow (set_order : list string -> list string)
    (fuel : nat) (self : t) : outcome (Z * list string * list string * t) :=
  source <- get_source_node self ;;
  sink <- get_sink_node self ;;
  '(max_flow, self') <-
    FordFulkerson.calculate_max_flow fuel self (Node.id source) (Node.id sink) ;;
  '(cut_S, cut_T) <-
    FordFulkerson.get_min_cut set_order fuel self' (Node.id source) ;;
  Ret (max_flow, cut_S, cut_T, self').

Definition reset_flows (self : t) : t :=
  with_graph self
    (Graph.mk (Graph.nodes (graph self))
              (map (fun kv => (fst kv, Edge.set_flow (snd kv) 0))
                   (Graph.edges (graph self)))
              (Graph.adjacency_list (graph self))).

Definition get_all_nodes (self : t) : list Node.t :=
  Graph.get_all_nodes (graph self).

Definition get_all_edges (self : t) : list Edge.t :=
  Graph.get_all_edges (graph self).

Definition get_edges_from_node (self : t) (node_id : string)
  : outcome (list Edge.t) :=
  Graph.get_edges_from_node (graph self) node_id.

(** [while stack: ... else: raise] of [validate_network].  The head of
    [stack] is the top of the Python list, so [stack.pop()] takes the head
    and [stack.append] conses.  [true]: the loop left by [break]. *)
Fixpoint _reach_sink (fuel : nat) (self : t) (sink_id : string)
    (visited stack : list string) : outcome bool :=
  match fuel with
  | O => OutOfFuel
  | S fuel' =>
      match stack with
      | [] => Ret false
      | current_id :: rest =>
          if String.eqb current_id sink_id then Ret true
          else if negb (mem_str current_id visited)
          then
            out <- Graph.get_edges_from_node (graph self) current_id ;;
            _reach_sink fuel' self sink_id (current_id :: visited)
              (fold_left (fun stack edge => Edge.end_node_id edge :: stack)
                         out rest)
          else _reach_sink fuel' self sink_id visited rest
      end
  end.

Definition validate_network (fuel : nat) (self : t) : outcome bool :=
  let sources := Graph.get_source_nodes (graph self) in
  let sinks := Graph.get_sink_nodes (graph self) in
  match sources, sinks with
  | [source], [sink] =>
      _reach_sink fuel self (Node.id sink) [] [Node.id source]
  | _, _ => Ret false
  end.

(** The dictionary that [get_network_info] returns, by its keys. *)
Record network_info : Type := mk_info
  { node_count : Z; edge_count : Z; source : string; sink : string;
    total_capacity : Z; total_flow : Z }.

(** [sum(...)] over the edges: from 0, adding from left to right. *)
Definition sum_of (f : Edge.t -> Z) (edges : list Edge.t) : Z :=
  fold_left (fun acc edge => acc + f edge) edges 0.

Definition get_network_info (self : t) : outcome network_info :=
  let nodes := get_all_nodes self in
  let edges := get_all_edges self in
  let total_capacity := sum_of Edge.capacity edges in
  let total_flow := sum_of Edge.flow edges in
  source <- get_source_node self ;;
  sink <- get_sink_node self ;;
  Ret (mk_info (Z.of_nat (List.length nodes)) (Z.of_nat (List.length edges))
               (Node.id source) (Node.id sink) total_capacity total_flow).

End FlowNetwork.

(** * Specification vocabulary *)

(** ** The residual arcs of an edge *)

Definition forward_arc (e : Edge.t) : Edge.t :=
  Edge.mk (Edge.id e ++ "_forward") (Edge.start_node_id e) (Edge.end_node_id e)
          (Edge.residual_capacity e) 0.

Definition backward_arc (e : Edge.t) : Edge.t :=
  Edge.mk (Edge.id e ++ "_backward") (Edge.end_node_id e) (Edge.start_node_id e)
          (Edge.flow e) 0.

Definition arcs_of (e : Edge.t) : list Edge.t :=
  (if Edge.residual_capacity e >? 0 then [forward_arc e] else [])
  ++ (if Edge.flow e >? 0 then [backward_arc e] else []).

Definition residual_arcs (es : list Edge.t) : list Edge.t := flat_map arcs_of es.

(** ** The graph object that holds given nodes and edges

    [graph_of ns es] is the [Graph] whose node dictionary is [ns], whose edge
    dictionary lists [es] under their ids, and whose adjacency index lists,
    for every node, the ids of the edges that start there, in the order of
    [es]. *)

Definition index_edges (es : list Edge.t) : Dict.t Edge.t :=
  map (fun e => (Edge.id e, e)) es.

Definition starts_at (u : string) (e : Edge.t) : bool :=
  String.eqb (Edge.start_node_id e) u.

Definition out_ids (es : list Edge.t) (u : string) : list string :=
  map Edge.id (filter (starts_at u) es).

Definition graph_of (ns : Dict.t Node.t) (es : list Edge.t) : Graph.t :=
  Graph.mk ns (index_edges es) (map (fun kn => (fst kn, out_ids es (fst kn))) ns).

(** ** Graphs that the public operations build *)

Definition node_ok (kn : string * Node.t) : Prop :=
  Node.id (snd kn) = fst kn /\ fst kn <> "" /\ Node.name (snd kn) <> "".

Definition edge_ok (ns : Dict.t Node.t) (e : Edge.t) : Prop :=
  In (Edge.start_node_id e) (Dict.keys ns)
  /\ In (Edge.end_node_id e) (Dict.keys ns)
  /\ Edge.start_node_id e <> Edge.end_node_id e.

Record graph_wf (g : Graph.t) : Prop := mk_graph_wf
  { wf_node_keys : NoDup (Dict.keys (Graph.nodes g));
    wf_nodes : Forall node_ok (Graph.nodes g);
    wf_edge_ids : NoDup (map Edge.id (Graph.get_all_edges g));
    wf_edges : Forall (edge_ok (Graph.nodes g)) (Graph.get_all_edges g);
    wf_shape : g = graph_of (Graph.nodes g) (Graph.get_all_edges g) }.

Definition residual_of (g : Graph.t) : Graph.t :=
  graph_of (Graph.nodes g) (residual_arcs (Graph.get_all_edges g)).

(** ** The state of a breadth-first search *)

(** [parent_ok arcs s P]: every entry of the parent dictionary [P] records a
    usable arc into a node first seen there, from [s] or from a node recorded
    earlier. *)
Inductive parent_ok (arcs : list Edge.t) (s : string)
  : FordFulkerson.parents -> Prop :=
| parent_nil : parent_ok arcs s []
| parent_snoc (P : FordFulkerson.parents) (a : Edge.t) :
    parent_ok arcs s P ->
    In a arcs -> Edge.capacity a > 0 ->
    ~ In (Edge.end_node_id a) (Dict.keys P) ->
    Edge.end_node_id a <> s ->
    Edge.start_node_id a = s \/ In (Edge.start_node_id a) (Dict.keys P) ->
    parent_ok arcs s
      (P ++ [(Edge.end_node_id a, (Edge.start_node_id a, Edge.id a))]).

Record search_inv (arcs : list Edge.t) (s : string) (st : FordFulkerson.search)
  : Prop := mk_search_inv
  { inv_visited : NoDup (FordFulkerson.visited st);
    inv_queue : NoDup (FordFulkerson.queue st);
    inv_queue_visited :
      incl (FordFulkerson.queue st) (FordFulkerson.visited st);
    inv_keys : forall x, In x (FordFulkerson.visited st) <->
                         x = s \/ In x (Dict.keys (FordFulkerson.parent st));
    inv_parent : parent_ok arcs s (FordFulkerson.parent st) }.

(** Nodes that left the queue are not the sink and have all their usable arcs
    followed. *)
Definition search_closed (arcs : list Edge.t) (t : string)
    (st : FordFulkerson.search) : Prop :=
  forall u, In u (FordFulkerson.visited st) -> ~ In u (FordFulkerson.queue st) ->
    u <> t /\
    forall a, In a arcs -> Edge.start_node_id a = u -> Edge.capacity a > 0 ->
              In (Edge.end_node_id a) (FordFulkerson.visited st).

(** A set of nodes that no usable arc leaves. *)
Definition arc_closed (arcs : list Edge.t) (V : list string) : Prop :=
  forall a, In a arcs -> In (Edge.start_node_id a) V -> Edge.capacity a > 0 ->
            In (Edge.end_node_id a) V.

(** The nodes that arcs lead to and the search has not seen. *)
Definition unvisited (arcs : list Edge.t) (V : list string) : list string :=
  filter (fun x => negb (mem_str x V)) (map Edge.end_node_id arcs).

Definition search_size (arcs : list Edge.t) (st : FordFulkerson.search) : nat :=
  List.length (FordFulkerson.queue st)
  + List.length (unvisited arcs (FordFulkerson.visited st)).

(** [back_path arcs P s v l]: following the parent dictionary [P] from [v]
    back to [s] crosses the arcs [l], the last arc of the path first. *)
Inductive back_path (arcs : list Edge.t) (P : FordFulkerson.parents) (s : string)
  : string -> list Edge.t -> Prop :=
| back_nil : back_path arcs P s s []
| back_cons (a : Edge.t) (l : list Edge.t) :
    In a arcs -> Edge.capacity a > 0 -> Edge.end_node_id a <> s ->
    Dict.get P (Edge.end_node_id a) = Some (Edge.start_node_id a, Edge.id a) ->
    back_path arcs P s (Edge.start_node_id a) l ->
    back_path arcs P s (Edge.end_node_id a) (a :: l).

(** ** Edge ids the solver can decode

    [_update_flows] recovers the id of an edge from the id of its residual
    arc by [str.replace]; [decodes id] says that this gives [id] back. *)
Definition decodes (id : string) : Prop :=
  PyStr.replace (id ++ "_forward") "_forward" "" = id
  /\ PyStr.replace (id ++ "_backward") "_backward" "" = id.

Definition ids_decode (g : Graph.t) : Prop :=
  Forall decodes (map Edge.id (Graph.get_all_edges g)).

(** ** Sums, flows and cuts *)

Definition sumZ {A} (f : A -> Z) (l : list A) : Z :=
  fold_right (fun a acc => f a + acc) 0 l.

Definition inflow (g : Graph.t) (v : string) : Z :=
  sumZ (fun e => if String.eqb (Edge.end_node_id e) v then Edge.flow e else 0)
       (Graph.get_all_edges g).

Definition outflow (g : Graph.t) (v : string) : Z :=
  sumZ (fun e => if String.eqb (Edge.start_node_id e) v then Edge.flow e else 0)
       (Graph.get_all_edges g).

Definition conserved (g : Graph.t) (s t : string) : Prop :=
  forall v, v <> s -> v <> t -> inflow g v = outflow g v.

Definition within_capacity (g : Graph.t) : Prop :=
  Forall (fun e => 0 <= Edge.flow e <= Edge.capacity e) (Graph.get_all_edges g).

Definition all_zero (g : Graph.t) : Prop :=
  Forall (fun e => Edge.flow e = 0) (Graph.get_all_edges g).

(** Sum of the capacities of the edges from [S] to [T]. *)
Definition cut_capacity (g : Graph.t) (S T : list string) : Z :=
  sumZ (fun e => if mem_str (Edge.start_node_id e) S
                    && mem_str (Edge.end_node_id e) T
                 then Edge.capacity e else 0)
       (Graph.get_all_edges g).

Definition total_capacity (g : Graph.t) : Z :=
  sumZ Edge.capacity (Graph.get_all_edges g).

(** ** The effect of [_update_flows] in closed form *)

(** What one residual arc id adds to the flow of the edge stored under [k]. *)
Definition arc_shift (delta : Z) (x k : string) : Z :=
  (if String.eqb x (k ++ "_forward") then delta else 0)
  - (if String.eqb x (k ++ "_backward") then delta else 0).

Definition path_shift (delta : Z) (path : list string) (k : string) : Z :=
  sumZ (fun x => arc_shift delta x k) path.

Definition shift_flows (f : string -> Z) (g : Graph.t) : Graph.t :=
  Graph.mk (Graph.nodes g)
    (map (fun kv => (fst kv, Edge.set_flow (snd kv)
                                (Edge.flow (snd kv) + f (fst kv))))
         (Graph.edges g))
    (Graph.adjacency_list g).

(** [incidence v e] is 1 when [e] leaves [v], -1 when it enters [v]. *)
Definition incidence (v : string) (e : Edge.t) : Z :=
  (if String.eqb (Edge.start_node_id e) v then 1 else 0)
  - (if String.eqb (Edge.end_node_id e) v then 1 else 0).

(** What leaves [v] minus what enters it; at the source, the value of the
    flow. *)
Definition net_out (g : Graph.t) (v : string) : Z := outflow g v - inflow g v.

(** Fuel with which every loop of a computation on [g] comes to its end. *)
Definition fuel_for (g : Graph.t) : nat :=
  (2 * List.length (Graph.get_all_edges g) + 2
   + Z.to_nat (2 * total_capacity g))%nat.

(** ** Building a network by insertions *)

Inductive insertion : Type :=
| AddNode (node_id name : string) (is_source is_sink : bool)
| AddEdge (edge_id start_node_id end_node_id : string) (capacity : Z).

Definition insert (net : FlowNetwork.t) (op : insertion) : outcome FlowNetwork.t :=
  match op with
  | AddNode node_id name is_source is_sink =>
      '(net', _) <- FlowNetwork.add_node net node_id name is_source is_sink ;;
      Ret net'
  | AddEdge edge_id start_node_id end_node_id capacity =>
      '(net', _) <- FlowNetwork.add_edge net edge_id start_node_id end_node_id
                                         capacity ;;
      Ret net'
  end.

(** A fresh [FlowNetwork()] followed by the insertions, in order. *)
Definition build (ops : list insertion) : outcome FlowNetwork.t :=
  net <- FlowNetwork.new ;; for_each insert ops net.

(** The value of an outcome that is known to be one. *)
Definition the {A} (default : A) (o : outcome A) : A :=
  match o with Ret a => a | _ => default end.

Definition no_network : FlowNetwork.t :=
  FordFulkerson.mk Graph.empty Graph.empty.

(** The state of the network after [calculate_max_flow]. *)
Definition after_max_flow (fuel : nat) (net : FlowNetwork.t) : FlowNetwork.t :=
  match FlowNetwork.calculate_max_flow (fun l => l) fuel net with
  | Ret (_, _, _, net') => net'
  | _ => net
  end.

(** ** Example networks *)

(** The chain of the test suite: s -> A -> t with capacities 10 and 5. *)
Definition chain_ops : list insertion :=
  [ AddNode "s" "Source" true false; AddNode "A" "Node A" false false;
    AddNode "t" "Sink" false true;
    AddEdge "e1" "s" "A" 10; AddEdge "e2" "A" "t" 5 ].

Definition chain_net : FlowNetwork.t :=
  Eval vm_compute in the no_network (build chain_ops).

(** The chain after one computation: both edges carry 5. *)
Definition chain_net_solved : FlowNetwork.t :=
  Eval vm_compute in after_max_flow 12 chain_net.

(** Two edges whose ids are [a] and [a_forward]: the residual arc
    [a_forward_forward] of the second decodes to the first. *)
Definition crossed_ops : list insertion :=
  [ AddNode "s" "" true false; AddNode "m" "" false false;
    AddNode "x" "" false false; AddNode "t" "" false true;
    AddEdge "a" "s" "x" 1; AddEdge "a_forward" "s" "m" 5;
    AddEdge "b" "m" "t" 5 ].

Definition crossed_net : FlowNetwork.t :=
  Eval vm_compute in the no_network (build crossed_ops).

Definition crossed_net_solved : FlowNetwork.t :=
  Eval vm_compute in after_max_flow 12 crossed_net.

(** Two parallel edges [e] and [e_forward] from the source to the sink. *)
Definition looping_ops : list insertion :=
  [ AddNode "s" "" true false; AddNode "t" "" false true;
    AddEdge "e" "s" "t" 1; AddEdge "e_forward" "s" "t" 5 ].

Definition looping_net : FlowNetwork.t :=
  Eval vm_compute in the no_network (build looping_ops).

(** The graph of [looping_net] when edge [e] carries [f] and [e_forward]
    carries nothing. *)
Definition looping_graph (f : Z) : Graph.t :=
  Graph.mk (Graph.nodes (FlowNetwork.graph looping_net))
    [ ("e", Edge.mk "e" "s" "t" 1 f);
      ("e_forward", Edge.mk "e_forward" "s" "t" 5 0) ]
    (Graph.adjacency_list (FlowNetwork.graph looping_net)).

(** One node that is flagged as source and as sink. *)
Definition both_roles_ops : list insertion := [ AddNode "A" "Node A" true true ].

Definition both_roles_net : FlowNetwork.t :=
  Eval vm_compute in the no_network (build both_roles_ops).

(** ** Ids that hold no suffix of the solver *)

(** [occurs pat s]: [pat] is a substring of [s]. *)
Fixpoint occurs (pat s : string) : bool :=
  if String.prefix pat s then true
  else match s with
       | EmptyString => false
       | String _ s' => occurs pat s'
       end.

Definition plain_id (id : string) : Prop :=
  occurs "_forward" id = false /\ occurs "_backward" id = false.

(** ** A graph with its flows forgotten *)

Definition zeroed (g : Graph.t) : Graph.t :=
  Graph.mk (Graph.nodes g)
           (map (fun kv => (fst kv, Edge.set_flow (snd kv) 0)) (Graph.edges g))
           (Graph.adjacency_list g).

(** The edges other than the one with a given id. *)
Definition without_edge (edge_id : string) (es : list Edge.t) : list Edge.t :=
  filter (fun e => negb (String.eqb (Edge.id e) edge_id)) es.

(** ** Networks that the public operations build

    Every state that a sequence of calls of the public operations of
    [FlowNetwork] reaches from a fresh network, when the ids given to
    [add_edge] are plain. *)
Inductive reachable : FlowNetwork.t -> Prop :=
| reach_new net :
    FlowNetwork.new = Ret net -> reachable net
| reach_add_node net net' node_id name is_source is_sink node :
    reachable net ->
    FlowNetwork.add_node net node_id name is_source is_sink = Ret (net', node) ->
    reachable net'
| reach_add_edge net net' edge_id start_node_id end_node_id capacity edge :
    reachable net -> plain_id edge_id ->
    FlowNetwork.add_edge net edge_id start_node_id end_node_id capacity
    = Ret (net', edge) ->
    reachable net'
| reach_remove_node net net' node_id :
    reachable net -> FlowNetwork.remove_node net node_id = Ret net' ->
    reachable net'
| reach_remove_edge net net' edge_id :
    reachable net -> FlowNetwork.remove_edge net edge_id = Ret net' ->
    reachable net'
| reach_set_source net net' node_id :
    reachable net -> FlowNetwork.set_node_as_source net node_id = Ret net' ->
    reachable net'
| reach_set_sink net net' node_id :
    reachable net -> FlowNetwork.set_node_as_sink net node_id = Ret net' ->
    reachable net'
| reach_update_capacity net net' edge_id new_capacity :
    reachable net ->
    FlowNetwork.update_edge_capacity net edge_id new_capacity = Ret net' ->
    reachable net'
| reach_reset net :
    reachable net -> reachable (FlowNetwork.reset_flows net)
| reach_max_flow net net' set_order fuel v S T :
    reachable net ->
    FlowNetwork.calculate_max_flow set_order fuel net = Ret (v, S, T, net') ->
    reachable net'.

(** * Vocabulary for the rest of the library *)

(** ** Networks built with any edge ids

    As [reachable], with no condition on the ids given to [add_edge]. *)
Inductive built : FlowNetwork.t -> Prop :=
| built_new net :
    FlowNetwork.new = Ret net -> built net
| built_add_node net net' node_id name is_source is_sink node :
    built net ->
    FlowNetwork.add_node net node_id name is_source is_sink = Ret (net', node) ->
    built net'
| built_add_edge net net' edge_id start_node_id end_node_id capacity edge :
    built net ->
    FlowNetwork.add_edge net edge_id start_node_id end_node_id capacity
    = Ret (net', edge) ->
    built net'
| built_remove_node net net' node_id :
    built net -> FlowNetwork.remove_node net node_id = Ret net' -> built net'
| built_remove_edge net net' edge_id :
    built net -> FlowNetwork.remove_edge net edge_id = Ret net' -> built net'
| built_set_source net net' node_id :
    built net -> FlowNetwork.set_node_as_source net node_id = Ret net' ->
    built net'
| built_set_sink net net' node_id :
    built net -> FlowNetwork.set_node_as_sink net node_id = Ret net' ->
    built net'
| built_update_capacity net net' edge_id new_capacity :
    built net ->
    FlowNetwork.update_edge_capacity net edge_id new_capacity = Ret net' ->
    built net'
| built_reset net :
    built net -> built (FlowNetwork.reset_flows net)
| built_max_flow net net' set_order fuel v S T :
    built net ->
    FlowNetwork.calculate_max_flow set_order fuel net = Ret (v, S, T, net') ->
    built net'.

Definition ends_at (v : string) (e : Edge.t) : bool :=
  String.eqb (Edge.end_node_id e) v.

(** ** Walks along the edges, whatever their capacities *)

Inductive walk (es : list Edge.t) : string -> string -> Prop :=
| walk_stay u : walk es u u
| walk_edge e v :
    In e es -> walk es (Edge.end_node_id e) v ->
    walk es (Edge.start_node_id e) v.

(** ** Flows on a given network *)

(** [g'] is [g] with other flows on its edges. *)
Definition same_network (g g' : Graph.t) : Prop := zeroed g' = zeroed g.

(** ** The search of [validate_network] *)

(** The edges whose start node the search has not expanded. *)
Definition pending (es : list Edge.t) (visited : list string) : list Edge.t :=
  filter (fun e => negb (mem_str (Edge.start_node_id e) visited)) es.

(** What holds of [visited] and [stack] at the head of the loop, in a search
    from [s] for [t]. *)
Record dfs_inv (es : list Edge.t) (s t : string) (visited stack : list string)
  : Prop := mk_dfs_inv
  { dfs_sound : forall x, In x stack -> walk es s x;
    dfs_closed : forall u, In u visited ->
      u <> t /\ forall e, In e es -> Edge.start_node_id e = u ->
                 In (Edge.end_node_id e) visited
                 \/ In (Edge.end_node_id e) stack;
    dfs_source : In s visited \/ In s stack;
    dfs_distinct : NoDup visited }.

(** A set of nodes that no edge leaves. *)
Definition edge_closed (es : list Edge.t) (V : list string) : Prop :=
  forall e, In e es -> In (Edge.start_node_id e) V -> In (Edge.end_node_id e) V.

(** ** The chain, once more *)

(** The solved chain with the capacity of its second edge raised to 10. *)
Definition chain_net_raised : FlowNetwork.t :=
  Eval vm_compute in
    the no_network (FlowNetwork.update_edge_capacity chain_net_solved "e2" 10).

Definition chain_net_raised_solved : FlowNetwork.t :=
  Eval vm_compute in after_max_flow 12 chain_net_raised.

(** ** Paths in the residual graph *)

(** [arc_chain arcs u v l]: the arcs [l], each in [arcs], lead from [u] to
    [v], each starting where the one before it ends. *)
Inductive arc_chain (arcs : list Edge.t) : string -> string -> list Edge.t -> Prop :=
| chain_end u : arc_chain arcs u u []
| chain_arc a v l :
    In a arcs -> arc_chain arcs (Edge.end_node_id a) v l ->
    arc_chain arcs (Edge.start_node_id a) v (a :: l).

(** ** The levels of the breadth-first search *)

(** [depth P s v n]: following the parent dictionary [P] from [v] reaches
    [s] after [n] steps. *)
Inductive depth (P : FordFulkerson.parents) (s : string) : string -> nat -> Prop :=
| depth_source : depth P s s 0
| depth_child v u id n :
    v <> s -> Dict.get P v = Some (u, id) -> depth P s u n ->
    depth P s v (S n).

(** The queue of the search holds nodes of depth [h] (the list [A]) followed
    by nodes of depth [h + 1] (the list [B]); no node seen is deeper; the
    nodes that left the queue are no deeper than [h], and, unless they are
    still being expanded ([busy]), each of their arcs leads to a node seen,
    at most one level down. *)
Record level_inv (arcs : list Edge.t) (s : string) (busy : list string)
    (h : nat) (A B : list string) (st : FordFulkerson.search) : Prop :=
  mk_level_inv
  { lv_queue : FordFulkerson.queue st = A ++ B;
    lv_front : forall v, In v A -> depth (FordFulkerson.parent st) s v h;
    lv_back : forall v, In v B -> depth (FordFulkerson.parent st) s v (S h);
    lv_busy : forall v, In v busy -> depth (FordFulkerson.parent st) s v h;
    lv_all : forall v, In v (FordFulkerson.visited st) ->
      exists n, depth (FordFulkerson.parent st) s v n /\ (n <= S h)%nat;
    lv_done : forall v, In v (FordFulkerson.visited st) ->
      ~ In v (FordFulkerson.queue st) ->
      exists n, depth (FordFulkerson.parent st) s v n /\ (n <= h)%nat;
    lv_arcs : forall a, In a arcs -> Edge.capacity a > 0 ->
      In (Edge.start_node_id a) (FordFulkerson.visited st) ->
      ~ In (Edge.start_node_id a) (FordFulkerson.queue st) ->
      ~ In (Edge.start_node_id a) busy ->
      In (Edge.end_node_id a) (FordFulkerson.visited st)
      /\ forall n m,
           depth (FordFulkerson.parent st) s (Edge.start_node_id a) n ->
           depth (FordFulkerson.parent st) s (Edge.end_node_id a) m ->
           (m <= S n)%nat }.

(** * Numbers as Python computes with them

    [graph.py] annotates [capacity] and [flow] as [float], and Python checks
    no annotation: an edge holds the number it was given, an [int] or a
    [float].  A fresh edge has the float flow [0.0], [reset_flows] stores the
    int [0], and [calculate_max_flow] starts its total from the int [0].
    Ints are exact and unbounded; floats are binary64, so sums and
    differences are rounded and may be infinite or NaN.

    The modules above compute with [Z]: they are the program on integer
    capacities, as long as binary64 represents every number of a run.  That
    is the case when the capacities of a network add up to at most 2^53:
    flows stay between 0 and the capacities, so every sum and difference
    the program forms is an integer of that range, where binary64 is exact
    and agrees with Python's ints.  [exact] is this bound, and [exact_run]
    asks for it along a whole history of calls.  Module [Py] below is the
    numeric part of the program over Python's own numbers; it shows what
    happens outside the bound. *)

Definition exact (g : Graph.t) : Prop := total_capacity g <= 2 ^ 53.

(** As [reachable], when every [add_edge] and every [update_edge_capacity]
    of the history leaves the network within the bound. *)
Inductive exact_run : FlowNetwork.t -> Prop :=
| exact_new net :
    FlowNetwork.new = Ret net -> exact_run net
| exact_add_node net net' node_id name is_source is_sink node :
    exact_run net ->
    FlowNetwork.add_node net node_id name is_source is_sink = Ret (net', node) ->
    exact_run net'
| exact_add_edge net net' edge_id start_node_id end_node_id capacity edge :
    exact_run net -> plain_id edge_id ->
    FlowNetwork.add_edge net edge_id start_node_id end_node_id capacity
    = Ret (net', edge) ->
    exact (FlowNetwork.graph net') ->
    exact_run net'
| exact_remove_node net net' node_id :
    exact_run net -> FlowNetwork.remove_node net node_id = Ret net' ->
    exact_run net'
| exact_remove_edge net net' edge_id :
    exact_run net -> FlowNetwork.remove_edge net edge_id = Ret net' ->
    exact_run net'
| exact_set_source net net' node_id :
    exact_run net -> FlowNetwork.set_node_as_source net node_id = Ret net' ->
    exact_run net'
| exact_set_sink net net' node_id :
    exact_run net -> FlowNetwork.set_node_as_sink net node_id = Ret net' ->
    exact_run net'
| exact_update_capacity net net' edge_id new_capacity :
    exact_run net ->
    FlowNetwork.update_edge_capacity net edge_id new_capacity = Ret net' ->
    exact (FlowNetwork.graph net') ->
    exact_run net'
| exact_reset net :
    exact_run net -> exact_run (FlowNetwork.reset_flows net)
| exact_max_flow net net' set_order fuel v S T :
    exact_run net ->
    FlowNetwork.calculate_max_flow set_order fuel net = Ret (v, S, T, net') ->
    exact_run net'.

Module Py.

(** ** Python's [int] and [float] *)

Module Num.

Inductive t : Type :=
| Int (z : Z)
| Float (f : PrimFloat.float).

(** [float(z)]: the binary64 nearest to [z], ties to even; an int beyond
    the range of binary64 raises OverflowError. *)
Definition float_of_int (z : Z) : outcome PrimFloat.float :=
  match SpecFloat.binary_normalize FloatOps.prec FloatOps.emax z 0 false with
  | SpecFloat.S754_infinity _ => Raise OverflowError
  | x => Ret (FloatOps.SF2Prim x)
  end.

Definition as_float (x : t) : outcome PrimFloat.float :=
  match x with
  | Int z => float_of_int z
  | Float f => Ret f
  end.

(** [x + y] and [x - y]: exact on two ints; otherwise the int operand is
    converted and the operation is that of binary64. *)
Definition add (x y : t) : outcome t :=
  match x, y with
  | Int a, Int b => Ret (Int (a + b))
  | _, _ => a <- as_float x ;; b <- as_float y ;; Ret (Float (PrimFloat.add a b))
  end.

Definition sub (x y : t) : outcome t :=
  match x, y with
  | Int a, Int b => Ret (Int (a - b))
  | _, _ => a <- as_float x ;; b <- as_float y ;; Ret (Float (PrimFloat.sub a b))
  end.

(** Python compares an int with a float by value, without converting: a
    finite float is [m * 2^e] with integers [m] and [e].  [None]: the float
    is NaN, and every comparison with it is false. *)
Definition compare_int_float (z : Z) (f : PrimFloat.float) : option comparison :=
  match FloatOps.Prim2SF f with
  | SpecFloat.S754_nan => None
  | SpecFloat.S754_infinity negative => Some (if negative then Gt else Lt)
  | SpecFloat.S754_zero _ => Some (z ?= 0)
  | SpecFloat.S754_finite negative m e =>
      let v := if negative then Z.neg m else Z.pos m in
      Some (if 0 <=? e then z ?= v * 2 ^ e else z * 2 ^ (- e) ?= v)
  end.

(** [x < y] *)
Definition ltb (x y : t) : bool :=
  match x, y with
  | Int a, Int b => a <? b
  | Float a, Float b => PrimFloat.ltb a b
  | Int a, Float b =>
      match compare_int_float a b with Some Lt => true | _ => false end
  | Float a, Int b =>
      match compare_int_float b a with Some Gt => true | _ => false end
  end.

(** [x > y] *)
Definition gtb (x y : t) : bool := ltb y x.

(** [x == y] *)
Definition eqb (x y : t) : bool :=
  match x, y with
  | Int a, Int b => a =? b
  | Float a, Float b => PrimFloat.eqb a b
  | Int a, Float b | Float b, Int a =>
      match compare_int_float a b with Some Eq => true | _ => false end
  end.

End Num.

(** ** graph.py *)

Module Edge.
Record t : Type := mk
  { id : string; start_node_id : string; end_node_id : string;
    capacity : Num.t; flow : Num.t }.

(** [Edge(id, start, end, capacity, flow)] with its [__post_init__]. *)
Definition new (id start_node_id end_node_id : string) (capacity flow : Num.t)
  : outcome t :=
  if String.eqb id "" then Raise InvalidInputError
  else if Num.ltb capacity (Num.Int 0) then Raise InvalidInputError
  else if Num.ltb flow (Num.Int 0) then Raise InvalidInputError
  else if Num.gtb flow capacity then Raise InvalidInputError
  else Ret (mk id start_node_id end_node_id capacity flow).

Definition residual_capacity (e : t) : outcome Num.t :=
  Num.sub (capacity e) (flow e).

Definition set_flow (e : t) (f : Num.t) : t :=
  mk (id e) (start_node_id e) (end_node_id e) (capacity e) f.
Definition set_capacity (e : t) (c : Num.t) : t :=
  mk (id e) (start_node_id e) (end_node_id e) c (flow e).
End Edge.

Module Graph.
Record t : Type := mk
  { nodes : Dict.t Node.t;
    edges : Dict.t Edge.t;
    adjacency_list : Dict.t (list string) }.

Definition empty : t := mk [] [] [].

Definition add_node (g : t) (node_id name : string) (is_source is_sink : bool)
  : outcome (t * Node.t) :=
  if Dict.mem (nodes g) node_id then Raise InvalidInputError
  else
    node <- Node.new node_id (if String.eqb name "" then node_id else name)
                     is_source is_sink ;;
    Ret (mk (Dict.set (nodes g) node_id node) (edges g)
            (Dict.set (adjacency_list g) node_id []), node).

Definition get_node (g : t) (node_id : string) : outcome Node.t :=
  match Dict.get (nodes g) node_id with
  | None => Raise (NameError "NodeNotFoundError")
  | Some n => Ret n
  end.

Definition get_edge (g : t) (edge_id : string) : outcome Edge.t :=
  match Dict.get (edges g) edge_id with
  | None => Raise (NameError "EdgeNotFoundError")
  | Some e => Ret e
  end.

(** The new edge takes the default flow of the class, the float [0.0]. *)
Definition add_edge (g : t) (edge_id start_node_id end_node_id : string)
    (capacity : Num.t) : outcome (t * Edge.t) :=
  if Dict.mem (edges g) edge_id then Raise InvalidInputError
  else
    _ <- get_node g start_node_id ;;
    _ <- get_node g end_node_id ;;
    if String.eqb start_node_id end_node_id then Raise InvalidInputError
    else
      edge <- Edge.new edge_id start_node_id end_node_id capacity
                       (Num.Float PrimFloat.zero) ;;
      match Dict.get (adjacency_list g) start_node_id with
      | None => Raise (KeyError start_node_id)
      | Some out =>
          Ret (mk (nodes g) (Dict.set (edges g) edge_id edge)
                  (Dict.set (adjacency_list g) start_node_id
                            (out ++ [edge_id])), edge)
      end.

Definition get_edges_from_node (g : t) (node_id : string)
  : outcome (list Edge.t) :=
  match Dict.get (adjacency_list g) node_id with
  | None => Ret []
  | Some out =>
      for_each (fun acc edge_id =>
                  match Dict.get (edges g) edge_id with
                  | None => Raise (KeyError edge_id)
                  | Some e => Ret (acc ++ [e])
                  end) out []
  end.

Definition get_all_nodes (g : t) : list Node.t := Dict.values (nodes g).
Definition get_all_edges (g : t) : list Edge.t := Dict.values (edges g).

Definition get_source_nodes (g : t) : list Node.t :=
  filter Node.is_source (Dict.values (nodes g)).
Definition get_sink_nodes (g : t) : list Node.t :=
  filter Node.is_sink (Dict.values (nodes g)).
End Graph.

(** ** algorithms.py *)

Module FordFulkerson.

Record t : Type := mk { graph : Graph.t; residual_graph : Graph.t }.

Definition copy_node (r : Graph.t) (node : Node.t) : outcome Graph.t :=
  '(r', _) <- Graph.add_node r (Node.id node) (Node.name node)
                             (Node.is_source node) (Node.is_sink node) ;;
  Ret r'.

Definition add_arcs (r : Graph.t) (edge : Edge.t) : outcome Graph.t :=
  residual <- Edge.residual_capacity edge ;;
  r1 <- (if Num.gtb residual (Num.Int 0)
         then '(r', _) <- Graph.add_edge r (Edge.id edge ++ "_forward")%string
                            (Edge.start_node_id edge) (Edge.end_node_id edge)
                            residual ;;
              Ret r'
         else Ret r) ;;
  if Num.gtb (Edge.flow edge) (Num.Int 0)
  then '(r', _) <- Graph.add_edge r1 (Edge.id edge ++ "_backward")%string
                     (Edge.end_node_id edge) (Edge.start_node_id edge)
                     (Edge.flow edge) ;;
       Ret r'
  else Ret r1.

Definition _build_residual_graph (self : t) : outcome t :=
  r1 <- for_each copy_node (Graph.get_all_nodes (graph self))
                 (residual_graph self) ;;
  r2 <- for_each add_arcs (Graph.get_all_edges (graph self)) r1 ;;
  Ret (mk (graph self) r2).

Definition new (graph : Graph.t) : outcome t :=
  _build_residual_graph (mk graph Graph.empty).

Definition parents : Type := Dict.t (string * string).

Record search : Type := mk_search
  { visited : list string; queue : list string; parent : parents }.

Definition visit (current_id : string) (st : search) (edge : Edge.t) : search :=
  let neighbor_id := Edge.end_node_id edge in
  if negb (mem_str neighbor_id (visited st))
     && Num.gtb (Edge.capacity edge) (Num.Int 0)
  then mk_search (neighbor_id :: visited st)
                 (queue st ++ [neighbor_id])
                 (Dict.set (parent st) neighbor_id (current_id, Edge.id edge))
  else st.

Fixpoint _bfs_loop (fuel : nat) (self : t) (sink_id : string) (st : search)
  : outcome (option parents) :=
  match fuel with
  | O => OutOfFuel
  | S fuel' =>
      match queue st with
      | [] => Ret None
      | current_id :: rest =>
          if String.eqb current_id sink_id then Ret (Some (parent st))
          else
            out <- Graph.get_edges_from_node (residual_graph self) current_id ;;
            _bfs_loop fuel' self sink_id
              (fold_left (visit current_id) out
                         (mk_search (visited st) rest (parent st)))
      end
  end.

Definition _bfs (fuel : nat) (self : t) (source_id sink_id : string)
  : outcome (option parents) :=
  _bfs_loop fuel self sink_id (mk_search [source_id] [source_id] []).

(** [min(min_capacity, c)]: the first argument stays unless the second is
    smaller. *)
Definition min_cap (min_capacity c : Num.t) : Num.t :=
  if Num.ltb c min_capacity then c else min_capacity.

Fixpoint _walk_back (fuel : nat) (self : t) (parent : parents)
    (source_id current_id : string) (min_capacity : Num.t)
    (path : list string) : outcome (Num.t * list string) :=
  match fuel with
  | O => OutOfFuel
  | S fuel' =>
      if String.eqb current_id source_id then Ret (min_capacity, path)
      else
        match Dict.get parent current_id with
        | None => Raise (KeyError current_id)
        | Some (prev_id, edge_id) =>
            edge <- Graph.get_edge (residual_graph self) edge_id ;;
            _walk_back fuel' self parent source_id prev_id
                       (min_cap min_capacity (Edge.capacity edge))
                       (path ++ [edge_id])
        end
  end.

(** The minimum starts from [float('inf')]. *)
Definition _find_augmenting_path (fuel : nat) (self : t)
    (source_id sink_id : string) : outcome (option (Num.t * list string)) :=
  found <- _bfs fuel self source_id sink_id ;;
  match found with
  | None => Ret None
  | Some [] => Ret None
  | Some parent =>
      '(min_capacity, path) <-
        _walk_back fuel self parent source_id sink_id
                   (Num.Float PrimFloat.infinity) [] ;;
      Ret (Some (min_capacity, rev path))
  end.

(** [original_edge.flow += delta] and [original_edge.flow -= delta]:
    [op] is the addition or the subtraction. *)
Definition bump (op : Num.t -> Num.t -> outcome Num.t) (g : Graph.t)
    (original_edge_id : string) (delta : Num.t) : outcome Graph.t :=
  original_edge <- Graph.get_edge g original_edge_id ;;
  f <- op (Edge.flow original_edge) delta ;;
  Ret (Graph.mk (Graph.nodes g)
         (Dict.set (Graph.edges g) original_edge_id
                   (Edge.set_flow original_edge f))
         (Graph.adjacency_list g)).

Definition update_one (flow : Num.t) (g : Graph.t) (edge_id : string)
  : outcome Graph.t :=
  if PyStr.endswith edge_id "_forward"
  then bump Num.add g (PyStr.replace edge_id "_forward" "") flow
  else if PyStr.endswith edge_id "_backward"
  then bump Num.sub g (PyStr.replace edge_id "_backward" "") flow
  else Ret g.

Definition _update_flows (self : t) (path : list string) (flow : Num.t)
  : outcome t :=
  g <- for_each (update_one flow) path (graph self) ;;
  Ret (mk g (residual_graph self)).

Fixpoint _augment_loop (n fuel : nat) (self : t) (source_id sink_id : string)
    (max_flow : Num.t) : outcome (Num.t * t) :=
  match n with
  | O => OutOfFuel
  | S n' =>
      self1 <- _build_residual_graph (mk (graph self) Graph.empty) ;;
      result <- _find_augmenting_path fuel self1 source_id sink_id ;;
      match result with
      | None => Ret (max_flow, self1)
      | Some (flow, path) =>
          max_flow' <- Num.add max_flow flow ;;
          self2 <- _update_flows self1 path flow ;;
          _augment_loop n' fuel self2 source_id sink_id max_flow'
      end
  end.

(** [max_flow] starts as the int [0]. *)
Definition calculate_max_flow (fuel : nat) (self : t)
    (source_id sink_id : string) : outcome (Num.t * t) :=
  if negb (Dict.mem (Graph.nodes (graph self)) source_id)
  then Raise (NameError "NodeNotFoundError")
  else if negb (Dict.mem (Graph.nodes (graph self)) sink_id)
  then Raise (NameError "NodeNotFoundError")
  else if String.eqb source_id sink_id then Raise NetworkNotValidError
  else
    source_node <- Graph.get_node (graph self) source_id ;;
    if negb (Node.is_source source_node) then Raise NetworkNotValidError
    else
      sink_node <- Graph.get_node (graph self) sink_id ;;
      if negb (Node.is_sink sink_node) then Raise NetworkNotValidError
      else _augment_loop fuel fuel self source_id sink_id (Num.Int 0).

Definition reach (st : search) (edge : Edge.t) : search :=
  let neighbor_id := Edge.end_node_id edge in
  if negb (mem_str neighbor_id (visited st))
     && Num.gtb (Edge.capacity edge) (Num.Int 0)
  then mk_search (neighbor_id :: visited st) (queue st ++ [neighbor_id])
                 (parent st)
  else st.

Fixpoint _cut_loop (fuel : nat) (self : t) (st : search)
  : outcome (list string) :=
  match fuel with
  | O => OutOfFuel
  | S fuel' =>
      match queue st with
      | [] => Ret (visited st)
      | current_id :: rest =>
          out <- Graph.get_edges_from_node (residual_graph self) current_id ;;
          _cut_loop fuel' self
            (fold_left reach out (mk_search (visited st) rest (parent st)))
      end
  end.

Definition get_min_cut (set_order : list string -> list string) (fuel : nat)
    (self : t) (source_id : string) : outcome (list string * list string) :=
  visited <- _cut_loop fuel self (mk_search [source_id] [source_id] []) ;;
  Ret (set_order visited,
       filter (fun node_id => negb (mem_str node_id visited))
              (Dict.keys (Graph.nodes (graph self)))).

End FordFulkerson.

(** ** flow_network.py *)

Module FlowNetwork.

Definition t : Type := FordFulkerson.t.
Definition graph (self : t) : Graph.t := FordFulkerson.graph self.
Definition with_graph (self : t) (g : Graph.t) : t :=
  FordFulkerson.mk g (FordFulkerson.residual_graph self).

Definition new : outcome t := FordFulkerson.new Graph.empty.

Definition add_node (self : t) (node_id name : string)
    (is_source is_sink : bool) : outcome (t * Node.t) :=
  '(g, node) <- Graph.add_node (graph self) node_id name is_source is_sink ;;
  Ret (with_graph self g, node).

Definition get_source_node (self : t) : outcome Node.t :=
  match Graph.get_source_nodes (graph self) with
  | [] => Raise NetworkNotValidError
  | source :: _ => Ret source
  end.

Definition get_sink_node (self : t) : outcome Node.t :=
  match Graph.get_sink_nodes (graph self) with
  | [] => Raise NetworkNotValidError
  | sink :: _ => Ret sink
  end.

Definition add_edge (self : t) (edge_id start_node_id end_node_id : string)
    (capacity : Num.t) : outcome (t * Edge.t) :=
  '(g, edge) <- Graph.add_edge (graph self) edge_id start_node_id
                               end_node_id capacity ;;
  Ret (with_graph self g, edge).

Definition get_edge (self : t) (edge_id : string) : outcome Edge.t :=
  Graph.get_edge (graph self) edge_id.

Definition update_edge_capacity (self : t) (edge_id : string)
    (new_capacity : Num.t) : outcome t :=
  edge <- get_edge self edge_id ;;
  if Num.ltb new_capacity (Edge.flow edge) then Raise InvalidInputError
  else Ret (with_graph self
              (Graph.mk (Graph.nodes (graph self))
                 (Dict.set (Graph.edges (graph self)) edge_id
                           (Edge.set_capacity edge new_capacity))
                 (Graph.adjacency_list (graph self)))).

Definition calculate_max_flow (set_order : list string -> list string)
    (fuel : nat) (self : t)
  : outcome (Num.t * list string * list string * t) :=
  source <- get_source_node self ;;
  sink <- get_sink_node self ;;
  '(max_flow, self') <-
    FordFulkerson.calculate_max_flow fuel self (Node.id source) (Node.id sink) ;;
  '(cut_S, cut_T) <-
    FordFulkerson.get_min_cut set_order fuel self' (Node.id source) ;;
  Ret (max_flow, cut_S, cut_T, self').

(** [edge.flow = 0]: the int, not the float of a fresh edge. *)
Definition reset_flows (self : t) : t :=
  with_graph self
    (Graph.mk (Graph.nodes (graph self))
              (map (fun kv => (fst kv, Edge.set_flow (snd kv) (Num.Int 0)))
                   (Graph.edges (graph self)))
              (Graph.adjacency_list (graph self))).

Fixpoint _reach_sink (fuel : nat) (self : t) (sink_id : string)
    (visited stack : list string) : outcome bool :=
  match fuel with
  | O => OutOfFuel
  | S fuel' =>
      match stack with
      | [] => Ret false
      | current_id :: rest =>
          if String.eqb current_id sink_id then Ret true
          else if negb (mem_str current_id visited)
          then
            out <- Graph.get_edges_from_node (graph self) current_id ;;
            _reach_sink fuel' self sink_id (current_id :: visited)
              (fold_left (fun stack edge => Edge.end_node_id edge :: stack)
                         out rest)
          else _reach_sink fuel' self sink_id visited rest
      end
  end.

Definition validate_network (fuel : nat) (self : t) : outcome bool :=
  let sources := Graph.get_source_nodes (graph self) in
  let sinks := Graph.get_sink_nodes (graph self) in
  match sources, sinks with
  | [source], [sink] =>
      _reach_sink fuel self (Node.id sink) [] [Node.id source]
  | _, _ => Ret false
  end.

End FlowNetwork.

(** ** Building a network by insertions *)

Inductive insertion : Type :=
| AddNode (node_id name : string) (is_source is_sink : bool)
| AddEdge (edge_id start_node_id end_node_id : string) (capacity : Num.t).

Definition insert (net : FlowNetwork.t) (op : insertion) : outcome FlowNetwork.t :=
  match op with
  | AddNode node_id name is_source is_sink =>
      '(net', _) <- FlowNetwork.add_node net node_id name is_source is_sink ;;
      Ret net'
  | AddEdge edge_id start_node_id end_node_id capacity =>
      '(net', _) <- FlowNetwork.add_edge net edge_id start_node_id end_node_id
                                         capacity ;;
      Ret net'
  end.

Definition build (ops : list insertion) : outcome FlowNetwork.t :=
  net <- FlowNetwork.new ;; for_each insert ops net.

(** The flows of a network, by edge id. *)
Definition flows (net : FlowNetwork.t) : list (string * Num.t) :=
  map (fun kv => (fst kv, Edge.flow (snd kv)))
      (Graph.edges (FlowNetwork.graph net)).

(** What [calculate_max_flow] returns, and the flows it leaves. *)
Definition run (set_order : list string -> list string) (fuel : nat)
    (net : FlowNetwork.t)
  : outcome (Num.t * list string * list string * list (string * Num.t)) :=
  '(max_flow, cut_S, cut_T, net') <-
    FlowNetwork.calculate_max_flow set_order fuel net ;;
  Ret (max_flow, cut_S, cut_T, flows net').

(** The edges that lead from a node of [S] to a node of [T]. *)
Definition crossing (net : FlowNetwork.t) (S T : list string) : list Edge.t :=
  filter (fun e => mem_str (Edge.start_node_id e) S
                   && mem_str (Edge.end_node_id e) T)
         (Graph.get_all_edges (FlowNetwork.graph net)).

(** ** Example networks *)

Import PrimFloat.
#[local] Set Warnings "-inexact-float".


(** Capacities with one decimal: s -> a of 0.9, then a -> t of 0.3 beside
    a -> b -> t of 5 and 5. *)
Definition tenths_ops : list insertion :=
  [ AddNode "s" "" true false; AddNode "a" "" false false;
    AddNode "b" "" false false; AddNode "t" "" false true;
    AddEdge "e1" "s" "a" (Num.Float 0.9%float);
    AddEdge "e2" "a" "t" (Num.Float 0.3%float);
    AddEdge "e3" "a" "b" (Num.Int 5); AddEdge "e4" "b" "t" (Num.Int 5) ].

(** The chain of the test suite, with its int capacities. *)
Definition chain_ops : list insertion :=
  [ AddNode "s" "Source" true false; AddNode "A" "Node A" false false;
    AddNode "t" "Sink" false true;
    AddEdge "e1" "s" "A" (Num.Int 10); AddEdge "e2" "A" "t" (Num.Int 5) ].

End Py.

(** * Lemmas *)

(** * Strings *)

Lemma length_append (x y : string) :
  String.length (x ++ y) = (String.length x + String.length y)%nat.
Proof. induction x as [|c x IH]; simpl; [reflexivity | now rewrite IH]. Qed.

Lemma append_assoc (x y z : string) : ((x ++ y) ++ z = x ++ (y ++ z))%string.
Proof. induction x as [|c x IH]; simpl; [reflexivity | now rewrite IH]. Qed.

(** Two ways of cutting one string before suffixes of equal length agree. *)
Lemma append_same_length (x y a b : string) :
  (x ++ a = y ++ b)%string -> String.length a = String.length b ->
  x = y /\ a = b.
Proof.
  revert y; induction x as [|c x IH]; intros [|d y] H L; simpl in H.
  - now split.
  - exfalso. apply (f_equal String.length) in H. simpl in H.
    rewrite length_append in H. lia.
  - exfalso. apply (f_equal String.length) in H. simpl in H.
    rewrite length_append in H. lia.
  - injection H as -> H. destruct (IH _ H L) as [-> ->]. now split.
Qed.

Lemma forward_id_inj (x y : string) :
  (x ++ "_forward" = y ++ "_forward")%string -> x = y.
Proof. intros H. now apply append_same_length in H. Qed.

Lemma backward_id_inj (x y : string) :
  (x ++ "_backward" = y ++ "_backward")%string -> x = y.
Proof. intros H. now apply append_same_length in H. Qed.

Lemma forward_backward_ids (x y : string) :
  (x ++ "_forward")%string <> (y ++ "_backward")%string.
Proof.
  intros H.
  change "_backward" with ("_" ++ "backward")%string in H.
  rewrite <- append_assoc in H.
  apply append_same_length in H; [|reflexivity].
  destruct H as [_ H]. discriminate H.
Qed.

Lemma endswith_cons (c : ascii) (s suffix : string) :
  PyStr.endswith (String c s) suffix =
  if String.eqb (String c s) suffix then true else PyStr.endswith s suffix.
Proof. reflexivity. Qed.

Lemma endswith_refl (s : string) : PyStr.endswith s s = true.
Proof.
  destruct s; [reflexivity|]. now rewrite endswith_cons, String.eqb_refl.
Qed.

Lemma endswith_append (x suffix : string) :
  PyStr.endswith (x ++ suffix) suffix = true.
Proof.
  induction x as [|c x IH].
  - apply endswith_refl.
  - change (String c x ++ suffix)%string with (String c (x ++ suffix)).
    rewrite endswith_cons, IH. now destruct (String.eqb _ _).
Qed.

Lemma endswith_split (s suffix : string) :
  PyStr.endswith s suffix = true -> exists p, s = (p ++ suffix)%string.
Proof.
  induction s as [|c s IH].
  - destruct suffix; [exists ""; reflexivity | discriminate].
  - rewrite endswith_cons.
    destruct (String.eqb_spec (String c s) suffix) as [<-|_].
    + intros _. now exists "".
    + intros H. destruct (IH H) as [p ->]. now exists (String c p).
Qed.

Lemma backward_not_forward (x : string) :
  PyStr.endswith (x ++ "_backward") "_forward" = false.
Proof.
  destruct (PyStr.endswith _ _) eqn:E; [|reflexivity].
  apply endswith_split in E. destruct E as [p E].
  symmetry in E. now apply forward_backward_ids in E.
Qed.

(** * Membership *)

Lemma mem_str_In (x : string) (l : list string) : mem_str x l = true <-> In x l.
Proof.
  unfold mem_str. rewrite existsb_exists. split.
  - intros (y & Hy & E). apply String.eqb_eq in E. now subst.
  - intros H. exists x. split; [assumption | apply String.eqb_refl].
Qed.

Lemma mem_str_not_In (x : string) (l : list string) :
  mem_str x l = false <-> ~ In x l.
Proof.
  rewrite <- mem_str_In. destruct (mem_str x l); split; congruence.
Qed.

(** * Dictionaries *)

Section DictFacts.
Context {V : Type}.
Implicit Types (d : Dict.t V) (k : string) (v : V).

Lemma get_In d k v : Dict.get d k = Some v -> In (k, v) d.
Proof.
  induction d as [|[k' v'] d IH]; simpl; [discriminate|].
  destruct (String.eqb_spec k' k) as [->|_].
  - intros [= ->]. now left.
  - intros H. right. auto.
Qed.

Lemma get_None d k : Dict.get d k = None <-> ~ In k (Dict.keys d).
Proof.
  induction d as [|[k' v'] d IH]; simpl; [tauto|].
  destruct (String.eqb_spec k' k) as [->|N].
  - split; [discriminate | intros H; exfalso; auto].
  - rewrite IH. tauto.
Qed.

Lemma get_Some_key d k v : Dict.get d k = Some v -> In k (Dict.keys d).
Proof. intros H. apply get_In in H. now apply (in_map fst) in H. Qed.

Lemma mem_In d k : Dict.mem d k = true <-> In k (Dict.keys d).
Proof.
  unfold Dict.mem. destruct (Dict.get d k) eqn:E.
  - apply get_Some_key in E. tauto.
  - apply get_None in E. split; [discriminate | tauto].
Qed.

Lemma mem_not_In d k : Dict.mem d k = false <-> ~ In k (Dict.keys d).
Proof. rewrite <- mem_In. destruct (Dict.mem d k); split; congruence. Qed.

Lemma In_get d k v : NoDup (Dict.keys d) -> In (k, v) d -> Dict.get d k = Some v.
Proof.
  induction d as [|[k' v'] d IH]; simpl; [tauto|].
  intros ND [E|H].
  - injection E as -> ->. now rewrite String.eqb_refl.
  - inversion ND as [|? ? N ND']; subst.
    destruct (String.eqb_spec k' k) as [->|_]; [|auto].
    exfalso. apply N. now apply (in_map fst) in H.
Qed.

(** A new key goes to the end. *)
Lemma set_new d k v : ~ In k (Dict.keys d) -> Dict.set d k v = d ++ [(k, v)].
Proof.
  induction d as [|[k' v'] d IH]; simpl; [reflexivity|].
  intros N. destruct (String.eqb_spec k' k) as [->|_]; [tauto|].
  rewrite IH; tauto.
Qed.

Lemma keys_set_old d k v : In k (Dict.keys d) -> Dict.keys (Dict.set d k v) = Dict.keys d.
Proof.
  induction d as [|[k' v'] d IH]; simpl; [tauto|].
  destruct (String.eqb_spec k' k) as [->|N]; [reflexivity|].
  intros [E|H]; [congruence|]. simpl. f_equal. auto.
Qed.

Lemma get_app_Some d d' k v : Dict.get d k = Some v -> Dict.get (d ++ d') k = Some v.
Proof.
  induction d as [|[k' v'] d IH]; simpl; [discriminate|].
  destruct (String.eqb k' k); auto.
Qed.

Lemma get_app_None d d' k : Dict.get d k = None -> Dict.get (d ++ d') k = Dict.get d' k.
Proof.
  induction d as [|[k' v'] d IH]; simpl; [reflexivity|].
  destruct (String.eqb k' k); [discriminate | auto].
Qed.

Lemma keys_app d d' : Dict.keys (d ++ d') = Dict.keys d ++ Dict.keys d'.
Proof. apply map_app. Qed.

End DictFacts.

Lemma keys_index_edges (es : list Edge.t) : Dict.keys (index_edges es) = map Edge.id es.
Proof. unfold Dict.keys, index_edges. rewrite map_map. reflexivity. Qed.

Lemma values_index_edges (es : list Edge.t) : Dict.values (index_edges es) = es.
Proof. unfold Dict.values, index_edges. rewrite map_map. simpl. apply map_id. Qed.

Lemma index_edges_app (es es' : list Edge.t) :
  index_edges (es ++ es') = index_edges es ++ index_edges es'.
Proof. apply map_app. Qed.

Lemma get_index_edges (es : list Edge.t) (e : Edge.t) :
  NoDup (map Edge.id es) -> In e es -> Dict.get (index_edges es) (Edge.id e) = Some e.
Proof.
  intros ND H. apply In_get.
  - now rewrite keys_index_edges.
  - unfold index_edges. apply in_map_iff. now exists e.
Qed.

Lemma out_ids_app (es es' : list Edge.t) (u : string) :
  out_ids (es ++ es') u = out_ids es u ++ out_ids es' u.
Proof. unfold out_ids. now rewrite filter_app, map_app. Qed.

(** ** Adjacency index *)

Lemma get_adjacency (ns : Dict.t Node.t) (f : string -> list string) (u : string) :
  In u (Dict.keys ns) ->
  Dict.get (map (fun kn => (fst kn, f (fst kn))) ns) u = Some (f u).
Proof.
  induction ns as [|[k n] ns IH]; simpl; [tauto|].
  destruct (String.eqb_spec k u) as [->|N]; [reflexivity|].
  intros [E|H]; [congruence | auto].
Qed.

Lemma get_adjacency_None (ns : Dict.t Node.t) (f : string -> list string) (u : string) :
  ~ In u (Dict.keys ns) ->
  Dict.get (map (fun kn => (fst kn, f (fst kn))) ns) u = None.
Proof.
  intros H. apply get_None. unfold Dict.keys in *. rewrite map_map. exact H.
Qed.

Lemma set_adjacency (ns : Dict.t Node.t) (f f' : string -> list string)
    (u : string) :
  NoDup (Dict.keys ns) ->
  In u (Dict.keys ns) ->
  (forall k, k <> u -> f' k = f k) ->
  Dict.set (map (fun kn => (fst kn, f (fst kn))) ns) u (f' u)
  = map (fun kn => (fst kn, f' (fst kn))) ns.
Proof.
  intros ND Hin Hf. induction ns as [|[k n] ns IH]; simpl in *; [tauto|].
  inversion ND as [|? ? Hk ND']; subst.
  destruct (String.eqb_spec k u) as [->|N].
  - f_equal. apply map_ext_in. intros [k' n'] Hk'. simpl.
    rewrite Hf; [reflexivity|]. intros ->. apply Hk.
    now apply (in_map fst) in Hk'.
  - rewrite (Hf k) by assumption. f_equal.
    destruct Hin as [E|Hin]; [congruence|]. now apply IH.
Qed.

(** ** Copying the nodes *)

Lemma copy_node_graph_of (pre : Dict.t Node.t) (k : string) (n : Node.t) :
  ~ In k (Dict.keys pre) -> node_ok (k, n) ->
  FordFulkerson.copy_node (graph_of pre []) n = Ret (graph_of (pre ++ [(k, n)]) []).
Proof.
  intros Hk (Hid & Hne & Hname). simpl in Hid, Hne, Hname.
  unfold FordFulkerson.copy_node, Graph.add_node. simpl Graph.nodes.
  rewrite Hid.
  apply mem_not_In in Hk as Hmem. rewrite Hmem.
  apply String.eqb_neq in Hname as Hn. rewrite Hn.
  unfold Node.new. apply String.eqb_neq in Hne as Hk0. rewrite Hk0, Hn.
  simpl. unfold graph_of. f_equal. f_equal.
  - rewrite set_new by assumption. destruct n; simpl in *. now subst.
  - rewrite set_new.
    + now rewrite map_app.
    + unfold Dict.keys. now rewrite map_map.
Qed.

Lemma copy_nodes_graph_of (rest pre : Dict.t Node.t) :
  NoDup (Dict.keys (pre ++ rest)) -> Forall node_ok rest ->
  for_each FordFulkerson.copy_node (Dict.values rest) (graph_of pre [])
  = Ret (graph_of (pre ++ rest) []).
Proof.
  revert pre. induction rest as [|[k n] rest IH]; intros pre ND F; simpl.
  - now rewrite app_nil_r.
  - inversion F as [|? ? Hn F']; subst.
    rewrite (copy_node_graph_of pre k n); [simpl| |assumption].
    + change ((k, n) :: rest) with ([(k, n)] ++ rest) in *.
      rewrite app_assoc in *. now apply IH.
    + rewrite keys_app in ND. simpl in ND. now apply NoDup_remove_2 in ND
      as H; intros Hk; apply H; apply in_or_app; left.
Qed.

(** ** Adding one arc *)

Lemma add_edge_graph_of (ns : Dict.t Node.t) (acc : list Edge.t)
    (id u v : string) (c : Z) :
  NoDup (Dict.keys ns) ->
  ~ In id (map Edge.id acc) -> id <> "" ->
  In u (Dict.keys ns) -> In v (Dict.keys ns) -> u <> v -> 0 <= c ->
  Graph.add_edge (graph_of ns acc) id u v c
  = Ret (graph_of ns (acc ++ [Edge.mk id u v c 0]), Edge.mk id u v c 0).
Proof.
  intros ND Hid Hne Hu Hv Huv Hc.
  unfold Graph.add_edge. simpl Graph.edges.
  assert (Hmem : Dict.mem (index_edges acc) id = false).
  { apply mem_not_In. now rewrite keys_index_edges. }
  rewrite Hmem. unfold Graph.get_node. simpl Graph.nodes.
  destruct (Dict.get ns u) eqn:Eu; [|apply get_None in Eu; tauto].
  destruct (Dict.get ns v) eqn:Ev; [|apply get_None in Ev; tauto].
  cbn [bind].
  apply String.eqb_neq in Huv as Huv'. rewrite Huv'.
  unfold Edge.new. apply String.eqb_neq in Hne as Hne'. rewrite Hne'.
  assert ((c <? 0) = false) as -> by lia.
  assert ((0 >? c) = false) as -> by lia.
  cbn [bind Z.ltb Z.compare graph_of Graph.adjacency_list].
  rewrite get_adjacency by assumption.
  unfold graph_of. f_equal. f_equal. f_equal.
  - rewrite set_new by now rewrite keys_index_edges.
    now rewrite index_edges_app.
  - replace (out_ids acc u ++ [id])
      with ((fun k => out_ids (acc ++ [Edge.mk id u v c 0]) k) u).
    + apply set_adjacency; [assumption..|].
      intros k Hk. rewrite out_ids_app. unfold out_ids at 2. simpl.
      unfold starts_at. simpl. apply String.eqb_neq in Hk.
      rewrite String.eqb_sym, Hk. apply app_nil_r.
    + rewrite out_ids_app. unfold out_ids at 2. simpl. unfold starts_at. simpl.
      now rewrite String.eqb_refl.
Qed.

(** ** The arcs of one edge, and of all edges *)

Lemma append_not_empty (x y : string) : y <> "" -> (x ++ y)%string <> "".
Proof.
  intros Hy H. apply (f_equal String.length) in H.
  rewrite length_append in H. destruct y; [congruence | simpl in H; lia].
Qed.

Lemma NoDup_snoc_two {A} (l : list A) (x y : A) :
  NoDup (l ++ [x; y]) -> ~ In x l /\ ~ In y (l ++ [x]).
Proof.
  intros H. apply NoDup_remove in H as [H1 H2]. split.
  - intros Hx. apply H2. apply in_or_app. now left.
  - apply NoDup_remove_2 in H1. rewrite app_nil_r in H1.
    intros Hy. apply in_app_or in Hy as [Hy|[->|[]]]; [tauto|].
    apply H2. apply in_or_app. right. now left.
Qed.

Lemma NoDup_snoc_one {A} (l : list A) (x : A) : NoDup (l ++ [x]) -> ~ In x l.
Proof. intros H. apply NoDup_remove_2 in H. now rewrite app_nil_r in H. Qed.

Lemma add_arcs_graph_of (ns : Dict.t Node.t) (acc : list Edge.t) (e : Edge.t) :
  NoDup (Dict.keys ns) -> edge_ok ns e ->
  NoDup (map Edge.id (acc ++ arcs_of e)) ->
  FordFulkerson.add_arcs (graph_of ns acc) e = Ret (graph_of ns (acc ++ arcs_of e)).
Proof.
  intros ND (Hu & Hv & Huv) Hids.
  assert (Hf : (Edge.id e ++ "_forward")%string <> "")
    by (apply append_not_empty; discriminate).
  assert (Hb : (Edge.id e ++ "_backward")%string <> "")
    by (apply append_not_empty; discriminate).
  rewrite map_app in Hids.
  unfold FordFulkerson.add_arcs, arcs_of in *.
  destruct (Edge.residual_capacity e >? 0) eqn:Er;
    destruct (Edge.flow e >? 0) eqn:Ef; simpl in Hids; simpl app.
  - apply NoDup_snoc_two in Hids as [H1 H2].
    rewrite add_edge_graph_of; try assumption; try lia.
    cbn [bind]. fold (forward_arc e).
    rewrite add_edge_graph_of; try assumption; try lia; try congruence.
    + cbn [bind]. fold (backward_arc e). now rewrite <- app_assoc.
    + now rewrite map_app.
  - apply NoDup_snoc_one in Hids.
    rewrite add_edge_graph_of; try assumption; try lia. reflexivity.
  - apply NoDup_snoc_one in Hids. cbn [bind].
    rewrite add_edge_graph_of; try assumption; try lia; try congruence.
    reflexivity.
  - now rewrite app_nil_r.
Qed.

Lemma add_all_arcs_graph_of (ns : Dict.t Node.t) (es acc : list Edge.t) :
  NoDup (Dict.keys ns) -> Forall (edge_ok ns) es ->
  NoDup (map Edge.id (acc ++ residual_arcs es)) ->
  for_each FordFulkerson.add_arcs es (graph_of ns acc)
  = Ret (graph_of ns (acc ++ residual_arcs es)).
Proof.
  intros ND. revert acc. induction es as [|e es IH]; intros acc F Hids; simpl.
  - now rewrite app_nil_r.
  - inversion F as [|? ? He F']; subst. simpl in Hids.
    rewrite app_assoc in Hids.
    rewrite add_arcs_graph_of; try assumption.
    + cbn [bind]. rewrite IH by assumption. now rewrite <- app_assoc.
    + rewrite map_app in Hids. now apply NoDup_app_remove_r in Hids.
Qed.

(** The ids of the residual arcs are pairwise different. *)

Lemma arcs_of_ids (e : Edge.t) (x : string) :
  In x (map Edge.id (arcs_of e)) ->
  x = (Edge.id e ++ "_forward")%string \/ x = (Edge.id e ++ "_backward")%string.
Proof.
  unfold arcs_of.
  destruct (Edge.residual_capacity e >? 0), (Edge.flow e >? 0); simpl; intuition.
Qed.

Lemma arcs_of_ids_NoDup (e : Edge.t) : NoDup (map Edge.id (arcs_of e)).
Proof.
  unfold arcs_of.
  destruct (Edge.residual_capacity e >? 0), (Edge.flow e >? 0); simpl;
    repeat constructor; simpl; try tauto.
  intros [H|[]]. symmetry in H. now apply forward_backward_ids in H.
Qed.

Lemma residual_arcs_ids (es : list Edge.t) (x : string) :
  In x (map Edge.id (residual_arcs es)) ->
  exists e, In e es /\
    (x = (Edge.id e ++ "_forward")%string \/ x = (Edge.id e ++ "_backward")%string).
Proof.
  unfold residual_arcs. rewrite in_map_iff. intros (a & <- & Ha).
  apply in_flat_map in Ha. destruct Ha as (e & He & Ha).
  exists e. split; [assumption|]. apply arcs_of_ids. now apply in_map.
Qed.

Lemma residual_arcs_ids_NoDup (es : list Edge.t) :
  NoDup (map Edge.id es) -> NoDup (map Edge.id (residual_arcs es)).
Proof.
  induction es as [|e es IH]; simpl; [constructor|].
  intros ND. inversion ND as [|? ? Hn ND']; subst.
  rewrite map_app. apply NoDup_app; [apply arcs_of_ids_NoDup | auto |].
  intros x Hx Hx'. apply arcs_of_ids in Hx.
  apply residual_arcs_ids in Hx'. destruct Hx' as (e' & He' & Hx').
  assert (Edge.id e = Edge.id e') as E.
  { destruct Hx as [-> | ->], Hx' as [H | H].
    - now apply forward_id_inj in H.
    - now apply forward_backward_ids in H.
    - symmetry in H. now apply forward_backward_ids in H.
    - now apply backward_id_inj in H. }
  apply Hn. rewrite E. now apply in_map.
Qed.

(** ** Building the residual graph *)

Lemma build_residual_graph_of (g : Graph.t) :
  graph_wf g ->
  FordFulkerson._build_residual_graph (FordFulkerson.mk g Graph.empty)
  = Ret (FordFulkerson.mk g (residual_of g)).
Proof.
  intros [ND Hn Hids He _].
  unfold FordFulkerson._build_residual_graph. simpl.
  change Graph.empty with (graph_of [] []).
  unfold Graph.get_all_nodes.
  rewrite copy_nodes_graph_of by assumption. cbn [bind app].
  rewrite add_all_arcs_graph_of; try assumption.
  - reflexivity.
  - simpl. now apply residual_arcs_ids_NoDup.
Qed.

(** ** Looking things up in [graph_of] *)

Lemma collect_edges (es l acc : list Edge.t) :
  NoDup (map Edge.id es) -> incl l es ->
  for_each (fun acc edge_id =>
              match Dict.get (index_edges es) edge_id with
              | None => Raise (KeyError edge_id)
              | Some e => Ret (acc ++ [e])
              end) (map Edge.id l) acc
  = Ret (acc ++ l).
Proof.
  intros ND. revert acc. induction l as [|e l IH]; intros acc Hl; simpl.
  - now rewrite app_nil_r.
  - rewrite get_index_edges; [|assumption|apply Hl; now left].
    cbn [bind]. rewrite IH.
    + now rewrite <- app_assoc.
    + intros x Hx. apply Hl. now right.
Qed.

Lemma get_edges_from_node_graph_of (ns : Dict.t Node.t) (es : list Edge.t)
    (u : string) :
  NoDup (map Edge.id es) ->
  (forall e, In e es -> In (Edge.start_node_id e) (Dict.keys ns)) ->
  Graph.get_edges_from_node (graph_of ns es) u = Ret (filter (starts_at u) es).
Proof.
  intros ND Hs. unfold Graph.get_edges_from_node. simpl.
  destruct (in_dec string_dec u (Dict.keys ns)) as [Hu|Hu].
  - rewrite get_adjacency by assumption. unfold out_ids.
    rewrite collect_edges; [reflexivity | assumption |].
    intros x Hx. now apply filter_In in Hx.
  - rewrite get_adjacency_None by assumption.
    symmetry. f_equal.
    induction es as [|e es IH]; simpl; [reflexivity|].
    inversion ND; subst.
    unfold starts_at at 1. destruct (String.eqb_spec (Edge.start_node_id e) u) as [E|_].
    + exfalso. apply Hu. rewrite <- E. apply Hs. now left.
    + apply IH; [assumption|]. intros e' He'. apply Hs. now right.
Qed.

Lemma get_edge_graph_of (ns : Dict.t Node.t) (es : list Edge.t) (e : Edge.t) :
  NoDup (map Edge.id es) -> In e es ->
  Graph.get_edge (graph_of ns es) (Edge.id e) = Ret e.
Proof.
  intros ND He. unfold Graph.get_edge. simpl. now rewrite get_index_edges.
Qed.

(** ** What the residual arcs are *)

Lemma in_residual_arcs (es : list Edge.t) (a : Edge.t) :
  In a (residual_arcs es) <->
  exists e, In e es /\
    ((a = forward_arc e /\ Edge.residual_capacity e > 0)
     \/ (a = backward_arc e /\ Edge.flow e > 0)).
Proof.
  unfold residual_arcs. rewrite in_flat_map. split.
  - intros (e & He & Ha). exists e. split; [assumption|].
    unfold arcs_of in Ha. apply in_app_or in Ha as [Ha|Ha].
    + destruct (Edge.residual_capacity e >? 0) eqn:E; [|destruct Ha].
      destruct Ha as [<-|[]]. left. split; [reflexivity | lia].
    + destruct (Edge.flow e >? 0) eqn:E; [|destruct Ha].
      destruct Ha as [<-|[]]. right. split; [reflexivity | lia].
  - intros (e & He & H). exists e. split; [assumption|].
    unfold arcs_of. apply in_or_app.
    destruct H as [[-> H]|[-> H]]; [left|right].
    + assert ((Edge.residual_capacity e >? 0) = true) as -> by lia. now left.
    + assert ((Edge.flow e >? 0) = true) as -> by lia. now left.
Qed.

Lemma residual_arc_positive (es : list Edge.t) (a : Edge.t) :
  In a (residual_arcs es) -> Edge.capacity a > 0.
Proof.
  intros H. apply in_residual_arcs in H as (e & _ & [[-> H]|[-> H]]); exact H.
Qed.

Lemma residual_arc_start (ns : Dict.t Node.t) (es : list Edge.t) (a : Edge.t) :
  Forall (edge_ok ns) es -> In a (residual_arcs es) ->
  In (Edge.start_node_id a) (Dict.keys ns).
Proof.
  intros F H. apply in_residual_arcs in H as (e & He & H).
  rewrite Forall_forall in F. destruct (F e He) as (Hu & Hv & _).
  destruct H as [[-> _]|[-> _]]; assumption.
Qed.

Section Search.
Variable self : FordFulkerson.t.
Variable arcs : list Edge.t.
Variables s t : string.
Local Abbreviation search := FordFulkerson.search.
Local Abbreviation visit := FordFulkerson.visit.
Local Abbreviation visited := FordFulkerson.visited.
Local Abbreviation queue := FordFulkerson.queue.
Local Abbreviation parent := FordFulkerson.parent.
Local Abbreviation mk_search := FordFulkerson.mk_search.

Hypothesis Hout : forall u,
  Graph.get_edges_from_node (FordFulkerson.residual_graph self) u
  = Ret (filter (starts_at u) arcs).

Lemma visit_old (cur : string) (st : search) (a : Edge.t) :
  In (Edge.end_node_id a) (visited st) \/ Edge.capacity a <= 0 ->
  visit cur st a = st.
Proof.
  intros H. unfold visit.
  destruct (mem_str _ _) eqn:E; [reflexivity|]. simpl.
  apply mem_str_not_In in E. destruct H as [H|H]; [tauto|].
  now assert ((Edge.capacity a >? 0) = false) as -> by lia.
Qed.

Lemma visit_new (cur : string) (st : search) (a : Edge.t) :
  ~ In (Edge.end_node_id a) (visited st) -> Edge.capacity a > 0 ->
  visit cur st a
  = mk_search (Edge.end_node_id a :: visited st)
              (queue st ++ [Edge.end_node_id a])
              (Dict.set (parent st) (Edge.end_node_id a) (cur, Edge.id a)).
Proof.
  intros H C. unfold visit. apply mem_str_not_In in H. rewrite H.
  now assert ((Edge.capacity a >? 0) = true) as -> by lia.
Qed.

Lemma visit_dec (st : search) (a : Edge.t) :
  {In (Edge.end_node_id a) (visited st) \/ Edge.capacity a <= 0}
  + {~ In (Edge.end_node_id a) (visited st) /\ Edge.capacity a > 0}.
Proof.
  destruct (in_dec string_dec (Edge.end_node_id a) (visited st)).
  - left. now left.
  - destruct (Z_le_gt_dec (Edge.capacity a) 0); [left | right]; tauto.
Qed.

Lemma visit_inv (st : search) (a : Edge.t) :
  search_inv arcs s st -> In a arcs ->
  In (Edge.start_node_id a) (visited st) ->
  search_inv arcs s (visit (Edge.start_node_id a) st a).
Proof.
  intros [Hv Hq Hqv Hk Hp] Ha Hcur.
  destruct (visit_dec st a) as [H|[Hn Hc]].
  - rewrite visit_old by assumption. now constructor.
  - rewrite visit_new by assumption.
    assert (Hkey : ~ In (Edge.end_node_id a) (Dict.keys (parent st))).
    { intros H. apply Hn. apply Hk. now right. }
    assert (Hs : Edge.end_node_id a <> s).
    { intros H. apply Hn. apply Hk. now left. }
    rewrite set_new by assumption.
    constructor; simpl.
    + now constructor.
    + apply NoDup_app; [assumption | repeat constructor; simpl; tauto |].
      intros x Hx [<-|[]]. apply Hn. now apply Hqv.
    + intros x Hx. apply in_app_or in Hx as [Hx|[<-|[]]].
      * right. now apply Hqv.
      * now left.
    + intros x. rewrite keys_app, in_app_iff. simpl. rewrite Hk.
      intuition congruence.
    + apply parent_snoc; try assumption. now apply Hk.
Qed.

(** The [for] loop over the arcs that leave [cur]. *)

Lemma fold_visit_inv (cur : string) (l : list Edge.t) (st : search) :
  search_inv arcs s st -> In cur (visited st) ->
  (forall a, In a l -> In a arcs /\ Edge.start_node_id a = cur) ->
  search_inv arcs s (fold_left (visit cur) l st).
Proof.
  revert st. induction l as [|a l IH]; intros st Hinv Hcur Hl; simpl.
  - assumption.
  - destruct (Hl a (or_introl eq_refl)) as [Ha Hs].
    apply IH.
    + rewrite <- Hs. apply visit_inv; [assumption..|]. now rewrite Hs.
    + destruct (visit_dec st a) as [H|[Hn Hc]].
      * now rewrite visit_old.
      * rewrite visit_new by assumption. now right.
    + intros a' Ha'. apply Hl. now right.
Qed.

Lemma visit_grows (cur : string) (st : search) (a : Edge.t) :
  incl (visited st) (visited (visit cur st a))
  /\ incl (queue st) (queue (visit cur st a))
  /\ (forall x, In x (visited (visit cur st a)) ->
                In x (visited st) \/ In x (queue (visit cur st a)))
  /\ (Edge.capacity a > 0 -> In (Edge.end_node_id a) (visited (visit cur st a))).
Proof.
  destruct (visit_dec st a) as [H|[Hn Hc]].
  - rewrite visit_old by assumption. repeat split; auto using incl_refl.
    intros Hc. destruct H; [assumption | lia].
  - rewrite visit_new by assumption. simpl. repeat split.
    + now apply incl_tl, incl_refl.
    + now apply incl_appl, incl_refl.
    + intros x [<-|Hx]; [right | now left]. apply in_or_app. right. now left.
    + intros _. now left.
Qed.

Lemma fold_visit_grows (cur : string) (l : list Edge.t) (st : search) :
  incl (visited st) (visited (fold_left (visit cur) l st))
  /\ incl (queue st) (queue (fold_left (visit cur) l st))
  /\ (forall x, In x (visited (fold_left (visit cur) l st)) ->
                In x (visited st) \/ In x (queue (fold_left (visit cur) l st)))
  /\ (forall a, In a l -> Edge.capacity a > 0 ->
                In (Edge.end_node_id a) (visited (fold_left (visit cur) l st))).
Proof.
  revert st. induction l as [|a l IH]; intros st; simpl.
  - repeat split; auto using incl_refl. intros a [].
  - destruct (IH (visit cur st a)) as (I1 & I2 & I3 & I4).
    destruct (visit_grows cur st a) as (V1 & V2 & V3 & V4).
    repeat split.
    + eapply incl_tran; eassumption.
    + eapply incl_tran; eassumption.
    + intros x Hx. apply I3 in Hx as [Hx|Hx]; [|now right].
      apply V3 in Hx as [Hx|Hx]; [now left | right; now apply I2].
    + intros a' [<-|Ha'] Hc; [apply I1; now apply V4 | now apply I4].
Qed.

(** The same loop in [get_min_cut] sees and queues the same nodes. *)

Lemma fold_reach_visit (cur : string) (l : list Edge.t) (v q : list string)
    (p P : FordFulkerson.parents) :
  fold_left FordFulkerson.reach l (mk_search v q p)
  = mk_search (visited (fold_left (visit cur) l (mk_search v q P)))
              (queue (fold_left (visit cur) l (mk_search v q P))) p.
Proof.
  revert v q P. induction l as [|a l IH]; intros v q P; simpl; [reflexivity|].
  unfold FordFulkerson.reach at 2, visit at 2 4. simpl.
  destruct (negb (mem_str (Edge.end_node_id a) v) && (Edge.capacity a >? 0));
    apply IH.
Qed.

(** ** The search loop *)

Lemma search_dequeue (cur : string) (rest : list string) (st : search) :
  search_inv arcs s st -> queue st = cur :: rest ->
  search_inv arcs s (mk_search (visited st) rest (parent st))
  /\ In cur (visited st) /\ ~ In cur rest.
Proof.
  intros [Hv Hq Hqv Hk Hp] E. rewrite E in *.
  inversion Hq; subst. split; [|split].
  - constructor; simpl; try assumption.
    intros x Hx. apply Hqv. now right.
  - apply Hqv. now left.
  - assumption.
Qed.

Lemma search_step_closed (cur : string) (rest : list string) (st : search) :
  search_inv arcs s st -> search_closed arcs t st ->
  queue st = cur :: rest -> cur <> t ->
  search_closed arcs t
    (fold_left (visit cur) (filter (starts_at cur) arcs)
               (mk_search (visited st) rest (parent st))).
Proof.
  intros Hinv Hcl E Hcur u Hu Hnq.
  destruct (search_dequeue cur rest st Hinv E) as (_ & Hc & Hnr).
  destruct (fold_visit_grows cur (filter (starts_at cur) arcs)
              (mk_search (visited st) rest (parent st))) as (I1 & I2 & I3 & I4).
  simpl in I1, I2, I3.
  apply I3 in Hu as [Hu|Hu]; [|tauto].
  destruct (string_dec u cur) as [->|N].
  - split; [assumption|]. intros a Ha Hs Hcap. apply I4; [|assumption].
    apply filter_In. split; [assumption|]. unfold starts_at. rewrite Hs.
    apply String.eqb_refl.
  - destruct (Hcl u Hu) as [Ht Ha].
    + rewrite E. intros [H|H]; [congruence|]. apply Hnq. now apply I2.
    + split; [assumption|]. intros a Hin Hs Hcap. apply I1. now apply Ha.
Qed.

Lemma search_step_inv (cur : string) (rest : list string) (st : search) :
  search_inv arcs s st -> queue st = cur :: rest ->
  search_inv arcs s
    (fold_left (visit cur) (filter (starts_at cur) arcs)
               (mk_search (visited st) rest (parent st))).
Proof.
  intros Hinv E.
  destruct (search_dequeue cur rest st Hinv E) as (Hinv' & Hc & _).
  apply fold_visit_inv; [assumption..|].
  intros a Ha. apply filter_In in Ha as [Ha Hs]. split; [assumption|].
  now apply String.eqb_eq in Hs.
Qed.

Lemma bfs_loop_none (fuel : nat) (st : search) :
  search_inv arcs s st -> search_closed arcs t st ->
  FordFulkerson._bfs_loop fuel self t st = Ret None ->
  exists V,
    (forall p, FordFulkerson._cut_loop fuel self
                 (mk_search (visited st) (queue st) p) = Ret V)
    /\ NoDup V /\ In s V /\ ~ In t V /\ arc_closed arcs V.
Proof.
  revert st. induction fuel as [|fuel IH]; intros st Hinv Hcl; simpl;
    [discriminate|].
  destruct (queue st) as [|cur rest] eqn:E.
  - intros _. exists (visited st). repeat split.
    + apply (inv_visited _ _ _ Hinv).
    + apply (inv_keys _ _ _ Hinv). now left.
    + intros Ht. destruct (Hcl t Ht); [rewrite E; tauto | congruence].
    + intros a Ha Hs Hc. destruct (Hcl _ Hs) as [_ H]; [rewrite E; tauto|].
      now apply H.
  - destruct (String.eqb_spec cur t) as [->|N]; [discriminate|].
    rewrite Hout. cbn [bind]. intros H.
    apply IH in H.
    + destruct H as (V & Hcut & HV). exists V. split; [|assumption].
      intros p. rewrite (fold_reach_visit cur _ _ _ p (parent st)). apply Hcut.
    + now apply search_step_inv.
    + now apply search_step_closed.
Qed.

Lemma bfs_loop_some (fuel : nat) (st : search) (P : FordFulkerson.parents) :
  search_inv arcs s st ->
  FordFulkerson._bfs_loop fuel self t st = Ret (Some P) ->
  parent_ok arcs s P /\ (t = s \/ In t (Dict.keys P)).
Proof.
  revert st. induction fuel as [|fuel IH]; intros st Hinv; simpl;
    [discriminate|].
  destruct (queue st) as [|cur rest] eqn:E; [discriminate|].
  destruct (String.eqb_spec cur t) as [->|N].
  - intros [= <-]. split; [apply (inv_parent _ _ _ Hinv)|].
    apply (inv_keys _ _ _ Hinv). apply (inv_queue_visited _ _ _ Hinv).
    rewrite E. now left.
  - rewrite Hout. cbn [bind]. apply IH. now apply search_step_inv.
Qed.

(** ** Enough fuel for the search *)

Lemma filter_length_mono {A} (p q : A -> bool) (l : list A) :
  (forall y, q y = true -> p y = true) ->
  (List.length (filter q l) <= List.length (filter p l))%nat.
Proof.
  intros H. induction l as [|y l IH]; simpl; [lia|].
  destruct (q y) eqn:Q.
  - rewrite (H y Q). simpl. lia.
  - destruct (p y); simpl; lia.
Qed.

Lemma filter_length_strict {A} (p q : A -> bool) (l : list A) (x : A) :
  (forall y, q y = true -> p y = true) ->
  In x l -> p x = true -> q x = false ->
  (List.length (filter q l) < List.length (filter p l))%nat.
Proof.
  intros H Hx Px Qx. induction l as [|y l IH]; simpl; [destruct Hx|].
  destruct Hx as [->|Hx].
  - rewrite Px, Qx. simpl. pose proof (filter_length_mono p q l H). lia.
  - specialize (IH Hx). destruct (q y) eqn:Q.
    + rewrite (H y Q). simpl. lia.
    + destruct (p y); simpl; lia.
Qed.

Lemma unvisited_cons (x : string) (V : list string) :
  In x (map Edge.end_node_id arcs) -> ~ In x V ->
  (List.length (unvisited arcs (x :: V)) < List.length (unvisited arcs V))%nat.
Proof.
  intros Hx Hn. unfold unvisited. apply filter_length_strict with (x := x).
  - intros y. unfold mem_str. simpl. destruct (String.eqb y x); simpl; [discriminate | trivial].
  - assumption.
  - apply mem_str_not_In in Hn. now rewrite Hn.
  - unfold mem_str. simpl. now rewrite String.eqb_refl.
Qed.

Lemma visit_size (cur : string) (st : search) (a : Edge.t) :
  In a arcs -> (search_size arcs (visit cur st a) <= search_size arcs st)%nat.
Proof.
  intros Ha. destruct (visit_dec st a) as [H|[Hn Hc]].
  - rewrite visit_old by assumption. lia.
  - rewrite visit_new by assumption. unfold search_size. simpl.
    rewrite length_app. simpl.
    pose proof (unvisited_cons (Edge.end_node_id a) (visited st)
                  (in_map _ _ _ Ha) Hn). lia.
Qed.

Lemma fold_visit_size (cur : string) (l : list Edge.t) (st : search) :
  incl l arcs ->
  (search_size arcs (fold_left (visit cur) l st) <= search_size arcs st)%nat.
Proof.
  revert st. induction l as [|a l IH]; intros st Hl; simpl; [lia|].
  etransitivity; [apply IH|apply visit_size].
  - intros x Hx. apply Hl. now right.
  - apply Hl. now left.
Qed.

Lemma bfs_loop_fuel (fuel : nat) (st : search) :
  (search_size arcs st < fuel)%nat ->
  exists r, FordFulkerson._bfs_loop fuel self t st = Ret r.
Proof.
  revert st. induction fuel as [|fuel IH]; intros st Hsz; [lia|]. simpl.
  destruct (queue st) as [|cur rest] eqn:E; [now exists None|].
  destruct (String.eqb cur t); [now eexists|].
  rewrite Hout. cbn [bind]. apply IH.
  eapply Nat.le_lt_trans.
  - apply fold_visit_size. intros x Hx. now apply filter_In in Hx.
  - unfold search_size in *. rewrite E in Hsz. simpl in *. lia.
Qed.

(** The loop of [get_min_cut] returns for every fuel with which the loop of
    [_bfs] returned. *)
End Search.

Section Walk.
Variable self : FordFulkerson.t.
Variable arcs : list Edge.t.
Variables s t : string.

Hypothesis Hout : forall u,
  Graph.get_edges_from_node (FordFulkerson.residual_graph self) u
  = Ret (filter (starts_at u) arcs).
Hypothesis Hget : forall a, In a arcs ->
  Graph.get_edge (FordFulkerson.residual_graph self) (Edge.id a) = Ret a.

Lemma back_path_extend (P P' : FordFulkerson.parents) (v : string)
    (l : list Edge.t) :
  back_path arcs P s v l -> back_path arcs (P ++ P') s v l.
Proof.
  induction 1 as [|a l Ha Hc Hs Hg _ IH]; constructor; try assumption.
  now apply get_app_Some.
Qed.

Lemma back_path_keys (P : FordFulkerson.parents) (v : string) (l : list Edge.t) :
  back_path arcs P s v l ->
  forall a, In a l -> In a arcs /\ Edge.capacity a > 0
                      /\ In (Edge.end_node_id a) (Dict.keys P).
Proof.
  induction 1 as [|a l Ha Hc Hs Hg _ IH]; intros a' [].
  - subst a'. repeat split; try assumption. now apply get_Some_key in Hg.
  - now apply IH.
Qed.

Lemma parent_ok_back_path (P : FordFulkerson.parents) :
  parent_ok arcs s P ->
  forall v, v = s \/ In v (Dict.keys P) ->
  exists l, back_path arcs P s v l /\ NoDup (map Edge.end_node_id l).
Proof.
  induction 1 as [|P a Hp IH Ha Hc Hk Hs Hu]; intros v Hv.
  - destruct Hv as [->|[]]. exists []. split; constructor.
  - destruct (string_dec v s) as [->|Nv].
    { exists []. split; constructor. }
    destruct Hv as [Hv|Hv]; [congruence|].
    rewrite keys_app in Hv. apply in_app_or in Hv as [Hv|[<-|[]]].
    + destruct (IH v (or_intror Hv)) as (l & Hl & Hnd).
      exists l. split; [now apply back_path_extend | assumption].
    + destruct (IH _ Hu) as (l & Hl & Hnd).
      exists (a :: l). split.
      * constructor; try assumption.
        -- rewrite get_app_None by now apply get_None.
           simpl. now rewrite String.eqb_refl.
        -- now apply back_path_extend.
      * simpl. constructor; [|assumption].
        intros Hin. apply in_map_iff in Hin as (a' & E & Ha').
        apply (back_path_keys _ _ _ Hl) in Ha' as (_ & _ & Hkey).
        rewrite E in Hkey. contradiction.
Qed.

Lemma walk_back_path (P : FordFulkerson.parents) (v : string) (l : list Edge.t) :
  back_path arcs P s v l ->
  forall fuel m path, (List.length l < fuel)%nat ->
  FordFulkerson._walk_back fuel self P s v m path
  = Ret (fold_left FordFulkerson.min_cap (map Edge.capacity l) m,
         path ++ map Edge.id l).
Proof.
  induction 1 as [|a l Ha Hc Hs Hg _ IH]; intros [|fuel] m path Hf;
    simpl in Hf; try lia; simpl.
  - now rewrite String.eqb_refl, app_nil_r.
  - apply String.eqb_neq in Hs. rewrite Hs, Hg, Hget by assumption.
    cbn [bind]. rewrite IH by lia. now rewrite <- app_assoc.
Qed.

Lemma fold_min_cap (l : list Edge.t) (m : Z) :
  exists m', fold_left FordFulkerson.min_cap (map Edge.capacity l) (Some m)
             = Some m'
    /\ m' <= m /\ (forall a, In a l -> m' <= Edge.capacity a)
    /\ (m > 0 -> (forall a, In a l -> Edge.capacity a > 0) -> m' > 0).
Proof.
  revert m. induction l as [|a l IH]; intros m; simpl.
  - exists m. split; [reflexivity|]. split; [lia|]. split; [intros a []|tauto].
  - destruct (Z.ltb_spec (Edge.capacity a) m) as [Hlt|Hge].
    + destruct (IH (Edge.capacity a)) as (m' & E & Hle & Hall & Hpos).
      exists m'. split; [exact E|]. split; [lia|]. split.
      * intros a' [<-|H']; [lia | now apply Hall].
      * intros Hm Hc. apply Hpos; [|intros; apply Hc; now right].
        apply Hc. now left.
    + destruct (IH m) as (m' & E & Hle & Hall & Hpos).
      exists m'. split; [exact E|]. split; [lia|]. split.
      * intros a' [<-|H']; [lia | now apply Hall].
      * intros Hm Hc. apply Hpos; [lia | intros; apply Hc; now right].
Qed.

Lemma search_start_inv : search_inv arcs s (FordFulkerson.mk_search [s] [s] []).
Proof.
  constructor; simpl.
  - repeat constructor. simpl. tauto.
  - repeat constructor. simpl. tauto.
  - apply incl_refl.
  - intros x. split; [intros [<-|[]]; now left | intros [->|[]]; now left].
  - constructor.
Qed.

Lemma search_start_closed :
  search_closed arcs t (FordFulkerson.mk_search [s] [s] []).
Proof. intros u Hu Hn. simpl in *. tauto. Qed.

Lemma search_start_size :
  (search_size arcs (FordFulkerson.mk_search [s] [s] []) <= S (List.length arcs))%nat.
Proof.
  unfold search_size, unvisited.
  cbn [FordFulkerson.queue FordFulkerson.visited List.length].
  pose proof (filter_length_le (fun x => negb (mem_str x [s]))
                               (map Edge.end_node_id arcs)) as H.
  rewrite length_map in H. lia.
Qed.

(** What [_find_augmenting_path] returns, with enough fuel: either no path,
    and then [get_min_cut] finds a set of nodes that holds the source, not the
    sink, and that no residual arc leaves; or the bottleneck and the arcs of a
    path from the source to the sink. *)
Lemma find_augmenting_path_spec (fuel : nat) :
  s <> t -> (S (List.length arcs) < fuel)%nat ->
  (FordFulkerson._find_augmenting_path fuel self s t = Ret None
   /\ exists V,
        FordFulkerson._cut_loop fuel self (FordFulkerson.mk_search [s] [s] [])
        = Ret V
        /\ NoDup V /\ In s V /\ ~ In t V /\ arc_closed arcs V)
  \/ (exists P l delta,
        back_path arcs P s t l /\ l <> []
        /\ NoDup (map Edge.end_node_id l)
        /\ FordFulkerson._find_augmenting_path fuel self s t
           = Ret (Some (delta, rev (map Edge.id l)))
        /\ delta > 0 /\ forall a, In a l -> delta <= Edge.capacity a).
Proof.
  intros Hst Hfuel.
  unfold FordFulkerson._find_augmenting_path, FordFulkerson._bfs.
  destruct (bfs_loop_fuel self arcs t Hout fuel
              (FordFulkerson.mk_search [s] [s] [])) as [r Hr].
  { pose proof search_start_size. lia. }
  rewrite Hr. cbn [bind]. destruct r as [P|].
  - right.
    apply (bfs_loop_some self arcs s t Hout) in Hr as [Hp Ht];
      [|apply search_start_inv].
    destruct Ht as [Ht|Ht]; [congruence|].
    destruct (parent_ok_back_path P Hp t (or_intror Ht)) as (l & Hl & Hnd).
    destruct l as [|a l]; [inversion Hl; congruence|].
    destruct P as [|p P]; [destruct Ht|].
    assert (Hlen : (List.length (a :: l) < fuel)%nat).
    { apply Nat.le_lt_trans with (List.length arcs); [|lia].
      apply NoDup_incl_length.
      - now apply NoDup_map_inv in Hnd.
      - intros x Hx. now apply (back_path_keys _ _ _ Hl) in Hx. }
    rewrite (walk_back_path _ _ _ Hl) by assumption.
    cbn [bind map fold_left FordFulkerson.min_cap app].
    destruct (fold_min_cap l (Edge.capacity a)) as (m' & E & Hle & Hall & Hpos).
    rewrite E.
    exists (p :: P), (a :: l), m'. repeat split; try assumption.
    + discriminate.
    + apply Hpos.
      * apply (back_path_keys _ _ _ Hl). now left.
      * intros a' Ha'. apply (back_path_keys _ _ _ Hl). now right.
    + intros a' [<-|Ha']; [assumption | now apply Hall].
  - left. split; [reflexivity|].
    apply (bfs_loop_none self arcs s t Hout) in Hr;
      [|apply search_start_inv|apply search_start_closed].
    destruct Hr as (V & Hcut & HV). exists V. split; [apply Hcut | assumption].
Qed.

End Walk.

(** * Sums *)

Lemma sumZ_app {A} (f : A -> Z) (l l' : list A) :
  sumZ f (l ++ l') = sumZ f l + sumZ f l'.
Proof. induction l as [|a l IH]; simpl; [reflexivity | rewrite IH; lia]. Qed.

Lemma sumZ_rev {A} (f : A -> Z) (l : list A) : sumZ f (rev l) = sumZ f l.
Proof.
  induction l as [|a l IH]; simpl; [reflexivity|].
  rewrite sumZ_app, IH. simpl. lia.
Qed.

Lemma sumZ_ext {A} (f g : A -> Z) (l : list A) :
  (forall a, In a l -> f a = g a) -> sumZ f l = sumZ g l.
Proof.
  induction l as [|a l IH]; simpl; intros H; [reflexivity|].
  rewrite (H a), IH; auto.
Qed.

Lemma sumZ_plus {A} (f g : A -> Z) (l : list A) :
  sumZ (fun a => f a + g a) l = sumZ f l + sumZ g l.
Proof. induction l as [|a l IH]; simpl; [reflexivity | rewrite IH; lia]. Qed.

Lemma sumZ_minus {A} (f g : A -> Z) (l : list A) :
  sumZ (fun a => f a - g a) l = sumZ f l - sumZ g l.
Proof. induction l as [|a l IH]; simpl; [reflexivity | rewrite IH; lia]. Qed.

Lemma sumZ_scale {A} (c : Z) (f : A -> Z) (l : list A) :
  sumZ (fun a => c * f a) l = c * sumZ f l.
Proof. induction l as [|a l IH]; simpl; [lia | rewrite IH; lia]. Qed.

Lemma sumZ_zero {A} (f : A -> Z) (l : list A) :
  (forall a, In a l -> f a = 0) -> sumZ f l = 0.
Proof.
  induction l as [|a l IH]; simpl; intros H; [reflexivity|].
  rewrite (H a), IH; auto.
Qed.

Lemma sumZ_map {A B} (f : B -> Z) (h : A -> B) (l : list A) :
  sumZ f (map h l) = sumZ (fun a => f (h a)) l.
Proof. induction l as [|a l IH]; simpl; [reflexivity | now rewrite IH]. Qed.

Lemma sumZ_swap {A B} (f : A -> B -> Z) (l : list A) (l' : list B) :
  sumZ (fun a => sumZ (fun b => f a b) l') l
  = sumZ (fun b => sumZ (fun a => f a b) l) l'.
Proof.
  induction l as [|a l IH]; simpl.
  - symmetry. now apply sumZ_zero.
  - rewrite IH. now rewrite <- sumZ_plus.
Qed.

Lemma sumZ_nonneg {A} (f : A -> Z) (l : list A) :
  (forall a, In a l -> 0 <= f a) -> 0 <= sumZ f l.
Proof.
  induction l as [|a l IH]; simpl; intros H; [lia|].
  specialize (H a (or_introl eq_refl)) as Ha.
  assert (0 <= sumZ f l) by (apply IH; intros; apply H; now right). lia.
Qed.

Lemma sumZ_le {A} (f g : A -> Z) (l : list A) :
  (forall a, In a l -> f a <= g a) -> sumZ f l <= sumZ g l.
Proof.
  induction l as [|a l IH]; simpl; intros H; [lia|].
  specialize (H a (or_introl eq_refl)) as Ha.
  assert (sumZ f l <= sumZ g l) by (apply IH; intros; apply H; now right). lia.
Qed.

(** The one term that a key picks out of a sum. *)
Lemma sumZ_pick {A} (key : A -> string) (c : A -> Z) (l : list A) (a0 : A) :
  NoDup (map key l) -> In a0 l ->
  sumZ (fun a => if String.eqb (key a) (key a0) then c a else 0) l = c a0.
Proof.
  induction l as [|a l IH]; simpl; intros ND H; [destruct H|].
  inversion ND as [|? ? Hn ND']; subst.
  destruct H as [->|H].
  - rewrite String.eqb_refl. rewrite sumZ_zero; [lia|].
    intros a Ha. destruct (String.eqb_spec (key a) (key a0)) as [E|_]; [|reflexivity].
    exfalso. apply Hn. rewrite <- E. now apply in_map.
  - rewrite IH by assumption.
    destruct (String.eqb_spec (key a) (key a0)) as [E|_]; [|lia].
    exfalso. apply Hn. rewrite E. now apply in_map.
Qed.

(** Counting the members of a duplicate-free list that equal [x]. *)
Lemma sumZ_member (V : list string) (x : string) :
  NoDup V ->
  sumZ (fun v => if String.eqb x v then 1 else 0) V
  = if mem_str x V then 1 else 0.
Proof.
  induction V as [|v V IH]; simpl; intros ND; [reflexivity|].
  inversion ND as [|? ? Hn ND']; subst. rewrite IH by assumption.
  unfold mem_str. simpl. fold (mem_str x V).
  destruct (String.eqb_spec x v) as [->|_]; simpl; [|reflexivity].
  apply mem_str_not_In in Hn. now rewrite Hn.
Qed.

(** * Flow updates *)

Lemma set_flow_same (e : Edge.t) : Edge.set_flow e (Edge.flow e + 0) = e.
Proof. destruct e. unfold Edge.set_flow. simpl. now rewrite Z.add_0_r. Qed.

Lemma keys_shift_flows (f : string -> Z) (g : Graph.t) :
  Dict.keys (Graph.edges (shift_flows f g)) = Dict.keys (Graph.edges g).
Proof. unfold shift_flows, Dict.keys. simpl. now rewrite map_map. Qed.

Lemma shift_flows_ext (f f' : string -> Z) (g : Graph.t) :
  (forall k, In k (Dict.keys (Graph.edges g)) -> f k = f' k) ->
  shift_flows f g = shift_flows f' g.
Proof.
  intros H. unfold shift_flows. f_equal. apply map_ext_in.
  intros [k e] Hk. simpl. rewrite H; [reflexivity|].
  now apply (in_map fst) in Hk.
Qed.

Lemma shift_flows_zero (g : Graph.t) : shift_flows (fun _ => 0) g = g.
Proof.
  destruct g as [ns es adj]. unfold shift_flows. simpl. f_equal.
  induction es as [|[k e] es IH]; simpl; [reflexivity|].
  now rewrite set_flow_same, IH.
Qed.

Lemma shift_flows_twice (f1 f2 : string -> Z) (g : Graph.t) :
  shift_flows f2 (shift_flows f1 g) = shift_flows (fun k => f1 k + f2 k) g.
Proof.
  unfold shift_flows. simpl. f_equal. rewrite map_map. apply map_ext.
  intros [k e]. simpl. unfold Edge.set_flow. simpl. now rewrite Z.add_assoc.
Qed.

Lemma set_flow_in_dict (es : Dict.t Edge.t) (k : string) (e : Edge.t) (d : Z) :
  NoDup (Dict.keys es) -> Dict.get es k = Some e ->
  Dict.set es k (Edge.set_flow e (Edge.flow e + d))
  = map (fun kv => (fst kv, Edge.set_flow (snd kv)
                      (Edge.flow (snd kv)
                       + (if String.eqb (fst kv) k then d else 0)))) es.
Proof.
  induction es as [|[k' e'] es IH]; simpl; [discriminate|].
  intros ND H. inversion ND as [|? ? Hn ND']; subst.
  destruct (String.eqb_spec k' k) as [->|N].
  - injection H as ->. f_equal.
    rewrite <- (map_id es) at 1. apply map_ext_in. intros [k' e'] Hk. simpl.
    destruct (String.eqb_spec k' k) as [->|_].
    + exfalso. apply Hn. now apply (in_map fst) in Hk.
    + now rewrite set_flow_same.
  - rewrite set_flow_same. f_equal. now apply IH.
Qed.

Lemma bump_shift (g : Graph.t) (k : string) (d : Z) :
  NoDup (Dict.keys (Graph.edges g)) -> In k (Dict.keys (Graph.edges g)) ->
  FordFulkerson.bump g k d
  = Ret (shift_flows (fun k' => if String.eqb k' k then d else 0) g).
Proof.
  intros ND Hk. unfold FordFulkerson.bump, Graph.get_edge.
  destruct (Dict.get (Graph.edges g) k) as [e|] eqn:E;
    [|apply get_None in E; contradiction].
  cbn [bind]. unfold shift_flows. now rewrite (set_flow_in_dict _ _ _ _ ND E).
Qed.

Lemma arc_shift_forward (delta : Z) (k k' : string) :
  arc_shift delta (k ++ "_forward") k' = if String.eqb k' k then delta else 0.
Proof.
  unfold arc_shift.
  destruct (String.eqb_spec k' k) as [->|N].
  - rewrite String.eqb_refl.
    destruct (String.eqb_spec (k ++ "_forward") (k ++ "_backward")) as [E|_]; [|lia].
    now apply forward_backward_ids in E.
  - destruct (String.eqb_spec (k ++ "_forward") (k' ++ "_forward")) as [E|_].
    { apply forward_id_inj in E. congruence. }
    destruct (String.eqb_spec (k ++ "_forward") (k' ++ "_backward")) as [E|_]; [|lia].
    now apply forward_backward_ids in E.
Qed.

Lemma arc_shift_backward (delta : Z) (k k' : string) :
  arc_shift delta (k ++ "_backward") k' = if String.eqb k' k then - delta else 0.
Proof.
  unfold arc_shift.
  destruct (String.eqb_spec k' k) as [->|N].
  - rewrite String.eqb_refl.
    destruct (String.eqb_spec (k ++ "_backward") (k ++ "_forward")) as [E|_]; [|lia].
    symmetry in E. now apply forward_backward_ids in E.
  - destruct (String.eqb_spec (k ++ "_backward") (k' ++ "_backward")) as [E|_].
    { apply backward_id_inj in E. congruence. }
    destruct (String.eqb_spec (k ++ "_backward") (k' ++ "_forward")) as [E|_]; [|lia].
    symmetry in E. now apply forward_backward_ids in E.
Qed.

Lemma update_one_shift (delta : Z) (g : Graph.t) (x k : string) :
  NoDup (Dict.keys (Graph.edges g)) -> In k (Dict.keys (Graph.edges g)) ->
  decodes k ->
  x = (k ++ "_forward")%string \/ x = (k ++ "_backward")%string ->
  FordFulkerson.update_one delta g x = Ret (shift_flows (arc_shift delta x) g).
Proof.
  intros ND Hk [Df Db] [-> | ->]; unfold FordFulkerson.update_one.
  - rewrite endswith_append, Df, bump_shift by assumption.
    f_equal. apply shift_flows_ext. intros k' _.
    now rewrite arc_shift_forward.
  - rewrite backward_not_forward, endswith_append, Db, bump_shift by assumption.
    f_equal. apply shift_flows_ext. intros k' _.
    now rewrite arc_shift_backward.
Qed.

Lemma update_flows_shift (delta : Z) (path : list string) (g : Graph.t) :
  NoDup (Dict.keys (Graph.edges g)) ->
  (forall x, In x path ->
     exists k, In k (Dict.keys (Graph.edges g)) /\ decodes k
       /\ (x = (k ++ "_forward")%string \/ x = (k ++ "_backward")%string)) ->
  for_each (FordFulkerson.update_one delta) path g
  = Ret (shift_flows (path_shift delta path) g).
Proof.
  revert g. induction path as [|x path IH]; intros g ND H; simpl.
  - unfold path_shift. simpl. now rewrite shift_flows_zero.
  - destruct (H x (or_introl eq_refl)) as (k & Hk & Hd & Hx).
    rewrite (update_one_shift delta g x k) by assumption. cbn [bind].
    rewrite IH.
    + now rewrite shift_flows_twice.
    + now rewrite keys_shift_flows.
    + intros x' Hx'. rewrite keys_shift_flows. apply H. now right.
Qed.

(** * Shifting flows in a well-formed graph *)

Lemma wf_edges_indexed (g : Graph.t) :
  graph_wf g -> Graph.edges g = index_edges (Graph.get_all_edges g).
Proof. intros [_ _ _ _ H]. apply (f_equal Graph.edges) in H. exact H. Qed.

Lemma wf_adjacency (g : Graph.t) :
  graph_wf g ->
  Graph.adjacency_list g
  = map (fun kn => (fst kn, out_ids (Graph.get_all_edges g) (fst kn)))
        (Graph.nodes g).
Proof. intros [_ _ _ _ H]. apply (f_equal Graph.adjacency_list) in H. exact H. Qed.

Lemma wf_edge_keys (g : Graph.t) :
  graph_wf g ->
  Dict.keys (Graph.edges g) = map Edge.id (Graph.get_all_edges g).
Proof. intros H. rewrite (wf_edges_indexed g H) at 1. apply keys_index_edges. Qed.

Lemma edges_shift_flows (f : string -> Z) (g : Graph.t) :
  graph_wf g ->
  Graph.get_all_edges (shift_flows f g)
  = map (fun e => Edge.set_flow e (Edge.flow e + f (Edge.id e)))
        (Graph.get_all_edges g).
Proof.
  intros H. unfold Graph.get_all_edges at 1, shift_flows, Dict.values. simpl.
  rewrite (wf_edges_indexed g H). unfold index_edges.
  rewrite !map_map. reflexivity.
Qed.

Lemma out_ids_ext (es es' : list Edge.t) (u : string) :
  map Edge.id es = map Edge.id es' ->
  map Edge.start_node_id es = map Edge.start_node_id es' ->
  out_ids es u = out_ids es' u.
Proof.
  revert es'. induction es as [|e es IH]; intros [|e' es'] Hi Hs;
    try discriminate; [reflexivity|].
  simpl in Hi, Hs. injection Hi as Hi Hi'. injection Hs as Hs Hs'.
  unfold out_ids, starts_at in *. simpl. rewrite Hs.
  destruct (String.eqb _ u); simpl; [rewrite Hi; f_equal|]; now apply IH.
Qed.

Lemma shift_flows_wf (f : string -> Z) (g : Graph.t) :
  graph_wf g -> graph_wf (shift_flows f g).
Proof.
  intros H. pose proof (edges_shift_flows f g H) as Hes.
  pose proof (wf_edges_indexed g H) as Hidx.
  pose proof (wf_adjacency g H) as Hadj.
  destruct H as [ND Hn Hids He _].
  assert (Hid : map Edge.id (Graph.get_all_edges (shift_flows f g))
                = map Edge.id (Graph.get_all_edges g)).
  { rewrite Hes, map_map. reflexivity. }
  constructor.
  - exact ND.
  - exact Hn.
  - now rewrite Hid.
  - rewrite Hes. apply Forall_map. simpl. revert He. apply Forall_impl.
    intros e He. exact He.
  - unfold graph_of. rewrite Hes. unfold shift_flows at 1. f_equal.
    + rewrite Hidx. unfold index_edges. rewrite !map_map. reflexivity.
    + rewrite Hadj. apply map_ext. intros [k n].
      simpl. f_equal. apply out_ids_ext; rewrite map_map; reflexivity.
Qed.

(** * Net outflow *)

Lemma net_out_incidence (g : Graph.t) (v : string) :
  net_out g v
  = sumZ (fun e => Edge.flow e * incidence v e) (Graph.get_all_edges g).
Proof.
  unfold net_out, outflow, inflow. rewrite <- sumZ_minus. apply sumZ_ext.
  intros e _. unfold incidence.
  destruct (String.eqb _ v), (String.eqb _ v); lia.
Qed.

Lemma incidence_set_flow (v : string) (e : Edge.t) (x : Z) :
  incidence v (Edge.set_flow e x) = incidence v e.
Proof. reflexivity. Qed.

Lemma net_out_shift (f : string -> Z) (g : Graph.t) (v : string) :
  graph_wf g ->
  net_out (shift_flows f g) v
  = net_out g v
    + sumZ (fun e => f (Edge.id e) * incidence v e) (Graph.get_all_edges g).
Proof.
  intros H. rewrite !net_out_incidence, edges_shift_flows by assumption.
  rewrite sumZ_map, <- sumZ_plus. apply sumZ_ext. intros e _.
  rewrite incidence_set_flow. simpl. lia.
Qed.

Lemma edge_by_id (es : list Edge.t) (e e' : Edge.t) :
  NoDup (map Edge.id es) -> In e es -> In e' es -> Edge.id e = Edge.id e' ->
  e = e'.
Proof.
  intros ND He He' E.
  pose proof (get_index_edges es e ND He) as H.
  pose proof (get_index_edges es e' ND He') as H'.
  rewrite E in H. congruence.
Qed.

(** What one residual arc on the path does to the net outflow of [v]. *)
Lemma arc_shift_incidence (delta : Z) (es : list Edge.t) (a : Edge.t)
    (v : string) :
  NoDup (map Edge.id es) -> In a (residual_arcs es) ->
  sumZ (fun e => arc_shift delta (Edge.id a) (Edge.id e) * incidence v e) es
  = delta * incidence v a.
Proof.
  intros ND Ha. apply in_residual_arcs in Ha as (e0 & He0 & [[-> _]|[-> _]]).
  - rewrite (sumZ_ext _ (fun e => if String.eqb (Edge.id e) (Edge.id e0)
                                  then delta * incidence v e else 0)).
    + now rewrite (sumZ_pick Edge.id (fun e => delta * incidence v e)).
    + intros e _. simpl Edge.id. rewrite arc_shift_forward.
      destruct (String.eqb _ _); lia.
  - rewrite (sumZ_ext _ (fun e => if String.eqb (Edge.id e) (Edge.id e0)
                                  then - delta * incidence v e else 0)).
    + rewrite (sumZ_pick Edge.id (fun e => - delta * incidence v e))
        by assumption.
      unfold incidence. simpl. lia.
    + intros e _. simpl Edge.id. rewrite arc_shift_backward.
      destruct (String.eqb _ _); lia.
Qed.

Lemma net_out_path_shift (delta : Z) (g : Graph.t) (l : list Edge.t)
    (v : string) :
  graph_wf g -> incl l (residual_arcs (Graph.get_all_edges g)) ->
  net_out (shift_flows (path_shift delta (rev (map Edge.id l))) g) v
  = net_out g v + delta * sumZ (incidence v) l.
Proof.
  intros H Hl. rewrite net_out_shift by assumption. f_equal.
  unfold path_shift.
  rewrite (sumZ_ext _ (fun e => sumZ (fun a =>
             arc_shift delta (Edge.id a) (Edge.id e) * incidence v e) l)).
  - rewrite sumZ_swap, <- sumZ_scale. apply sumZ_ext. intros a Ha.
    apply arc_shift_incidence; [apply H | now apply Hl].
  - intros e _. rewrite sumZ_rev, sumZ_map, Z.mul_comm, <- sumZ_scale.
    apply sumZ_ext. intros a _. apply Z.mul_comm.
Qed.

Lemma back_path_incidence (arcs : list Edge.t) (P : FordFulkerson.parents)
    (s u v : string) (l : list Edge.t) :
  back_path arcs P s u l ->
  sumZ (incidence v) l
  = (if String.eqb s v then 1 else 0) - (if String.eqb u v then 1 else 0).
Proof.
  induction 1 as [|a l Ha Hc Hs Hg _ IH]; simpl; [lia|].
  rewrite IH. unfold incidence. lia.
Qed.

(** * Capacity bounds along a path *)

Lemma sumZ_indicator (delta : Z) (path : list string) (y : string) :
  NoDup path ->
  sumZ (fun x => if String.eqb x y then delta else 0) path
  = if mem_str y path then delta else 0.
Proof.
  induction path as [|x path IH]; simpl; intros ND; [reflexivity|].
  inversion ND as [|? ? Hn ND']; subst. rewrite IH by assumption.
  unfold mem_str. simpl. fold (mem_str y path). rewrite (String.eqb_sym y x).
  destruct (String.eqb_spec x y) as [->|_]; simpl; [|lia].
  apply mem_str_not_In in Hn. rewrite Hn. lia.
Qed.

Lemma path_shift_NoDup (delta : Z) (path : list string) (k : string) :
  NoDup path ->
  path_shift delta path k
  = (if mem_str (k ++ "_forward") path then delta else 0)
    - (if mem_str (k ++ "_backward") path then delta else 0).
Proof.
  intros ND. unfold path_shift, arc_shift.
  now rewrite sumZ_minus, !sumZ_indicator.
Qed.

Lemma NoDup_map_ids (arcs l : list Edge.t) :
  NoDup (map Edge.id arcs) -> incl l arcs -> NoDup l -> NoDup (map Edge.id l).
Proof.
  intros ND Hl. induction 1 as [|a l Hn Hnd IH]; simpl; constructor.
  - intros Hin. apply in_map_iff in Hin as (a' & E & Ha').
    apply Hn. replace a with a'; [assumption|].
    apply (edge_by_id arcs); auto using in_eq, in_cons.
  - apply IH. intros x Hx. apply Hl. now right.
Qed.

Lemma forward_on_path (es l : list Edge.t) (e : Edge.t) :
  NoDup (map Edge.id es) -> In e es -> incl l (residual_arcs es) ->
  In (Edge.id e ++ "_forward")%string (map Edge.id l) ->
  In (forward_arc e) l.
Proof.
  intros ND He Hl Hin. apply in_map_iff in Hin as (a & E & Ha).
  destruct (proj1 (in_residual_arcs es a) (Hl a Ha))
    as (e' & He' & [[-> _]|[-> _]]); simpl in E.
  - apply forward_id_inj in E. now rewrite <- (edge_by_id es e' e ND He' He E).
  - symmetry in E. now apply forward_backward_ids in E.
Qed.

Lemma backward_on_path (es l : list Edge.t) (e : Edge.t) :
  NoDup (map Edge.id es) -> In e es -> incl l (residual_arcs es) ->
  In (Edge.id e ++ "_backward")%string (map Edge.id l) ->
  In (backward_arc e) l.
Proof.
  intros ND He Hl Hin. apply in_map_iff in Hin as (a & E & Ha).
  destruct (proj1 (in_residual_arcs es a) (Hl a Ha))
    as (e' & He' & [[-> _]|[-> _]]); simpl in E.
  - now apply forward_backward_ids in E.
  - apply backward_id_inj in E. now rewrite <- (edge_by_id es e' e ND He' He E).
Qed.

Lemma within_capacity_path_shift (delta : Z) (g : Graph.t) (l : list Edge.t) :
  graph_wf g -> within_capacity g -> delta > 0 ->
  incl l (residual_arcs (Graph.get_all_edges g)) -> NoDup l ->
  (forall a, In a l -> delta <= Edge.capacity a) ->
  within_capacity (shift_flows (path_shift delta (rev (map Edge.id l))) g).
Proof.
  intros H Hcap Hd Hl Hnd Hmin. unfold within_capacity in *.
  rewrite edges_shift_flows by assumption. apply Forall_map.
  rewrite Forall_forall in *. intros e He. specialize (Hcap e He). simpl.
  rewrite path_shift_NoDup.
  2:{ apply NoDup_rev. apply NoDup_map_ids with (residual_arcs (Graph.get_all_edges g));
      try assumption. apply residual_arcs_ids_NoDup, H. }
  destruct (mem_str (Edge.id e ++ "_forward") _) eqn:Ef;
    destruct (mem_str (Edge.id e ++ "_backward") _) eqn:Eb;
    try lia.
  - apply mem_str_In in Ef. rewrite <- in_rev in Ef.
    apply (forward_on_path (Graph.get_all_edges g)) in Ef;
      [|apply H|assumption..].
    apply Hmin in Ef.
    unfold forward_arc, Edge.residual_capacity in Ef. simpl in Ef. lia.
  - apply mem_str_In in Eb. rewrite <- in_rev in Eb.
    apply (backward_on_path (Graph.get_all_edges g)) in Eb;
      [|apply H|assumption..].
    apply Hmin in Eb.
    simpl in Eb. lia.
Qed.

(** * One round of the solver *)

Lemma residual_arcs_length (es : list Edge.t) :
  (List.length (residual_arcs es) <= 2 * List.length es)%nat.
Proof.
  induction es as [|e es IH]; simpl; [lia|].
  rewrite length_app. unfold arcs_of.
  destruct (Edge.residual_capacity e >? 0), (Edge.flow e >? 0); simpl; lia.
Qed.

Lemma residual_get_edges (g : Graph.t) (u : string) :
  graph_wf g ->
  Graph.get_edges_from_node (residual_of g) u
  = Ret (filter (starts_at u) (residual_arcs (Graph.get_all_edges g))).
Proof.
  intros H. apply get_edges_from_node_graph_of.
  - apply residual_arcs_ids_NoDup, H.
  - intros a Ha. eapply residual_arc_start; [apply H | exact Ha].
Qed.

Lemma residual_get_edge (g : Graph.t) (a : Edge.t) :
  graph_wf g -> In a (residual_arcs (Graph.get_all_edges g)) ->
  Graph.get_edge (residual_of g) (Edge.id a) = Ret a.
Proof.
  intros H Ha. apply get_edge_graph_of; [|assumption].
  apply residual_arcs_ids_NoDup, H.
Qed.

Lemma shift_flows_decode (f : string -> Z) (g : Graph.t) :
  graph_wf g -> ids_decode g -> ids_decode (shift_flows f g).
Proof.
  intros H Hd. unfold ids_decode in *.
  rewrite edges_shift_flows, map_map by assumption. exact Hd.
Qed.

Lemma shift_flows_length (f : string -> Z) (g : Graph.t) :
  graph_wf g ->
  List.length (Graph.get_all_edges (shift_flows f g))
  = List.length (Graph.get_all_edges g).
Proof. intros H. now rewrite edges_shift_flows, length_map. Qed.

Lemma shift_flows_capacity (f : string -> Z) (g : Graph.t) :
  graph_wf g -> total_capacity (shift_flows f g) = total_capacity g.
Proof.
  intros H. unfold total_capacity. rewrite edges_shift_flows by assumption.
  now rewrite sumZ_map.
Qed.

Lemma path_ids_decode (g : Graph.t) (l : list Edge.t) (x : string) :
  graph_wf g -> ids_decode g ->
  incl l (residual_arcs (Graph.get_all_edges g)) ->
  In x (rev (map Edge.id l)) ->
  exists k, In k (Dict.keys (Graph.edges g)) /\ decodes k
    /\ (x = (k ++ "_forward")%string \/ x = (k ++ "_backward")%string).
Proof.
  intros H Hd Hl Hx. rewrite <- in_rev in Hx.
  apply in_map_iff in Hx as (a & <- & Ha).
  destruct (residual_arcs_ids (Graph.get_all_edges g) (Edge.id a))
    as (e & He & Hid).
  { apply in_map. now apply Hl. }
  exists (Edge.id e). split; [|split; [|exact Hid]].
  - rewrite wf_edge_keys by assumption. now apply in_map.
  - unfold ids_decode in Hd. rewrite Forall_forall in Hd. apply Hd.
    now apply in_map.
Qed.

(** A round either finds no augmenting path, and then the residual graph has
    a closed set around the source that misses the sink, or pushes a positive
    amount along a path and moves that amount from the source to the sink. *)
Lemma round_spec (g : Graph.t) (s t : string) (fuel : nat) :
  graph_wf g -> ids_decode g -> within_capacity g -> s <> t ->
  (2 * List.length (Graph.get_all_edges g) + 1 < fuel)%nat ->
  (FordFulkerson._find_augmenting_path fuel
     (FordFulkerson.mk g (residual_of g)) s t = Ret None
   /\ exists V,
        FordFulkerson._cut_loop fuel (FordFulkerson.mk g (residual_of g))
          (FordFulkerson.mk_search [s] [s] []) = Ret V
        /\ NoDup V /\ In s V /\ ~ In t V
        /\ arc_closed (residual_arcs (Graph.get_all_edges g)) V)
  \/ (exists delta path f,
        FordFulkerson._find_augmenting_path fuel
          (FordFulkerson.mk g (residual_of g)) s t = Ret (Some (delta, path))
        /\ FordFulkerson._update_flows (FordFulkerson.mk g (residual_of g))
             path delta
           = Ret (FordFulkerson.mk (shift_flows f g) (residual_of g))
        /\ delta > 0
        /\ within_capacity (shift_flows f g)
        /\ forall v, net_out (shift_flows f g) v
                     = net_out g v
                       + delta * ((if String.eqb s v then 1 else 0)
                                  - (if String.eqb t v then 1 else 0))).
Proof.
  intros H Hd Hcap Hst Hfuel.
  pose proof (residual_arcs_length (Graph.get_all_edges g)) as Hlen.
  destruct (find_augmenting_path_spec (FordFulkerson.mk g (residual_of g))
              (residual_arcs (Graph.get_all_edges g)) s t
              (fun u => residual_get_edges g u H)
              (fun a Ha => residual_get_edge g a H Ha) fuel Hst)
    as [Hnone | (P & l & delta & Hl & Hne & Hnd & Hfind & Hpos & Hmin)];
    [lia | now left | right].
  assert (Hincl : incl l (residual_arcs (Graph.get_all_edges g))).
  { intros a Ha. now apply (back_path_keys _ _ _ _ _ Hl) in Ha. }
  exists delta, (rev (map Edge.id l)),
         (path_shift delta (rev (map Edge.id l))).
  split; [exact Hfind|]. split; [|split; [exact Hpos|split]].
  - unfold FordFulkerson._update_flows. simpl.
    rewrite update_flows_shift; [reflexivity| |].
    + rewrite wf_edge_keys by assumption. apply H.
    + intros x Hx. now apply (path_ids_decode g l).
  - apply within_capacity_path_shift; try assumption.
    now apply NoDup_map_inv in Hnd.
  - intros v. rewrite net_out_path_shift by assumption.
    now rewrite (back_path_incidence _ _ _ _ v _ Hl).
Qed.

(** * The loop of [calculate_max_flow] *)

Lemma net_out_le_capacity (g : Graph.t) (s : string) :
  within_capacity g -> net_out g s <= total_capacity g.
Proof.
  intros H. unfold within_capacity in H. rewrite Forall_forall in H.
  unfold net_out, outflow, inflow, total_capacity.
  assert (0 <= sumZ (fun e => if String.eqb (Edge.end_node_id e) s
                              then Edge.flow e else 0) (Graph.get_all_edges g)).
  { apply sumZ_nonneg. intros e He. specialize (H e He).
    destruct (String.eqb _ _); lia. }
  assert (sumZ (fun e => if String.eqb (Edge.start_node_id e) s
                         then Edge.flow e else 0) (Graph.get_all_edges g)
          <= sumZ Edge.capacity (Graph.get_all_edges g)).
  { apply sumZ_le. intros e He. specialize (H e He).
    destruct (String.eqb _ _); lia. }
  lia.
Qed.

Lemma augment_loop_spec (s t : string) (fuel n : nat) :
  forall (k : nat) (g R : Graph.t) (acc : Z),
  graph_wf g -> ids_decode g -> within_capacity g -> s <> t ->
  (2 * List.length (Graph.get_all_edges g) + 1 < fuel)%nat ->
  total_capacity g - net_out g s <= Z.of_nat k -> (k < n)%nat ->
  exists f V,
    FordFulkerson._augment_loop n fuel (FordFulkerson.mk g R) s t acc
    = Ret (acc + (net_out (shift_flows f g) s - net_out g s),
           FordFulkerson.mk (shift_flows f g) (residual_of (shift_flows f g)))
    /\ net_out g s <= net_out (shift_flows f g) s
    /\ within_capacity (shift_flows f g)
    /\ (forall v, v <> s -> v <> t -> net_out (shift_flows f g) v = net_out g v)
    /\ FordFulkerson._cut_loop fuel
         (FordFulkerson.mk (shift_flows f g) (residual_of (shift_flows f g)))
         (FordFulkerson.mk_search [s] [s] []) = Ret V
    /\ NoDup V /\ In s V /\ ~ In t V
    /\ arc_closed (residual_arcs (Graph.get_all_edges (shift_flows f g))) V.
Proof.
  induction n as [|n IH]; intros k g R acc H Hd Hcap Hst Hfuel Hk Hn; [lia|].
  simpl FordFulkerson._augment_loop. simpl FordFulkerson.graph.
  rewrite build_residual_graph_of by assumption. cbn [bind].
  destruct (round_spec g s t fuel H Hd Hcap Hst Hfuel)
    as [(Hfind & V & HV) | (delta & path & f & Hfind & Hupd & Hpos & Hcap' & Hnet)].
  - rewrite Hfind. exists (fun _ => 0), V. rewrite shift_flows_zero.
    rewrite Z.sub_diag, Z.add_0_r.
    split; [reflexivity|]. split; [lia|]. split; [assumption|].
    split; [reflexivity | exact HV].
  - rewrite Hfind. cbn [bind]. rewrite Hupd. cbn [bind].
    pose proof (shift_flows_wf f g H) as H'.
    pose proof (shift_flows_decode f g H Hd) as Hd'.
    pose proof (net_out_le_capacity _ s Hcap') as Hle.
    rewrite shift_flows_capacity in Hle by assumption.
    pose proof (Hnet s) as Hs. rewrite String.eqb_refl in Hs.
    assert (Hts : String.eqb t s = false) by (apply String.eqb_neq; congruence).
    rewrite Hts in Hs.
    destruct (IH (k - 1)%nat (shift_flows f g) (residual_of g) (acc + delta))
      as (f' & V & Hloop & Hup & Hcap'' & Hcons & HV); try assumption.
    + now rewrite shift_flows_length.
    + rewrite shift_flows_capacity by assumption. lia.
    + lia.
    + rewrite shift_flows_twice in *.
      exists (fun k0 => f k0 + f' k0), V.
      split; [rewrite Hloop; do 2 f_equal; lia|].
      split; [lia|]. split; [assumption|]. split; [|exact HV].
      intros v Hvs Hvt. rewrite Hcons by assumption. rewrite Hnet.
      assert (String.eqb s v = false) as -> by (apply String.eqb_neq; congruence).
      assert (String.eqb t v = false) as -> by (apply String.eqb_neq; congruence).
      lia.
Qed.

(** * The value of a flow across a closed set *)

Lemma sumZ_only (f : string -> Z) (V : list string) (s : string) :
  NoDup V -> In s V -> (forall v, In v V -> v <> s -> f v = 0) ->
  sumZ f V = f s.
Proof.
  induction V as [|v V IH]; simpl; intros ND Hs Hf; [destruct Hs|].
  inversion ND as [|? ? Hn ND']; subst. destruct Hs as [->|Hs].
  - rewrite sumZ_zero; [lia|]. intros v Hv. apply Hf; [now right|].
    intros ->. contradiction.
  - rewrite IH; auto. rewrite Hf; [lia | now left |].
    intros ->. contradiction.
Qed.

Lemma conserved_net_out (g : Graph.t) (s t v : string) :
  conserved g s t -> v <> s -> v <> t -> net_out g v = 0.
Proof. intros H Hs Ht. unfold net_out. rewrite (H v Hs Ht). lia. Qed.

Lemma net_out_across (g : Graph.t) (V : list string) :
  NoDup V ->
  sumZ (net_out g) V
  = sumZ (fun e => Edge.flow e
                   * ((if mem_str (Edge.start_node_id e) V then 1 else 0)
                      - (if mem_str (Edge.end_node_id e) V then 1 else 0)))
         (Graph.get_all_edges g).
Proof.
  intros ND.
  rewrite (sumZ_ext (net_out g)
             (fun v => sumZ (fun e => Edge.flow e * incidence v e)
                            (Graph.get_all_edges g)))
    by (intros; apply net_out_incidence).
  rewrite sumZ_swap. apply sumZ_ext. intros e _.
  rewrite sumZ_scale. f_equal. unfold incidence.
  now rewrite sumZ_minus, !sumZ_member.
Qed.

Lemma saturated_across (g : Graph.t) (V : list string) (e : Edge.t) :
  arc_closed (residual_arcs (Graph.get_all_edges g)) V ->
  In e (Graph.get_all_edges g) ->
  In (Edge.start_node_id e) V -> ~ In (Edge.end_node_id e) V ->
  Edge.residual_capacity e <= 0.
Proof.
  intros Hc He Hs Hn.
  destruct (Z_le_gt_dec (Edge.residual_capacity e) 0) as [|Hpos]; [assumption|].
  exfalso. apply Hn. apply (Hc (forward_arc e)); [|exact Hs|exact Hpos].
  apply in_residual_arcs. exists e. split; [assumption|]. now left.
Qed.

Lemma empty_across (g : Graph.t) (V : list string) (e : Edge.t) :
  arc_closed (residual_arcs (Graph.get_all_edges g)) V ->
  In e (Graph.get_all_edges g) ->
  ~ In (Edge.start_node_id e) V -> In (Edge.end_node_id e) V ->
  Edge.flow e <= 0.
Proof.
  intros Hc He Hn Ht.
  destruct (Z_le_gt_dec (Edge.flow e) 0) as [|Hpos]; [assumption|].
  exfalso. apply Hn. apply (Hc (backward_arc e)); [|exact Ht|exact Hpos].
  apply in_residual_arcs. exists e. split; [assumption|]. now right.
Qed.

(** Max-flow = min-cut for a flow without augmenting path. *)
Lemma flow_value_is_cut (g : Graph.t) (s t : string) (V S T : list string) :
  graph_wf g -> within_capacity g -> conserved g s t ->
  NoDup V -> In s V -> ~ In t V ->
  arc_closed (residual_arcs (Graph.get_all_edges g)) V ->
  (forall x, In x S <-> In x V) ->
  T = filter (fun node_id => negb (mem_str node_id V))
             (Dict.keys (Graph.nodes g)) ->
  net_out g s = cut_capacity g S T.
Proof.
  intros H Hcap Hcons ND Hs Ht Hc HS ->.
  rewrite <- (sumZ_only (net_out g) V s ND Hs).
  2:{ intros v Hv Hvs. apply (conserved_net_out g s t); try assumption.
      intros ->. contradiction. }
  rewrite net_out_across by assumption. unfold cut_capacity.
  apply sumZ_ext. intros e He.
  unfold within_capacity in Hcap. rewrite Forall_forall in Hcap.
  specialize (Hcap e He).
  destruct H as [_ _ _ Hok _]. rewrite Forall_forall in Hok.
  destruct (Hok e He) as (_ & Hend & _).
  assert (ES : mem_str (Edge.start_node_id e) S = mem_str (Edge.start_node_id e) V).
  { destruct (mem_str _ V) eqn:E.
    - apply mem_str_In. apply HS. now apply mem_str_In.
    - apply mem_str_not_In. rewrite HS. now apply mem_str_not_In. }
  rewrite ES.
  destruct (mem_str (Edge.start_node_id e) V) eqn:E1;
    destruct (mem_str (Edge.end_node_id e) V) eqn:E2; simpl.
  - replace (mem_str _ _) with false; [lia|]. symmetry.
    apply mem_str_not_In. intros Hin. apply filter_In in Hin as [_ Hin].
    now rewrite E2 in Hin.
  - replace (mem_str _ _) with true.
    + apply mem_str_In in E1. apply mem_str_not_In in E2.
      pose proof (saturated_across g V e Hc He E1 E2) as Hsat.
      unfold Edge.residual_capacity in Hsat. lia.
    + symmetry. apply mem_str_In. apply filter_In. split; [assumption|].
      now rewrite E2.
  - apply mem_str_not_In in E1. apply mem_str_In in E2.
    pose proof (empty_across g V e Hc He E1 E2). lia.
  - lia.
Qed.

(** * The solver on a graph with decodable edge ids *)

Lemma net_out_ge_capacity (g : Graph.t) (s : string) :
  within_capacity g -> - total_capacity g <= net_out g s.
Proof.
  intros H. unfold within_capacity in H. rewrite Forall_forall in H.
  unfold net_out, outflow, inflow, total_capacity.
  assert (0 <= sumZ (fun e => if String.eqb (Edge.start_node_id e) s
                              then Edge.flow e else 0) (Graph.get_all_edges g)).
  { apply sumZ_nonneg. intros e He. specialize (H e He).
    destruct (String.eqb _ _); lia. }
  assert (sumZ (fun e => if String.eqb (Edge.end_node_id e) s
                         then Edge.flow e else 0) (Graph.get_all_edges g)
          <= sumZ Edge.capacity (Graph.get_all_edges g)).
  { apply sumZ_le. intros e He. specialize (H e He).
    destruct (String.eqb _ _); lia. }
  lia.
Qed.

Lemma solver_spec (g R : Graph.t) (s t : string) (source sink : Node.t)
    (fuel : nat) :
  graph_wf g -> ids_decode g -> within_capacity g ->
  Dict.get (Graph.nodes g) s = Some source -> Node.is_source source = true ->
  Dict.get (Graph.nodes g) t = Some sink -> Node.is_sink sink = true ->
  s <> t -> (fuel_for g <= fuel)%nat ->
  exists f V,
    FordFulkerson.calculate_max_flow fuel (FordFulkerson.mk g R) s t
    = Ret (net_out (shift_flows f g) s - net_out g s,
           FordFulkerson.mk (shift_flows f g) (residual_of (shift_flows f g)))
    /\ net_out g s <= net_out (shift_flows f g) s
    /\ within_capacity (shift_flows f g)
    /\ (forall v, v <> s -> v <> t -> net_out (shift_flows f g) v = net_out g v)
    /\ FordFulkerson._cut_loop fuel
         (FordFulkerson.mk (shift_flows f g) (residual_of (shift_flows f g)))
         (FordFulkerson.mk_search [s] [s] []) = Ret V
    /\ NoDup V /\ In s V /\ ~ In t V
    /\ arc_closed (residual_arcs (Graph.get_all_edges (shift_flows f g))) V.
Proof.
  intros H Hd Hcap Hs Hsrc Ht Hsnk Hst Hfuel.
  unfold FordFulkerson.calculate_max_flow, Graph.get_node, Dict.mem.
  simpl FordFulkerson.graph. rewrite Hs, Ht. simpl negb. cbn [bind].
  apply String.eqb_neq in Hst as Hst'. rewrite Hst', Hsrc, Hsnk. simpl negb.
  pose proof (net_out_ge_capacity g s Hcap) as Hge.
  pose proof (net_out_le_capacity g s Hcap) as Hle.
  unfold fuel_for in Hfuel.
  destruct (augment_loop_spec s t fuel fuel
              (Z.to_nat (2 * total_capacity g)) g R 0 H Hd Hcap Hst)
    as (f & V & Hloop & Hrest); try lia.
  exists f, V. split; [|exact Hrest]. rewrite Hloop. reflexivity.
Qed.

(** * The facade *)

Lemma node_lookup (g : Graph.t) (n : Node.t) :
  graph_wf g -> In n (Dict.values (Graph.nodes g)) ->
  Dict.get (Graph.nodes g) (Node.id n) = Some n.
Proof.
  intros [ND Hn _ _ _] Hin. apply in_map_iff in Hin as ([k n'] & E & Hin).
  simpl in E. subst n'. rewrite Forall_forall in Hn.
  destruct (Hn _ Hin) as (Hid & _). simpl in Hid. rewrite Hid.
  now apply In_get.
Qed.

Lemma all_zero_net_out (g : Graph.t) (v : string) : all_zero g -> net_out g v = 0.
Proof.
  intros H. unfold all_zero in H. rewrite Forall_forall in H.
  unfold net_out, outflow, inflow.
  rewrite !sumZ_zero; [lia| |]; intros e He; rewrite (H e He);
    now destruct (String.eqb _ _).
Qed.


Lemma conserved_iff_net_out (g : Graph.t) (s t : string) :
  conserved g s t <-> forall v, v <> s -> v <> t -> net_out g v = 0.
Proof.
  unfold conserved, net_out. split; intros H v Hs Ht; specialize (H v Hs Ht); lia.
Qed.

Lemma all_zero_conserved (g : Graph.t) (s t : string) :
  all_zero g -> conserved g s t.
Proof.
  intros H. apply conserved_iff_net_out. intros v _ _.
  now apply all_zero_net_out.
Qed.

(** The facade on a network whose flows respect the capacities: the
    computation returns, and what it returns is described by the set [V] of
    nodes that the last search reached. *)
Lemma facade_runs (set_order : list string -> list string)
    (net : FlowNetwork.t) (source sink : Node.t) (fuel : nat) :
  graph_wf (FlowNetwork.graph net) -> ids_decode (FlowNetwork.graph net) ->
  within_capacity (FlowNetwork.graph net) ->
  FlowNetwork.get_source_node net = Ret source ->
  FlowNetwork.get_sink_node net = Ret sink ->
  Node.id source <> Node.id sink ->
  (fuel_for (FlowNetwork.graph net) <= fuel)%nat ->
  exists f V,
    FlowNetwork.calculate_max_flow set_order fuel net
    = Ret (net_out (shift_flows f (FlowNetwork.graph net)) (Node.id source)
           - net_out (FlowNetwork.graph net) (Node.id source),
           set_order V,
           filter (fun node_id => negb (mem_str node_id V))
                  (Dict.keys (Graph.nodes (FlowNetwork.graph net))),
           FordFulkerson.mk (shift_flows f (FlowNetwork.graph net))
             (residual_of (shift_flows f (FlowNetwork.graph net))))
    /\ net_out (FlowNetwork.graph net) (Node.id source)
       <= net_out (shift_flows f (FlowNetwork.graph net)) (Node.id source)
    /\ within_capacity (shift_flows f (FlowNetwork.graph net))
    /\ (forall v, v <> Node.id source -> v <> Node.id sink ->
                  net_out (shift_flows f (FlowNetwork.graph net)) v
                  = net_out (FlowNetwork.graph net) v)
    /\ NoDup V /\ In (Node.id source) V /\ ~ In (Node.id sink) V
    /\ arc_closed (residual_arcs (Graph.get_all_edges
                                    (shift_flows f (FlowNetwork.graph net)))) V.
Proof.
  intros H Hd Hcap Hsrc Hsnk Hst Hfuel.
  unfold FlowNetwork.calculate_max_flow. rewrite Hsrc, Hsnk. cbn [bind].
  unfold FlowNetwork.get_source_node in Hsrc.
  unfold FlowNetwork.get_sink_node in Hsnk.
  destruct (Graph.get_source_nodes _) as [|a l] eqn:Ea; [discriminate|].
  destruct (Graph.get_sink_nodes _) as [|b l'] eqn:Eb; [discriminate|].
  injection Hsrc as ->. injection Hsnk as ->.
  assert (Ha : In source (Graph.get_source_nodes (FlowNetwork.graph net)))
    by (rewrite Ea; now left).
  assert (Hb : In sink (Graph.get_sink_nodes (FlowNetwork.graph net)))
    by (rewrite Eb; now left).
  apply filter_In in Ha as [Ha Ha']. apply filter_In in Hb as [Hb Hb'].
  destruct net as [g R]. simpl FlowNetwork.graph in *.
  destruct (solver_spec g R (Node.id source) (Node.id sink) source sink fuel
              H Hd Hcap (node_lookup g source H Ha) Ha'
              (node_lookup g sink H Hb) Hb' Hst Hfuel)
    as (f & V & Hcalc & Hup & Hcap' & Hcons & Hcut & ND & HsV & HtV & Hclosed).
  exists f, V. rewrite Hcalc. cbn [bind].
  unfold FordFulkerson.get_min_cut. rewrite Hcut. cbn [bind].
  simpl FordFulkerson.graph. repeat (split; [assumption|]).
  split; [reflexivity|]. now repeat split.
Qed.

(** The facade on a network that holds a flow: a valid one, in particular
    the all-zero one. *)
Lemma facade_spec (set_order : list string -> list string)
    (net : FlowNetwork.t) (source sink : Node.t) (fuel : nat) :
  (forall V x, In x (set_order V) <-> In x V) ->
  graph_wf (FlowNetwork.graph net) -> ids_decode (FlowNetwork.graph net) ->
  within_capacity (FlowNetwork.graph net) ->
  conserved (FlowNetwork.graph net) (Node.id source) (Node.id sink) ->
  FlowNetwork.get_source_node net = Ret source ->
  FlowNetwork.get_sink_node net = Ret sink ->
  Node.id source <> Node.id sink ->
  (fuel_for (FlowNetwork.graph net) <= fuel)%nat ->
  exists v S T net',
    FlowNetwork.calculate_max_flow set_order fuel net = Ret (v, S, T, net')
    /\ v + net_out (FlowNetwork.graph net) (Node.id source)
       = cut_capacity (FlowNetwork.graph net') S T
    /\ v + net_out (FlowNetwork.graph net) (Node.id source)
       = net_out (FlowNetwork.graph net') (Node.id source)
    /\ 0 <= v
    /\ graph_wf (FlowNetwork.graph net')
    /\ within_capacity (FlowNetwork.graph net')
    /\ conserved (FlowNetwork.graph net') (Node.id source) (Node.id sink)
    /\ In (Node.id source) S /\ ~ In (Node.id sink) S.
Proof.
  intros Hset H Hd Hcap Hzero Hsrc Hsnk Hst Hfuel.
  destruct (facade_runs set_order net source sink fuel H Hd Hcap Hsrc Hsnk
              Hst Hfuel)
    as (f & V & Hcalc & Hup & Hcap' & Hcons & ND & HsV & HtV & Hclosed).
  set (g := FlowNetwork.graph net) in *.
  assert (Hconserved : conserved (shift_flows f g) (Node.id source) (Node.id sink)).
  { apply conserved_iff_net_out. intros v Hvs Hvt. rewrite Hcons by assumption.
    now apply (conserved_iff_net_out g (Node.id source) (Node.id sink)). }
  pose proof (shift_flows_wf f g H) as H'.
  assert (Hvalue : net_out (shift_flows f g) (Node.id source)
                   = cut_capacity (shift_flows f g) (set_order V)
                       (filter (fun node_id => negb (mem_str node_id V))
                               (Dict.keys (Graph.nodes (shift_flows f g))))).
  { apply (flow_value_is_cut _ _ (Node.id sink) V); try assumption.
    - apply Hset.
    - reflexivity. }
  do 4 eexists. split; [exact Hcalc|]. simpl FlowNetwork.graph.
  split; [rewrite Hvalue; simpl Graph.nodes; lia|]. split; [lia|]. split; [lia|].
  split; [assumption|]. split; [assumption|]. split; [assumption|]. split.
  - now apply Hset.
  - intros Hin. apply HtV. now apply Hset.
Qed.

(** * The public operations keep a graph well formed *)

Lemma edges_graph_of (ns : Dict.t Node.t) (es : list Edge.t) :
  Graph.get_all_edges (graph_of ns es) = es.
Proof. apply values_index_edges. Qed.

Lemma graph_of_wf (ns : Dict.t Node.t) (es : list Edge.t) :
  NoDup (Dict.keys ns) -> Forall node_ok ns -> NoDup (map Edge.id es) ->
  Forall (edge_ok ns) es -> graph_wf (graph_of ns es).
Proof.
  intros ND Hn Hids He. constructor; simpl Graph.nodes;
    rewrite ?edges_graph_of; try assumption. reflexivity.
Qed.

Lemma empty_wf : graph_wf Graph.empty.
Proof. apply (graph_of_wf [] []); constructor. Qed.

Lemma out_ids_none (ns : Dict.t Node.t) (es : list Edge.t) (k : string) :
  Forall (edge_ok ns) es -> ~ In k (Dict.keys ns) -> out_ids es k = [].
Proof.
  intros He Hk. unfold out_ids.
  induction es as [|e es IH]; simpl; [reflexivity|].
  inversion He as [|? ? (Hs & _) He']; subst. unfold starts_at at 1.
  destruct (String.eqb_spec (Edge.start_node_id e) k) as [E|_]; [|auto].
  exfalso. apply Hk. now rewrite <- E.
Qed.

Lemma edge_ok_more (ns ns' : Dict.t Node.t) (e : Edge.t) :
  edge_ok ns e -> edge_ok (ns ++ ns') e.
Proof.
  intros (Hs & He & Hne). unfold edge_ok. rewrite keys_app.
  repeat split; try apply in_or_app; auto.
Qed.

Lemma add_node_wf (g g' : Graph.t) (k name : string) (so si : bool) (n : Node.t) :
  graph_wf g -> Graph.add_node g k name so si = Ret (g', n) ->
  graph_wf g' /\ Graph.get_all_edges g' = Graph.get_all_edges g.
Proof.
  intros H. pose proof (wf_adjacency g H) as Hadj.
  pose proof (wf_edges_indexed g H) as Hidx.
  destruct H as [ND Hn Hids He _].
  unfold Graph.add_node, Node.new.
  destruct (Dict.mem (Graph.nodes g) k) eqn:Em; [discriminate|].
  apply mem_not_In in Em.
  destruct (String.eqb_spec k "") as [|Hk]; [discriminate|]. cbn [bind].
  intros [= <- <-].
  set (n := Node.mk k _ so si).
  assert (Hg : Graph.mk (Dict.set (Graph.nodes g) k n) (Graph.edges g)
                 (Dict.set (Graph.adjacency_list g) k [])
               = graph_of (Graph.nodes g ++ [(k, n)]) (Graph.get_all_edges g)).
  { unfold graph_of. rewrite set_new by assumption. f_equal; [exact Hidx|].
    rewrite Hadj at 1. rewrite set_new.
    - rewrite map_app. simpl. now rewrite (out_ids_none _ _ k He Em).
    - unfold Dict.keys. now rewrite map_map. }
  rewrite Hg. split; [|apply edges_graph_of].
  apply graph_of_wf; try assumption.
  - rewrite keys_app. simpl. apply NoDup_app; [assumption| |].
    + repeat constructor. simpl. tauto.
    + intros x Hx [<-|[]]. contradiction.
  - apply Forall_app. split; [assumption|]. constructor; [|constructor].
    split; [reflexivity|]. split; [exact Hk|]. unfold n. simpl.
    destruct (String.eqb_spec name "") as [->|Hname].
    + apply String.eqb_neq in Hk as Hk'. now rewrite Hk'.
    + apply String.eqb_neq in Hname as Hn'. now rewrite Hn'.
  - revert He. apply Forall_impl. intros e. apply edge_ok_more.
Qed.

Lemma add_edge_wf (g g' : Graph.t) (id u v : string) (c : Z) (e : Edge.t) :
  graph_wf g -> Graph.add_edge g id u v c = Ret (g', e) ->
  graph_wf g' /\ e = Edge.mk id u v c 0 /\ 0 <= c
  /\ Graph.get_all_edges g' = Graph.get_all_edges g ++ [e].
Proof.
  intros H. pose proof (wf_edge_keys g H) as Hkeys.
  pose proof (wf_shape g H) as Hshape.
  destruct H as [ND Hn Hids He _]. intros Hadd.
  assert (Hpre : ~ In id (map Edge.id (Graph.get_all_edges g)) /\ id <> ""
                 /\ In u (Dict.keys (Graph.nodes g))
                 /\ In v (Dict.keys (Graph.nodes g)) /\ u <> v /\ 0 <= c).
  { revert Hadd. unfold Graph.add_edge, Graph.get_node, Edge.new.
    destruct (Dict.mem (Graph.edges g) id) eqn:Em; [discriminate|].
    apply mem_not_In in Em. rewrite Hkeys in Em.
    destruct (Dict.get (Graph.nodes g) u) eqn:Eu; [|discriminate].
    destruct (Dict.get (Graph.nodes g) v) eqn:Ev; [|discriminate].
    cbn [bind]. apply get_Some_key in Eu, Ev.
    destruct (String.eqb_spec u v); [discriminate|].
    destruct (String.eqb_spec id ""); [discriminate|].
    destruct (Z.ltb_spec c 0); [discriminate|]. tauto. }
  destruct Hpre as (Hid & Hne & Hu & Hv & Huv & Hc).
  rewrite Hshape in Hadd.
  rewrite (add_edge_graph_of _ _ id u v c ND Hid Hne Hu Hv Huv Hc) in Hadd.
  injection Hadd as <- <-. rewrite edges_graph_of.
  split; [|repeat split; assumption].
  apply graph_of_wf; try assumption.
  - rewrite map_app. simpl. apply NoDup_app; [assumption| |].
    + repeat constructor. simpl. tauto.
    + intros x Hx [<-|[]]. contradiction.
  - apply Forall_app. split; [assumption|]. repeat constructor; assumption.
Qed.

(** What a network built by insertions looks like. *)
Lemma insert_wf (net net' : FlowNetwork.t) (op : insertion) :
  graph_wf (FlowNetwork.graph net) -> within_capacity (FlowNetwork.graph net) ->
  all_zero (FlowNetwork.graph net) ->
  insert net op = Ret net' ->
  graph_wf (FlowNetwork.graph net') /\ within_capacity (FlowNetwork.graph net')
  /\ all_zero (FlowNetwork.graph net').
Proof.
  intros H Hcap Hz. destruct op as [k name so si | id u v c]; simpl.
  - unfold FlowNetwork.add_node.
    destruct (Graph.add_node _ k name so si) as [[g' n]| | |] eqn:E;
      try discriminate.
    cbn [bind]. intros [= <-].
    destruct (add_node_wf _ _ _ _ _ _ _ H E) as [H' Hes]. simpl.
    unfold within_capacity, all_zero. rewrite Hes. auto.
  - unfold FlowNetwork.add_edge.
    destruct (Graph.add_edge _ id u v c) as [[g' e]| | |] eqn:E;
      try discriminate.
    cbn [bind]. intros [= <-].
    destruct (add_edge_wf _ _ _ _ _ _ _ H E) as (H' & -> & Hc & Hes). simpl.
    unfold within_capacity, all_zero. rewrite Hes.
    split; [exact H'|].
    split; apply Forall_app; (split; [assumption|]); constructor;
      try constructor; simpl; lia.
Qed.

Lemma build_wf (ops : list insertion) (net : FlowNetwork.t) :
  build ops = Ret net ->
  graph_wf (FlowNetwork.graph net) /\ within_capacity (FlowNetwork.graph net)
  /\ all_zero (FlowNetwork.graph net).
Proof.
  unfold build. change FlowNetwork.new with (Ret no_network). cbn [bind].
  assert (H0 : graph_wf (FlowNetwork.graph no_network)
               /\ within_capacity (FlowNetwork.graph no_network)
               /\ all_zero (FlowNetwork.graph no_network)).
  { split; [apply empty_wf | split; constructor]. }
  revert H0. generalize no_network. induction ops as [|op ops IH];
    intros net0 H0; simpl.
  - now intros [= <-].
  - destruct (insert net0 op) as [net1| | |] eqn:E; try discriminate.
    cbn [bind]. apply IH. destruct H0 as (H & Hcap & Hz).
    eapply insert_wf; eassumption.
Qed.

(** * Ids without [_forward] and [_backward] decode *)

Lemma occurs_cons (pat : string) (c : ascii) (s : string) :
  occurs pat (String c s) = false ->
  String.prefix pat (String c s) = false /\ occurs pat s = false.
Proof.
  change (occurs pat (String c s))
    with (if String.prefix pat (String c s) then true else occurs pat s).
  destruct (String.prefix pat (String c s)); [discriminate | tauto].
Qed.

Lemma replace_from_cons (old : string) (c : ascii) (s : string) :
  String.prefix old (String c s) = false ->
  PyStr.replace_from old "" 0 (String c s)
  = String c (PyStr.replace_from old "" 0 s).
Proof.
  intros H.
  change (PyStr.replace_from old "" 0 (String c s))
    with (if String.prefix old (String c s)
          then ("" ++ PyStr.replace_from old "" (String.length old - 1) s)%string
          else String c (PyStr.replace_from old "" 0 s)).
  now rewrite H.
Qed.

Ltac split_prefix :=
  repeat match goal with
  | H : context [ascii_dec ?a ?b] |- _ =>
      let E := fresh "E" in
      destruct (ascii_dec a b) as [E|E];
      [try discriminate E; try subst|]; simpl in H; try discriminate H
  | |- context [ascii_dec ?a ?b] =>
      let E := fresh "E" in
      destruct (ascii_dec a b) as [E|E];
      [try discriminate E; try subst|]; simpl; try reflexivity
  end.

Lemma no_overlap_forward (c : ascii) (s : string) :
  String.prefix "_forward" (String c s) = false ->
  String.prefix "_forward" (String c (s ++ "_forward")) = false.
Proof.
  intros H.
  do 8 (try (destruct s as [|? s]); simpl in *; split_prefix; try congruence).
Qed.

Lemma no_overlap_backward (c : ascii) (s : string) :
  String.prefix "_backward" (String c s) = false ->
  String.prefix "_backward" (String c (s ++ "_backward")) = false.
Proof.
  intros H.
  do 9 (try (destruct s as [|? s]); simpl in *; split_prefix; try congruence).
Qed.

Lemma plain_forward (id : string) :
  occurs "_forward" id = false ->
  PyStr.replace (id ++ "_forward") "_forward" "" = id.
Proof.
  unfold PyStr.replace. induction id as [|c id IH]; intros H.
  - reflexivity.
  - apply occurs_cons in H as [Hp Ho].
    change (String c id ++ "_forward")%string
      with (String c (id ++ "_forward")).
    rewrite replace_from_cons by now apply no_overlap_forward.
    now rewrite IH.
Qed.

Lemma plain_backward (id : string) :
  occurs "_backward" id = false ->
  PyStr.replace (id ++ "_backward") "_backward" "" = id.
Proof.
  unfold PyStr.replace. induction id as [|c id IH]; intros H.
  - reflexivity.
  - apply occurs_cons in H as [Hp Ho].
    change (String c id ++ "_backward")%string
      with (String c (id ++ "_backward")).
    rewrite replace_from_cons by now apply no_overlap_backward.
    now rewrite IH.
Qed.

(** An id that contains neither suffix is decoded. *)
Lemma plain_id_decodes (id : string) : plain_id id -> decodes id.
Proof. intros [Hf Hb]. split; [now apply plain_forward | now apply plain_backward]. Qed.

(** * More fuel does not change a result *)

Lemma bind_Ret {A B} (m : outcome A) (k : A -> outcome B) (r : B) :
  bind m k = Ret r -> exists a, m = Ret a /\ k a = Ret r.
Proof. destruct m; simpl; try discriminate. intros H. now exists a. Qed.

Lemma bfs_loop_more (fuel : nat) :
  forall self sink st r,
  FordFulkerson._bfs_loop fuel self sink st = Ret r ->
  forall fuel', (fuel <= fuel')%nat ->
  FordFulkerson._bfs_loop fuel' self sink st = Ret r.
Proof.
  induction fuel as [|fuel IH]; intros self sink st r H [|fuel'] Hle;
    try discriminate; try lia.
  simpl in *. destruct (FordFulkerson.queue st) as [|cur rest]; [assumption|].
  destruct (String.eqb cur sink); [assumption|].
  apply bind_Ret in H as (out & -> & H). cbn [bind]. apply (IH _ _ _ _ H). lia.
Qed.

Lemma walk_back_more (fuel : nat) :
  forall self parent s cur m path r,
  FordFulkerson._walk_back fuel self parent s cur m path = Ret r ->
  forall fuel', (fuel <= fuel')%nat ->
  FordFulkerson._walk_back fuel' self parent s cur m path = Ret r.
Proof.
  induction fuel as [|fuel IH]; intros self parent s cur m path r H [|fuel'] Hle;
    try discriminate; try lia.
  simpl in *. destruct (String.eqb cur s); [assumption|].
  destruct (Dict.get parent cur) as [[prev eid]|]; [|discriminate].
  apply bind_Ret in H as (e & -> & H). cbn [bind]. apply (IH _ _ _ _ _ _ _ H). lia.
Qed.

Lemma cut_loop_more (fuel : nat) :
  forall self st r,
  FordFulkerson._cut_loop fuel self st = Ret r ->
  forall fuel', (fuel <= fuel')%nat ->
  FordFulkerson._cut_loop fuel' self st = Ret r.
Proof.
  induction fuel as [|fuel IH]; intros self st r H [|fuel'] Hle;
    try discriminate; try lia.
  simpl in *. destruct (FordFulkerson.queue st) as [|cur rest]; [assumption|].
  apply bind_Ret in H as (out & -> & H). cbn [bind]. apply (IH _ _ _ H). lia.
Qed.

Lemma find_augmenting_path_more (fuel fuel' : nat) self s t r :
  FordFulkerson._find_augmenting_path fuel self s t = Ret r ->
  (fuel <= fuel')%nat ->
  FordFulkerson._find_augmenting_path fuel' self s t = Ret r.
Proof.
  unfold FordFulkerson._find_augmenting_path, FordFulkerson._bfs.
  intros H Hle. apply bind_Ret in H as (found & Hb & H).
  rewrite (bfs_loop_more _ _ _ _ _ Hb fuel' Hle). cbn [bind].
  destruct found as [[|p P]|]; try assumption.
  apply bind_Ret in H as ([m path] & Hw & H).
  now rewrite (walk_back_more _ _ _ _ _ _ _ _ Hw fuel' Hle).
Qed.

Lemma augment_loop_more (n : nat) :
  forall fuel self s t acc r,
  FordFulkerson._augment_loop n fuel self s t acc = Ret r ->
  forall n' fuel', (n <= n')%nat -> (fuel <= fuel')%nat ->
  FordFulkerson._augment_loop n' fuel' self s t acc = Ret r.
Proof.
  induction n as [|n IH]; intros fuel self s t acc r H [|n'] fuel' Hn Hf;
    try discriminate; try lia.
  simpl in *. apply bind_Ret in H as (self1 & -> & H). cbn [bind].
  apply bind_Ret in H as (result & Hfind & H).
  rewrite (find_augmenting_path_more _ _ _ _ _ _ Hfind Hf). cbn [bind].
  destruct result as [[flow path]|]; [|assumption].
  apply bind_Ret in H as (self2 & -> & H). cbn [bind].
  apply (IH _ _ _ _ _ _ H); lia.
Qed.

Lemma solver_more (fuel fuel' : nat) self s t r :
  FordFulkerson.calculate_max_flow fuel self s t = Ret r ->
  (fuel <= fuel')%nat ->
  FordFulkerson.calculate_max_flow fuel' self s t = Ret r.
Proof.
  unfold FordFulkerson.calculate_max_flow. intros H Hle.
  destruct (negb (Dict.mem _ s)); [discriminate|].
  destruct (negb (Dict.mem _ t)); [discriminate|].
  destruct (String.eqb s t); [discriminate|].
  destruct (Graph.get_node _ s) as [source| | |]; try discriminate.
  cbn [bind] in *. destruct (negb (Node.is_source source)); [discriminate|].
  destruct (Graph.get_node _ t) as [sink| | |]; try discriminate.
  cbn [bind] in *. destruct (negb (Node.is_sink sink)); [discriminate|].
  now apply (augment_loop_more _ _ _ _ _ _ _ H).
Qed.

Lemma get_min_cut_more (set_order : list string -> list string)
    (fuel fuel' : nat) self s r :
  FordFulkerson.get_min_cut set_order fuel self s = Ret r ->
  (fuel <= fuel')%nat ->
  FordFulkerson.get_min_cut set_order fuel' self s = Ret r.
Proof.
  unfold FordFulkerson.get_min_cut. intros H Hle.
  apply bind_Ret in H as (V & Hc & H).
  now rewrite (cut_loop_more _ _ _ _ Hc fuel' Hle).
Qed.

Lemma facade_more (set_order : list string -> list string)
    (fuel fuel' : nat) net r :
  FlowNetwork.calculate_max_flow set_order fuel net = Ret r ->
  (fuel <= fuel')%nat ->
  FlowNetwork.calculate_max_flow set_order fuel' net = Ret r.
Proof.
  unfold FlowNetwork.calculate_max_flow. intros H Hle.
  apply bind_Ret in H as (source & -> & H). cbn [bind].
  apply bind_Ret in H as (sink & -> & H). cbn [bind].
  apply bind_Ret in H as ([v self'] & Hs & H).
  rewrite (solver_more _ _ _ _ _ _ Hs Hle). cbn [bind].
  apply bind_Ret in H as ([cs ct] & Hc & H).
  now rewrite (get_min_cut_more _ _ _ _ _ _ Hc Hle).
Qed.

(** * A computation changes flows and nothing else *)

Lemma reset_flows_zeroed (net : FlowNetwork.t) :
  FlowNetwork.graph (FlowNetwork.reset_flows net) = zeroed (FlowNetwork.graph net).
Proof. reflexivity. Qed.

Lemma zeroed_set (es : Dict.t Edge.t) (k : string) (e : Edge.t) (x : Z) :
  Dict.get es k = Some e ->
  map (fun kv => (fst kv, Edge.set_flow (snd kv) 0))
      (Dict.set es k (Edge.set_flow e x))
  = map (fun kv => (fst kv, Edge.set_flow (snd kv) 0)) es.
Proof.
  induction es as [|[k' e'] es IH]; simpl; [discriminate|].
  destruct (String.eqb k' k).
  - now intros [= ->].
  - intros H. simpl. now rewrite IH.
Qed.

Lemma bump_zeroed (g g' : Graph.t) (k : string) (d : Z) :
  FordFulkerson.bump g k d = Ret g' -> zeroed g' = zeroed g.
Proof.
  unfold FordFulkerson.bump, Graph.get_edge.
  destruct (Dict.get (Graph.edges g) k) as [e|] eqn:E; [|discriminate].
  cbn [bind]. intros [= <-]. unfold zeroed. simpl.
  now rewrite (zeroed_set _ _ _ _ E).
Qed.

Lemma update_one_zeroed (delta : Z) (g g' : Graph.t) (x : string) :
  FordFulkerson.update_one delta g x = Ret g' -> zeroed g' = zeroed g.
Proof.
  unfold FordFulkerson.update_one.
  destruct (PyStr.endswith x "_forward"); [apply bump_zeroed|].
  destruct (PyStr.endswith x "_backward"); [apply bump_zeroed|].
  now intros [= <-].
Qed.

Lemma update_flows_zeroed (delta : Z) (path : list string) :
  forall g g', for_each (FordFulkerson.update_one delta) path g = Ret g' ->
  zeroed g' = zeroed g.
Proof.
  induction path as [|x path IH]; intros g g'; simpl.
  - now intros [= <-].
  - intros H. apply bind_Ret in H as (g1 & H1 & H).
    rewrite (IH _ _ H). now apply (update_one_zeroed delta _ _ x).
Qed.

Lemma build_residual_graph_same (self self' : FordFulkerson.t) :
  FordFulkerson._build_residual_graph self = Ret self' ->
  FordFulkerson.graph self' = FordFulkerson.graph self.
Proof.
  unfold FordFulkerson._build_residual_graph. intros H.
  apply bind_Ret in H as (r1 & _ & H). apply bind_Ret in H as (r2 & _ & H).
  now injection H as <-.
Qed.

(** Where the loop of [calculate_max_flow] stops: at a state whose residual
    graph is up to date and has no augmenting path. *)
Lemma augment_loop_final (n : nat) :
  forall fuel self s t acc v self',
  FordFulkerson._augment_loop n fuel self s t acc = Ret (v, self') ->
  FordFulkerson._build_residual_graph
    (FordFulkerson.mk (FordFulkerson.graph self') Graph.empty) = Ret self'
  /\ FordFulkerson._find_augmenting_path fuel self' s t = Ret None
  /\ zeroed (FordFulkerson.graph self') = zeroed (FordFulkerson.graph self).
Proof.
  induction n as [|n IH]; intros fuel self s t acc v self' H; [discriminate|].
  simpl in H. apply bind_Ret in H as (self1 & Hb & H).
  apply bind_Ret in H as (result & Hfind & H).
  pose proof (build_residual_graph_same _ _ Hb) as Hg. simpl in Hg.
  destruct result as [[flow path]|].
  - apply bind_Ret in H as (self2 & Hu & H).
    destruct (IH _ _ _ _ _ _ _ H) as (H1 & H2 & H3).
    split; [exact H1|]. split; [exact H2|]. rewrite H3.
    unfold FordFulkerson._update_flows in Hu.
    apply bind_Ret in Hu as (g2 & Hu & [= <-]). simpl.
    rewrite (update_flows_zeroed _ _ _ _ Hu). now rewrite Hg.
  - injection H as <- <-. rewrite Hg. split; [exact Hb|].
    split; [exact Hfind | reflexivity].
Qed.

Lemma solver_final (fuel : nat) self s t v self' :
  FordFulkerson.calculate_max_flow fuel self s t = Ret (v, self') ->
  FordFulkerson._build_residual_graph
    (FordFulkerson.mk (FordFulkerson.graph self') Graph.empty) = Ret self'
  /\ FordFulkerson._find_augmenting_path fuel self' s t = Ret None
  /\ zeroed (FordFulkerson.graph self') = zeroed (FordFulkerson.graph self).
Proof.
  unfold FordFulkerson.calculate_max_flow.
  destruct (negb (Dict.mem _ s)); [discriminate|].
  destruct (negb (Dict.mem _ t)); [discriminate|].
  destruct (String.eqb s t); [discriminate|].
  destruct (Graph.get_node _ s) as [source| | |]; try discriminate.
  cbn [bind]. destruct (negb (Node.is_source source)); [discriminate|].
  destruct (Graph.get_node _ t) as [sink| | |]; try discriminate.
  cbn [bind]. destruct (negb (Node.is_sink sink)); [discriminate|].
  apply augment_loop_final.
Qed.




(** The order in which [list(visited)] lists the set changes [S] only. *)
Lemma facade_set_order (o : list string -> list string) (fuel : nat) net v S T r :
  FlowNetwork.calculate_max_flow o fuel net = Ret (v, S, T, r) ->
  exists V, S = o V
    /\ forall o', FlowNetwork.calculate_max_flow o' fuel net
                  = Ret (v, o' V, T, r).
Proof.
  unfold FlowNetwork.calculate_max_flow, FordFulkerson.get_min_cut.
  destruct (FlowNetwork.get_source_node net) as [source| | |];
    try discriminate.
  destruct (FlowNetwork.get_sink_node net) as [sink| | |]; try discriminate.
  cbn [bind].
  destruct (FordFulkerson.calculate_max_flow fuel net _ _)
    as [[v' self']| | |]; try discriminate.
  cbn [bind].
  destruct (FordFulkerson._cut_loop fuel self' _) as [V| | |];
    try discriminate.
  cbn [bind]. intros [= <- <- <- <-]. now exists V.
Qed.

(** * The network with edges [e] and [e_forward] *)

Lemma looping_build : build looping_ops = Ret looping_net.
Proof. vm_compute. reflexivity. Qed.

Lemma looping_graph_start : FlowNetwork.graph looping_net = looping_graph 0.
Proof. reflexivity. Qed.

Lemma looping_graph_wf (f : Z) : graph_wf (looping_graph f).
Proof.
  constructor.
  - repeat constructor; simpl; intuition discriminate.
  - repeat constructor; simpl; discriminate.
  - repeat constructor; simpl; intuition discriminate.
  - repeat constructor; simpl; (tauto || discriminate).
  - reflexivity.
Qed.

Lemma looping_residual_arcs (f : Z) :
  1 <= f ->
  residual_arcs (Graph.get_all_edges (looping_graph f))
  = [ Edge.mk "e_backward" "t" "s" f 0;
      Edge.mk "e_forward_forward" "s" "t" 5 0 ].
Proof.
  intros Hf. unfold residual_arcs, looping_graph, Graph.get_all_edges.
  cbn [Dict.values map snd Graph.edges flat_map]. unfold arcs_of.
  unfold Edge.residual_capacity. cbn [Edge.capacity Edge.flow].
  assert ((1 - f >? 0) = false) as -> by lia.
  assert ((f >? 0) = true) as -> by lia.
  reflexivity.
Qed.

(** With [e] carrying [f >= 1], a round finds the arc [e_forward_forward] of
    edge [e_forward] and adds its capacity 5 to edge [e]. *)
Lemma looping_round (f : Z) (n fuel : nat) (R : Graph.t) (acc : Z) :
  1 <= f ->
  FordFulkerson._augment_loop (S n) (S (S fuel))
    (FordFulkerson.mk (looping_graph f) R) "s" "t" acc
  = FordFulkerson._augment_loop n (S (S fuel))
      (FordFulkerson.mk (looping_graph (f + 5)) (residual_of (looping_graph f)))
      "s" "t" (acc + 5).
Proof.
  intros Hf.
  change (FordFulkerson._augment_loop (S n) (S (S fuel))
            (FordFulkerson.mk (looping_graph f) R) "s" "t" acc)
    with (self1 <- FordFulkerson._build_residual_graph
                     (FordFulkerson.mk (looping_graph f) Graph.empty) ;;
          result <- FordFulkerson._find_augmenting_path (S (S fuel)) self1 "s" "t" ;;
          match result with
          | None => Ret (acc, self1)
          | Some (flow, path) =>
              self2 <- FordFulkerson._update_flows self1 path flow ;;
              FordFulkerson._augment_loop n (S (S fuel)) self2 "s" "t" (acc + flow)
          end).
  rewrite build_residual_graph_of by apply looping_graph_wf. cbn [bind].
  unfold residual_of at 1. rewrite looping_residual_arcs by assumption.
  reflexivity.
Qed.

Lemma looping_starved (f : Z) (n fuel : nat) (R : Graph.t) (acc : Z) :
  1 <= f -> (fuel < 2)%nat ->
  FordFulkerson._augment_loop n fuel
    (FordFulkerson.mk (looping_graph f) R) "s" "t" acc = OutOfFuel.
Proof.
  intros Hf Hfuel. destruct n; [reflexivity|].
  change (FordFulkerson._augment_loop (S n) fuel
            (FordFulkerson.mk (looping_graph f) R) "s" "t" acc)
    with (self1 <- FordFulkerson._build_residual_graph
                     (FordFulkerson.mk (looping_graph f) Graph.empty) ;;
          result <- FordFulkerson._find_augmenting_path fuel self1 "s" "t" ;;
          match result with
          | None => Ret (acc, self1)
          | Some (flow, path) =>
              self2 <- FordFulkerson._update_flows self1 path flow ;;
              FordFulkerson._augment_loop n fuel self2 "s" "t" (acc + flow)
          end).
  rewrite build_residual_graph_of by apply looping_graph_wf. cbn [bind].
  unfold residual_of. rewrite looping_residual_arcs by assumption.
  destruct fuel as [|[|fuel]]; [reflexivity | reflexivity | lia].
Qed.

Lemma looping_diverges (n fuel : nat) :
  forall f R acc, 1 <= f ->
  FordFulkerson._augment_loop n fuel
    (FordFulkerson.mk (looping_graph f) R) "s" "t" acc = OutOfFuel.
Proof.
  destruct fuel as [|[|fuel]].
  - intros. apply looping_starved; [assumption | lia].
  - intros. apply looping_starved; [assumption | lia].
  - induction n as [|n IH]; intros f R acc Hf; [reflexivity|].
    rewrite looping_round by assumption. apply IH. lia.
Qed.

(** The first round on the fresh network pushes 1 along edge [e]. *)
Lemma looping_first_round (n fuel : nat) :
  FordFulkerson._augment_loop (S n) (S (S fuel)) looping_net "s" "t" 0
  = FordFulkerson._augment_loop n (S (S fuel))
      (FordFulkerson.mk (looping_graph 1)
                        (residual_of (FlowNetwork.graph looping_net)))
      "s" "t" 1.
Proof. reflexivity. Qed.

Lemma looping_solver (fuel : nat) :
  FordFulkerson.calculate_max_flow fuel looping_net "s" "t" = OutOfFuel.
Proof.
  change (FordFulkerson.calculate_max_flow fuel looping_net "s" "t")
    with (FordFulkerson._augment_loop fuel fuel looping_net "s" "t" 0).
  destruct fuel as [|[|fuel]]; [reflexivity | reflexivity |].
  rewrite looping_first_round. apply looping_diverges. lia.
Qed.

(** * The other public operations keep a graph well formed *)

(** Rewriting the edge objects in place, without touching ids and ends. *)
Lemma update_edges_wf (g : Graph.t) (h : string -> Edge.t -> Edge.t) :
  (forall k e, Edge.id (h k e) = Edge.id e
               /\ Edge.start_node_id (h k e) = Edge.start_node_id e
               /\ Edge.end_node_id (h k e) = Edge.end_node_id e) ->
  graph_wf g ->
  graph_wf (Graph.mk (Graph.nodes g)
              (map (fun kv => (fst kv, h (fst kv) (snd kv))) (Graph.edges g))
              (Graph.adjacency_list g))
  /\ Graph.get_all_edges
       (Graph.mk (Graph.nodes g)
          (map (fun kv => (fst kv, h (fst kv) (snd kv))) (Graph.edges g))
          (Graph.adjacency_list g))
     = map (fun e => h (Edge.id e) e) (Graph.get_all_edges g).
Proof.
  intros Hh H.
  pose proof (wf_edges_indexed g H) as Hidx.
  pose proof (wf_adjacency g H) as Hadj.
  destruct H as [ND Hn Hids He _].
  assert (Hes : Graph.get_all_edges
                  (Graph.mk (Graph.nodes g)
                     (map (fun kv => (fst kv, h (fst kv) (snd kv))) (Graph.edges g))
                     (Graph.adjacency_list g))
                = map (fun e => h (Edge.id e) e) (Graph.get_all_edges g)).
  { unfold Graph.get_all_edges at 1, Dict.values. simpl.
    rewrite Hidx. unfold index_edges. rewrite !map_map. reflexivity. }
  split; [|exact Hes].
  assert (Hid : map Edge.id (map (fun e => h (Edge.id e) e) (Graph.get_all_edges g))
                = map Edge.id (Graph.get_all_edges g)).
  { rewrite map_map. apply map_ext. intros e. apply Hh. }
  constructor; rewrite ?Hes; simpl Graph.nodes.
  - exact ND.
  - exact Hn.
  - now rewrite Hid.
  - apply Forall_map. revert He. apply Forall_impl. intros e (Hs & Ht & Hne).
    unfold edge_ok. destruct (Hh (Edge.id e) e) as (_ & -> & ->).
    now repeat split.
  - unfold graph_of. f_equal.
    + rewrite Hidx. unfold index_edges. rewrite !map_map. apply map_ext.
      intros e. simpl. f_equal. symmetry. apply Hh.
    + rewrite Hadj. apply map_ext. intros [k n]. simpl. f_equal.
      apply out_ids_ext; [now rewrite Hid|].
      rewrite map_map. apply map_ext. intros e. symmetry. apply Hh.
Qed.

Lemma reset_flows_wf (net : FlowNetwork.t) :
  graph_wf (FlowNetwork.graph net) -> within_capacity (FlowNetwork.graph net) ->
  graph_wf (FlowNetwork.graph (FlowNetwork.reset_flows net))
  /\ within_capacity (FlowNetwork.graph (FlowNetwork.reset_flows net))
  /\ all_zero (FlowNetwork.graph (FlowNetwork.reset_flows net)).
Proof.
  intros H Hcap.
  destruct (update_edges_wf (FlowNetwork.graph net)
              (fun _ e => Edge.set_flow e 0)) as [H' Hes]; [now intros|exact H|].
  change (FlowNetwork.graph (FlowNetwork.reset_flows net))
    with (Graph.mk (Graph.nodes (FlowNetwork.graph net))
            (map (fun kv => (fst kv, Edge.set_flow (snd kv) 0))
                 (Graph.edges (FlowNetwork.graph net)))
            (Graph.adjacency_list (FlowNetwork.graph net))).
  split; [exact H'|]. unfold within_capacity, all_zero in *. rewrite Hes.
  split; apply Forall_map; [|now apply Forall_forall].
  revert Hcap. apply Forall_impl. intros e He. simpl. lia.
Qed.

Lemma set_edge_map (es : Dict.t Edge.t) (k : string) (e : Edge.t)
    (f : Edge.t -> Edge.t) :
  NoDup (Dict.keys es) -> Dict.get es k = Some e ->
  Dict.set es k (f e)
  = map (fun kv => (fst kv, if String.eqb (fst kv) k then f (snd kv)
                            else snd kv)) es.
Proof.
  induction es as [|[k0 e0] es IH]; simpl; [discriminate|].
  intros ND H. inversion ND as [|? ? Hn ND']; subst.
  destruct (String.eqb_spec k0 k) as [->|N].
  - injection H as ->. f_equal. rewrite <- (map_id es) at 1. apply map_ext_in.
    intros [k1 e1] Hk. simpl.
    destruct (String.eqb_spec k1 k) as [->|_]; [|reflexivity].
    exfalso. apply Hn. now apply (in_map fst) in Hk.
  - f_equal. now apply IH.
Qed.

Lemma update_edge_capacity_wf (net net' : FlowNetwork.t) (edge_id : string)
    (c : Z) :
  graph_wf (FlowNetwork.graph net) -> within_capacity (FlowNetwork.graph net) ->
  FlowNetwork.update_edge_capacity net edge_id c = Ret net' ->
  graph_wf (FlowNetwork.graph net')
  /\ within_capacity (FlowNetwork.graph net')
  /\ map Edge.flow (Graph.get_all_edges (FlowNetwork.graph net'))
     = map Edge.flow (Graph.get_all_edges (FlowNetwork.graph net)).
Proof.
  intros H Hcap. unfold FlowNetwork.update_edge_capacity, FlowNetwork.get_edge,
    Graph.get_edge.
  destruct (Dict.get (Graph.edges (FlowNetwork.graph net)) edge_id)
    as [e|] eqn:E; [|discriminate].
  cbn [bind]. destruct (Z.ltb_spec c (Edge.flow e)) as [|Hc]; [discriminate|].
  intros [= <-]. simpl FlowNetwork.graph.
  pose proof (wf_edges_indexed _ H) as Hidx.
  assert (Hkey : Edge.id e = edge_id /\ In e (Graph.get_all_edges (FlowNetwork.graph net))).
  { apply get_In in E. rewrite Hidx in E. unfold index_edges in E.
    apply in_map_iff in E as (e0 & [= <- <-] & He0). now split. }
  destruct Hkey as [Hkey Hin].
  rewrite (set_edge_map _ _ e (fun e0 => Edge.set_capacity e0 c)); [|
    rewrite wf_edge_keys by assumption; apply H | exact E].
  destruct (update_edges_wf (FlowNetwork.graph net)
              (fun k e0 => if String.eqb k edge_id
                           then Edge.set_capacity e0 c else e0)) as [H' Hes].
  { intros k e0. now destruct (String.eqb k edge_id). }
  { exact H. }
  split; [exact H'|]. unfold within_capacity in *. rewrite Hes. split.
  - apply Forall_map. rewrite Forall_forall in *. intros e0 He0.
    specialize (Hcap e0 He0).
    destruct (String.eqb_spec (Edge.id e0) edge_id) as [Heq|_]; [|exact Hcap].
    rewrite <- Hkey in Heq.
    assert (e0 = e) as -> by exact (edge_by_id _ e0 e (wf_edge_ids _ H) He0 Hin Heq).
    simpl. lia.
  - rewrite map_map. apply map_ext. intros e0.
    now destruct (String.eqb (Edge.id e0) edge_id).
Qed.

Lemma set_roles_wf (net : FlowNetwork.t) (node_id : string) (node : Node.t)
    (so si : bool) :
  graph_wf (FlowNetwork.graph net) ->
  Dict.get (Graph.nodes (FlowNetwork.graph net)) node_id = Some node ->
  graph_wf (FlowNetwork.graph (FlowNetwork.set_roles net node_id node so si))
  /\ Graph.get_all_edges
       (FlowNetwork.graph (FlowNetwork.set_roles net node_id node so si))
     = Graph.get_all_edges (FlowNetwork.graph net).
Proof.
  intros H Hget. split; [|reflexivity].
  pose proof (wf_adjacency _ H) as Hadj.
  pose proof (wf_edges_indexed _ H) as Hidx.
  destruct H as [ND Hn Hids He _].
  set (g := FlowNetwork.graph net) in *.
  set (n' := Node.mk (Node.id node) (Node.name node) so si).
  assert (Hkeys : Dict.keys (Dict.set (Graph.nodes g) node_id n')
                  = Dict.keys (Graph.nodes g)).
  { apply keys_set_old. now apply get_Some_key in Hget. }
  assert (Hok : node_ok (node_id, node)).
  { rewrite Forall_forall in Hn. apply Hn. now apply get_In. }
  change (FlowNetwork.graph (FlowNetwork.set_roles net node_id node so si))
    with (Graph.mk (Dict.set (Graph.nodes g) node_id n') (Graph.edges g)
                   (Graph.adjacency_list g)).
  constructor; unfold Graph.get_all_edges in *;
    cbn [Graph.nodes Graph.edges Graph.adjacency_list].
  - now rewrite Hkeys.
  - clear Hkeys Hadj Hidx. revert Hn. generalize (Graph.nodes g).
    intros ns Hn. induction ns as [|[k0 n0] ns IH]; simpl.
    + repeat constructor; apply Hok.
    + inversion Hn as [|? ? H0 Hn']; subst.
      destruct (String.eqb_spec k0 node_id) as [->|_].
      * constructor; [|assumption].
        destruct Hok as (Hi & Hk & Hname). now repeat split.
      * constructor; [assumption | now apply IH].
  - exact Hids.
  - revert He. apply Forall_impl. intros e. unfold edge_ok. now rewrite Hkeys.
  - unfold graph_of. f_equal; [exact Hidx|]. rewrite Hadj.
    assert (Hmap : forall (f : string -> list string) (ns ns' : Dict.t Node.t),
               Dict.keys ns = Dict.keys ns' ->
               map (fun kn => (fst kn, f (fst kn))) ns
               = map (fun kn => (fst kn, f (fst kn))) ns').
    { intros f ns. induction ns as [|[k0 n0] ns IH]; intros [|[k1 n1] ns'] Hk;
        try discriminate; [reflexivity|].
      simpl in *. injection Hk as -> Hk. f_equal. now apply IH. }
    apply Hmap. now rewrite Hkeys.
Qed.

(** ** Removing an edge *)

Lemma filter_all {A} (p : A -> bool) (l : list A) :
  (forall a, In a l -> p a = true) -> filter p l = l.
Proof.
  induction l as [|a l IH]; simpl; intros H; [reflexivity|].
  rewrite (H a) by now left. f_equal. apply IH. intros. apply H. now right.
Qed.

Lemma del_index_edges (es : list Edge.t) (edge_id : string) :
  NoDup (map Edge.id es) ->
  Dict.del (index_edges es) edge_id = index_edges (without_edge edge_id es).
Proof.
  induction es as [|e es IH]; simpl; intros ND; [reflexivity|].
  inversion ND as [|? ? Hn ND']; subst.
  destruct (String.eqb_spec (Edge.id e) edge_id) as [E|N]; simpl.
  - unfold without_edge. rewrite filter_all; [reflexivity|].
    intros e0 He0. apply negb_true_iff, String.eqb_neq. intros E'.
    apply Hn. rewrite E, <- E'. now apply in_map.
  - f_equal. now apply IH.
Qed.

Lemma list_remove_absent (x : string) (l : list string) :
  ~ In x l -> Graph.list_remove x l = l.
Proof.
  induction l as [|y l IH]; simpl; [reflexivity|]. intros H.
  destruct (String.eqb_spec y x) as [->|_]; [tauto|]. f_equal. tauto.
Qed.

Lemma list_remove_ids (es : list Edge.t) (edge_id : string) :
  NoDup (map Edge.id es) ->
  Graph.list_remove edge_id (map Edge.id es)
  = map Edge.id (without_edge edge_id es).
Proof.
  induction es as [|e es IH]; simpl; intros ND; [reflexivity|].
  inversion ND as [|? ? Hn ND']; subst.
  destruct (String.eqb_spec (Edge.id e) edge_id) as [E|N]; simpl.
  - rewrite <- IH by assumption. rewrite list_remove_absent; [reflexivity|].
    now rewrite <- E.
  - f_equal. now apply IH.
Qed.

Lemma filter_comm {A} (p q : A -> bool) (l : list A) :
  filter p (filter q l) = filter q (filter p l).
Proof.
  induction l as [|a l IH]; simpl; [reflexivity|].
  destruct (p a) eqn:P, (q a) eqn:Q; simpl; rewrite ?P, ?Q, IH; reflexivity.
Qed.

Lemma out_ids_without (es : list Edge.t) (edge_id u : string) :
  out_ids (without_edge edge_id es) u
  = map Edge.id (without_edge edge_id (filter (starts_at u) es)).
Proof. unfold out_ids, without_edge. now rewrite filter_comm. Qed.

(** Keeping some of the edges keeps their ids distinct. *)
Lemma kept_edge_ids_NoDup (keep : Edge.t -> bool) (es : list Edge.t) :
  NoDup (map Edge.id es) -> NoDup (map Edge.id (filter keep es)).
Proof.
  induction es as [|e es IH]; simpl; intros ND; [constructor|].
  inversion ND as [|? ? Hn ND']; subst. destruct (keep e); simpl; [|auto].
  constructor; [|auto]. intros H. apply Hn.
  apply in_map_iff in H as (e' & E & He'). apply filter_In in He' as [He' _].
  rewrite <- E. now apply in_map.
Qed.

Lemma remove_edge_wf (g g' : Graph.t) (edge_id : string) :
  graph_wf g -> Graph.remove_edge g edge_id = Ret g' ->
  graph_wf g'
  /\ Graph.nodes g' = Graph.nodes g
  /\ Graph.get_all_edges g' = without_edge edge_id (Graph.get_all_edges g).
Proof.
  intros H. pose proof (wf_edges_indexed g H) as Hidx.
  pose proof (wf_adjacency g H) as Hadj.
  destruct H as [ND Hn Hids He _].
  unfold Graph.remove_edge.
  destruct (Dict.get (Graph.edges g) edge_id) as [e|] eqn:E; [|discriminate].
  assert (Hin : In e (Graph.get_all_edges g) /\ Edge.id e = edge_id).
  { apply get_In in E. rewrite Hidx in E. unfold index_edges in E.
    apply in_map_iff in E as (e0 & [= <- <-] & He0). now split. }
  destruct Hin as [Hin Hid].
  rewrite Forall_forall in He. destruct (He e Hin) as (Hs & Ht & Hne).
  rewrite Hadj at 1. rewrite get_adjacency by assumption.
  assert (Hmem : mem_str edge_id (out_ids (Graph.get_all_edges g)
                                          (Edge.start_node_id e)) = true).
  { apply mem_str_In. unfold out_ids. rewrite <- Hid. apply in_map.
    apply filter_In. split; [assumption|]. apply String.eqb_refl. }
  rewrite Hmem. intros [= <-].
  assert (Hg : Graph.mk (Graph.nodes g) (Dict.del (Graph.edges g) edge_id)
                 (Dict.set (Graph.adjacency_list g) (Edge.start_node_id e)
                    (Graph.list_remove edge_id
                       (out_ids (Graph.get_all_edges g) (Edge.start_node_id e))))
               = graph_of (Graph.nodes g)
                          (without_edge edge_id (Graph.get_all_edges g))).
  { unfold graph_of. f_equal.
    - rewrite Hidx. now apply del_index_edges.
    - rewrite Hadj.
      replace (Graph.list_remove edge_id
                 (out_ids (Graph.get_all_edges g) (Edge.start_node_id e)))
        with ((fun u => out_ids (without_edge edge_id (Graph.get_all_edges g)) u)
                (Edge.start_node_id e)).
      + apply set_adjacency; [assumption..|].
        intros k Hk. rewrite out_ids_without. unfold out_ids. f_equal.
        unfold without_edge. apply filter_all.
        intros e0 He0. apply filter_In in He0 as [He0 Hs0].
        apply negb_true_iff, String.eqb_neq. intros E'.
        apply Hk. rewrite <- Hid in E'.
        rewrite <- (edge_by_id _ e0 e Hids He0 Hin E').
        now apply String.eqb_eq in Hs0.
      + rewrite out_ids_without. unfold out_ids.
        symmetry. apply list_remove_ids. now apply kept_edge_ids_NoDup. }
  rewrite Hg. split; [|split; [reflexivity | apply edges_graph_of]].
  apply graph_of_wf; try assumption.
  - now apply kept_edge_ids_NoDup.
  - apply Forall_forall. intros e0 He0. apply filter_In in He0 as [He0 _].
    now apply He.
Qed.

(** ** Removing a node *)

Lemma remove_edge_returns (g : Graph.t) (edge_id : string) :
  Dict.mem (Graph.edges g) edge_id = true ->
  exists g', Graph.remove_edge g edge_id = Ret g'.
Proof.
  unfold Dict.mem, Graph.remove_edge.
  destruct (Dict.get (Graph.edges g) edge_id); [|discriminate].
  intros _. now eexists.
Qed.

Lemma filter_and {A} (p q : A -> bool) (l : list A) :
  filter p (filter q l) = filter (fun a => q a && p a) l.
Proof.
  induction l as [|a l IH]; simpl; [reflexivity|].
  destruct (q a); simpl; [destruct (p a)|]; now rewrite IH.
Qed.

Lemma remove_edges_wf (ids : list string) :
  forall g, graph_wf g -> NoDup ids ->
  incl ids (map Edge.id (Graph.get_all_edges g)) ->
  exists g', for_each Graph.remove_edge ids g = Ret g'
    /\ graph_wf g' /\ Graph.nodes g' = Graph.nodes g
    /\ Graph.get_all_edges g'
       = filter (fun e => negb (mem_str (Edge.id e) ids)) (Graph.get_all_edges g).
Proof.
  induction ids as [|x ids IH]; intros g H ND Hin; simpl.
  - exists g. split; [reflexivity|]. split; [assumption|].
    split; [reflexivity|]. symmetry. now apply filter_all.
  - inversion ND as [|? ? Hx ND']; subst.
    destruct (remove_edge_returns g x) as [g1 E1].
    { apply mem_In. rewrite wf_edge_keys by assumption. apply Hin. now left. }
    rewrite E1. cbn [bind].
    destruct (remove_edge_wf g g1 x H E1) as (H1 & Hn1 & He1).
    destruct (IH g1 H1 ND') as (g' & E' & H' & Hn' & He').
    { intros y Hy. rewrite He1. unfold without_edge.
      assert (Hy' : In y (map Edge.id (Graph.get_all_edges g)))
        by (apply Hin; now right).
      apply in_map_iff in Hy' as (e & <- & He). apply in_map.
      apply filter_In. split; [assumption|].
      apply negb_true_iff, String.eqb_neq. intros <-. contradiction. }
    exists g'. split; [exact E'|]. split; [exact H'|].
    split; [congruence|]. rewrite He', He1. unfold without_edge.
    rewrite filter_and. apply filter_ext. intros e.
    unfold mem_str. simpl. now rewrite negb_orb.
Qed.

Lemma del_adjacency (ns : Dict.t Node.t) (f : string -> list string)
    (k : string) :
  Dict.del (map (fun kn => (fst kn, f (fst kn))) ns) k
  = map (fun kn => (fst kn, f (fst kn))) (Dict.del ns k).
Proof.
  induction ns as [|[k0 n0] ns IH]; simpl; [reflexivity|].
  destruct (String.eqb k0 k); simpl; [reflexivity | now rewrite IH].
Qed.

Lemma in_del {V} (d : Dict.t V) (k : string) (kv : string * V) :
  In kv (Dict.del d k) -> In kv d.
Proof.
  induction d as [|[k0 v0] d IH]; simpl; [tauto|].
  destruct (String.eqb k0 k); simpl; tauto.
Qed.

Lemma keys_del {V} (d : Dict.t V) (k x : string) :
  NoDup (Dict.keys d) ->
  (In x (Dict.keys (Dict.del d k)) <-> In x (Dict.keys d) /\ x <> k).
Proof.
  induction d as [|[k0 v0] d IH]; simpl; intros ND; [tauto|].
  inversion ND as [|? ? Hn ND']; subst.
  destruct (String.eqb_spec k0 k) as [->|N]; simpl.
  - split; [|intuition congruence].
    intros H. split; [now right|]. intros ->. contradiction.
  - rewrite IH by assumption. intuition congruence.
Qed.

Lemma NoDup_keys_del {V} (d : Dict.t V) (k : string) :
  NoDup (Dict.keys d) -> NoDup (Dict.keys (Dict.del d k)).
Proof.
  induction d as [|[k0 v0] d IH]; simpl; intros ND; [constructor|].
  inversion ND as [|? ? Hn ND']; subst.
  destruct (String.eqb k0 k); simpl; [assumption|].
  constructor; [|auto]. intros H. apply Hn.
  apply in_map_iff in H as ([k1 v1] & E & Hin). simpl in E. subst.
  apply in_del in Hin. now apply (in_map fst) in Hin.
Qed.

Lemma keys_filter_index (p : Edge.t -> bool) (es : list Edge.t) :
  map fst (filter (fun kv => p (snd kv)) (index_edges es))
  = map Edge.id (filter p es).
Proof.
  induction es as [|e es IH]; simpl; [reflexivity|].
  destruct (p e); simpl; now rewrite IH.
Qed.

Lemma remove_node_wf (g : Graph.t) (node_id : string) :
  graph_wf g -> Dict.mem (Graph.nodes g) node_id = true ->
  exists g', Graph.remove_node g node_id = Ret g'
    /\ graph_wf g'
    /\ Graph.nodes g' = Dict.del (Graph.nodes g) node_id
    /\ Graph.get_all_edges g'
       = filter (fun e => negb (String.eqb (Edge.start_node_id e) node_id
                                || String.eqb (Edge.end_node_id e) node_id))
                (Graph.get_all_edges g).
Proof.
  intros H Hmem. unfold Graph.remove_node. rewrite Hmem. simpl negb.
  pose proof (wf_edges_indexed g H) as Hidx.
  set (incident := fun e => String.eqb (Edge.start_node_id e) node_id
                            || String.eqb (Edge.end_node_id e) node_id).
  assert (Hids : map fst (filter (fun kv => incident (snd kv)) (Graph.edges g))
                 = map Edge.id (filter incident (Graph.get_all_edges g))).
  { rewrite Hidx. apply keys_filter_index. }
  change (map fst (filter _ (Graph.edges g)))
    with (map fst (filter (fun kv => incident (snd kv)) (Graph.edges g))).
  rewrite Hids.
  destruct (remove_edges_wf (map Edge.id (filter incident (Graph.get_all_edges g)))
              g H) as (g1 & E1 & H1 & Hn1 & He1).
  { apply kept_edge_ids_NoDup, H. }
  { intros x Hx. apply in_map_iff in Hx as (e & <- & He).
    apply in_map. now apply filter_In in He. }
  rewrite E1. cbn [bind].
  assert (Hes1 : Graph.get_all_edges g1
                 = filter (fun e => negb (incident e)) (Graph.get_all_edges g)).
  { rewrite He1. apply filter_ext_in. intros e He. f_equal.
    destruct (incident e) eqn:Ei.
    - apply mem_str_In. apply in_map. now apply filter_In.
    - apply mem_str_not_In. intros Hin.
      apply in_map_iff in Hin as (e' & E' & He').
      apply filter_In in He' as [He' Hi'].
      rewrite (edge_by_id _ e' e (wf_edge_ids g H) He' He E') in Hi'. congruence. }
  pose proof (wf_adjacency g1 H1) as Hadj1.
  assert (Hkey : In node_id (Dict.keys (Graph.nodes g))) by now apply mem_In.
  assert (Hm : Dict.mem (Graph.adjacency_list g1) node_id = true).
  { apply mem_In. rewrite Hadj1. unfold Dict.keys. rewrite map_map. simpl.
    now rewrite Hn1. }
  rewrite Hm. eexists. split; [reflexivity|].
  assert (Hg : Graph.mk (Dict.del (Graph.nodes g1) node_id) (Graph.edges g1)
                 (Dict.del (Graph.adjacency_list g1) node_id)
               = graph_of (Dict.del (Graph.nodes g) node_id)
                          (Graph.get_all_edges g1)).
  { unfold graph_of. rewrite Hn1. f_equal.
    - apply (wf_edges_indexed g1 H1).
    - rewrite Hadj1, Hn1. apply del_adjacency. }
  rewrite Hg. split; [|split; [reflexivity | now rewrite edges_graph_of]].
  destruct H as [ND Hn Hi He _].
  apply graph_of_wf.
  - now apply NoDup_keys_del.
  - apply Forall_forall. intros kn Hkn. apply in_del in Hkn.
    rewrite Forall_forall in Hn. now apply Hn.
  - apply H1.
  - rewrite Hes1. apply Forall_forall. intros e He'.
    apply filter_In in He' as [He' Hinc].
    rewrite Forall_forall in He. destruct (He e He') as (Hs & Ht & Hne).
    unfold incident in Hinc. apply negb_true_iff, orb_false_iff in Hinc.
    destruct Hinc as [Hs' Ht']. apply String.eqb_neq in Hs', Ht'.
    repeat split; try assumption; apply keys_del; auto.
Qed.

(** * What holds in every reachable network *)

Lemma solver_returns_distinct (fuel : nat) self s t r :
  FordFulkerson.calculate_max_flow fuel self s t = Ret r -> s <> t.
Proof.
  unfold FordFulkerson.calculate_max_flow.
  destruct (negb (Dict.mem _ s)); [discriminate|].
  destruct (negb (Dict.mem _ t)); [discriminate|].
  destruct (String.eqb_spec s t); [discriminate | trivial].
Qed.

(** A computation that returns, with whatever fuel, is the one that
    [facade_runs] describes. *)
Lemma facade_returned (set_order : list string -> list string) (fuel : nat)
    (net net' : FlowNetwork.t) (v : Z) (S T : list string) :
  graph_wf (FlowNetwork.graph net) -> ids_decode (FlowNetwork.graph net) ->
  within_capacity (FlowNetwork.graph net) ->
  FlowNetwork.calculate_max_flow set_order fuel net = Ret (v, S, T, net') ->
  exists source sink f V,
    FlowNetwork.get_source_node net = Ret source
    /\ FlowNetwork.get_sink_node net = Ret sink
    /\ Node.id source <> Node.id sink
    /\ FlowNetwork.graph net' = shift_flows f (FlowNetwork.graph net)
    /\ S = set_order V
    /\ T = filter (fun node_id => negb (mem_str node_id V))
                  (Dict.keys (Graph.nodes (FlowNetwork.graph net)))
    /\ v = net_out (FlowNetwork.graph net') (Node.id source)
           - net_out (FlowNetwork.graph net) (Node.id source)
    /\ 0 <= v
    /\ within_capacity (FlowNetwork.graph net')
    /\ (forall x, x <> Node.id source -> x <> Node.id sink ->
                  net_out (FlowNetwork.graph net') x
                  = net_out (FlowNetwork.graph net) x)
    /\ NoDup V /\ In (Node.id source) V /\ ~ In (Node.id sink) V
    /\ arc_closed (residual_arcs (Graph.get_all_edges (FlowNetwork.graph net')))
                  V.
Proof.
  intros H Hd Hcap Hcalc.
  assert (Hpre : exists source sink,
             FlowNetwork.get_source_node net = Ret source
             /\ FlowNetwork.get_sink_node net = Ret sink
             /\ Node.id source <> Node.id sink).
  { revert Hcalc. unfold FlowNetwork.calculate_max_flow. intros Hcalc.
    apply bind_Ret in Hcalc as (source & Hs & Hcalc).
    apply bind_Ret in Hcalc as (sink & Ht & Hcalc).
    apply bind_Ret in Hcalc as (r & Hsolve & _).
    exists source, sink. repeat split; try assumption.
    now apply solver_returns_distinct in Hsolve. }
  destruct Hpre as (source & sink & Hs & Ht & Hst).
  set (big := Nat.max fuel (fuel_for (FlowNetwork.graph net))).
  destruct (facade_runs set_order net source sink big H Hd Hcap Hs Ht Hst)
    as (f & V & Hrun & Hup & Hcap' & Hcons & HV); [lia|].
  apply (facade_more _ _ big) in Hcalc; [|lia].
  rewrite Hrun in Hcalc. injection Hcalc as <- <- <- <-.
  exists source, sink, f, V. simpl FlowNetwork.graph.
  repeat (split; [first [assumption | reflexivity | lia]|]). exact HV.
Qed.

Lemma new_network : FlowNetwork.new = Ret no_network.
Proof. reflexivity. Qed.

Lemma sublist_decode (g g' : Graph.t) (p : Edge.t -> bool) :
  Graph.get_all_edges g' = filter p (Graph.get_all_edges g) ->
  (ids_decode g -> ids_decode g')
  /\ (within_capacity g -> within_capacity g').
Proof.
  intros E. unfold ids_decode, within_capacity. rewrite E. split; intros H.
  - apply Forall_forall. intros x Hx. apply in_map_iff in Hx as (e & <- & He).
    apply filter_In in He as [He _]. rewrite Forall_forall in H. apply H.
    now apply in_map.
  - apply Forall_forall. intros e He. apply filter_In in He as [He _].
    rewrite Forall_forall in H. now apply H.
Qed.

(** The capacity bound, with plain edge ids: every reachable network is well
    formed, has decodable edge ids and keeps [0 <= flow <= capacity] on every
    edge. *)
Lemma reachable_invariants (net : FlowNetwork.t) :
  reachable net ->
  graph_wf (FlowNetwork.graph net) /\ ids_decode (FlowNetwork.graph net)
  /\ within_capacity (FlowNetwork.graph net).
Proof.
  induction 1 as
    [ net Hnew
    | net net' k name so si n _ IH Hop
    | net net' id u v c e _ IH Hplain Hop
    | net net' k _ IH Hop
    | net net' id _ IH Hop
    | net net' k _ IH Hop
    | net net' k _ IH Hop
    | net net' id c _ IH Hop
    | net _ IH
    | net net' o fuel v S T _ IH Hop ];
    try destruct IH as (H & Hd & Hcap).
  - rewrite new_network in Hnew. injection Hnew as <-.
    split; [apply empty_wf | split; [unfold ids_decode|unfold within_capacity];
                              simpl; constructor].
  - unfold FlowNetwork.add_node in Hop.
    apply bind_Ret in Hop as ([g' n'] & Hg & [= <- <-]).
    destruct (add_node_wf _ _ _ _ _ _ _ H Hg) as [H' Hes]. simpl.
    unfold ids_decode, within_capacity. rewrite Hes.
    split; [exact H'|split; [exact Hd | exact Hcap]].
  - unfold FlowNetwork.add_edge in Hop.
    apply bind_Ret in Hop as ([g' e'] & Hg & [= <- <-]).
    destruct (add_edge_wf _ _ _ _ _ _ _ H Hg) as (H' & -> & Hc & Hes). simpl.
    unfold ids_decode, within_capacity. rewrite Hes, map_app.
    split; [exact H'|]. split; apply Forall_app.
    + split; [exact Hd|]. constructor; [|constructor]. simpl.
      now apply plain_id_decodes.
    + split; [exact Hcap|]. constructor; [|constructor]. simpl. lia.
  - unfold FlowNetwork.remove_node in Hop.
    apply bind_Ret in Hop as (g' & Hg & [= <-]). simpl.
    destruct (Dict.mem (Graph.nodes (FlowNetwork.graph net)) k) eqn:Em.
    + destruct (remove_node_wf _ k H Em) as (g1 & Hg1 & H' & _ & Hes).
      rewrite Hg in Hg1. injection Hg1 as <-.
      split; [exact H'|]. split; now apply (sublist_decode _ _ _ Hes).
    + unfold Graph.remove_node in Hg. rewrite Em in Hg. discriminate.
  - unfold FlowNetwork.remove_edge in Hop.
    apply bind_Ret in Hop as (g' & Hg & [= <-]). simpl.
    destruct (remove_edge_wf _ _ _ H Hg) as (H' & _ & Hes).
    split; [exact H'|]. split; now apply (sublist_decode _ _ _ Hes).
  - unfold FlowNetwork.set_node_as_source, FlowNetwork.get_node,
      Graph.get_node in Hop.
    destruct (Dict.get _ k) as [n|] eqn:E; [|discriminate].
    cbn [bind] in Hop. injection Hop as <-.
    destruct (set_roles_wf net k n true false H E) as [H' Hes].
    unfold ids_decode, within_capacity. rewrite Hes.
    split; [exact H'|split; [exact Hd | exact Hcap]].
  - unfold FlowNetwork.set_node_as_sink, FlowNetwork.get_node,
      Graph.get_node in Hop.
    destruct (Dict.get _ k) as [n|] eqn:E; [|discriminate].
    cbn [bind] in Hop. injection Hop as <-.
    destruct (set_roles_wf net k n false true H E) as [H' Hes].
    unfold ids_decode, within_capacity. rewrite Hes.
    split; [exact H'|split; [exact Hd | exact Hcap]].
  - destruct (update_edge_capacity_wf _ _ _ _ H Hcap Hop) as (H' & Hcap' & _).
    split; [exact H'|]. split; [|exact Hcap'].
    revert Hop. unfold FlowNetwork.update_edge_capacity, FlowNetwork.get_edge,
      Graph.get_edge.
    destruct (Dict.get _ id) as [e|] eqn:E; [|discriminate]. cbn [bind].
    destruct (c <? Edge.flow e); [discriminate|]. intros [= <-].
    simpl FlowNetwork.graph.
    rewrite (set_edge_map _ _ e (fun e0 => Edge.set_capacity e0 c));
      [| rewrite wf_edge_keys by assumption; apply H | exact E].
    destruct (update_edges_wf (FlowNetwork.graph net)
                (fun k e0 => if String.eqb k id
                             then Edge.set_capacity e0 c else e0))
      as [_ Hes]; [|exact H|].
    { intros k e0. now destruct (String.eqb k id). }
    unfold ids_decode. rewrite Hes, map_map.
    erewrite map_ext; [exact Hd|]. intros e0. simpl.
    now destruct (String.eqb (Edge.id e0) id).
  - destruct (reset_flows_wf net H Hcap) as (H' & Hcap' & _).
    split; [exact H'|]. split; [|exact Hcap'].
    rewrite reset_flows_zeroed. unfold ids_decode, zeroed, Graph.get_all_edges,
      Dict.values in *. simpl. rewrite !map_map in *. exact Hd.
  - destruct (facade_returned _ _ _ _ _ _ _ H Hd Hcap Hop)
      as (source & sink & f & V & _ & _ & _ & Hg & _ & _ & _ & _ & Hcap' & _).
    rewrite Hg. split; [now apply shift_flows_wf|].
    split; [now apply shift_flows_decode | now rewrite <- Hg].
Qed.

(** A history within the bound is a history. *)
Lemma exact_run_reachable (net : FlowNetwork.t) : exact_run net -> reachable net.
Proof.
  induction 1.
  - now apply reach_new.
  - eapply reach_add_node; eassumption.
  - eapply reach_add_edge; eassumption.
  - eapply reach_remove_node; eassumption.
  - eapply reach_remove_edge; eassumption.
  - eapply reach_set_source; eassumption.
  - eapply reach_set_sink; eassumption.
  - eapply reach_update_capacity; eassumption.
  - now apply reach_reset.
  - eapply reach_max_flow; eassumption.
Qed.

(** X23: with plain edge ids and integer capacities that add up to at most
    2^53 after every [add_edge] and [update_edge_capacity], the capacity
    bound holds at every state that the public operations reach: every edge
    has 0 <= flow <= capacity. *)
Lemma capacity_bound_with_plain_ids (net : FlowNetwork.t) :
  exact_run net ->
  Forall (fun e => 0 <= Edge.flow e <= Edge.capacity e)
         (Graph.get_all_edges (FlowNetwork.graph net)).
Proof.
  intros H. apply exact_run_reachable in H. apply reachable_invariants, H.
Qed.

(** X24: with plain edge ids and integer capacities that add up to at most
    2^53, a computation that started from all-zero flows and returned
    leaves every node but the source and the sink with as much flow coming
    in as going out. *)
Lemma conservation_with_plain_ids (set_order : list string -> list string)
    (fuel : nat) (net net' : FlowNetwork.t) (v : Z) (S T : list string) :
  reachable net -> exact (FlowNetwork.graph net) ->
  all_zero (FlowNetwork.graph net) ->
  FlowNetwork.calculate_max_flow set_order fuel net = Ret (v, S, T, net') ->
  exists source sink,
    FlowNetwork.get_source_node net = Ret source
    /\ FlowNetwork.get_sink_node net = Ret sink
    /\ forall x, x <> Node.id source -> x <> Node.id sink ->
                 inflow (FlowNetwork.graph net') x
                 = outflow (FlowNetwork.graph net') x.
Proof.
  intros Hreach _ Hz Hcalc.
  destruct (reachable_invariants net Hreach) as (H & Hd & Hcap).
  destruct (facade_returned _ _ _ _ _ _ _ H Hd Hcap Hcalc)
    as (source & sink & f & V & Hs & Ht & _ & _ & _ & _ & _ & _ & _ & Hcons & _).
  exists source, sink. split; [exact Hs|]. split; [exact Ht|].
  intros x Hxs Hxt. specialize (Hcons x Hxs Hxt).
  rewrite (all_zero_net_out _ _ Hz) in Hcons. unfold net_out in Hcons. lia.
Qed.

(** With plain edge ids the loop of [calculate_max_flow] ends: the facade
    returns for every fuel from [fuel_for] on. *)
Lemma termination_with_plain_ids (set_order : list string -> list string)
    (fuel : nat) (net : FlowNetwork.t) (source sink : Node.t) :
  reachable net ->
  FlowNetwork.get_source_node net = Ret source ->
  FlowNetwork.get_sink_node net = Ret sink ->
  Node.id source <> Node.id sink ->
  (fuel_for (FlowNetwork.graph net) <= fuel)%nat ->
  exists v S T net',
    FlowNetwork.calculate_max_flow set_order fuel net = Ret (v, S, T, net')
    /\ 0 <= v.
Proof.
  intros Hreach Hs Ht Hst Hfuel.
  destruct (reachable_invariants net Hreach) as (H & Hd & Hcap).
  destruct (facade_runs set_order net source sink fuel H Hd Hcap Hs Ht Hst
              Hfuel) as (f & V & Hrun & Hup & _).
  do 4 eexists. split; [exact Hrun | lia].
Qed.

(** * The example networks *)

Lemma chain_build : build chain_ops = Ret chain_net.
Proof. vm_compute. reflexivity. Qed.

Lemma chain_decodes : ids_decode (FlowNetwork.graph chain_net).
Proof. repeat constructor. Qed.

Lemma plain_by_computation (id : string) :
  occurs "_forward" id = false -> occurs "_backward" id = false -> plain_id id.
Proof. now split. Qed.

(** A network built by insertions with plain edge ids is reachable. *)
Lemma build_reachable (ops : list insertion) (net : FlowNetwork.t) :
  Forall (fun op => match op with
                    | AddEdge edge_id _ _ _ => plain_id edge_id
                    | AddNode _ _ _ _ => True
                    end) ops ->
  build ops = Ret net -> reachable net.
Proof.
  unfold build. intros Hops H. apply bind_Ret in H as (net0 & Hnew & H).
  assert (H0 : reachable net0) by now apply reach_new.
  clear Hnew. revert net0 H0 H.
  induction Hops as [|op ops Hop _ IH]; intros net0 H0 H; simpl in H.
  - now injection H as <-.
  - apply bind_Ret in H as (net1 & H1 & H). apply (IH net1); [|exact H].
    destruct op as [k name so si | id u v c]; simpl in H1.
    + apply bind_Ret in H1 as ([net2 n] & H1 & [= <-]).
      eapply reach_add_node; eassumption.
    + apply bind_Ret in H1 as ([net2 e] & H1 & [= <-]).
      eapply reach_add_edge; eassumption.
Qed.

Lemma chain_reachable : reachable chain_net.
Proof.
  apply (build_reachable chain_ops); [|exact chain_build].
  repeat constructor.
Qed.

Lemma chain_solved_reachable : reachable chain_net_solved.
Proof.
  apply (reach_max_flow chain_net chain_net_solved (fun l => l) 12
           5 ["A"; "s"] ["t"] chain_reachable).
  vm_compute. reflexivity.
Qed.

Lemma chain_first_run :
  FlowNetwork.calculate_max_flow (fun l => l) 12 chain_net
  = Ret (5, ["A"; "s"], ["t"], chain_net_solved).
Proof. vm_compute. reflexivity. Qed.


Lemma crossed_build : build crossed_ops = Ret crossed_net.
Proof. vm_compute. reflexivity. Qed.

Lemma crossed_run :
  FlowNetwork.calculate_max_flow (fun l => l) 12 crossed_net
  = Ret (5, ["m"; "s"], ["x"; "t"], crossed_net_solved).
Proof. vm_compute. reflexivity. Qed.

Lemma both_roles_build : build both_roles_ops = Ret both_roles_net.
Proof. vm_compute. reflexivity. Qed.

(** * The properties of the specification *)

(** C1, as stated, fails: flows persist between computations, so on the
    chain s -> A -> t that one computation has saturated, a reachable network
    with plain edge ids that passes validation with distinct source and
    sink, [calculate_max_flow] returns 0 while the edges from S to T have
    capacity 5. *)
Lemma second_run_value_is_not_the_cut :
  ~ (forall (net : FlowNetwork.t) (fuel : nat) (source sink : Node.t)
            (v : Z) (S T : list string) (net' : FlowNetwork.t),
       reachable net ->
       FlowNetwork.validate_network fuel net = Ret true ->
       FlowNetwork.get_source_node net = Ret source ->
       FlowNetwork.get_sink_node net = Ret sink ->
       Node.id source <> Node.id sink ->
       FlowNetwork.calculate_max_flow (fun l => l) fuel net
       = Ret (v, S, T, net') ->
       v = cut_capacity (FlowNetwork.graph net') S T).
Proof.
  intros H.
  specialize (H chain_net_solved 12%nat
                (Node.mk "s" "Source" true false) (Node.mk "t" "Sink" false true)
                0 ["A"; "s"] ["t"] chain_net_solved
                chain_solved_reachable).
  assert (E : 0 = cut_capacity (FlowNetwork.graph chain_net_solved)
                               ["A"; "s"] ["t"]).
  { apply H.
    - vm_compute. reflexivity.
    - reflexivity.
    - reflexivity.
    - discriminate.
    - vm_compute. reflexivity. }
  vm_compute in E. discriminate E.
Qed.

(** C1 (amended): for every network that the public operations build with
    plain edge ids (ids that contain neither [_forward] nor [_backward]),
    with integer capacities that add up to at most 2^53, so that binary64
    computes every sum and difference of the run exactly, and whose flows
    are all zero: if it passes validation and its source differs from its
    sink, then [calculate_max_flow] returns, and the value it returns is the
    sum of the capacities of the edges from the returned set S to the
    returned set T. *)
Theorem max_flow_equals_min_cut (set_order : list string -> list string)
    (net : FlowNetwork.t) (fv fuel : nat) (source sink : Node.t) :
  (forall V x, In x (set_order V) <-> In x V) ->
  reachable net ->
  exact (FlowNetwork.graph net) ->
  all_zero (FlowNetwork.graph net) ->
  FlowNetwork.validate_network fv net = Ret true ->
  FlowNetwork.get_source_node net = Ret source ->
  FlowNetwork.get_sink_node net = Ret sink ->
  Node.id source <> Node.id sink ->
  (fuel_for (FlowNetwork.graph net) <= fuel)%nat ->
  exists v S T net',
    FlowNetwork.calculate_max_flow set_order fuel net = Ret (v, S, T, net')
    /\ v = cut_capacity (FlowNetwork.graph net') S T.
Proof.
  intros Hset Hreach _ Hz _ Hsrc Hsnk Hst Hfuel.
  destruct (reachable_invariants net Hreach) as (H & Hd & Hcap).
  destruct (facade_spec set_order net source sink fuel Hset H Hd Hcap
              (all_zero_conserved _ _ _ Hz) Hsrc Hsnk Hst Hfuel)
    as (v & S & T & net' & Hcalc & Hcut & _).
  exists v, S, T, net'. split; [exact Hcalc|].
  rewrite (all_zero_net_out _ _ Hz) in Hcut. lia.
Qed.

Lemma chain_exact : exact (FlowNetwork.graph chain_net).
Proof. unfold exact. vm_compute. discriminate. Qed.

Lemma max_flow_equals_min_cut_witness :
  reachable chain_net
  /\ exact (FlowNetwork.graph chain_net)
  /\ all_zero (FlowNetwork.graph chain_net)
  /\ FlowNetwork.validate_network 5 chain_net = Ret true
  /\ exists v S T net',
       FlowNetwork.calculate_max_flow (fun l => l) 36 chain_net
       = Ret (v, S, T, net')
       /\ v = cut_capacity (FlowNetwork.graph net') S T.
Proof.
  assert (Hz : all_zero (FlowNetwork.graph chain_net)) by repeat constructor.
  split; [exact chain_reachable|]. split; [exact chain_exact|].
  split; [exact Hz|]. split; [vm_compute; reflexivity|].
  apply (max_flow_equals_min_cut (fun l => l) chain_net 5 36
           (Node.mk "s" "Source" true false) (Node.mk "t" "Sink" false true)).
  - intros V x. reflexivity.
  - exact chain_reachable.
  - exact chain_exact.
  - exact Hz.
  - vm_compute. reflexivity.
  - reflexivity.
  - reflexivity.
  - discriminate.
  - vm_compute. lia.
Defined.

(** Outside that range the equality is lost to rounding.  With capacities
    0.9 (s -> a), 0.3 (a -> t), 5 (a -> b) and 5 (b -> t), a fresh network
    with plain edge ids that passes validation, the solver pushes 0.3 and
    then 0.9 - 0.3 = 0.6000000000000001 and returns their sum,
    0.9000000000000001; the edge s -> a is the one edge from S to T, and
    both the returned value and the flow left on that edge are above its
    capacity 0.9. *)
Lemma binary64_value_is_not_the_cut :
  exists net v S T net' e1,
    Py.build Py.tenths_ops = Ret net
    /\ Py.FlowNetwork.validate_network 6 net = Ret true
    /\ Py.FlowNetwork.calculate_max_flow (fun l => l) 8 net
       = Ret (v, S, T, net')
    /\ Py.crossing net' S T = [e1]
    /\ Py.Num.gtb v (Py.Edge.capacity e1) = true
    /\ Py.Num.gtb (Py.Edge.flow e1) (Py.Edge.capacity e1) = true.
Proof.
  do 6 eexists.
  split; [vm_compute; reflexivity|].
  split; [vm_compute; reflexivity|].
  split; [vm_compute; reflexivity|].
  split; [vm_compute; reflexivity|].
  split; vm_compute; reflexivity.
Qed.

(** C2 fails on a network the public operations build: with edges [a]
    (s -> x, capacity 1) and [a_forward] (s -> m, capacity 5), the arc
    [a_forward_forward] of the second edge is decoded to edge [a], so the
    computation ends with edge [a] carrying 5 against a capacity of 1. *)
Theorem capacity_bound_broken_on_crossed_ids :
  build crossed_ops = Ret crossed_net
  /\ within_capacity (FlowNetwork.graph crossed_net)
  /\ FlowNetwork.calculate_max_flow (fun l => l) 12 crossed_net
     = Ret (5, ["m"; "s"], ["x"; "t"], crossed_net_solved)
  /\ FlowNetwork.get_edge crossed_net_solved "a" = Ret (Edge.mk "a" "s" "x" 1 5)
  /\ ~ within_capacity (FlowNetwork.graph crossed_net_solved).
Proof.
  split; [exact crossed_build|].
  split; [repeat constructor; simpl; lia|].
  split; [exact crossed_run|]. split; [reflexivity|].
  intros H. inversion H as [|? ? Ha _]. simpl in Ha. lia.
Qed.

(** C3 fails on the same network: the computation starts from all-zero
    flows, completes, and leaves node [x], which is neither source nor sink,
    with 5 flowing in and nothing flowing out. *)
Theorem conservation_broken_on_crossed_ids :
  all_zero (FlowNetwork.graph crossed_net)
  /\ FlowNetwork.calculate_max_flow (fun l => l) 12 crossed_net
     = Ret (5, ["m"; "s"], ["x"; "t"], crossed_net_solved)
  /\ inflow (FlowNetwork.graph crossed_net_solved) "x" = 5
  /\ outflow (FlowNetwork.graph crossed_net_solved) "x" = 0
  /\ ~ conserved (FlowNetwork.graph crossed_net_solved) "s" "t".
Proof.
  split; [repeat constructor|]. split; [exact crossed_run|].
  split; [reflexivity|]. split; [reflexivity|].
  intros H. specialize (H "x"). vm_compute in H.
  assert (E : 5 = 0) by (apply H; discriminate). discriminate E.
Qed.

(** C4 fails on a network with integer capacities and a valid source and
    sink: with parallel edges [e] (capacity 1) and [e_forward] (capacity 5),
    every round after the first finds the arc [e_forward_forward] and adds 5
    to edge [e], so no amount of fuel lets [calculate_max_flow] return. *)
Theorem augmentation_never_ends_on_looping_ids :
  build looping_ops = Ret looping_net
  /\ FlowNetwork.validate_network 5 looping_net = Ret true
  /\ forall (set_order : list string -> list string) (fuel : nat),
       FlowNetwork.calculate_max_flow set_order fuel looping_net = OutOfFuel.
Proof.
  split; [exact looping_build|]. split; [vm_compute; reflexivity|].
  intros set_order fuel. unfold FlowNetwork.calculate_max_flow.
  change (FlowNetwork.get_source_node looping_net)
    with (Ret (Node.mk "s" "s" true false)).
  change (FlowNetwork.get_sink_node looping_net)
    with (Ret (Node.mk "t" "t" false true)).
  cbn [bind Node.id]. now rewrite looping_solver.
Qed.

Lemma mem_false_get {V} (d : Dict.t V) (k : string) :
  Dict.mem d k = false -> Dict.get d k = None.
Proof. unfold Dict.mem. now destruct (Dict.get d k). Qed.

(** C5 fails: [graph.py] and [algorithms.py] never import the names
    [NodeNotFoundError] and [EdgeNotFoundError], so for every graph,
    [get_node] and [get_edge] on an absent id, and [calculate_max_flow] with
    an absent source or sink, raise NameError, not the NotFound errors of
    [exceptions.py]. *)
Theorem missing_id_raises_NameError (g R : Graph.t)
    (node_id edge_id other_id : string) (fuel : nat) :
  Dict.mem (Graph.nodes g) node_id = false ->
  Dict.mem (Graph.edges g) edge_id = false ->
  Dict.mem (Graph.nodes g) other_id = true ->
  Graph.get_node g node_id = Raise (NameError "NodeNotFoundError")
  /\ Graph.get_edge g edge_id = Raise (NameError "EdgeNotFoundError")
  /\ FordFulkerson.calculate_max_flow fuel (FordFulkerson.mk g R)
       node_id other_id = Raise (NameError "NodeNotFoundError")
  /\ FordFulkerson.calculate_max_flow fuel (FordFulkerson.mk g R)
       other_id node_id = Raise (NameError "NodeNotFoundError")
  /\ Graph.get_node g node_id <> Raise (NodeNotFoundError node_id)
  /\ Graph.get_edge g edge_id <> Raise (EdgeNotFoundError edge_id).
Proof.
  intros Hn He Ho.
  unfold Graph.get_node, Graph.get_edge, FordFulkerson.calculate_max_flow.
  simpl FordFulkerson.graph.
  rewrite (mem_false_get _ _ Hn), (mem_false_get _ _ He), Hn, Ho. simpl.
  repeat split; discriminate.
Qed.

Lemma missing_id_raises_NameError_witness :
  Graph.get_node (FlowNetwork.graph chain_net) "X"
  = Raise (NameError "NodeNotFoundError")
  /\ Graph.get_edge (FlowNetwork.graph chain_net) "e9"
     = Raise (NameError "EdgeNotFoundError")
  /\ FordFulkerson.calculate_max_flow 12 chain_net "X" "t"
     = Raise (NameError "NodeNotFoundError")
  /\ FordFulkerson.calculate_max_flow 12 chain_net "s" "X"
     = Raise (NameError "NodeNotFoundError").
Proof.
  destruct (missing_id_raises_NameError (FlowNetwork.graph chain_net)
              (FordFulkerson.residual_graph chain_net) "X" "e9" "t" 12
              eq_refl eq_refl eq_refl) as (H1 & H2 & H3 & _).
  destruct (missing_id_raises_NameError (FlowNetwork.graph chain_net)
              (FordFulkerson.residual_graph chain_net) "X" "e9" "s" 12
              eq_refl eq_refl eq_refl) as (_ & _ & _ & H4 & _).
  repeat split; assumption.
Defined.

(** C6 fails: whenever one node is the only source and the only sink,
    [validate_network] returns true, although the solver rejects that very
    network with NetworkNotValid. *)
Theorem validation_accepts_node_with_both_roles (net : FlowNetwork.t)
    (node : Node.t) (fuel : nat) (set_order : list string -> list string) :
  graph_wf (FlowNetwork.graph net) ->
  Graph.get_source_nodes (FlowNetwork.graph net) = [node] ->
  Graph.get_sink_nodes (FlowNetwork.graph net) = [node] ->
  FlowNetwork.validate_network (S fuel) net = Ret true
  /\ FlowNetwork.calculate_max_flow set_order fuel net
     = Raise NetworkNotValidError.
Proof.
  intros H Hsrc Hsnk. split.
  - unfold FlowNetwork.validate_network. rewrite Hsrc, Hsnk. simpl.
    now rewrite String.eqb_refl.
  - unfold FlowNetwork.calculate_max_flow, FlowNetwork.get_source_node,
      FlowNetwork.get_sink_node. rewrite Hsrc, Hsnk. cbn [bind].
    assert (Hin : In node (Dict.values (Graph.nodes (FlowNetwork.graph net)))).
    { assert (Hin : In node (Graph.get_source_nodes (FlowNetwork.graph net)))
        by (rewrite Hsrc; now left).
      now apply filter_In in Hin. }
    pose proof (node_lookup _ _ H Hin) as Hget.
    unfold FordFulkerson.calculate_max_flow, Dict.mem.
    change (FordFulkerson.graph net) with (FlowNetwork.graph net).
    rewrite Hget. simpl. now rewrite String.eqb_refl.
Qed.

Lemma validation_accepts_node_with_both_roles_witness :
  build both_roles_ops = Ret both_roles_net
  /\ FlowNetwork.validate_network 1 both_roles_net = Ret true
  /\ FlowNetwork.calculate_max_flow (fun l => l) 0 both_roles_net
     = Raise NetworkNotValidError.
Proof.
  split; [exact both_roles_build|].
  apply (validation_accepts_node_with_both_roles both_roles_net
           (Node.mk "A" "Node A" true true) 0 (fun l => l)).
  - exact (proj1 (build_wf both_roles_ops both_roles_net both_roles_build)).
  - reflexivity.
  - reflexivity.
Defined.







(** C9: two networks built by the same insertions give, whenever both
    computations return, the same flow value and the same flow on every
    edge, whatever the order in which each run lists its set of visited
    nodes and whatever fuel each run was given. *)
Theorem max_flow_deterministic (ops : list insertion)
    (order1 order2 : list string -> list string) (fuel1 fuel2 : nat)
    (net1 net2 : FlowNetwork.t) (v1 v2 : Z) (S1 T1 S2 T2 : list string)
    (after1 after2 : FlowNetwork.t) :
  build ops = Ret net1 -> build ops = Ret net2 ->
  FlowNetwork.calculate_max_flow order1 fuel1 net1 = Ret (v1, S1, T1, after1) ->
  FlowNetwork.calculate_max_flow order2 fuel2 net2 = Ret (v2, S2, T2, after2) ->
  v1 = v2
  /\ Graph.get_all_edges (FlowNetwork.graph after1)
     = Graph.get_all_edges (FlowNetwork.graph after2)
  /\ T1 = T2.
Proof.
  intros B1 B2 H1 H2. rewrite B1 in B2. injection B2 as <-.
  apply facade_set_order in H1 as (V1 & _ & H1). specialize (H1 order2).
  apply (facade_more _ _ (Nat.max fuel1 fuel2)) in H1; [|lia].
  apply (facade_more _ _ (Nat.max fuel1 fuel2)) in H2; [|lia].
  rewrite H1 in H2. injection H2 as <- _ <- <-. repeat split.
Qed.

Lemma max_flow_deterministic_witness :
  build chain_ops = Ret chain_net
  /\ FlowNetwork.calculate_max_flow (fun l => l) 12 chain_net
     = Ret (5, ["A"; "s"], ["t"], chain_net_solved)
  /\ FlowNetwork.calculate_max_flow (@rev string) 15 chain_net
     = Ret (5, ["s"; "A"], ["t"], chain_net_solved)
  /\ 5 = 5
  /\ Graph.get_all_edges (FlowNetwork.graph chain_net_solved)
     = Graph.get_all_edges (FlowNetwork.graph chain_net_solved)
  /\ ["t"] = ["t"].
Proof.
  assert (H2 : FlowNetwork.calculate_max_flow (@rev string) 15 chain_net
               = Ret (5, ["s"; "A"], ["t"], chain_net_solved))
    by (vm_compute; reflexivity).
  split; [exact chain_build|]. split; [exact chain_first_run|].
  split; [exact H2|].
  exact (max_flow_deterministic chain_ops (fun l => l) (@rev string) 12 15
           chain_net chain_net 5 5 ["A"; "s"] ["t"] ["s"; "A"] ["t"]
           chain_net_solved chain_net_solved chain_build chain_build
           chain_first_run H2).
Defined.

(** C10: flows persist between invocations: once
    [calculate_max_flow(source_id, sink_id)] has returned, calling it again
    on the state it left, without [reset_flows], returns 0 and changes
    nothing. *)
Theorem second_run_returns_zero (fuel fuel' : nat) (self self' : FordFulkerson.t)
    (source_id sink_id : string) (v : Z) :
  FordFulkerson.calculate_max_flow fuel self source_id sink_id = Ret (v, self') ->
  (fuel <= fuel')%nat ->
  FordFulkerson.calculate_max_flow fuel' self' source_id sink_id
  = Ret (0, self').
Proof.
  intros H Hle. apply (solver_more fuel fuel'); [|exact Hle].
  destruct (solver_final _ _ _ _ _ _ H) as (Hb & Hfind & Hz).
  apply (f_equal Graph.nodes) in Hz. simpl in Hz.
  revert H. unfold FordFulkerson.calculate_max_flow. rewrite Hz.
  unfold Graph.get_node. rewrite Hz.
  destruct (negb (Dict.mem _ source_id)); [discriminate|].
  destruct (negb (Dict.mem _ sink_id)); [discriminate|].
  destruct (String.eqb source_id sink_id); [discriminate|].
  destruct (Dict.get _ source_id) as [source|]; [|discriminate].
  cbn [bind]. destruct (negb (Node.is_source source)); [discriminate|].
  destruct (Dict.get _ sink_id) as [sink|]; [|discriminate].
  cbn [bind]. destruct (negb (Node.is_sink sink)); [discriminate|].
  destruct fuel as [|fuel]; [discriminate|]. intros _.
  simpl. rewrite Hb. cbn [bind]. now rewrite Hfind.
Qed.

Lemma second_run_returns_zero_witness :
  FordFulkerson.calculate_max_flow 12 chain_net "s" "t"
  = Ret (5, chain_net_solved)
  /\ FordFulkerson.calculate_max_flow 20 chain_net_solved "s" "t"
     = Ret (0, chain_net_solved).
Proof.
  assert (H : FordFulkerson.calculate_max_flow 12 chain_net "s" "t"
              = Ret (5, chain_net_solved)) by (vm_compute; reflexivity).
  split; [exact H|].
  apply (second_run_returns_zero 12 20 chain_net chain_net_solved "s" "t" 5 H).
  lia.
Defined.

(** * The solver keeps the graph in shape, whatever the edge ids *)

Lemma bump_wf (g g' : Graph.t) (k : string) (d : Z) :
  graph_wf g -> FordFulkerson.bump g k d = Ret g' -> graph_wf g'.
Proof.
  intros H Hb. unfold FordFulkerson.bump, Graph.get_edge in Hb.
  destruct (Dict.get (Graph.edges g) k) as [e|] eqn:E; [|discriminate].
  cbn [bind] in Hb. injection Hb as <-.
  rewrite (set_edge_map _ _ e (fun e0 => Edge.set_flow e0 (Edge.flow e0 + d)));
    [| rewrite wf_edge_keys by assumption; apply H | exact E].
  apply (update_edges_wf g
           (fun k0 e0 => if String.eqb k0 k
                         then Edge.set_flow e0 (Edge.flow e0 + d) else e0));
    [|exact H].
  intros k0 e0. now destruct (String.eqb k0 k).
Qed.

Lemma update_one_wf (delta : Z) (g g' : Graph.t) (x : string) :
  graph_wf g -> FordFulkerson.update_one delta g x = Ret g' -> graph_wf g'.
Proof.
  intros H. unfold FordFulkerson.update_one.
  destruct (PyStr.endswith x "_forward"); [now apply bump_wf|].
  destruct (PyStr.endswith x "_backward"); [now apply bump_wf|].
  now intros [= <-].
Qed.

Lemma update_flows_wf (delta : Z) (path : list string) :
  forall g g', graph_wf g ->
  for_each (FordFulkerson.update_one delta) path g = Ret g' -> graph_wf g'.
Proof.
  induction path as [|x path IH]; simpl; intros g g' H Hu.
  - now injection Hu as <-.
  - apply bind_Ret in Hu as (g1 & H1 & Hu).
    apply (IH g1); [|exact Hu]. now apply (update_one_wf delta g _ x).
Qed.

Lemma augment_loop_wf (n : nat) :
  forall fuel self s t acc v self',
  graph_wf (FordFulkerson.graph self) ->
  FordFulkerson._augment_loop n fuel self s t acc = Ret (v, self') ->
  graph_wf (FordFulkerson.graph self').
Proof.
  induction n as [|n IH]; intros fuel self s t acc v self' Hwf H; [discriminate|].
  simpl in H. apply bind_Ret in H as (self1 & Hb & H).
  apply bind_Ret in H as (result & Hfind & H).
  pose proof (build_residual_graph_same _ _ Hb) as Hg. simpl in Hg.
  destruct result as [[flow path]|].
  - apply bind_Ret in H as (self2 & Hu & H).
    apply (IH _ _ _ _ _ _ _) in H; [exact H|].
    unfold FordFulkerson._update_flows in Hu.
    apply bind_Ret in Hu as (g2 & Hu & [= <-]). simpl.
    apply (update_flows_wf _ _ _ _) in Hu; [exact Hu|]. now rewrite Hg.
  - injection H as <- <-. now rewrite Hg.
Qed.

Lemma solver_wf (fuel : nat) self s t v self' :
  graph_wf (FordFulkerson.graph self) ->
  FordFulkerson.calculate_max_flow fuel self s t = Ret (v, self') ->
  graph_wf (FordFulkerson.graph self').
Proof.
  intros Hwf. unfold FordFulkerson.calculate_max_flow.
  destruct (negb (Dict.mem _ s)); [discriminate|].
  destruct (negb (Dict.mem _ t)); [discriminate|].
  destruct (String.eqb s t); [discriminate|].
  destruct (Graph.get_node _ s) as [source| | |]; try discriminate.
  cbn [bind]. destruct (negb (Node.is_source source)); [discriminate|].
  destruct (Graph.get_node _ t) as [sink| | |]; try discriminate.
  cbn [bind]. destruct (negb (Node.is_sink sink)); [discriminate|].
  now apply augment_loop_wf.
Qed.

(** What the facade hands back is what the solver left. *)
Lemma facade_solver (set_order : list string -> list string) (fuel : nat)
    (net net' : FlowNetwork.t) (v : Z) (S T : list string) :
  FlowNetwork.calculate_max_flow set_order fuel net = Ret (v, S, T, net') ->
  exists source sink,
    FlowNetwork.get_source_node net = Ret source
    /\ FlowNetwork.get_sink_node net = Ret sink
    /\ FordFulkerson.calculate_max_flow fuel net (Node.id source) (Node.id sink)
       = Ret (v, net')
    /\ FordFulkerson.get_min_cut set_order fuel net' (Node.id source)
       = Ret (S, T).
Proof.
  unfold FlowNetwork.calculate_max_flow. intros H.
  apply bind_Ret in H as (source & Hs & H).
  apply bind_Ret in H as (sink & Ht & H).
  apply bind_Ret in H as ([v0 self'] & Hc & H).
  apply bind_Ret in H as ([cs ct] & Hm & [= <- <- <- <-]).
  now exists source, sink.
Qed.

Lemma built_wf (net : FlowNetwork.t) :
  built net -> graph_wf (FlowNetwork.graph net).
Proof.
  induction 1 as
    [ net Hnew
    | net net' k name so si n _ IH Hop
    | net net' id u v c e _ IH Hop
    | net net' k _ IH Hop
    | net net' id _ IH Hop
    | net net' k _ IH Hop
    | net net' k _ IH Hop
    | net net' id c _ IH Hop
    | net _ IH
    | net net' o fuel v S T _ IH Hop ].
  - rewrite new_network in Hnew. injection Hnew as <-. apply empty_wf.
  - unfold FlowNetwork.add_node in Hop.
    apply bind_Ret in Hop as ([g' n'] & Hg & [= <- <-]).
    now destruct (add_node_wf _ _ _ _ _ _ _ IH Hg).
  - unfold FlowNetwork.add_edge in Hop.
    apply bind_Ret in Hop as ([g' e'] & Hg & [= <- <-]).
    now destruct (add_edge_wf _ _ _ _ _ _ _ IH Hg).
  - unfold FlowNetwork.remove_node in Hop.
    apply bind_Ret in Hop as (g' & Hg & [= <-]). simpl.
    destruct (Dict.mem (Graph.nodes (FlowNetwork.graph net)) k) eqn:Em.
    + destruct (remove_node_wf _ k IH Em) as (g1 & Hg1 & H' & _).
      rewrite Hg in Hg1. now injection Hg1 as <-.
    + unfold Graph.remove_node in Hg. rewrite Em in Hg. discriminate.
  - unfold FlowNetwork.remove_edge in Hop.
    apply bind_Ret in Hop as (g' & Hg & [= <-]). simpl.
    now destruct (remove_edge_wf _ _ _ IH Hg).
  - unfold FlowNetwork.set_node_as_source, FlowNetwork.get_node,
      Graph.get_node in Hop.
    destruct (Dict.get _ k) as [n|] eqn:E; [|discriminate].
    cbn [bind] in Hop. injection Hop as <-.
    now destruct (set_roles_wf net k n true false IH E).
  - unfold FlowNetwork.set_node_as_sink, FlowNetwork.get_node,
      Graph.get_node in Hop.
    destruct (Dict.get _ k) as [n|] eqn:E; [|discriminate].
    cbn [bind] in Hop. injection Hop as <-.
    now destruct (set_roles_wf net k n false true IH E).
  - revert Hop. unfold FlowNetwork.update_edge_capacity, FlowNetwork.get_edge,
      Graph.get_edge.
    destruct (Dict.get _ id) as [e|] eqn:E; [|discriminate]. cbn [bind].
    destruct (c <? Edge.flow e); [discriminate|]. intros [= <-].
    simpl FlowNetwork.graph.
    rewrite (set_edge_map _ _ e (fun e0 => Edge.set_capacity e0 c));
      [| rewrite wf_edge_keys by assumption; apply IH | exact E].
    apply (update_edges_wf (FlowNetwork.graph net)
             (fun k e0 => if String.eqb k id
                          then Edge.set_capacity e0 c else e0)); [|exact IH].
    intros k e0. now destruct (String.eqb k id).
  - rewrite reset_flows_zeroed.
    apply (update_edges_wf (FlowNetwork.graph net)
             (fun _ e0 => Edge.set_flow e0 0)); [|exact IH].
    intros k e0. now repeat split.
  - apply facade_solver in Hop as (source & sink & _ & _ & Hc & _).
    now apply (solver_wf _ _ _ _ _ _ IH) in Hc.
Qed.

Lemma reachable_built (net : FlowNetwork.t) : reachable net -> built net.
Proof.
  induction 1.
  - now apply built_new.
  - eapply built_add_node; eassumption.
  - eapply built_add_edge; eassumption.
  - eapply built_remove_node; eassumption.
  - eapply built_remove_edge; eassumption.
  - eapply built_set_source; eassumption.
  - eapply built_set_sink; eassumption.
  - eapply built_update_capacity; eassumption.
  - now apply built_reset.
  - eapply built_max_flow; eassumption.
Qed.

(** A network built by insertions, with any edge ids. *)
Lemma build_built (ops : list insertion) (net : FlowNetwork.t) :
  build ops = Ret net -> built net.
Proof.
  unfold build. rewrite new_network. cbn [bind].
  assert (Hstart : built no_network) by (apply built_new; exact new_network).
  revert Hstart. generalize no_network.
  induction ops as [|op ops IH]; intros net0 Hnet0 Hrun; simpl in Hrun.
  - now injection Hrun as <-.
  - destruct (insert net0 op) as [net1| | |] eqn:E; try discriminate.
    apply (IH net1); [|exact Hrun]. destruct op; simpl in E.
    + destruct (FlowNetwork.add_node net0 node_id name is_source is_sink)
        as [[n1 nd]| | |] eqn:E1; try discriminate.
      injection E as <-. eapply built_add_node; eassumption.
    + destruct (FlowNetwork.add_edge net0 edge_id start_node_id
                  end_node_id capacity) as [[n1 ed]| | |] eqn:E1;
        try discriminate.
      injection E as <-. eapply built_add_edge; eassumption.
Qed.

(** * Lookups in a graph that is in shape *)

Lemma get_after_set {V} (d : Dict.t V) (k : string) (v : V) :
  Dict.get (Dict.set d k v) k = Some v.
Proof.
  induction d as [|[k' v'] d IH]; simpl.
  - now rewrite String.eqb_refl.
  - destruct (String.eqb k' k) eqn:E; simpl; rewrite E; [reflexivity | exact IH].
Qed.

Lemma get_beside_set {V} (d : Dict.t V) (k x : string) (v : V) :
  x <> k -> Dict.get (Dict.set d k v) x = Dict.get d x.
Proof.
  intros Hx. induction d as [|[k' v'] d IH]; simpl.
  - apply not_eq_sym, String.eqb_neq in Hx. now rewrite Hx.
  - destruct (String.eqb k' k) eqn:E; simpl.
    + apply String.eqb_eq in E. subst k'.
      apply not_eq_sym, String.eqb_neq in Hx. now rewrite Hx.
    + now rewrite IH.
Qed.

Lemma wf_out_edges (g : Graph.t) (u : string) :
  graph_wf g ->
  Graph.get_edges_from_node g u
  = Ret (filter (starts_at u) (Graph.get_all_edges g)).
Proof.
  intros H. rewrite (wf_shape g H) at 1.
  apply get_edges_from_node_graph_of; [apply H|].
  intros e He. pose proof (wf_edges g H) as Hok. rewrite Forall_forall in Hok.
  now apply Hok.
Qed.

Lemma has_edge_loop_graph_of (ns : Dict.t Node.t) (es l : list Edge.t)
    (v : string) :
  NoDup (map Edge.id es) -> incl l es ->
  Graph._has_edge_loop (graph_of ns es) v (map Edge.id l)
  = Ret (existsb (ends_at v) l).
Proof.
  intros ND. induction l as [|e l IH]; intros Hl; [reflexivity|].
  simpl. rewrite get_index_edges; [|assumption|apply Hl; now left].
  unfold ends_at at 1. destruct (String.eqb (Edge.end_node_id e) v);
    [reflexivity|].
  apply IH. intros x Hx. apply Hl. now right.
Qed.

Lemma wf_has_edge (g : Graph.t) (u v : string) :
  graph_wf g ->
  Graph.has_edge g u v
  = Ret (existsb (ends_at v) (filter (starts_at u) (Graph.get_all_edges g))).
Proof.
  intros H. rewrite (wf_shape g H) at 1. unfold Graph.has_edge.
  cbn [Graph.adjacency_list graph_of].
  destruct (in_dec string_dec u (Dict.keys (Graph.nodes g))) as [Hu|Hu].
  - rewrite get_adjacency by assumption. unfold out_ids.
    apply has_edge_loop_graph_of; [apply H|].
    intros x Hx. now apply filter_In in Hx.
  - rewrite get_adjacency_None by assumption. f_equal. symmetry.
    apply not_true_is_false. intros Hex.
    apply existsb_exists in Hex as (e & He & _).
    apply filter_In in He as [He Hs]. apply String.eqb_eq in Hs.
    pose proof (wf_edges g H) as Hok. rewrite Forall_forall in Hok.
    apply Hu. rewrite <- Hs. now apply Hok.
Qed.

Lemma wf_get_edge (g : Graph.t) (e : Edge.t) :
  graph_wf g -> In e (Graph.get_all_edges g) ->
  Graph.get_edge g (Edge.id e) = Ret e.
Proof.
  intros H He. rewrite (wf_shape g H) at 1.
  apply get_edge_graph_of; [apply H | exact He].
Qed.

Lemma wf_get_edge_inv (g : Graph.t) (k : string) (e : Edge.t) :
  graph_wf g -> Graph.get_edge g k = Ret e ->
  In e (Graph.get_all_edges g) /\ Edge.id e = k.
Proof.
  intros H. unfold Graph.get_edge.
  destruct (Dict.get (Graph.edges g) k) as [e'|] eqn:E; [|discriminate].
  intros [= ->]. apply get_In in E. split.
  - unfold Graph.get_all_edges, Dict.values. apply in_map_iff.
    now exists (k, e).
  - rewrite (wf_edges_indexed g H) in E. unfold index_edges in E.
    apply in_map_iff in E as (e0 & [= <- <-] & _). reflexivity.
Qed.

Lemma wf_get_node_inv (g : Graph.t) (k : string) (n : Node.t) :
  graph_wf g -> Graph.get_node g k = Ret n ->
  In n (Graph.get_all_nodes g) /\ Node.id n = k.
Proof.
  intros H. unfold Graph.get_node.
  destruct (Dict.get (Graph.nodes g) k) as [n'|] eqn:E; [|discriminate].
  intros [= ->]. apply get_In in E. split.
  - unfold Graph.get_all_nodes, Dict.values. apply in_map_iff.
    now exists (k, n).
  - pose proof (wf_nodes g H) as Hok. rewrite Forall_forall in Hok.
    now destruct (Hok _ E).
Qed.

(** * What the operations of [Graph] store *)

Lemma add_node_stores (g g' : Graph.t) (k name : string) (so si : bool)
    (n : Node.t) :
  Graph.add_node g k name so si = Ret (g', n) ->
  Dict.mem (Graph.nodes g) k = false /\ k <> ""
  /\ n = Node.mk k (if String.eqb name "" then k else name) so si
  /\ g' = Graph.mk (Dict.set (Graph.nodes g) k n) (Graph.edges g)
                   (Dict.set (Graph.adjacency_list g) k []).
Proof.
  unfold Graph.add_node, Node.new.
  destruct (Dict.mem (Graph.nodes g) k); [discriminate|].
  destruct (String.eqb_spec k "") as [->|Hk]; [discriminate|].
  cbn [bind]. intros [= <- <-]. repeat split; try assumption.
  destruct (String.eqb_spec name "") as [->|Hn]; [|now rewrite (proj2 (String.eqb_neq _ _) Hn)].
  now rewrite (proj2 (String.eqb_neq _ _) Hk).
Qed.

Lemma add_edge_stores (g g' : Graph.t) (id u v : string) (c : Z) (e : Edge.t) :
  Graph.add_edge g id u v c = Ret (g', e) ->
  Dict.mem (Graph.edges g) id = false
  /\ Graph.nodes g' = Graph.nodes g
  /\ Graph.edges g' = Dict.set (Graph.edges g) id e.
Proof.
  unfold Graph.add_edge.
  destruct (Dict.mem (Graph.edges g) id); [discriminate|].
  destruct (Graph.get_node g u); try discriminate. cbn [bind].
  destruct (Graph.get_node g v); try discriminate. cbn [bind].
  destruct (String.eqb u v); [discriminate|].
  destruct (Edge.new id u v c 0) as [e0| | |]; try discriminate. cbn [bind].
  destruct (Dict.get (Graph.adjacency_list g) u); [|discriminate].
  intros [= <- <-]. now repeat split.
Qed.

Lemma del_last {V} (d : Dict.t V) (k : string) (v : V) :
  ~ In k (Dict.keys d) -> Dict.del (d ++ [(k, v)]) k = d.
Proof.
  induction d as [|[k' v'] d IH]; simpl; intros Hk.
  - now rewrite String.eqb_refl.
  - destruct (String.eqb_spec k' k) as [->|_]; [exfalso; apply Hk; now left|].
    f_equal. apply IH. intros Hin. apply Hk. now right.
Qed.

Lemma get_after_del {V} (d : Dict.t V) (k : string) :
  NoDup (Dict.keys d) -> Dict.get (Dict.del d k) k = None.
Proof.
  intros ND. apply get_None. intros Hin.
  apply (keys_del d k k ND) in Hin. now destruct Hin.
Qed.

Lemma get_beside_del {V} (d : Dict.t V) (k x : string) :
  x <> k -> Dict.get (Dict.del d k) x = Dict.get d x.
Proof.
  intros Hx. induction d as [|[k' v'] d IH]; simpl; [reflexivity|].
  destruct (String.eqb_spec k' k) as [->|Hk]; simpl.
  - apply not_eq_sym, String.eqb_neq in Hx. now rewrite Hx.
  - now rewrite IH.
Qed.

(** A graph in shape is known by its nodes and its edges. *)
Lemma wf_same (g g' : Graph.t) :
  graph_wf g -> graph_wf g' -> Graph.nodes g' = Graph.nodes g ->
  Graph.get_all_edges g' = Graph.get_all_edges g -> g' = g.
Proof.
  intros H H' Hn He. rewrite (wf_shape g H), (wf_shape g' H').
  now rewrite Hn, He.
Qed.

Lemma without_fresh (id : string) (es : list Edge.t) :
  ~ In id (map Edge.id es) -> without_edge id es = es.
Proof.
  intros Hid. apply filter_all. intros e He.
  apply negb_true_iff, String.eqb_neq. intros E. apply Hid. rewrite <- E.
  now apply in_map.
Qed.

Lemma values_del_nodes (d : Dict.t Node.t) (k : string) :
  NoDup (Dict.keys d) -> Forall node_ok d ->
  Dict.values (Dict.del d k)
  = filter (fun n => negb (String.eqb (Node.id n) k)) (Dict.values d).
Proof.
  induction d as [|[k' n] d IH]; simpl; intros ND Hok; [reflexivity|].
  inversion ND as [|? ? Hk' ND']; subst. inversion Hok as [|? ? Hn Hok']; subst.
  destruct Hn as (Hid & _). simpl in Hid. rewrite Hid.
  destruct (String.eqb_spec k' k) as [->|Hne]; simpl.
  - symmetry. apply filter_all. intros n' Hn'.
    apply negb_true_iff, String.eqb_neq. intros E. apply Hk'.
    unfold Dict.values in Hn'. apply in_map_iff in Hn' as ([k1 n1] & <- & Hin).
    rewrite Forall_forall in Hok'. destruct (Hok' _ Hin) as (Hid1 & _).
    simpl in *. rewrite <- E, Hid1. unfold Dict.keys.
    apply in_map_iff. now exists (k1, n1).
  - f_equal. now apply IH.
Qed.

(** ** Roles *)

(** A node that keeps its entry when another entry is rewritten. *)
Lemma node_survives_set (g : Graph.t) (k : string) (n' other : Node.t) :
  graph_wf g -> In other (Graph.get_all_nodes g) -> Node.id other <> k ->
  In other (Dict.values (Dict.set (Graph.nodes g) k n')).
Proof.
  intros H Hin Hne. pose proof (node_lookup g other H Hin) as Hget.
  rewrite <- (get_beside_set _ k _ n' Hne) in Hget.
  apply get_In in Hget. unfold Dict.values. apply in_map_iff.
  now exists (Node.id other, other).
Qed.

Lemma node_after_set (g : Graph.t) (k : string) (n' : Node.t) :
  In n' (Dict.values (Dict.set (Graph.nodes g) k n')).
Proof.
  pose proof (get_after_set (Graph.nodes g) k n') as Hget.
  apply get_In in Hget. unfold Dict.values. apply in_map_iff.
  now exists (k, n').
Qed.

Lemma two_members {A} (x y : A) (l : list A) :
  In x l -> In y l -> x <> y -> exists a b l', l = a :: b :: l'.
Proof.
  intros Hx Hy Hne. destruct l as [|a [|b l']].
  - destruct Hx.
  - destruct Hx as [<-|[]], Hy as [<-|[]]. now destruct Hne.
  - now exists a, b, l'.
Qed.

(** ** Sums as [sum] computes them *)

Lemma sum_of_from (f : Edge.t -> Z) (es : list Edge.t) (a : Z) :
  fold_left (fun acc edge => acc + f edge) es a = a + sumZ f es.
Proof.
  revert a. induction es as [|e es IH]; intros a; simpl; [lia|].
  rewrite IH. lia.
Qed.

Lemma sum_of_sumZ (f : Edge.t -> Z) (es : list Edge.t) :
  FlowNetwork.sum_of f es = sumZ f es.
Proof. unfold FlowNetwork.sum_of. now rewrite sum_of_from. Qed.

(** * The search of [validate_network] *)

Lemma walk_then_edge (es : list Edge.t) (u v : string) (e : Edge.t) :
  walk es u v -> In e es -> Edge.start_node_id e = v ->
  walk es u (Edge.end_node_id e).
Proof.
  intros Hw He Hs. induction Hw as [u|e' v Hin Hw IH].
  - rewrite <- Hs. apply walk_edge; [exact He | apply walk_stay].
  - apply walk_edge; [exact Hin | now apply IH].
Qed.

Lemma walk_stays_inside (es : list Edge.t) (V : list string) (u v : string) :
  edge_closed es V -> walk es u v -> In u V -> In v V.
Proof.
  intros Hc Hw. induction Hw as [u|e v Hin Hw IH]; [easy|].
  intros Hu. apply IH. now apply Hc.
Qed.

Lemma push_ends (out : list Edge.t) (rest : list string) :
  fold_left (fun stack edge => Edge.end_node_id edge :: stack) out rest
  = rev (map Edge.end_node_id out) ++ rest.
Proof.
  revert rest. induction out as [|e out IH]; intros rest; [reflexivity|].
  simpl. rewrite IH, <- app_assoc. reflexivity.
Qed.

Lemma pending_expand (es : list Edge.t) (cur : string) (visited : list string) :
  mem_str cur visited = false ->
  List.length (pending es visited)
  = (List.length (pending es (cur :: visited))
     + List.length (filter (starts_at cur) es))%nat.
Proof.
  intros Hcur. unfold pending. induction es as [|e es IH]; [reflexivity|].
  cbn [filter].
  change (mem_str (Edge.start_node_id e) (cur :: visited))
    with (String.eqb (Edge.start_node_id e) cur
          || mem_str (Edge.start_node_id e) visited).
  unfold starts_at at 1.
  destruct (String.eqb (Edge.start_node_id e) cur) eqn:E.
  - apply String.eqb_eq in E. rewrite E, Hcur. cbn [negb orb List.length].
    rewrite IH. lia.
  - destruct (mem_str (Edge.start_node_id e) visited);
      cbn [negb orb List.length]; rewrite IH; lia.
Qed.

Section Validate.
Variable net : FlowNetwork.t.
Variable es : list Edge.t.
Variables s t : string.

Hypothesis Hout : forall u,
  Graph.get_edges_from_node (FlowNetwork.graph net) u
  = Ret (filter (starts_at u) es).

Lemma dfs_expand (cur : string) (visited rest : list string) :
  dfs_inv es s t visited (cur :: rest) -> cur <> t ->
  mem_str cur visited = false ->
  dfs_inv es s t (cur :: visited)
    (rev (map Edge.end_node_id (filter (starts_at cur) es)) ++ rest).
Proof.
  intros [Hs Hc Hsrc ND] Hne Hcur. apply mem_str_not_In in Hcur. split.
  - intros x Hx. apply in_app_or in Hx as [Hx|Hx].
    + rewrite <- in_rev in Hx. apply in_map_iff in Hx as (e & <- & He).
      apply filter_In in He as [He Hst]. apply String.eqb_eq in Hst.
      apply (walk_then_edge es s cur e); [|exact He|exact Hst].
      apply Hs. now left.
    + apply Hs. now right.
  - intros u [<-|Hu].
    + split; [exact Hne|]. intros e He Hst. right. apply in_or_app. left.
      rewrite <- in_rev. apply in_map. apply filter_In. split; [exact He|].
      now apply String.eqb_eq.
    + destruct (Hc u Hu) as [Hut Hedges]. split; [exact Hut|].
      intros e He Hst. destruct (Hedges e He Hst) as [Hv|[Hv|Hv]].
      * left. now right.
      * left. now left.
      * right. apply in_or_app. now right.
  - destruct Hsrc as [Hv|[Hv|Hv]].
    + left. now right.
    + left. now left.
    + right. apply in_or_app. now right.
  - now constructor.
Qed.

Lemma dfs_skip (cur : string) (visited rest : list string) :
  dfs_inv es s t visited (cur :: rest) -> mem_str cur visited = true ->
  dfs_inv es s t visited rest.
Proof.
  intros [Hs Hc Hsrc ND] Hcur. apply mem_str_In in Hcur. split.
  - intros x Hx. apply Hs. now right.
  - intros u Hu. destruct (Hc u Hu) as [Hut Hedges]. split; [exact Hut|].
    intros e He Hst. destruct (Hedges e He Hst) as [Hv|[Hv|Hv]].
    + now left.
    + left. now rewrite <- Hv.
    + now right.
  - destruct Hsrc as [Hv|[Hv|Hv]].
    + now left.
    + left. now rewrite <- Hv.
    + now right.
  - exact ND.
Qed.

(** The search ends, and it says whether a walk leads from [s] to [t]; when
    none does, the nodes it expanded are a set that no edge leaves. *)
Lemma reach_sink_spec (fuel : nat) :
  forall visited stack,
  dfs_inv es s t visited stack ->
  (List.length stack + List.length (pending es visited) < fuel)%nat ->
  (FlowNetwork._reach_sink fuel net t visited stack = Ret true
   /\ walk es s t)
  \/ (FlowNetwork._reach_sink fuel net t visited stack = Ret false
      /\ exists V, NoDup V /\ In s V /\ ~ In t V /\ edge_closed es V).
Proof.
  induction fuel as [|fuel IH]; intros visited stack Hinv Hfuel; [lia|].
  destruct stack as [|cur rest]; simpl.
  - right. split; [reflexivity|]. destruct Hinv as [Hs Hc Hsrc ND].
    exists visited. split; [exact ND|]. split; [now destruct Hsrc|]. split.
    + intros Ht. now destruct (Hc t Ht).
    + intros e He Hu. destruct (Hc _ Hu) as [_ Hedges].
      now destruct (Hedges e He eq_refl).
  - destruct (String.eqb_spec cur t) as [->|Hne].
    { left. split; [reflexivity|]. apply (dfs_sound _ _ _ _ _ Hinv). now left. }
    destruct (mem_str cur visited) eqn:Hcur; simpl.
    + apply IH; [now apply (dfs_skip cur)|]. simpl in Hfuel. lia.
    + rewrite Hout. cbn [bind]. rewrite push_ends.
      apply IH; [now apply dfs_expand|].
      rewrite length_app, length_rev, length_map.
      rewrite (pending_expand es cur visited Hcur) in Hfuel.
      simpl in Hfuel. lia.
Qed.


Lemma dfs_start : dfs_inv es s t [] [s].
Proof.
  split.
  - intros x [<-|[]]. apply walk_stay.
  - intros u [].
  - right. now left.
  - constructor.
Qed.

End Validate.

(** * Flows on one network, and the cuts that bound them *)

Lemma same_network_nodes (g g' : Graph.t) :
  same_network g g' -> Graph.nodes g' = Graph.nodes g.
Proof. intros E. now apply (f_equal Graph.nodes) in E. Qed.

Lemma same_network_edges (g g' : Graph.t) :
  same_network g g' ->
  map (fun e => Edge.set_flow e 0) (Graph.get_all_edges g')
  = map (fun e => Edge.set_flow e 0) (Graph.get_all_edges g).
Proof.
  intros E. apply (f_equal Graph.edges) in E. simpl in E.
  apply (f_equal (map snd)) in E. rewrite !map_map in E. simpl in E.
  unfold Graph.get_all_edges, Dict.values. now rewrite !map_map.
Qed.

Lemma same_network_sum (g g' : Graph.t) (h : Edge.t -> Z) :
  same_network g g' -> (forall e, h (Edge.set_flow e 0) = h e) ->
  sumZ h (Graph.get_all_edges g') = sumZ h (Graph.get_all_edges g).
Proof.
  intros E Hh. apply same_network_edges in E.
  rewrite <- (sumZ_ext (fun e => h (Edge.set_flow e 0)) h
                (Graph.get_all_edges g')) by (intros; apply Hh).
  rewrite <- (sumZ_ext (fun e => h (Edge.set_flow e 0)) h
                (Graph.get_all_edges g)) by (intros; apply Hh).
  rewrite <- !(sumZ_map h (fun e => Edge.set_flow e 0)). now rewrite E.
Qed.

Lemma same_network_cut (g g' : Graph.t) (S T : list string) :
  same_network g g' -> cut_capacity g' S T = cut_capacity g S T.
Proof.
  intros E. unfold cut_capacity. now apply (same_network_sum g g').
Qed.

Lemma same_network_ends (g g' : Graph.t) (e' : Edge.t) :
  same_network g g' -> In e' (Graph.get_all_edges g') ->
  exists e, In e (Graph.get_all_edges g)
    /\ Edge.id e = Edge.id e'
    /\ Edge.start_node_id e = Edge.start_node_id e'
    /\ Edge.end_node_id e = Edge.end_node_id e'
    /\ Edge.capacity e = Edge.capacity e'.
Proof.
  intros E Hin. apply same_network_edges in E.
  apply (in_map (fun e => Edge.set_flow e 0)) in Hin. rewrite E in Hin.
  apply in_map_iff in Hin as (e & He & Hin). exists e. split; [exact Hin|].
  apply (f_equal Edge.id) in He as H1.
  apply (f_equal Edge.start_node_id) in He as H2.
  apply (f_equal Edge.end_node_id) in He as H3.
  apply (f_equal Edge.capacity) in He as H4. now repeat split.
Qed.

(** The value of a flow is at most the capacity of any cut. *)
Lemma flow_value_under_cut (g : Graph.t) (s t : string) (V : list string) :
  within_capacity g -> conserved g s t -> NoDup V -> In s V -> ~ In t V ->
  (forall e, In e (Graph.get_all_edges g) ->
             In (Edge.end_node_id e) (Dict.keys (Graph.nodes g))) ->
  net_out g s
  <= cut_capacity g V (filter (fun node_id => negb (mem_str node_id V))
                              (Dict.keys (Graph.nodes g))).
Proof.
  intros Hcap Hcons ND Hs Ht Hend.
  rewrite <- (sumZ_only (net_out g) V s ND Hs).
  2:{ intros v Hv Hvs. apply (conserved_net_out g s t); try assumption.
      intros ->. contradiction. }
  rewrite net_out_across by assumption. unfold cut_capacity.
  apply sumZ_le. intros e He.
  unfold within_capacity in Hcap. rewrite Forall_forall in Hcap.
  specialize (Hcap e He). specialize (Hend e He).
  destruct (mem_str (Edge.start_node_id e) V) eqn:E1;
    destruct (mem_str (Edge.end_node_id e) V) eqn:E2; simpl.
  - destruct (mem_str (Edge.end_node_id e) (filter _ _)); lia.
  - replace (mem_str _ _) with true; [lia|].
    symmetry. apply mem_str_In. apply filter_In. split; [assumption|].
    now rewrite E2.
  - lia.
  - lia.
Qed.

(** What leaves the source arrives at the sink. *)
Lemma net_out_source_sink (g : Graph.t) (s t : string) :
  graph_wf g -> conserved g s t -> s <> t ->
  In s (Dict.keys (Graph.nodes g)) ->
  net_out g s + net_out g t = 0.
Proof.
  intros H Hcons Hst Hs.
  set (V := filter (fun x => negb (String.eqb x t)) (Dict.keys (Graph.nodes g))).
  assert (ND : NoDup V) by (apply NoDup_filter, H).
  assert (HsV : In s V).
  { apply filter_In. split; [exact Hs|].
    now apply negb_true_iff, String.eqb_neq. }
  assert (HtV : ~ In t V).
  { intros Hin. apply filter_In in Hin as [_ Hin].
    now rewrite String.eqb_refl in Hin. }
  rewrite <- (sumZ_only (net_out g) V s ND HsV).
  2:{ intros v Hv Hvs. apply (conserved_net_out g s t); try assumption.
      intros ->. contradiction. }
  rewrite net_out_across by assumption. rewrite (net_out_incidence g t).
  rewrite <- sumZ_plus. apply sumZ_zero. intros e He.
  pose proof (wf_edges g H) as Hok. rewrite Forall_forall in Hok.
  destruct (Hok e He) as (Hu & Hv & _). unfold incidence.
  assert (Hmem : forall x, In x (Dict.keys (Graph.nodes g)) ->
            mem_str x V = negb (String.eqb x t)).
  { intros x Hx. destruct (String.eqb_spec x t) as [->|Hne]; simpl.
    - now apply mem_str_not_In.
    - apply mem_str_In. apply filter_In. split; [exact Hx|].
      now apply negb_true_iff, String.eqb_neq. }
  rewrite (Hmem _ Hu), (Hmem _ Hv).
  destruct (String.eqb (Edge.start_node_id e) t),
           (String.eqb (Edge.end_node_id e) t); simpl; lia.
Qed.

(** * The nodes that [get_min_cut] reaches *)

Lemma fold_reach_members (P : string -> Prop) (out : list Edge.t) :
  forall st,
  (forall x, In x (FordFulkerson.visited st) -> P x) ->
  (forall e, In e out -> P (Edge.end_node_id e)) ->
  forall x, In x (FordFulkerson.visited (fold_left FordFulkerson.reach out st))
            -> P x.
Proof.
  induction out as [|e out IH]; intros st Hv Hout x; simpl; [apply Hv|].
  apply IH.
  - unfold FordFulkerson.reach.
    destruct (negb (mem_str (Edge.end_node_id e) (FordFulkerson.visited st))
              && (Edge.capacity e >? 0)); [|exact Hv].
    simpl. intros y [<-|Hy]; [apply Hout; now left | now apply Hv].
  - intros e' He'. apply Hout. now right.
Qed.

Lemma cut_loop_members (P : string -> Prop) (self : FordFulkerson.t)
    (arcs : list Edge.t) :
  (forall u, Graph.get_edges_from_node (FordFulkerson.residual_graph self) u
             = Ret (filter (starts_at u) arcs)) ->
  (forall a, In a arcs -> P (Edge.end_node_id a)) ->
  forall fuel st V,
  FordFulkerson._cut_loop fuel self st = Ret V ->
  (forall x, In x (FordFulkerson.visited st) -> P x) ->
  forall x, In x V -> P x.
Proof.
  intros Hout Harcs. induction fuel as [|fuel IH]; intros st V Hrun Hv;
    [discriminate|].
  simpl in Hrun. destruct (FordFulkerson.queue st) as [|cur rest].
  - now injection Hrun as <-.
  - rewrite Hout in Hrun. cbn [bind] in Hrun.
    apply (IH _ _ Hrun). apply fold_reach_members; [exact Hv|].
    intros e He. apply Harcs. now apply filter_In in He.
Qed.

Lemma residual_arc_end (ns : Dict.t Node.t) (es : list Edge.t) (a : Edge.t) :
  Forall (edge_ok ns) es -> In a (residual_arcs es) ->
  In (Edge.end_node_id a) (Dict.keys ns).
Proof.
  intros Hok Ha. apply in_residual_arcs in Ha as (e & He & Hcase).
  rewrite Forall_forall in Hok. destruct (Hok e He) as (Hu & Hv & _).
  now destruct Hcase as [[-> _]|[-> _]].
Qed.

(** The state the solver leaves holds the residual graph of its graph. *)
Lemma solver_leaves_residual (fuel : nat) self s t v self' :
  graph_wf (FordFulkerson.graph self) ->
  FordFulkerson.calculate_max_flow fuel self s t = Ret (v, self') ->
  self' = FordFulkerson.mk (FordFulkerson.graph self')
                           (residual_of (FordFulkerson.graph self')).
Proof.
  intros H Hc. pose proof (solver_wf _ _ _ _ _ _ H Hc) as H'.
  destruct (solver_final _ _ _ _ _ _ Hc) as (Hb & _ & _).
  rewrite (build_residual_graph_of _ H') in Hb. now injection Hb.
Qed.

(** The set that [get_min_cut] lists first holds node ids only. *)
Lemma cut_inside (set_order : list string -> list string) (fuel : nat)
    (net net' : FlowNetwork.t) (v : Z) (S T : list string) :
  graph_wf (FlowNetwork.graph net) ->
  FlowNetwork.calculate_max_flow set_order fuel net = Ret (v, S, T, net') ->
  exists V, S = set_order V
    /\ T = filter (fun node_id => negb (mem_str node_id V))
                  (Dict.keys (Graph.nodes (FlowNetwork.graph net')))
    /\ incl V (Dict.keys (Graph.nodes (FlowNetwork.graph net'))).
Proof.
  intros H Hcalc.
  apply facade_solver in Hcalc as (source & sink & Hs & Ht & Hc & Hm).
  pose proof (solver_wf _ _ _ _ _ _ H Hc) as H'.
  pose proof (solver_leaves_residual _ _ _ _ _ _ H Hc) as Hres.
  unfold FordFulkerson.get_min_cut in Hm.
  apply bind_Ret in Hm as (V & Hcut & [= <- <-]).
  exists V. split; [reflexivity|]. split; [reflexivity|].
  intros x Hx.
  apply (cut_loop_members
           (fun x => In x (Dict.keys (Graph.nodes (FlowNetwork.graph net'))))
           net' (residual_arcs (Graph.get_all_edges (FlowNetwork.graph net'))))
    with (fuel := fuel) (st := FordFulkerson.mk_search [Node.id source]
                                 [Node.id source] []) (V := V);
    try assumption.
  - intros u. rewrite Hres at 1. simpl FordFulkerson.residual_graph.
    now apply residual_get_edges.
  - intros a Ha. apply (residual_arc_end _ _ a (wf_edges _ H') Ha).
  - simpl. intros y [<-|[]].
    assert (Hin : In source (Graph.get_source_nodes (FlowNetwork.graph net))).
    { unfold FlowNetwork.get_source_node in Hs.
      destruct (Graph.get_source_nodes _) as [|a l]; [discriminate|].
      injection Hs as ->. now left. }
    apply filter_In in Hin as [Hin _].
    pose proof (node_lookup _ _ H Hin) as Hget.
    apply get_Some_key in Hget.
    destruct (solver_final _ _ _ _ _ _ Hc) as (_ & _ & Hz).
    apply (f_equal Graph.nodes) in Hz. simpl in Hz.
    unfold FlowNetwork.graph. now rewrite Hz.
Qed.

(** * Walks and cuts *)




(** * Ids that hold a suffix of the solver do not decode *)

Lemma prefix_shorter (p s : string) :
  String.prefix p s = true -> (String.length p <= String.length s)%nat.
Proof.
  revert s. induction p as [|a p IH]; intros s H; simpl; [lia|].
  destruct s as [|b s]; simpl in H; [discriminate|].
  destruct (ascii_dec a b); [|discriminate]. apply IH in H. simpl. lia.
Qed.

Lemma prefix_empty (s : string) : String.prefix "" s = true.
Proof. now destruct s. Qed.

Lemma prefix_of_longer (p s x : string) :
  (String.length p <= String.length s)%nat ->
  String.prefix p (s ++ x)%string = String.prefix p s.
Proof.
  revert s. induction p as [|a p IH]; intros s H;
    [now rewrite !prefix_empty|].
  destruct s as [|b s]; simpl in H; [lia|]. simpl.
  destruct (ascii_dec a b); [|reflexivity]. apply IH. lia.
Qed.

Lemma prefix_self (p : string) : String.prefix p p = true.
Proof.
  induction p as [|a p IH]; [reflexivity|]. simpl.
  now destruct (ascii_dec a a).
Qed.

Lemma occurs_step (pat : string) (c : ascii) (s : string) :
  occurs pat (String c s)
  = if String.prefix pat (String c s) then true else occurs pat s.
Proof. reflexivity. Qed.

Lemma occurs_longer (pat s : string) :
  occurs pat s = true -> (String.length pat <= String.length s)%nat.
Proof.
  induction s as [|c s IH].
  - unfold occurs. destruct (String.prefix pat "") eqn:E; [|discriminate].
    intros _. now apply prefix_shorter in E.
  - rewrite occurs_step. destruct (String.prefix pat (String c s)) eqn:E.
    + intros _. now apply prefix_shorter in E.
    + intros H. apply IH in H. simpl. lia.
Qed.

Lemma occurs_at_end (pat s : string) : occurs pat (s ++ pat)%string = true.
Proof.
  induction s as [|c s IH].
  - change ("" ++ pat)%string with pat. destruct pat as [|a p]; [reflexivity|].
    rewrite occurs_step. now rewrite prefix_self.
  - change (String c s ++ pat)%string with (String c (s ++ pat)).
    rewrite occurs_step. rewrite IH. now destruct (String.prefix _ _).
Qed.

Section Erase.
Variable pat : string.

Local Abbreviation erase := (PyStr.replace_from pat "").

Lemma erase_skip (k : nat) (c : ascii) (s : string) :
  erase (S k) (String c s) = erase k s.
Proof. reflexivity. Qed.

Lemma erase_hit (c : ascii) (s : string) :
  String.prefix pat (String c s) = true ->
  erase 0%nat (String c s) = erase (String.length pat - 1)%nat s.
Proof.
  intros H.
  change (erase 0%nat (String c s))
    with (if String.prefix pat (String c s)
          then ("" ++ erase (String.length pat - 1)%nat s)%string
          else String c (erase 0%nat s)).
  now rewrite H.
Qed.

(** Erasing never makes a string longer, and the characters still to skip
    are lost. *)
Lemma erase_length (s : string) :
  forall k,
  (String.length (erase k s) + Nat.min k (String.length s)
   <= String.length s)%nat.
Proof.
  induction s as [|c s IH]; intros k.
  - destruct k; simpl; lia.
  - destruct k as [|k].
    + destruct (String.prefix pat (String c s)) eqn:E.
      * rewrite (erase_hit c s E).
        specialize (IH (String.length pat - 1)%nat). simpl. lia.
      * rewrite (replace_from_cons pat c s E). specialize (IH 0%nat).
        simpl in *. lia.
    + rewrite erase_skip. specialize (IH k). simpl. lia.
Qed.

(** A string that holds the pattern loses at least its length. *)
Lemma erase_occurrence (s : string) :
  occurs pat s = true ->
  (String.length (erase 0%nat s) + String.length pat <= String.length s)%nat.
Proof.
  induction s as [|c s IH]; intros H.
  - apply occurs_longer in H. simpl in *. lia.
  - rewrite occurs_step in H.
    destruct (String.prefix pat (String c s)) eqn:E.
    + rewrite (erase_hit c s E). apply prefix_shorter in E.
      pose proof (erase_length s (String.length pat - 1)%nat). simpl in *. lia.
    + rewrite (replace_from_cons pat c s E). apply IH in H. simpl. lia.
Qed.

Lemma erase_suffix (s : string) :
  (String.length (erase 0%nat (s ++ pat)%string) <= String.length s)%nat.
Proof.
  pose proof (erase_occurrence _ (occurs_at_end pat s)) as H.
  rewrite length_append in H. lia.
Qed.

Lemma erase_skip_suffix (s : string) :
  forall k, (k <= String.length s)%nat ->
  (String.length (erase k (s ++ pat)%string) + k <= String.length s)%nat.
Proof.
  induction s as [|c s IH]; intros k Hk.
  - simpl in Hk. replace k with 0%nat by lia.
    pose proof (erase_suffix ""). lia.
  - destruct k as [|k].
    + pose proof (erase_suffix (String c s)). lia.
    + change (String c s ++ pat)%string with (String c (s ++ pat)).
      rewrite erase_skip. simpl in Hk. specialize (IH k). simpl. lia.
Qed.

(** A string that holds the pattern, followed by the pattern, loses the
    pattern twice. *)
Lemma erase_twice (s : string) :
  occurs pat s = true ->
  (String.length (erase 0%nat (s ++ pat)%string) + String.length pat
   <= String.length s)%nat.
Proof.
  induction s as [|c s IH]; intros H.
  - apply occurs_longer in H as Hlen. simpl in Hlen.
    pose proof (erase_suffix ""). simpl in *. lia.
  - pose proof (occurs_longer _ _ H) as Hlen.
    change (String c s ++ pat)%string with (String c (s ++ pat)).
    pose proof (prefix_of_longer pat (String c s) pat Hlen) as Hp.
    change (String c s ++ pat)%string with (String c (s ++ pat)) in Hp.
    rewrite occurs_step in H.
    destruct (String.prefix pat (String c s)) eqn:E.
    + rewrite (erase_hit c (s ++ pat) Hp). apply prefix_shorter in E.
      pose proof (erase_skip_suffix s (String.length pat - 1)%nat).
      simpl in *. lia.
    + rewrite (replace_from_cons pat c (s ++ pat) Hp). apply IH in H.
      simpl. lia.
Qed.

End Erase.

Lemma not_plain_not_decoded (pat id : string) :
  pat <> "" -> occurs pat id = true ->
  PyStr.replace (id ++ pat) pat "" <> id.
Proof.
  intros Hpat H E. unfold PyStr.replace in E.
  pose proof (erase_twice pat id H) as Hlen. rewrite E in Hlen.
  destruct pat as [|a p]; [congruence|]. simpl in Hlen. lia.
Qed.

Lemma decodes_plain_id (id : string) : decodes id -> plain_id id.
Proof.
  intros [Hf Hb]. split.
  - destruct (occurs "_forward" id) eqn:E; [|reflexivity].
    now apply (not_plain_not_decoded "_forward" id) in E.
  - destruct (occurs "_backward" id) eqn:E; [|reflexivity].
    now apply (not_plain_not_decoded "_backward" id) in E.
Qed.

(** * The path that [_find_augmenting_path] returns *)

Lemma chain_then_arc (arcs : list Edge.t) (u : string) (a : Edge.t)
    (l : list Edge.t) :
  arc_chain arcs u (Edge.start_node_id a) l -> In a arcs ->
  arc_chain arcs u (Edge.end_node_id a) (l ++ [a]).
Proof.
  intros Hc Ha. remember (Edge.start_node_id a) as v eqn:Ev.
  induction Hc as [u|b v l Hb Hc IH]; simpl.
  - rewrite Ev. apply chain_arc; [exact Ha | apply chain_end].
  - apply chain_arc; [exact Hb | now apply IH].
Qed.

Lemma back_path_is_chain (arcs : list Edge.t) (P : FordFulkerson.parents)
    (s v : string) (l : list Edge.t) :
  back_path arcs P s v l -> arc_chain arcs s v (rev l).
Proof.
  induction 1 as [|a l Ha Hpos Hne Hget Hb IH]; simpl; [apply chain_end|].
  now apply chain_then_arc.
Qed.

Lemma chain_stays_inside (arcs : list Edge.t) (V : list string)
    (u v : string) (l : list Edge.t) :
  (forall a, In a arcs -> Edge.capacity a > 0) -> arc_closed arcs V ->
  arc_chain arcs u v l -> In u V -> In v V.
Proof.
  intros Hpos Hc Hl. induction Hl as [u|a v l Ha Hl IH]; [easy|].
  intros Hu. apply IH. apply Hc; [exact Ha | exact Hu | now apply Hpos].
Qed.

(** The minimum that the walk back computes is the capacity of an arc of
    the path. *)
Lemma min_cap_attained (l : list Edge.t) :
  forall m m',
  fold_left FordFulkerson.min_cap (map Edge.capacity l) (Some m) = Some m' ->
  m' = m \/ exists a, In a l /\ Edge.capacity a = m'.
Proof.
  induction l as [|a l IH]; intros m m' H; simpl in H.
  - injection H as <-. now left.
  - apply IH in H as [->|(a' & Ha' & E)].
    + destruct (Edge.capacity a <? m); [right; exists a; split; [now left|reflexivity] | now left].
    + right. exists a'. split; [now right | exact E].
Qed.

(** * The breadth-first search finds a shortest path *)

Lemma depth_fun (P : FordFulkerson.parents) (s v : string) (n m : nat) :
  depth P s v n -> depth P s v m -> n = m.
Proof.
  intros Hn. revert m. induction Hn as [|v u id n Hv Hget Hn IH]; intros m Hm.
  - inversion Hm; subst; [reflexivity | congruence].
  - inversion Hm as [|v' u' id' m' Hv' Hget' Hm']; subst; [congruence|].
    rewrite Hget in Hget'. injection Hget' as <- <-. f_equal. now apply IH.
Qed.

Lemma depth_more (P P' : FordFulkerson.parents) (s v : string) (n : nat) :
  depth P s v n -> depth (P ++ P') s v n.
Proof.
  induction 1 as [|v u id n Hv Hget Hn IH]; [apply depth_source|].
  apply (depth_child _ _ v u id); [assumption | now apply get_app_Some | assumption].
Qed.

Lemma depth_seen (P : FordFulkerson.parents) (s v : string) (n : nat) :
  depth P s v n -> v = s \/ In v (Dict.keys P).
Proof.
  intros [|v' u id n' Hv Hget _]; [now left|]. right.
  now apply get_Some_key in Hget.
Qed.

Lemma back_path_depth (arcs : list Edge.t) (P : FordFulkerson.parents)
    (s v : string) (l : list Edge.t) :
  back_path arcs P s v l -> depth P s v (List.length l).
Proof.
  induction 1 as [|a l Ha Hpos Hne Hget Hb IH]; simpl; [apply depth_source|].
  now apply (depth_child _ _ _ (Edge.start_node_id a) (Edge.id a)).
Qed.

Lemma chain_last (arcs : list Edge.t) (u v : string) (l : list Edge.t) :
  arc_chain arcs u v l ->
  (l = [] /\ u = v)
  \/ exists l' a, l = l' ++ [a] /\ arc_chain arcs u (Edge.start_node_id a) l'
                  /\ In a arcs /\ Edge.end_node_id a = v.
Proof.
  induction 1 as [u|a v l Ha Hl IH]; [now left|]. right.
  destruct IH as [[-> <-]|(l' & b & -> & Hl' & Hb & Hend)].
  - exists [], a. split; [reflexivity|]. split; [apply chain_end|]. now split.
  - exists (a :: l'), b. split; [reflexivity|]. split; [|now split].
    now apply chain_arc.
Qed.

Section Levels.
Variable self : FordFulkerson.t.
Variable arcs : list Edge.t.
Variables s t : string.
Local Abbreviation search := FordFulkerson.search.
Local Abbreviation visit := FordFulkerson.visit.
Local Abbreviation visited := FordFulkerson.visited.
Local Abbreviation queue := FordFulkerson.queue.
Local Abbreviation parent := FordFulkerson.parent.
Local Abbreviation mk_search := FordFulkerson.mk_search.

Hypothesis Hout : forall u,
  Graph.get_edges_from_node (FordFulkerson.residual_graph self) u
  = Ret (filter (starts_at u) arcs).
Hypothesis Hpos : forall a, In a arcs -> Edge.capacity a > 0.

Lemma level_start : level_inv arcs s [] 0 [s] [] (mk_search [s] [s] []).
Proof.
  split; simpl.
  - reflexivity.
  - intros v [<-|[]]. apply depth_source.
  - intros v [].
  - intros v [].
  - intros v [<-|[]]. exists 0%nat. split; [apply depth_source | lia].
  - intros v [<-|[]] Hn. exfalso. apply Hn. now left.
  - intros a _ _ [<-|[]] Hn. exfalso. apply Hn. now left.
Qed.

Lemma level_next (h : nat) (B : list string) (st : search) :
  level_inv arcs s [] h [] B st -> level_inv arcs s [] (S h) B [] st.
Proof.
  intros [Hq Hf Hb Hbusy Hall Hdone Harcs]. split.
  - now rewrite app_nil_r.
  - exact Hb.
  - intros v [].
  - intros v [].
  - intros v Hv. destruct (Hall v Hv) as (n & Hn & Hle). exists n.
    split; [exact Hn | lia].
  - intros v Hv Hnq. destruct (Hdone v Hv Hnq) as (n & Hn & Hle). exists n.
    split; [exact Hn | lia].
  - exact Harcs.
Qed.

Lemma level_dequeue (h : nat) (cur : string) (A B : list string) (st : search) :
  search_inv arcs s st ->
  level_inv arcs s [] h (cur :: A) B st ->
  level_inv arcs s [cur] h A B (mk_search (visited st) (A ++ B) (parent st)).
Proof.
  intros Hinv [Hq Hf Hb Hbusy Hall Hdone Harcs]. split; simpl.
  - reflexivity.
  - intros v Hv. apply Hf. now right.
  - exact Hb.
  - intros v [<-|[]]. apply Hf. now left.
  - exact Hall.
  - intros v Hv Hnq. destruct (string_dec v cur) as [->|Hne].
    + exists h. split; [apply Hf; now left | lia].
    + apply Hdone; [exact Hv|]. rewrite Hq. simpl. intros [E|Hin]; [congruence|tauto].
  - intros a Ha Hc Hv Hnq Hnb. apply Harcs; try assumption; [|intros []].
    rewrite Hq. simpl. intros [E|Hin]; [|tauto]. apply Hnb. now left.
Qed.

Lemma visit_level (h : nat) (cur : string) (A B : list string) (st : search)
    (a : Edge.t) :
  search_inv arcs s st -> level_inv arcs s [cur] h A B st ->
  In a arcs -> Edge.start_node_id a = cur ->
  exists B', level_inv arcs s [cur] h A B' (visit cur st a).
Proof.
  intros Hinv Hlv Ha Hs.
  destruct (visit_dec st a) as [H|[Hn Hc]].
  { exists B. now rewrite visit_old. }
  rewrite visit_new by assumption.
  destruct Hlv as [Hq Hf Hb Hbusy Hall Hdone Harcs].
  pose proof (inv_keys _ _ _ Hinv) as Hk.
  set (w := Edge.end_node_id a) in *.
  assert (Hkey : ~ In w (Dict.keys (parent st))).
  { intros H. apply Hn. apply Hk. now right. }
  assert (Hws : w <> s).
  { intros H. apply Hn. apply Hk. now left. }
  rewrite set_new by assumption.
  assert (Hw : depth (parent st ++ [(w, (cur, Edge.id a))]) s w (S h)).
  { apply (depth_child _ _ w cur (Edge.id a)); [exact Hws| |].
    - rewrite get_app_None by now apply get_None. simpl.
      now rewrite String.eqb_refl.
    - apply depth_more. apply Hbusy. now left. }
  exists (B ++ [w]). split; simpl.
  - rewrite Hq. now rewrite app_assoc.
  - intros v Hv. apply depth_more. now apply Hf.
  - intros v Hv. apply in_app_or in Hv as [Hv|[<-|[]]]; [|exact Hw].
    apply depth_more. now apply Hb.
  - intros v Hv. apply depth_more. now apply Hbusy.
  - intros v [<-|Hv]; [exists (S h); split; [exact Hw | lia]|].
    destruct (Hall v Hv) as (n & Hd & Hle). exists n.
    split; [now apply depth_more | exact Hle].
  - intros v [<-|Hv] Hnq.
    + exfalso. apply Hnq. apply in_or_app. right. now left.
    + destruct (Hdone v Hv) as (n & Hd & Hle).
      { intros Hin. apply Hnq. apply in_or_app. now left. }
      exists n. split; [now apply depth_more | exact Hle].
  - intros a' Ha' Hc' Hv Hnq Hnb.
    assert (Hold : In (Edge.start_node_id a') (visited st)).
    { destruct Hv as [E|Hv]; [|exact Hv]. exfalso. apply Hnq.
      apply in_or_app. right. now left. }
    assert (Hnq' : ~ In (Edge.start_node_id a') (queue st)).
    { intros Hin. apply Hnq. apply in_or_app. now left. }
    destruct (Harcs a' Ha' Hc' Hold Hnq' Hnb) as [Hend Hbound].
    split; [now right|]. intros n m Hdn Hdm.
    destruct (Hdone _ Hold Hnq') as (n0 & Hn0 & _).
    destruct (Hall _ Hend) as (m0 & Hm0 & _).
    pose proof (depth_fun _ _ _ _ _ Hdn (depth_more _ [(w, (cur, Edge.id a))] _ _ _ Hn0)).
    pose proof (depth_fun _ _ _ _ _ Hdm (depth_more _ [(w, (cur, Edge.id a))] _ _ _ Hm0)).
    subst n m. now apply Hbound.
Qed.

Lemma fold_visit_level (h : nat) (cur : string) (A : list string)
    (l : list Edge.t) :
  forall (B : list string) (st : search),
  search_inv arcs s st -> In cur (visited st) ->
  level_inv arcs s [cur] h A B st ->
  (forall a, In a l -> In a arcs /\ Edge.start_node_id a = cur) ->
  exists B', level_inv arcs s [cur] h A B' (fold_left (visit cur) l st).
Proof.
  induction l as [|a l IH]; intros B st Hinv Hcur Hlv Hl; simpl.
  - now exists B.
  - destruct (Hl a (or_introl eq_refl)) as [Ha Hs].
    destruct (visit_level h cur A B st a Hinv Hlv Ha Hs) as [B1 Hlv1].
    apply (IH B1).
    + rewrite <- Hs. apply visit_inv; [assumption..|]. now rewrite Hs.
    + now apply (proj1 (visit_grows cur st a)).
    + exact Hlv1.
    + intros a' Ha'. apply Hl. now right.
Qed.

Lemma level_expanded (h : nat) (cur : string) (A B : list string) (st : search) :
  level_inv arcs s [cur] h A B st ->
  (forall a, In a arcs -> Edge.start_node_id a = cur ->
             In (Edge.end_node_id a) (visited st)) ->
  level_inv arcs s [] h A B st.
Proof.
  intros [Hq Hf Hb Hbusy Hall Hdone Harcs] Hcur. split; try assumption.
  - intros v [].
  - intros a Ha Hc Hv Hnq _.
    destruct (string_dec (Edge.start_node_id a) cur) as [E|Hne].
    + split; [now apply Hcur|]. intros n m Hdn Hdm.
      rewrite E in Hdn.
      pose proof (depth_fun _ _ _ _ _ Hdn (Hbusy cur (or_introl eq_refl))).
      destruct (Hall _ (Hcur a Ha E)) as (m0 & Hm0 & Hle).
      pose proof (depth_fun _ _ _ _ _ Hdm Hm0). lia.
    + apply Harcs; try assumption. intros [E|[]]. congruence.
Qed.

Lemma level_step (h : nat) (cur : string) (A B : list string) (st : search) :
  search_inv arcs s st -> level_inv arcs s [] h (cur :: A) B st ->
  exists B',
    level_inv arcs s [] h A B'
      (fold_left (visit cur) (filter (starts_at cur) arcs)
                 (mk_search (visited st) (A ++ B) (parent st))).
Proof.
  intros Hinv Hlv.
  assert (Hq : queue st = cur :: (A ++ B)) by apply (lv_queue _ _ _ _ _ _ _ Hlv).
  destruct (search_dequeue arcs s cur (A ++ B) st Hinv Hq) as (Hinv' & Hc & _).
  destruct (fold_visit_level h cur A (filter (starts_at cur) arcs) B
              (mk_search (visited st) (A ++ B) (parent st)) Hinv' Hc)
    as [B' Hlv'].
  - now apply level_dequeue.
  - intros a Ha. apply filter_In in Ha as [Ha Hs]. split; [exact Ha|].
    now apply String.eqb_eq in Hs.
  - exists B'. apply (level_expanded h cur); [exact Hlv'|].
    intros a Ha Hs.
    apply (proj2 (proj2 (proj2 (fold_visit_grows cur _ _)))).
    + apply filter_In. split; [exact Ha|]. unfold starts_at. rewrite Hs.
      apply String.eqb_refl.
    + now apply Hpos.
Qed.

(** Every node within [h] arcs of the source has been seen, no deeper than
    the chain that leads to it is long. *)
Lemma level_covers (h : nat) (A B : list string) (st : search) :
  search_inv arcs s st -> level_inv arcs s [] h A B st ->
  forall n l x, List.length l = n -> arc_chain arcs s x l -> (n <= h)%nat ->
  In x (visited st)
  /\ exists m, depth (parent st) s x m /\ (m <= n)%nat.
Proof.
  intros Hinv [Hq Hf Hb Hbusy Hall Hdone Harcs].
  pose proof (inv_keys _ _ _ Hinv) as Hk.
  induction n as [|n IH]; intros l x Hlen Hl Hle.
  - destruct l; [|discriminate]. inversion Hl; subst.
    split; [apply Hk; now left|]. exists 0%nat. split; [apply depth_source|lia].
  - destruct (chain_last _ _ _ _ Hl) as [[-> _]|(l' & a & -> & Hl' & Ha & <-)];
      [discriminate|].
    rewrite length_app in Hlen. simpl in Hlen.
    destruct (IH l' (Edge.start_node_id a)) as (Hv & m' & Hm' & Hle');
      [lia | exact Hl' | lia |].
    assert (Hnq : ~ In (Edge.start_node_id a) (queue st)).
    { rewrite Hq. intros Hin. apply in_app_or in Hin as [Hin|Hin].
      - pose proof (depth_fun _ _ _ _ _ Hm' (Hf _ Hin)). lia.
      - pose proof (depth_fun _ _ _ _ _ Hm' (Hb _ Hin)). lia. }
    destruct (Harcs a Ha (Hpos a Ha) Hv Hnq) as [Hend Hbound]; [intros []|].
    split; [exact Hend|].
    destruct (Hall _ Hend) as (m & Hm & _). exists m. split; [exact Hm|].
    specialize (Hbound m' m Hm' Hm). lia.
Qed.

Lemma bfs_loop_shortest (fuel : nat) :
  forall (st : search) (h : nat) (A B : list string) (P : FordFulkerson.parents),
  search_inv arcs s st -> level_inv arcs s [] h A B st ->
  FordFulkerson._bfs_loop fuel self t st = Ret (Some P) ->
  exists n, depth P s t n
    /\ forall l, arc_chain arcs s t l -> (n <= List.length l)%nat.
Proof.
  induction fuel as [|fuel IH]; intros st h A B P Hinv Hlv Hrun;
    [discriminate|].
  simpl in Hrun. destruct (queue st) as [|cur rest] eqn:Eq; [discriminate|].
  assert (Hnorm : exists h' A' B',
            level_inv arcs s [] h' (cur :: A') B' st /\ rest = A' ++ B').
  { pose proof (lv_queue _ _ _ _ _ _ _ Hlv) as Hq. rewrite Eq in Hq.
    destruct A as [|a A].
    - simpl in Hq. subst B. exists (S h), rest, [].
      split; [now apply level_next | now rewrite app_nil_r].
    - simpl in Hq. injection Hq as <- ->. now exists h, A, B. }
  destruct Hnorm as (h' & A' & B' & Hlv' & ->).
  destruct (String.eqb_spec cur t) as [->|Hne].
  - injection Hrun as <-. exists h'.
    split; [apply (lv_front _ _ _ _ _ _ _ Hlv'); now left|].
    intros l Hl. destruct (Nat.le_gt_cases h' (List.length l)) as [|Hlt];
      [assumption|]. exfalso.
    destruct (level_covers h' _ _ st Hinv Hlv' (List.length l) l t eq_refl Hl)
      as (_ & m & Hm & Hle); [lia|].
    pose proof (depth_fun _ _ _ _ _ Hm
                  (lv_front _ _ _ _ _ _ _ Hlv' t (or_introl eq_refl))). lia.
  - rewrite Hout in Hrun. cbn [bind] in Hrun.
    destruct (level_step h' cur A' B' st Hinv Hlv') as [B2 Hlv2].
    apply (IH (fold_left (visit cur) (filter (starts_at cur) arcs)
                 (mk_search (visited st) (A' ++ B') (parent st)))
              h' A' B2 P); [|exact Hlv2|exact Hrun].
    now apply (search_step_inv arcs s cur (A' ++ B') st Hinv).
Qed.

End Levels.

(** * What [_find_augmenting_path] returns *)

Section Paths.
Variable self : FordFulkerson.t.
Variable arcs : list Edge.t.
Variables s t : string.

Hypothesis Hout : forall u,
  Graph.get_edges_from_node (FordFulkerson.residual_graph self) u
  = Ret (filter (starts_at u) arcs).
Hypothesis Hget : forall a, In a arcs ->
  Graph.get_edge (FordFulkerson.residual_graph self) (Edge.id a) = Ret a.
Hypothesis Hpos : forall a, In a arcs -> Edge.capacity a > 0.

Lemma find_augmenting_path_chain (fuel : nat) :
  s <> t -> (S (List.length arcs) < fuel)%nat ->
  (FordFulkerson._find_augmenting_path fuel self s t = Ret None
   /\ forall l, ~ arc_chain arcs s t l)
  \/ (exists delta l,
        FordFulkerson._find_augmenting_path fuel self s t
        = Ret (Some (delta, map Edge.id l))
        /\ arc_chain arcs s t l
        /\ NoDup (map Edge.end_node_id l)
        /\ delta > 0
        /\ (forall a, In a l -> delta <= Edge.capacity a)
        /\ (exists a, In a l /\ Edge.capacity a = delta)
        /\ forall l', arc_chain arcs s t l' ->
                      (List.length l <= List.length l')%nat).
Proof.
  intros Hst Hfuel.
  unfold FordFulkerson._find_augmenting_path, FordFulkerson._bfs.
  destruct (bfs_loop_fuel self arcs t Hout fuel
              (FordFulkerson.mk_search [s] [s] [])) as [r Hr].
  { pose proof (search_start_size arcs s). lia. }
  rewrite Hr. cbn [bind]. destruct r as [P|].
  - right.
    destruct (bfs_loop_shortest self arcs s t Hout Hpos fuel _ 0%nat [s] [] P
                (search_start_inv arcs s) (level_start arcs s) Hr)
      as (n & Hn & Hshort).
    apply (bfs_loop_some self arcs s t Hout) in Hr as [Hp Ht];
      [|apply search_start_inv].
    destruct Ht as [Ht|Ht]; [congruence|].
    destruct (parent_ok_back_path arcs s P Hp t (or_intror Ht))
      as (l & Hl & Hnd).
    destruct l as [|a l]; [inversion Hl; congruence|].
    destruct P as [|p P]; [destruct Ht|].
    assert (Hlen : (List.length (a :: l) < fuel)%nat).
    { apply Nat.le_lt_trans with (List.length arcs); [|lia].
      apply NoDup_incl_length.
      - now apply NoDup_map_inv in Hnd.
      - intros x Hx. now apply (back_path_keys _ _ _ _ _ Hl) in Hx. }
    rewrite (walk_back_path self arcs s Hget _ _ _ Hl) by assumption.
    cbn [bind map fold_left FordFulkerson.min_cap app].
    destruct (fold_min_cap l (Edge.capacity a)) as (m' & E & Hle & Hall & Hp').
    rewrite E.
    exists m', (rev (a :: l)). rewrite map_rev. split; [reflexivity|].
    split; [now apply (back_path_is_chain arcs (p :: P))|]. split.
    { rewrite map_rev. now apply NoDup_rev. }
    split.
    { apply Hp'.
      - apply (back_path_keys _ _ _ _ _ Hl). now left.
      - intros a' Ha'. apply (back_path_keys _ _ _ _ _ Hl). now right. }
    split.
    { intros a' Ha'. apply in_rev in Ha'.
      destruct Ha' as [<-|Ha']; [assumption | now apply Hall]. }
    split.
    { destruct (min_cap_attained l _ _ E) as [->|(a' & Ha' & Ea')].
      - exists a. split; [apply in_rev; rewrite rev_involutive; now left|reflexivity].
      - exists a'. split; [|exact Ea'].
        apply in_rev. rewrite rev_involutive. now right. }
    intros l' Hl'. rewrite length_rev.
    pose proof (back_path_depth _ _ _ _ _ Hl) as Hd.
    rewrite <- (depth_fun _ _ _ _ _ Hn Hd). now apply Hshort.
  - left. split; [reflexivity|].
    apply (bfs_loop_none self arcs s t Hout) in Hr;
      [|apply search_start_inv|apply search_start_closed].
    destruct Hr as (V & _ & _ & HsV & HtV & Hc).
    intros l Hl. apply HtV.
    now apply (chain_stays_inside arcs V s t l Hpos Hc Hl).
Qed.

(** With the source as the sink the search returns an empty parent map,
    which [_find_augmenting_path] reads as no path. *)
Lemma find_augmenting_path_same (fuel : nat) :
  FordFulkerson._find_augmenting_path (S fuel) self s s = Ret None.
Proof.
  unfold FordFulkerson._find_augmenting_path, FordFulkerson._bfs. simpl.
  now rewrite String.eqb_refl.
Qed.

End Paths.

(** * Histories within the bound of binary64 *)

(** [add_edge] adds the capacity it is given to the total, and the capacity
    is not negative. *)
Lemma add_edge_total (g g' : Graph.t) (id u v : string) (c : Z) (e : Edge.t) :
  Graph.add_edge g id u v c = Ret (g', e) ->
  total_capacity g' = total_capacity g + c /\ 0 <= c.
Proof.
  unfold Graph.add_edge.
  destruct (Dict.mem (Graph.edges g) id) eqn:Hm; [discriminate|].
  destruct (Graph.get_node g u); try discriminate. cbn [bind].
  destruct (Graph.get_node g v); try discriminate. cbn [bind].
  destruct (String.eqb u v); [discriminate|].
  unfold Edge.new.
  destruct (String.eqb id ""); [discriminate|].
  destruct (Z.ltb_spec c 0) as [|Hc]; [discriminate|].
  cbn [Z.ltb Z.compare Z.gtb].
  destruct (Z.gtb_spec 0 c) as [|_]; [discriminate|]. cbn [bind].
  destruct (Dict.get (Graph.adjacency_list g) u); [|discriminate].
  intros [= <- <-]. split; [|exact Hc].
  unfold total_capacity, Graph.get_all_edges, Dict.values.
  cbn [Graph.edges].
  rewrite set_new by (now apply mem_not_In).
  rewrite map_app, sumZ_app. simpl. lia.
Qed.

(** Insertions never lower the total capacity. *)
Lemma insert_total (net net' : FlowNetwork.t) (op : insertion) :
  insert net op = Ret net' ->
  total_capacity (FlowNetwork.graph net)
  <= total_capacity (FlowNetwork.graph net').
Proof.
  destruct op as [k name so si | id u v c]; simpl; intros H.
  - apply bind_Ret in H as ([net1 n] & H & [= <-]).
    unfold FlowNetwork.add_node in H.
    apply bind_Ret in H as ([g1 n1] & H & [= <- _]).
    apply add_node_stores in H as (_ & _ & _ & ->).
    unfold total_capacity, Graph.get_all_edges. simpl. lia.
  - apply bind_Ret in H as ([net1 e] & H & [= <-]).
    unfold FlowNetwork.add_edge in H.
    apply bind_Ret in H as ([g1 e1] & H & [= <- _]).
    apply add_edge_total in H as [Ht Hc].
    unfold FlowNetwork.graph, FlowNetwork.with_graph in *. simpl. lia.
Qed.

Lemma insertions_total (ops : list insertion) :
  forall net net',
    for_each insert ops net = Ret net' ->
    total_capacity (FlowNetwork.graph net)
    <= total_capacity (FlowNetwork.graph net').
Proof.
  induction ops as [|op ops IH]; intros net net' H; simpl in H.
  - injection H as <-. lia.
  - apply bind_Ret in H as (net1 & H1 & H).
    apply insert_total in H1. apply IH in H. lia.
Qed.

(** A network built by insertions with plain edge ids is within the bound
    all along when it is at the end. *)
Lemma build_exact_run (ops : list insertion) (net : FlowNetwork.t) :
  Forall (fun op => match op with
                    | AddEdge edge_id _ _ _ => plain_id edge_id
                    | AddNode _ _ _ _ => True
                    end) ops ->
  build ops = Ret net -> exact (FlowNetwork.graph net) -> exact_run net.
Proof.
  unfold build. intros Hops H. apply bind_Ret in H as (net0 & Hnew & H).
  assert (H0 : exact_run net0) by now apply exact_new.
  clear Hnew. revert net0 H0 H.
  induction Hops as [|op ops Hop _ IH]; intros net0 H0 H Hx; simpl in H.
  - now injection H as <-.
  - apply bind_Ret in H as (net1 & H1 & H). apply (IH net1); [|exact H|exact Hx].
    pose proof (insertions_total _ _ _ H) as Hle.
    destruct op as [k name so si | id u v c]; simpl in H1.
    + apply bind_Ret in H1 as ([net2 n] & H1 & [= <-]).
      eapply exact_add_node; eassumption.
    + apply bind_Ret in H1 as ([net2 e] & H1 & [= <-]).
      eapply exact_add_edge; try eassumption. unfold exact in *. lia.
Qed.

Lemma chain_exact_run : exact_run chain_net.
Proof.
  apply (build_exact_run chain_ops); [|exact chain_build|exact chain_exact].
  repeat constructor.
Qed.

Lemma chain_solved_exact_run : exact_run chain_net_solved.
Proof.
  apply (exact_max_flow chain_net chain_net_solved (fun l => l) 12 5
           ["A"; "s"] ["t"] chain_exact_run).
  exact chain_first_run.
Qed.

(** Dropping edges does not raise the total of capacities that are not
    negative. *)
Lemma kept_capacity_le (p : Edge.t -> bool) (es : list Edge.t) :
  Forall (fun e => 0 <= Edge.flow e <= Edge.capacity e) es ->
  sumZ Edge.capacity (filter p es) <= sumZ Edge.capacity es.
Proof.
  induction 1 as [|e es He _ IH]; simpl; [lia|].
  destruct (p e); simpl; lia.
Qed.

(** Every state of a history within the bound is within the bound. *)
Lemma exact_run_exact (net : FlowNetwork.t) :
  exact_run net -> exact (FlowNetwork.graph net).
Proof.
  induction 1 as [net Hnew
                 | net net' k name so si n Hr IH Hop
                 | net net' id u v c e Hr IH Hid Hop Hx
                 | net net' k Hr IH Hop
                 | net net' id Hr IH Hop
                 | net net' k Hr IH Hop
                 | net net' k Hr IH Hop
                 | net net' id c Hr IH Hop Hx
                 | net Hr IH
                 | net net' so fuel v S T Hr IH Hop]; unfold exact in *.
  - rewrite new_network in Hnew. injection Hnew as <-. vm_compute. discriminate.
  - unfold FlowNetwork.add_node in Hop.
    apply bind_Ret in Hop as ([g1 n1] & Hop & [= <- _]).
    apply add_node_stores in Hop as (_ & _ & _ & ->). exact IH.
  - exact Hx.
  - apply exact_run_reachable in Hr.
    destruct (reachable_invariants net Hr) as (H & _ & Hcap).
    unfold FlowNetwork.remove_node in Hop.
    apply bind_Ret in Hop as (g1 & Hop & [= <-]).
    assert (Hm : Dict.mem (Graph.nodes (FlowNetwork.graph net)) k = true).
    { unfold Graph.remove_node in Hop.
      destruct (Dict.mem (Graph.nodes (FlowNetwork.graph net)) k);
        [reflexivity | discriminate]. }
    destruct (remove_node_wf _ k H Hm) as (g2 & Hop' & _ & _ & Hes).
    rewrite Hop in Hop'. injection Hop' as <-.
    unfold total_capacity, FlowNetwork.graph, FlowNetwork.with_graph in *.
    cbn [FordFulkerson.graph]. rewrite Hes.
    pose proof (kept_capacity_le
                  (fun e => negb (String.eqb (Edge.start_node_id e) k
                                  || String.eqb (Edge.end_node_id e) k))
                  _ Hcap).
    lia.
  - apply exact_run_reachable in Hr.
    destruct (reachable_invariants net Hr) as (H & _ & Hcap).
    unfold FlowNetwork.remove_edge in Hop.
    apply bind_Ret in Hop as (g1 & Hop & [= <-]).
    destruct (remove_edge_wf _ _ id H Hop) as (_ & _ & Hes).
    unfold total_capacity, FlowNetwork.graph, FlowNetwork.with_graph in *.
    cbn [FordFulkerson.graph]. rewrite Hes. unfold without_edge.
    pose proof (kept_capacity_le
                  (fun e => negb (String.eqb (Edge.id e) id)) _ Hcap).
    lia.
  - unfold FlowNetwork.set_node_as_source in Hop.
    apply bind_Ret in Hop as (n & _ & [= <-]). exact IH.
  - unfold FlowNetwork.set_node_as_sink in Hop.
    apply bind_Ret in Hop as (n & _ & [= <-]). exact IH.
  - exact Hx.
  - unfold total_capacity, FlowNetwork.reset_flows, FlowNetwork.graph,
      FlowNetwork.with_graph, Graph.get_all_edges, Dict.values in *.
    cbn [FordFulkerson.graph Graph.edges]. rewrite map_map. cbn [snd].
    rewrite sumZ_map in *. exact IH.
  - apply facade_solver in Hop as (source & sink & _ & _ & Hc & _).
    destruct (solver_final _ _ _ _ _ _ Hc) as (_ & _ & Hz).
    fold (same_network (FordFulkerson.graph net) (FordFulkerson.graph net'))
      in Hz.
    unfold total_capacity, FlowNetwork.graph in *.
    now rewrite (same_network_sum _ _ Edge.capacity Hz).
Qed.

(** * graph.py: what the operations of [Graph] guarantee *)

(** X1: when [add_node] returns, the node it returns has the given id and
    flags and takes the id as its name when no name was given; [get_node] on
    the new id returns that node, every other id is answered as before, the
    node is listed last by [get_all_nodes], no edge changes, and no edge
    leaves the new node. *)
Theorem add_node_then_get_node (g g' : Graph.t) (node_id name : string)
    (is_source is_sink : bool) (node : Node.t) :
  Graph.add_node g node_id name is_source is_sink = Ret (g', node) ->
  node = Node.mk node_id (if String.eqb name "" then node_id else name)
                 is_source is_sink
  /\ Graph.get_node g' node_id = Ret node
  /\ (forall k, k <> node_id -> Graph.get_node g' k = Graph.get_node g k)
  /\ Graph.get_all_nodes g' = Graph.get_all_nodes g ++ [node]
  /\ Graph.get_all_edges g' = Graph.get_all_edges g
  /\ Graph.get_edges_from_node g' node_id = Ret [].
Proof.
  intros H. apply add_node_stores in H as (Hm & Hk & Hn & ->).
  split; [exact Hn|]. split; [|split; [|split; [|split]]].
  - unfold Graph.get_node. cbn [Graph.nodes]. now rewrite get_after_set.
  - intros k Hkk. unfold Graph.get_node. cbn [Graph.nodes].
    now rewrite get_beside_set.
  - unfold Graph.get_all_nodes. cbn [Graph.nodes].
    rewrite set_new by now apply mem_not_In.
    unfold Dict.values. now rewrite map_app.
  - reflexivity.
  - unfold Graph.get_edges_from_node. cbn [Graph.adjacency_list].
    now rewrite get_after_set.
Qed.

Lemma add_node_then_get_node_witness :
  Graph.add_node Graph.empty "a" "" false true
  = Ret (Graph.mk [("a", Node.mk "a" "a" false true)] [] [("a", [])],
         Node.mk "a" "a" false true)
  /\ Graph.get_node
       (Graph.mk [("a", Node.mk "a" "a" false true)] [] [("a", [])]) "a"
     = Ret (Node.mk "a" "a" false true).
Proof.
  split; [reflexivity|].
  apply (add_node_then_get_node Graph.empty _ "a" "" false true).
  reflexivity.
Defined.

(** X2: [add_node] raises InvalidInputError when the id is taken or
    empty, and returns in every other case. *)
Theorem add_node_rejects (g : Graph.t) (node_id name : string)
    (is_source is_sink : bool) :
  (Dict.mem (Graph.nodes g) node_id = true \/ node_id = "" <->
   Graph.add_node g node_id name is_source is_sink = Raise InvalidInputError)
  /\ (Dict.mem (Graph.nodes g) node_id = false /\ node_id <> "" <->
      exists g' node,
        Graph.add_node g node_id name is_source is_sink = Ret (g', node)).
Proof.
  unfold Graph.add_node, Node.new.
  destruct (Dict.mem (Graph.nodes g) node_id).
  - split; split.
    + reflexivity.
    + intros _. now left.
    + intros [Hm _]. discriminate.
    + intros (g' & n & Hr). discriminate.
  - destruct (String.eqb_spec node_id "") as [->|Hk]; cbn [bind].
    + split; split.
      * reflexivity.
      * intros _. now right.
      * intros [_ Hne]. congruence.
      * intros (g' & n & Hr). discriminate.
    + split; split.
      * intros [Hm|Hm]; congruence.
      * discriminate.
      * intros _. now do 2 eexists.
      * intros _. now split.
Qed.

(** X3: on a graph that the public operations built, when [add_edge]
    returns, the edge it returns joins the two given, distinct nodes with
    the given capacity and no flow; [get_edge] on the new id
    returns it and answers every other id as before; the edge is listed last
    by [get_all_edges] and last among the edges that leave its start node,
    the edges leaving other nodes are as before, [has_edge] sees it, and the
    nodes are untouched. *)
Theorem add_edge_then_lookup (net : FlowNetwork.t) (g' : Graph.t)
    (edge_id start_node_id end_node_id : string) (capacity : Z)
    (edge : Edge.t) :
  built net ->
  Graph.add_edge (FlowNetwork.graph net) edge_id start_node_id end_node_id
                 capacity = Ret (g', edge) ->
  edge = Edge.mk edge_id start_node_id end_node_id capacity 0
  /\ start_node_id <> end_node_id
  /\ Graph.get_edge g' edge_id = Ret edge
  /\ (forall k, k <> edge_id ->
        Graph.get_edge g' k = Graph.get_edge (FlowNetwork.graph net) k)
  /\ Graph.get_all_edges g'
     = Graph.get_all_edges (FlowNetwork.graph net) ++ [edge]
  /\ (exists out,
        Graph.get_edges_from_node (FlowNetwork.graph net) start_node_id
        = Ret out
        /\ Graph.get_edges_from_node g' start_node_id = Ret (out ++ [edge]))
  /\ (forall k, k <> start_node_id ->
        Graph.get_edges_from_node g' k
        = Graph.get_edges_from_node (FlowNetwork.graph net) k)
  /\ Graph.has_edge g' start_node_id end_node_id = Ret true
  /\ Graph.get_all_nodes g' = Graph.get_all_nodes (FlowNetwork.graph net).
Proof.
  intros Hb Hadd. apply built_wf in Hb as H.
  set (g := FlowNetwork.graph net) in *.
  destruct (add_edge_wf _ _ _ _ _ _ _ H Hadd) as (H' & He & Hc & Hes).
  destruct (add_edge_stores _ _ _ _ _ _ _ Hadd) as (Hm & Hn & Hd).
  assert (Hin : In edge (Graph.get_all_edges g'))
    by (rewrite Hes; apply in_or_app; right; now left).
  assert (Hid : Edge.id edge = edge_id) by now rewrite He.
  assert (Hst : Edge.start_node_id edge = start_node_id) by now rewrite He.
  assert (Hen : Edge.end_node_id edge = end_node_id) by now rewrite He.
  split; [exact He|]. split.
  { pose proof (wf_edges g' H') as Hok. rewrite Forall_forall in Hok.
    destruct (Hok _ Hin) as (_ & _ & Hne). now rewrite Hst, Hen in Hne. }
  split; [rewrite <- Hid; now apply wf_get_edge|]. split.
  { intros k Hk. unfold Graph.get_edge. rewrite Hd.
    now rewrite get_beside_set. }
  split; [exact Hes|]. split.
  { exists (filter (starts_at start_node_id) (Graph.get_all_edges g)).
    split; [now apply wf_out_edges|]. rewrite wf_out_edges by exact H'.
    rewrite Hes, filter_app. simpl. unfold starts_at at 2.
    now rewrite Hst, String.eqb_refl. }
  split.
  { intros k Hk. rewrite !wf_out_edges by assumption.
    rewrite Hes, filter_app. simpl. unfold starts_at at 2. rewrite Hst.
    apply not_eq_sym, String.eqb_neq in Hk. rewrite Hk.
    now rewrite app_nil_r. }
  split.
  { rewrite wf_has_edge by exact H'. f_equal. apply existsb_exists.
    exists edge. split.
    - apply filter_In. split; [exact Hin|]. unfold starts_at.
      rewrite Hst. apply String.eqb_refl.
    - unfold ends_at. rewrite Hen. apply String.eqb_refl. }
  unfold Graph.get_all_nodes. now rewrite Hn.
Qed.

Lemma add_edge_then_lookup_witness :
  built chain_net
  /\ exists g' edge,
       Graph.add_edge (FlowNetwork.graph chain_net) "e3" "s" "t" 7
       = Ret (g', edge)
       /\ Graph.get_edge g' "e3" = Ret (Edge.mk "e3" "s" "t" 7 0)
       /\ Graph.has_edge g' "s" "t" = Ret true.
Proof.
  assert (Hb : built chain_net) by exact (reachable_built _ chain_reachable).
  split; [exact Hb|].
  destruct (Graph.add_edge (FlowNetwork.graph chain_net) "e3" "s" "t" 7)
    as [[g' edge]| | |] eqn:E; try discriminate.
  exists g', edge. split; [reflexivity|].
  destruct (add_edge_then_lookup chain_net g' "e3" "s" "t" 7 edge Hb E)
    as (He & _ & Hget & _ & _ & _ & _ & Hhas & _).
  split; [now rewrite <- He | exact Hhas].
Defined.

(** X4: the errors of [add_edge], in the order the code checks them, on a
    graph that the public operations built: a taken edge id is an
    InvalidInputError, whatever the nodes; otherwise an unknown start or end
    node is a NameError (the class NodeNotFoundError is not imported in
    graph.py); otherwise equal ends, an empty id or a negative capacity are
    an InvalidInputError; in every other case the new edge is returned. *)
Theorem add_edge_errors (net : FlowNetwork.t)
    (edge_id start_node_id end_node_id : string) (capacity : Z) :
  built net ->
  let g := FlowNetwork.graph net in
  let result :=
    Graph.add_edge g edge_id start_node_id end_node_id capacity in
  (Dict.mem (Graph.edges g) edge_id = true ->
   result = Raise InvalidInputError)
  /\ (Dict.mem (Graph.edges g) edge_id = false ->
      Dict.mem (Graph.nodes g) start_node_id = false
      \/ Dict.mem (Graph.nodes g) end_node_id = false ->
      result = Raise (NameError "NodeNotFoundError"))
  /\ (Dict.mem (Graph.edges g) edge_id = false ->
      Dict.mem (Graph.nodes g) start_node_id = true ->
      Dict.mem (Graph.nodes g) end_node_id = true ->
      start_node_id = end_node_id \/ edge_id = "" \/ capacity < 0 ->
      result = Raise InvalidInputError)
  /\ (Dict.mem (Graph.edges g) edge_id = false ->
      Dict.mem (Graph.nodes g) start_node_id = true ->
      Dict.mem (Graph.nodes g) end_node_id = true ->
      start_node_id <> end_node_id -> edge_id <> "" -> 0 <= capacity ->
      exists g',
        result
        = Ret (g', Edge.mk edge_id start_node_id end_node_id capacity 0)).
Proof.
  intros Hb g result. apply built_wf in Hb as H. fold g in H.
  subst result. unfold Graph.add_edge, Graph.get_node, Edge.new, Dict.mem.
  split; [intros Hm; now destruct (Dict.get (Graph.edges g) edge_id)|].
  split.
  { intros Hm [Hu|Hu].
    - destruct (Dict.get (Graph.edges g) edge_id); [discriminate|].
      now destruct (Dict.get (Graph.nodes g) start_node_id).
    - destruct (Dict.get (Graph.edges g) edge_id); [discriminate|].
      destruct (Dict.get (Graph.nodes g) start_node_id); [|reflexivity].
      cbn [bind].
      now destruct (Dict.get (Graph.nodes g) end_node_id). }
  split.
  { intros Hm Hu Hv Hbad.
    destruct (Dict.get (Graph.edges g) edge_id); [discriminate|].
    destruct (Dict.get (Graph.nodes g) start_node_id); [|discriminate].
    destruct (Dict.get (Graph.nodes g) end_node_id); [|discriminate].
    cbn [bind].
    destruct (String.eqb_spec start_node_id end_node_id) as [_|Hne];
      [reflexivity|].
    destruct Hbad as [Hbad|[->|Hbad]]; [contradiction|reflexivity|].
    destruct (String.eqb edge_id ""); [reflexivity|].
    apply Z.ltb_lt in Hbad. now rewrite Hbad. }
  intros Hm Hu Hv Hne Hid Hc.
  assert (Hu' : In start_node_id (Dict.keys (Graph.nodes g))).
  { apply mem_In. exact Hu. }
  destruct (Dict.get (Graph.edges g) edge_id); [discriminate|].
  destruct (Dict.get (Graph.nodes g) start_node_id); [|discriminate].
  destruct (Dict.get (Graph.nodes g) end_node_id); [|discriminate].
  cbn [bind].
  apply String.eqb_neq in Hne, Hid. rewrite Hne, Hid.
  apply Z.ltb_ge in Hc as Hc'. rewrite Hc'.
  assert (Hg : (0 >? capacity) = false)
    by (rewrite Z.gtb_ltb; apply Z.ltb_ge; lia).
  simpl. rewrite Hg. cbn [bind].
  rewrite (wf_adjacency g H), get_adjacency by exact Hu'.
  now eexists.
Qed.

Lemma add_edge_errors_witness :
  built chain_net
  /\ Graph.add_edge (FlowNetwork.graph chain_net) "e1" "nowhere" "t" 1
     = Raise InvalidInputError
  /\ Graph.add_edge (FlowNetwork.graph chain_net) "e3" "nowhere" "t" 1
     = Raise (NameError "NodeNotFoundError")
  /\ Graph.add_edge (FlowNetwork.graph chain_net) "e3" "t" "t" 1
     = Raise InvalidInputError.
Proof.
  assert (Hb : built chain_net) by exact (reachable_built _ chain_reachable).
  split; [exact Hb|].
  destruct (add_edge_errors chain_net "e1" "nowhere" "t" 1 Hb) as (E1 & _).
  destruct (add_edge_errors chain_net "e3" "nowhere" "t" 1 Hb)
    as (_ & E2 & _).
  destruct (add_edge_errors chain_net "e3" "t" "t" 1 Hb) as (_ & _ & E3 & _).
  split; [|split].
  - apply E1. reflexivity.
  - apply E2; [reflexivity | now left].
  - apply E3; [reflexivity | reflexivity | reflexivity | now left].
Defined.

(** X5: on a graph that the public operations built, removing an edge
    right after adding it gives back the graph as it was: nodes, edges and
    the adjacency index. *)
Theorem add_edge_then_remove_edge (net : FlowNetwork.t) (g' : Graph.t)
    (edge_id start_node_id end_node_id : string) (capacity : Z)
    (edge : Edge.t) :
  built net ->
  Graph.add_edge (FlowNetwork.graph net) edge_id start_node_id end_node_id
                 capacity = Ret (g', edge) ->
  Graph.remove_edge g' edge_id = Ret (FlowNetwork.graph net).
Proof.
  intros Hb Hadd. apply built_wf in Hb as H.
  set (g := FlowNetwork.graph net) in *.
  destruct (add_edge_wf _ _ _ _ _ _ _ H Hadd) as (H' & He & Hc & Hes).
  destruct (add_edge_stores _ _ _ _ _ _ _ Hadd) as (Hm & Hn & Hd).
  destruct (remove_edge_returns g' edge_id) as [g2 Hrem].
  { unfold Dict.mem. rewrite Hd. now rewrite get_after_set. }
  rewrite Hrem. f_equal.
  destruct (remove_edge_wf _ _ _ H' Hrem) as (H2 & Hn2 & Hes2).
  apply wf_same; try assumption; [congruence|].
  rewrite Hes2, Hes. unfold without_edge. rewrite filter_app. simpl.
  rewrite He at 1. cbn [Edge.id]. rewrite String.eqb_refl. simpl.
  rewrite app_nil_r. apply without_fresh.
  rewrite <- (wf_edge_keys g H). now apply mem_not_In.
Qed.

Lemma add_edge_then_remove_edge_witness :
  built chain_net
  /\ exists g' edge,
       Graph.add_edge (FlowNetwork.graph chain_net) "e3" "s" "t" 7
       = Ret (g', edge)
       /\ Graph.remove_edge g' "e3" = Ret (FlowNetwork.graph chain_net).
Proof.
  assert (Hb : built chain_net) by exact (reachable_built _ chain_reachable).
  split; [exact Hb|].
  destruct (Graph.add_edge (FlowNetwork.graph chain_net) "e3" "s" "t" 7)
    as [[g' edge]| | |] eqn:E; try discriminate.
  exists g', edge. split; [reflexivity|].
  exact (add_edge_then_remove_edge chain_net g' "e3" "s" "t" 7 edge Hb E).
Defined.

(** X6: on a graph that the public operations built, removing a node
    right after adding it gives back the graph as it was. *)
Theorem add_node_then_remove_node (net : FlowNetwork.t) (g' : Graph.t)
    (node_id name : string) (is_source is_sink : bool) (node : Node.t) :
  built net ->
  Graph.add_node (FlowNetwork.graph net) node_id name is_source is_sink
  = Ret (g', node) ->
  Graph.remove_node g' node_id = Ret (FlowNetwork.graph net).
Proof.
  intros Hb Hadd. apply built_wf in Hb as H.
  set (g := FlowNetwork.graph net) in *.
  destruct (add_node_wf _ _ _ _ _ _ _ H Hadd) as (H' & Hes).
  destruct (add_node_stores _ _ _ _ _ _ _ Hadd) as (Hm & Hk & Hn & Hg').
  apply mem_not_In in Hm as Hfresh.
  assert (Hns : Graph.nodes g' = Graph.nodes g ++ [(node_id, node)]).
  { rewrite Hg'. cbn [Graph.nodes]. now apply set_new. }
  destruct (remove_node_wf g' node_id H') as (g2 & Hrem & H2 & Hn2 & Hes2).
  { rewrite Hg'. unfold Dict.mem. cbn [Graph.nodes].
    now rewrite get_after_set. }
  rewrite Hrem. f_equal. apply wf_same; try assumption.
  - rewrite Hn2, Hns. now apply del_last.
  - rewrite Hes2, Hes. apply filter_all. intros e He.
    pose proof (wf_edges g H) as Hok. rewrite Forall_forall in Hok.
    destruct (Hok e He) as (Hu & Hv & _).
    apply negb_true_iff, orb_false_iff. split; apply String.eqb_neq; congruence.
Qed.

Lemma add_node_then_remove_node_witness :
  built chain_net
  /\ exists g' node,
       Graph.add_node (FlowNetwork.graph chain_net) "B" "" false false
       = Ret (g', node)
       /\ Graph.remove_node g' "B" = Ret (FlowNetwork.graph chain_net).
Proof.
  assert (Hb : built chain_net) by exact (reachable_built _ chain_reachable).
  split; [exact Hb|].
  destruct (Graph.add_node (FlowNetwork.graph chain_net) "B" "" false false)
    as [[g' node]| | |] eqn:E; try discriminate.
  exists g', node. split; [reflexivity|].
  exact (add_node_then_remove_node chain_net g' "B" "" false false node Hb E).
Defined.

(** X7: on a graph that the public operations built, [remove_node] of a
    node that is there returns; the node is gone ([get_node] on its id
    fails), the other nodes are kept in their order and answered as before,
    and exactly the edges that started or ended at the node are gone: those
    that remain are kept in their order, and what leaves any node is what
    left it before, less the edges into the removed node. *)
Theorem remove_node_drops_incident_edges (net : FlowNetwork.t)
    (node_id : string) :
  built net ->
  Dict.mem (Graph.nodes (FlowNetwork.graph net)) node_id = true ->
  let g := FlowNetwork.graph net in
  let kept (e : Edge.t) :=
    negb (String.eqb (Edge.start_node_id e) node_id
          || String.eqb (Edge.end_node_id e) node_id) in
  exists g',
    Graph.remove_node g node_id = Ret g'
    /\ Graph.get_all_nodes g'
       = filter (fun n => negb (String.eqb (Node.id n) node_id))
                (Graph.get_all_nodes g)
    /\ Graph.get_node g' node_id = Raise (NameError "NodeNotFoundError")
    /\ (forall k, k <> node_id -> Graph.get_node g' k = Graph.get_node g k)
    /\ Graph.get_all_edges g' = filter kept (Graph.get_all_edges g)
    /\ (forall k out,
          Graph.get_edges_from_node g k = Ret out ->
          Graph.get_edges_from_node g' k
          = Ret (if String.eqb k node_id then [] else filter kept out)).
Proof.
  intros Hb Hm g kept. apply built_wf in Hb as H. fold g in H, Hm.
  destruct (remove_node_wf g node_id H Hm) as (g' & Hrem & H' & Hn & Hes).
  exists g'. split; [exact Hrem|]. split.
  { unfold Graph.get_all_nodes. rewrite Hn.
    apply values_del_nodes; apply H. }
  split.
  { unfold Graph.get_node. rewrite Hn, get_after_del; [reflexivity|apply H]. }
  split.
  { intros k Hk. unfold Graph.get_node. rewrite Hn.
    now rewrite get_beside_del. }
  split; [exact Hes|].
  intros k out Hout. rewrite wf_out_edges in Hout by exact H.
  injection Hout as <-. rewrite wf_out_edges by exact H'. f_equal.
  rewrite Hes. fold kept. clear Hes.
  destruct (String.eqb_spec k node_id) as [->|Hk].
  - induction (Graph.get_all_edges g) as [|e es IH]; [reflexivity|].
    simpl. unfold kept at 1.
    destruct (String.eqb (Edge.start_node_id e) node_id) eqn:E; simpl;
      [exact IH|].
    destruct (String.eqb (Edge.end_node_id e) node_id); simpl; [exact IH|].
    unfold starts_at at 1. now rewrite E.
  - apply filter_comm.
Qed.

Lemma remove_node_drops_incident_edges_witness :
  built chain_net
  /\ exists g',
       Graph.remove_node (FlowNetwork.graph chain_net) "A" = Ret g'
       /\ Graph.get_all_edges g' = []
       /\ Graph.get_node g' "A" = Raise (NameError "NodeNotFoundError").
Proof.
  assert (Hb : built chain_net) by exact (reachable_built _ chain_reachable).
  split; [exact Hb|].
  destruct (remove_node_drops_incident_edges chain_net "A" Hb eq_refl)
    as (g' & Hrem & _ & Hget & _ & Hes & _).
  exists g'. split; [exact Hrem|]. split; [exact Hes | exact Hget].
Defined.

(** X8: on a graph that the public operations built, [remove_edge] of an
    edge that is there returns; the edge is gone ([get_edge] on its id
    fails, and it no longer leaves its start node), every other edge is
    kept, in its order and under its id, and the nodes are untouched. *)
Theorem remove_edge_drops_one_edge (net : FlowNetwork.t) (edge_id : string) :
  built net ->
  Dict.mem (Graph.edges (FlowNetwork.graph net)) edge_id = true ->
  let g := FlowNetwork.graph net in
  let kept (e : Edge.t) := negb (String.eqb (Edge.id e) edge_id) in
  exists g',
    Graph.remove_edge g edge_id = Ret g'
    /\ Graph.get_all_edges g' = filter kept (Graph.get_all_edges g)
    /\ Graph.get_edge g' edge_id = Raise (NameError "EdgeNotFoundError")
    /\ (forall k, k <> edge_id -> Graph.get_edge g' k = Graph.get_edge g k)
    /\ (forall k out,
          Graph.get_edges_from_node g k = Ret out ->
          Graph.get_edges_from_node g' k = Ret (filter kept out))
    /\ Graph.get_all_nodes g' = Graph.get_all_nodes g.
Proof.
  intros Hb Hm g kept. apply built_wf in Hb as H. fold g in H, Hm.
  destruct (remove_edge_returns g edge_id Hm) as [g' Hrem].
  destruct (remove_edge_wf _ _ _ H Hrem) as (H' & Hn & Hes).
  exists g'. split; [exact Hrem|]. split; [exact Hes|].
  assert (Hd : Graph.edges g' = Dict.del (Graph.edges g) edge_id).
  { revert Hrem. unfold Graph.remove_edge.
    destruct (Dict.get (Graph.edges g) edge_id); [|discriminate].
    now intros [= <-]. }
  split.
  { unfold Graph.get_edge. rewrite Hd, get_after_del; [reflexivity|].
    rewrite wf_edge_keys by exact H. apply H. }
  split.
  { intros k Hk. unfold Graph.get_edge. rewrite Hd.
    now rewrite get_beside_del. }
  split.
  { intros k out Hout. rewrite wf_out_edges in Hout by exact H.
    injection Hout as <-. rewrite wf_out_edges by exact H'. f_equal.
    rewrite Hes. apply filter_comm. }
  unfold Graph.get_all_nodes. now rewrite Hn.
Qed.

Lemma remove_edge_drops_one_edge_witness :
  built chain_net
  /\ exists g',
       Graph.remove_edge (FlowNetwork.graph chain_net) "e1" = Ret g'
       /\ Graph.get_all_edges g' = [Edge.mk "e2" "A" "t" 5 0]
       /\ Graph.get_edge g' "e1" = Raise (NameError "EdgeNotFoundError").
Proof.
  assert (Hb : built chain_net) by exact (reachable_built _ chain_reachable).
  split; [exact Hb|].
  destruct (remove_edge_drops_one_edge chain_net "e1" Hb eq_refl)
    as (g' & Hrem & Hes & Hget & _).
  exists g'. split; [exact Hrem|]. split; [exact Hes | exact Hget].
Defined.

(** X9: on a graph that the public operations built, with any edge ids
    and after any computations, [has_edge] never fails, and it answers True
    exactly when some edge of the graph starts at the first node and ends
    at the second. *)
Theorem has_edge_spec (net : FlowNetwork.t) (start_node_id end_node_id : string) :
  built net ->
  exists b,
    Graph.has_edge (FlowNetwork.graph net) start_node_id end_node_id = Ret b
    /\ (b = true <->
        exists e, In e (FlowNetwork.get_all_edges net)
                  /\ Edge.start_node_id e = start_node_id
                  /\ Edge.end_node_id e = end_node_id).
Proof.
  intros Hb. apply built_wf in Hb as H. rewrite wf_has_edge by exact H.
  eexists. split; [reflexivity|]. rewrite existsb_exists.
  unfold FlowNetwork.get_all_edges. split.
  - intros (e & He & Hv). apply filter_In in He as [He Hu].
    exists e. split; [exact He|]. split; now apply String.eqb_eq.
  - intros (e & He & Hu & Hv). exists e. split.
    + apply filter_In. split; [exact He|]. now apply String.eqb_eq.
    + now apply String.eqb_eq.
Qed.

Lemma has_edge_spec_witness :
  built chain_net
  /\ Graph.has_edge (FlowNetwork.graph chain_net) "s" "A" = Ret true
  /\ Graph.has_edge (FlowNetwork.graph chain_net) "A" "s" = Ret false.
Proof.
  assert (Hb : built chain_net) by exact (reachable_built _ chain_reachable).
  split; [exact Hb|].
  destruct (has_edge_spec chain_net "s" "A" Hb) as (b & Hhas & _).
  split; [|reflexivity].
  rewrite Hhas. vm_compute in Hhas. now injection Hhas as <-.
Defined.

(** X10: on a network that the public operations built, with any edge ids
    and after any computations, [get_edges_from_node] never fails: it
    returns the edges of [get_all_edges] that start at the node, in the
    order of [get_all_edges], and so the empty list for an unknown node. *)
Theorem get_edges_from_node_spec (net : FlowNetwork.t) (node_id : string) :
  built net ->
  FlowNetwork.get_edges_from_node net node_id
  = Ret (filter (fun e => String.eqb (Edge.start_node_id e) node_id)
                (FlowNetwork.get_all_edges net))
  /\ (Dict.mem (Graph.nodes (FlowNetwork.graph net)) node_id = false ->
      FlowNetwork.get_edges_from_node net node_id = Ret []).
Proof.
  intros Hb. apply built_wf in Hb as H.
  unfold FlowNetwork.get_edges_from_node, FlowNetwork.get_all_edges.
  rewrite wf_out_edges by exact H. split; [reflexivity|].
  intros Hm. f_equal. apply mem_not_In in Hm.
  pose proof (wf_edges _ H) as Hok. rewrite Forall_forall in Hok.
  induction (Graph.get_all_edges (FlowNetwork.graph net)) as [|e es IH];
    [reflexivity|].
  simpl. unfold starts_at at 1.
  destruct (String.eqb_spec (Edge.start_node_id e) node_id) as [E|_].
  - exfalso. apply Hm. rewrite <- E. apply (Hok e). now left.
  - apply IH. intros x Hx. apply Hok. now right.
Qed.

Lemma get_edges_from_node_spec_witness :
  built chain_net_solved
  /\ FlowNetwork.get_edges_from_node chain_net_solved "A"
     = Ret [Edge.mk "e2" "A" "t" 5 5].
Proof.
  assert (Hb : built chain_net_solved)
    by exact (reachable_built _ chain_solved_reachable).
  split; [exact Hb|].
  exact (proj1 (get_edges_from_node_spec chain_net_solved "A" Hb)).
Defined.

(** X29: what every graph that the public operations built is like, with
    any edge ids and after any computations.  Node ids are distinct and not
    empty, no node has an empty name, and [get_node] finds every listed
    node under its id; edge ids are distinct, [get_edge] finds every listed
    edge under its id, and every edge joins two nodes of the graph that are
    not the same node: there are no dangling edges and no loops. *)
Theorem built_graph_is_consistent (net : FlowNetwork.t) :
  built net ->
  NoDup (map Node.id (FlowNetwork.get_all_nodes net))
  /\ NoDup (map Edge.id (FlowNetwork.get_all_edges net))
  /\ (forall n, In n (FlowNetwork.get_all_nodes net) ->
        Node.id n <> "" /\ Node.name n <> ""
        /\ FlowNetwork.get_node net (Node.id n) = Ret n)
  /\ (forall e, In e (FlowNetwork.get_all_edges net) ->
        FlowNetwork.get_edge net (Edge.id e) = Ret e
        /\ (exists u, FlowNetwork.get_node net (Edge.start_node_id e) = Ret u)
        /\ (exists v, FlowNetwork.get_node net (Edge.end_node_id e) = Ret v)
        /\ Edge.start_node_id e <> Edge.end_node_id e).
Proof.
  intros Hb. apply built_wf in Hb as H.
  unfold FlowNetwork.get_all_nodes, FlowNetwork.get_all_edges,
    FlowNetwork.get_node, FlowNetwork.get_edge.
  set (g := FlowNetwork.graph net) in *.
  pose proof (wf_nodes g H) as Hn. rewrite Forall_forall in Hn.
  pose proof (wf_edges g H) as He. rewrite Forall_forall in He.
  assert (Hids : map Node.id (Graph.get_all_nodes g)
                 = Dict.keys (Graph.nodes g)).
  { unfold Graph.get_all_nodes, Dict.values, Dict.keys. rewrite map_map.
    apply map_ext_in. intros kn Hkn. now destruct (Hn kn Hkn). }
  assert (Hfind : forall k, In k (Dict.keys (Graph.nodes g)) ->
                            exists n, Graph.get_node g k = Ret n).
  { intros k Hk. unfold Graph.get_node.
    destruct (Dict.get (Graph.nodes g) k) as [n|] eqn:E; [now exists n|].
    now apply get_None in E. }
  split; [rewrite Hids; apply H|]. split; [apply H|]. split.
  - intros n Hin. unfold Graph.get_node.
    rewrite (node_lookup g n H Hin).
    unfold Graph.get_all_nodes, Dict.values in Hin.
    apply in_map_iff in Hin as (kn & <- & Hkn).
    destruct (Hn kn Hkn) as (Hid & Hk & Hname). rewrite Hid. now repeat split.
  - intros e Hin. destruct (He e Hin) as (Hu & Hv & Hne).
    split; [now apply wf_get_edge|]. split; [now apply Hfind|].
    split; [now apply Hfind | exact Hne].
Qed.

Lemma built_graph_is_consistent_witness :
  built crossed_net_solved
  /\ NoDup (map Edge.id (FlowNetwork.get_all_edges crossed_net_solved)).
Proof.
  assert (Hb : built crossed_net_solved).
  { apply (built_max_flow crossed_net crossed_net_solved (fun l => l) 12
             5 ["m"; "s"] ["x"; "t"]); [|vm_compute; reflexivity].
    apply (build_built crossed_ops). exact crossed_build. }
  split; [exact Hb|].
  exact (proj1 (proj2 (built_graph_is_consistent crossed_net_solved Hb))).
Defined.

(** * flow_network.py: the operations of [FlowNetwork] *)

(** X11: every operation of [FlowNetwork] that is given the id of a node
    or of an edge that is not there raises NameError: the lookups
    [get_node] and [get_edge], the removals, the two role setters and
    [update_edge_capacity].  flow_network.py imports the NotFound classes,
    but the [raise] statements are those of graph.py, which does not. *)
Theorem missing_id_fails_in_every_operation (net : FlowNetwork.t)
    (node_id edge_id : string) (new_capacity : Z) :
  Dict.mem (Graph.nodes (FlowNetwork.graph net)) node_id = false ->
  Dict.mem (Graph.edges (FlowNetwork.graph net)) edge_id = false ->
  FlowNetwork.get_node net node_id = Raise (NameError "NodeNotFoundError")
  /\ FlowNetwork.remove_node net node_id
     = Raise (NameError "NodeNotFoundError")
  /\ FlowNetwork.set_node_as_source net node_id
     = Raise (NameError "NodeNotFoundError")
  /\ FlowNetwork.set_node_as_sink net node_id
     = Raise (NameError "NodeNotFoundError")
  /\ FlowNetwork.get_edge net edge_id = Raise (NameError "EdgeNotFoundError")
  /\ FlowNetwork.remove_edge net edge_id
     = Raise (NameError "EdgeNotFoundError")
  /\ FlowNetwork.update_edge_capacity net edge_id new_capacity
     = Raise (NameError "EdgeNotFoundError").
Proof.
  intros Hn He.
  unfold FlowNetwork.get_node, FlowNetwork.remove_node,
    FlowNetwork.set_node_as_source, FlowNetwork.set_node_as_sink,
    FlowNetwork.get_edge, FlowNetwork.remove_edge,
    FlowNetwork.update_edge_capacity, FlowNetwork.get_node,
    FlowNetwork.get_edge, Graph.get_node, Graph.get_edge, Graph.remove_node,
    Graph.remove_edge.
  rewrite Hn. unfold Dict.mem in Hn, He.
  destruct (Dict.get (Graph.nodes (FlowNetwork.graph net)) node_id);
    [discriminate|].
  destruct (Dict.get (Graph.edges (FlowNetwork.graph net)) edge_id);
    [discriminate|].
  now repeat split.
Qed.

Lemma missing_id_fails_in_every_operation_witness :
  FlowNetwork.remove_node chain_net "B" = Raise (NameError "NodeNotFoundError")
  /\ FlowNetwork.update_edge_capacity chain_net "e9" 3
     = Raise (NameError "EdgeNotFoundError").
Proof.
  destruct (missing_id_fails_in_every_operation chain_net "B" "e9" 3
              eq_refl eq_refl) as (_ & Hrem & _ & _ & _ & _ & Hup).
  split; [exact Hrem | exact Hup].
Defined.

(** X12: [update_edge_capacity] on an edge that is there: a capacity
    under the current flow of the edge is an InvalidInputError; any other
    capacity is stored, and then [get_edge] returns the edge with the new
    capacity and its old ends and flow, every other edge id is answered as
    before, and the nodes and the adjacency index are untouched. *)
Theorem update_edge_capacity_spec (net : FlowNetwork.t) (edge_id : string)
    (edge : Edge.t) (new_capacity : Z) :
  FlowNetwork.get_edge net edge_id = Ret edge ->
  (new_capacity < Edge.flow edge ->
   FlowNetwork.update_edge_capacity net edge_id new_capacity
   = Raise InvalidInputError)
  /\ (Edge.flow edge <= new_capacity ->
      exists net',
        FlowNetwork.update_edge_capacity net edge_id new_capacity = Ret net'
        /\ FlowNetwork.get_edge net' edge_id
           = Ret (Edge.mk (Edge.id edge) (Edge.start_node_id edge)
                          (Edge.end_node_id edge) new_capacity
                          (Edge.flow edge))
        /\ (forall k, k <> edge_id ->
              FlowNetwork.get_edge net' k = FlowNetwork.get_edge net k)
        /\ Graph.nodes (FlowNetwork.graph net')
           = Graph.nodes (FlowNetwork.graph net)
        /\ Graph.adjacency_list (FlowNetwork.graph net')
           = Graph.adjacency_list (FlowNetwork.graph net)).
Proof.
  intros Hget. unfold FlowNetwork.update_edge_capacity. rewrite Hget.
  cbn [bind]. split.
  - intros Hlt. apply Z.ltb_lt in Hlt. now rewrite Hlt.
  - intros Hle. apply Z.ltb_ge in Hle. rewrite Hle.
    eexists. split; [reflexivity|].
    unfold FlowNetwork.get_edge, Graph.get_edge. simpl.
    split; [now rewrite get_after_set|]. split; [|now split].
    intros k Hk. now rewrite get_beside_set.
Qed.

Lemma update_edge_capacity_spec_witness :
  FlowNetwork.get_edge chain_net_solved "e1" = Ret (Edge.mk "e1" "s" "A" 10 5)
  /\ FlowNetwork.update_edge_capacity chain_net_solved "e1" 4
     = Raise InvalidInputError.
Proof.
  split; [reflexivity|].
  apply (update_edge_capacity_spec chain_net_solved "e1"
           (Edge.mk "e1" "s" "A" 10 5) 4); [reflexivity | simpl; lia].
Defined.

(** X13: on a network built by the public operations with plain edge ids
    and integer capacities that add up to at most 2^53 after every
    [add_edge] and [update_edge_capacity], [update_edge_capacity] never
    stores a negative capacity: it raises, InvalidInputError when the edge
    is there, although the constructor check of [Edge] is not run again. *)
Theorem negative_capacity_is_rejected (net : FlowNetwork.t) (edge_id : string)
    (new_capacity : Z) :
  exact_run net -> new_capacity < 0 ->
  (Dict.mem (Graph.edges (FlowNetwork.graph net)) edge_id = true ->
   FlowNetwork.update_edge_capacity net edge_id new_capacity
   = Raise InvalidInputError)
  /\ forall net',
       FlowNetwork.update_edge_capacity net edge_id new_capacity <> Ret net'.
Proof.
  intros Hr Hneg. apply exact_run_reachable in Hr.
  destruct (reachable_invariants net Hr) as (H & _ & Hcap).
  unfold FlowNetwork.update_edge_capacity.
  destruct (FlowNetwork.get_edge net edge_id) as [e| | |] eqn:E; cbn [bind].
  - destruct (wf_get_edge_inv _ _ _ H E) as [He _].
    unfold within_capacity in Hcap. rewrite Forall_forall in Hcap.
    specialize (Hcap e He).
    assert (Hlt : (new_capacity <? Edge.flow e) = true)
      by (apply Z.ltb_lt; lia).
    rewrite Hlt. split; [reflexivity | discriminate].
  - split; [|discriminate]. intros Hm.
    unfold FlowNetwork.get_edge, Graph.get_edge, Dict.mem in *.
    destruct (Dict.get _ edge_id); discriminate.
  - split; [|discriminate]. intros Hm.
    unfold FlowNetwork.get_edge, Graph.get_edge, Dict.mem in *.
    destruct (Dict.get _ edge_id); discriminate.
  - split; [|discriminate]. intros Hm.
    unfold FlowNetwork.get_edge, Graph.get_edge, Dict.mem in *.
    destruct (Dict.get _ edge_id); discriminate.
Qed.

Lemma negative_capacity_is_rejected_witness :
  exact_run chain_net
  /\ FlowNetwork.update_edge_capacity chain_net "e1" (-1)
     = Raise InvalidInputError.
Proof.
  split; [exact chain_exact_run|].
  apply (negative_capacity_is_rejected chain_net "e1" (-1) chain_exact_run);
    [lia | reflexivity].
Defined.

(** X14: [set_node_as_source] on a node that is there makes it a source
    and not a sink, [set_node_as_sink] makes it a sink and not a source;
    the node keeps its id, its name and its place, every other node keeps
    its roles, and the edges are untouched. *)
Theorem role_setters_spec (net : FlowNetwork.t) (node_id : string)
    (node : Node.t) :
  FlowNetwork.get_node net node_id = Ret node ->
  exists as_source as_sink,
    FlowNetwork.set_node_as_source net node_id = Ret as_source
    /\ FlowNetwork.set_node_as_sink net node_id = Ret as_sink
    /\ FlowNetwork.get_node as_source node_id
       = Ret (Node.mk (Node.id node) (Node.name node) true false)
    /\ FlowNetwork.get_node as_sink node_id
       = Ret (Node.mk (Node.id node) (Node.name node) false true)
    /\ (forall k, k <> node_id ->
          FlowNetwork.get_node as_source k = FlowNetwork.get_node net k
          /\ FlowNetwork.get_node as_sink k = FlowNetwork.get_node net k)
    /\ Dict.keys (Graph.nodes (FlowNetwork.graph as_source))
       = Dict.keys (Graph.nodes (FlowNetwork.graph net))
    /\ Dict.keys (Graph.nodes (FlowNetwork.graph as_sink))
       = Dict.keys (Graph.nodes (FlowNetwork.graph net))
    /\ Graph.edges (FlowNetwork.graph as_source)
       = Graph.edges (FlowNetwork.graph net)
    /\ Graph.edges (FlowNetwork.graph as_sink)
       = Graph.edges (FlowNetwork.graph net).
Proof.
  intros Hget.
  unfold FlowNetwork.set_node_as_source, FlowNetwork.set_node_as_sink.
  rewrite Hget. cbn [bind]. do 2 eexists.
  split; [reflexivity|]. split; [reflexivity|].
  assert (Hin : In node_id (Dict.keys (Graph.nodes (FlowNetwork.graph net)))).
  { revert Hget. unfold FlowNetwork.get_node, Graph.get_node.
    destruct (Dict.get _ node_id) eqn:E; [|discriminate].
    intros _. now apply get_Some_key in E. }
  unfold FlowNetwork.get_node, Graph.get_node. simpl.
  rewrite !get_after_set. split; [reflexivity|]. split; [reflexivity|].
  split.
  { intros k Hk. now rewrite !get_beside_set. }
  rewrite !keys_set_old by exact Hin. now repeat split.
Qed.

Lemma role_setters_spec_witness :
  FlowNetwork.get_node chain_net "A" = Ret (Node.mk "A" "Node A" false false)
  /\ exists as_source,
       FlowNetwork.set_node_as_source chain_net "A" = Ret as_source
       /\ FlowNetwork.get_node as_source "A"
          = Ret (Node.mk "A" "Node A" true false).
Proof.
  split; [reflexivity|].
  destruct (role_setters_spec chain_net "A" (Node.mk "A" "Node A" false false)
              eq_refl) as (a & b & Ha & _ & Hget & _).
  exists a. split; [exact Ha | exact Hget].
Defined.

(** X15: the role setters never take the role away from another node.
    On a network that the public operations built, making a second node the
    source leaves two sources, and making a second node the sink leaves two
    sinks; [validate_network] then returns False, whatever the edges. *)
Theorem second_source_or_sink_fails_validation (net : FlowNetwork.t)
    (node_id : string) (other : Node.t) (fuel : nat) :
  built net -> Node.id other <> node_id ->
  (forall net',
     FlowNetwork.get_source_node net = Ret other ->
     FlowNetwork.set_node_as_source net node_id = Ret net' ->
     FlowNetwork.validate_network fuel net' = Ret false
     /\ (2 <= List.length (Graph.get_source_nodes (FlowNetwork.graph net')))%nat)
  /\ (forall net',
        FlowNetwork.get_sink_node net = Ret other ->
        FlowNetwork.set_node_as_sink net node_id = Ret net' ->
        FlowNetwork.validate_network fuel net' = Ret false
        /\ (2 <= List.length (Graph.get_sink_nodes (FlowNetwork.graph net')))%nat).
Proof.
  intros Hb Hne. apply built_wf in Hb as H.
  set (g := FlowNetwork.graph net) in *. split; intros net' Hs Hset.
  - unfold FlowNetwork.set_node_as_source, FlowNetwork.get_node in Hset.
    destruct (Graph.get_node (FlowNetwork.graph net) node_id) as [n| | |] eqn:En;
      try discriminate.
    cbn [bind] in Hset. injection Hset as <-. fold g in En.
    destruct (wf_get_node_inv _ _ _ H En) as [_ Hid].
    unfold FlowNetwork.get_source_node in Hs. fold g in Hs.
    destruct (Graph.get_source_nodes g) as [|a l] eqn:Ea; [discriminate|].
    injection Hs as ->.
    assert (Ha : In other (Graph.get_source_nodes g)) by (rewrite Ea; now left).
    apply filter_In in Ha as [Ha Hflag].
    set (n' := Node.mk (Node.id n) (Node.name n) true false).
    destruct (two_members other n'
                (Graph.get_source_nodes
                   (FlowNetwork.graph
                      (FlowNetwork.set_roles net node_id n true false))))
      as (a & b & l' & E).
    + apply filter_In. split; [|exact Hflag]. simpl.
      now apply node_survives_set.
    + apply filter_In. split; [|reflexivity]. simpl. apply node_after_set.
    + intros ->. apply Hne. simpl. exact Hid.
    + unfold FlowNetwork.validate_network. rewrite E. split; [reflexivity|].
      simpl. lia.
  - unfold FlowNetwork.set_node_as_sink, FlowNetwork.get_node in Hset.
    destruct (Graph.get_node (FlowNetwork.graph net) node_id) as [n| | |] eqn:En;
      try discriminate.
    cbn [bind] in Hset. injection Hset as <-. fold g in En.
    destruct (wf_get_node_inv _ _ _ H En) as [_ Hid].
    unfold FlowNetwork.get_sink_node in Hs. fold g in Hs.
    destruct (Graph.get_sink_nodes g) as [|a l] eqn:Ea; [discriminate|].
    injection Hs as ->.
    assert (Ha : In other (Graph.get_sink_nodes g)) by (rewrite Ea; now left).
    apply filter_In in Ha as [Ha Hflag].
    set (n' := Node.mk (Node.id n) (Node.name n) false true).
    destruct (two_members other n'
                (Graph.get_sink_nodes
                   (FlowNetwork.graph
                      (FlowNetwork.set_roles net node_id n false true))))
      as (a & b & l' & E).
    + apply filter_In. split; [|exact Hflag]. simpl.
      now apply node_survives_set.
    + apply filter_In. split; [|reflexivity]. simpl. apply node_after_set.
    + intros ->. apply Hne. simpl. exact Hid.
    + unfold FlowNetwork.validate_network. rewrite E. split.
      * now destruct (Graph.get_source_nodes _) as [|x [|y l0]].
      * simpl. lia.
Qed.

Lemma second_source_or_sink_fails_validation_witness :
  built chain_net
  /\ FlowNetwork.validate_network 5 chain_net = Ret true
  /\ exists net',
       FlowNetwork.set_node_as_source chain_net "A" = Ret net'
       /\ FlowNetwork.validate_network 5 net' = Ret false.
Proof.
  assert (Hb : built chain_net) by exact (reachable_built _ chain_reachable).
  split; [exact Hb|]. split; [reflexivity|].
  destruct (FlowNetwork.set_node_as_source chain_net "A") as [net'| | |] eqn:E;
    try discriminate.
  exists net'. split; [reflexivity|].
  destruct (second_source_or_sink_fails_validation chain_net "A"
              (Node.mk "s" "Source" true false) 5 Hb) as [Hsrc _].
  - discriminate.
  - now apply (Hsrc net').
Defined.

(** X16: [validate_network] decides what it is meant to decide.  On a
    network that the public operations built, with fuel for one step per
    edge and two more, it returns, and it returns True exactly when one
    node is flagged as source, one node is flagged as sink, and a walk along
    edges leads from the source to the sink.  Capacities and flows play no
    part: an edge of capacity 0 counts. *)
Theorem validate_network_spec (net : FlowNetwork.t) (fuel : nat) :
  built net ->
  (List.length (FlowNetwork.get_all_edges net) + 1 < fuel)%nat ->
  exists b,
    FlowNetwork.validate_network fuel net = Ret b
    /\ (b = true <->
        exists source sink,
          Graph.get_source_nodes (FlowNetwork.graph net) = [source]
          /\ Graph.get_sink_nodes (FlowNetwork.graph net) = [sink]
          /\ walk (FlowNetwork.get_all_edges net)
                  (Node.id source) (Node.id sink)).
Proof.
  intros Hb Hfuel. apply built_wf in Hb as H.
  unfold FlowNetwork.validate_network, FlowNetwork.get_all_edges in *.
  set (es := Graph.get_all_edges (FlowNetwork.graph net)) in *.
  destruct (Graph.get_source_nodes (FlowNetwork.graph net))
    as [|source [|? ?]] eqn:Es.
  - exists false. split; [reflexivity|]. split; [discriminate|].
    intros (? & ? & ? & _). discriminate.
  - destruct (Graph.get_sink_nodes (FlowNetwork.graph net))
      as [|sink [|? ?]] eqn:Et.
    + exists false. split; [reflexivity|]. split; [discriminate|].
      intros (? & ? & _ & ? & _). discriminate.
    + destruct (reach_sink_spec net es (Node.id source) (Node.id sink)
                  (fun u => wf_out_edges _ u H) fuel [] [Node.id source])
        as [[Hr Hw]|[Hr (V & _ & HsV & HtV & Hc)]].
      * apply dfs_start.
      * pose proof (filter_length_le
                      (fun e => negb (mem_str (Edge.start_node_id e) [])) es)
          as Hle.
        unfold pending. cbn [List.length]. lia.
      * exists true. split; [exact Hr|]. split; [|reflexivity].
        intros _. now exists source, sink.
      * exists false. split; [exact Hr|]. split; [discriminate|].
        intros (source' & sink' & [= <-] & [= <-] & Hw). exfalso.
        apply HtV. now apply (walk_stays_inside es V (Node.id source)).
    + exists false. split; [reflexivity|]. split; [discriminate|].
      intros (? & ? & _ & ? & _). discriminate.
  - exists false. split; [reflexivity|]. split; [discriminate|].
    intros (? & ? & ? & _). discriminate.
Qed.

Lemma validate_network_spec_witness :
  built chain_net
  /\ FlowNetwork.validate_network 4 chain_net = Ret true
  /\ walk (FlowNetwork.get_all_edges chain_net) "s" "t".
Proof.
  assert (Hb : built chain_net) by exact (reachable_built _ chain_reachable).
  split; [exact Hb|].
  destruct (validate_network_spec chain_net 4 Hb) as (b & Hv & Hiff).
  { vm_compute. lia. }
  vm_compute in Hv. injection Hv as <-. split; [reflexivity|].
  destruct (proj1 Hiff eq_refl) as (source & sink & [= <-] & [= <-] & Hw).
  exact Hw.
Defined.

(** X17: [get_network_info] on a network built by the public operations
    with plain edge ids and integer capacities that add up to at most 2^53
    after every [add_edge] and [update_edge_capacity].  When the network has
    a source and a sink it returns the two counts, the ids of the first
    source and the first sink, and two totals with
    0 <= total_flow <= total_capacity <= 2^53; after [reset_flows] the total
    flow is 0 and the rest of the answer is the same.  When the network has
    no source or no sink it raises NetworkNotValidError, though the counts
    and totals need neither. *)
Theorem get_network_info_spec (net : FlowNetwork.t) :
  exact_run net ->
  (forall src snk,
     FlowNetwork.get_source_node net = Ret src ->
     FlowNetwork.get_sink_node net = Ret snk ->
     exists info,
       FlowNetwork.get_network_info net = Ret info
       /\ FlowNetwork.node_count info
          = Z.of_nat (List.length (FlowNetwork.get_all_nodes net))
       /\ FlowNetwork.edge_count info
          = Z.of_nat (List.length (FlowNetwork.get_all_edges net))
       /\ FlowNetwork.source info = Node.id src
       /\ FlowNetwork.sink info = Node.id snk
       /\ 0 <= FlowNetwork.total_flow info <= FlowNetwork.total_capacity info
       /\ FlowNetwork.total_capacity info <= 2 ^ 53
       /\ FlowNetwork.get_network_info (FlowNetwork.reset_flows net)
          = Ret (FlowNetwork.mk_info
                   (FlowNetwork.node_count info) (FlowNetwork.edge_count info)
                   (FlowNetwork.source info) (FlowNetwork.sink info)
                   (FlowNetwork.total_capacity info) 0))
  /\ (Graph.get_source_nodes (FlowNetwork.graph net) = []
      \/ Graph.get_sink_nodes (FlowNetwork.graph net) = [] ->
      FlowNetwork.get_network_info net = Raise NetworkNotValidError).
Proof.
  intros Hx. pose proof (exact_run_exact net Hx) as Hbound.
  apply exact_run_reachable in Hx as Hr.
  destruct (reachable_invariants net Hr) as (H & _ & Hcap).
  split.
  - intros src snk Hs Ht. unfold FlowNetwork.get_network_info.
    rewrite Hs, Ht. cbn [bind]. eexists. split; [reflexivity|].
    cbn [FlowNetwork.node_count FlowNetwork.edge_count FlowNetwork.source
         FlowNetwork.sink FlowNetwork.total_flow FlowNetwork.total_capacity].
    split; [reflexivity|]. split; [reflexivity|]. split; [reflexivity|].
    split; [reflexivity|]. rewrite !sum_of_sumZ. split.
    + unfold within_capacity in Hcap. rewrite Forall_forall in Hcap.
      unfold FlowNetwork.get_all_edges. split.
      * apply sumZ_nonneg. intros e He. now apply Hcap.
      * apply sumZ_le. intros e He. now apply Hcap.
    + split; [exact Hbound|].
      assert (Hs' : FlowNetwork.get_source_node (FlowNetwork.reset_flows net)
                    = Ret src) by exact Hs.
      assert (Ht' : FlowNetwork.get_sink_node (FlowNetwork.reset_flows net)
                    = Ret snk) by exact Ht.
      rewrite Hs', Ht'. cbn [bind].
      assert (Hes : FlowNetwork.get_all_edges (FlowNetwork.reset_flows net)
                    = map (fun e => Edge.set_flow e 0)
                          (FlowNetwork.get_all_edges net)).
      { unfold FlowNetwork.get_all_edges, FlowNetwork.reset_flows,
          FlowNetwork.with_graph, FlowNetwork.graph, Graph.get_all_edges,
          Dict.values.
        cbn [FordFulkerson.graph Graph.edges]. now rewrite !map_map. }
      rewrite Hes, length_map, !sumZ_map.
      rewrite (sumZ_zero (fun a => Edge.flow (Edge.set_flow a 0)))
        by reflexivity.
      reflexivity.
  - unfold FlowNetwork.get_network_info, FlowNetwork.get_source_node,
      FlowNetwork.get_sink_node.
    intros [E|E]; rewrite E; [reflexivity|].
    now destruct (Graph.get_source_nodes (FlowNetwork.graph net)).
Qed.

Lemma get_network_info_spec_witness :
  exact_run chain_net_solved
  /\ FlowNetwork.get_network_info chain_net_solved
     = Ret (FlowNetwork.mk_info 3 2 "s" "t" 15 10)
  /\ FlowNetwork.get_network_info (FlowNetwork.reset_flows chain_net_solved)
     = Ret (FlowNetwork.mk_info 3 2 "s" "t" 15 0).
Proof.
  split; [exact chain_solved_exact_run|]. split; [reflexivity|].
  destruct (get_network_info_spec chain_net_solved chain_solved_exact_run)
    as [Hinfo _].
  destruct (Hinfo (Node.mk "s" "Source" true false)
                  (Node.mk "t" "Sink" false true) eq_refl eq_refl)
    as (info & Hi & _ & _ & _ & _ & _ & _ & Hreset).
  vm_compute in Hi. injection Hi as <-. exact Hreset.
Defined.

(** * algorithms.py: what [calculate_max_flow] computes *)

(** What a computation from all-zero flows leaves, on a network built with
    plain edge ids. *)
Lemma computed_flow (set_order : list string -> list string) (fuel : nat)
    (net net' : FlowNetwork.t) (v : Z) (S T : list string) :
  reachable net -> all_zero (FlowNetwork.graph net) ->
  FlowNetwork.calculate_max_flow set_order fuel net = Ret (v, S, T, net') ->
  exists source sink V,
    FlowNetwork.get_source_node net = Ret source
    /\ FlowNetwork.get_sink_node net = Ret sink
    /\ Node.id source <> Node.id sink
    /\ In (Node.id source) (Dict.keys (Graph.nodes (FlowNetwork.graph net')))
    /\ In (Node.id sink) (Dict.keys (Graph.nodes (FlowNetwork.graph net')))
    /\ graph_wf (FlowNetwork.graph net')
    /\ same_network (FlowNetwork.graph net) (FlowNetwork.graph net')
    /\ within_capacity (FlowNetwork.graph net')
    /\ conserved (FlowNetwork.graph net') (Node.id source) (Node.id sink)
    /\ net_out (FlowNetwork.graph net') (Node.id source) = v
    /\ NoDup V /\ In (Node.id source) V /\ ~ In (Node.id sink) V
    /\ arc_closed (residual_arcs (Graph.get_all_edges (FlowNetwork.graph net')))
                  V.
Proof.
  intros Hr Hz Hcalc.
  destruct (reachable_invariants net Hr) as (H & Hd & Hcap).
  destruct (facade_returned _ _ _ _ _ _ _ H Hd Hcap Hcalc)
    as (source & sink & f & V & Hs & Ht & Hst & Hg & _ & _ & Hv & _ & Hcap'
        & Hcons & ND & HsV & HtV & Hclosed).
  destruct (facade_solver _ _ _ _ _ _ _ Hcalc)
    as (source' & sink' & Hs' & Ht' & Hc & _).
  rewrite Hs in Hs'. rewrite Ht in Ht'.
  injection Hs' as <-. injection Ht' as <-.
  destruct (solver_final _ _ _ _ _ _ Hc) as (_ & _ & Hsame).
  pose proof (solver_wf _ _ _ _ _ _ H Hc) as H'.
  assert (Hkey : forall n get, (get net = Ret n) ->
            (get = FlowNetwork.get_source_node
             \/ get = FlowNetwork.get_sink_node) ->
            In (Node.id n) (Dict.keys (Graph.nodes (FlowNetwork.graph net')))).
  { intros n get Hget Hwhich.
    apply (f_equal Graph.nodes) in Hsame. simpl in Hsame.
    unfold FlowNetwork.graph. rewrite Hsame.
    apply (get_Some_key _ _ n). apply node_lookup; [exact H|].
    destruct Hwhich as [-> | ->].
    - unfold FlowNetwork.get_source_node in Hget.
      destruct (Graph.get_source_nodes _) as [|a l] eqn:E; [discriminate|].
      injection Hget as ->.
      assert (Hin : In n (Graph.get_source_nodes (FlowNetwork.graph net)))
        by (rewrite E; now left).
      now apply filter_In in Hin.
    - unfold FlowNetwork.get_sink_node in Hget.
      destruct (Graph.get_sink_nodes _) as [|a l] eqn:E; [discriminate|].
      injection Hget as ->.
      assert (Hin : In n (Graph.get_sink_nodes (FlowNetwork.graph net)))
        by (rewrite E; now left).
      now apply filter_In in Hin. }
  exists source, sink, V.
  split; [exact Hs|]. split; [exact Ht|]. split; [exact Hst|].
  split; [apply (Hkey source FlowNetwork.get_source_node Hs); now left|].
  split; [apply (Hkey sink FlowNetwork.get_sink_node Ht); now right|].
  split; [exact H'|]. split; [exact Hsame|]. split; [exact Hcap'|].
  split.
  { apply conserved_iff_net_out. intros x Hxs Hxt.
    rewrite Hcons by assumption. now apply all_zero_net_out. }
  split; [rewrite Hv, (all_zero_net_out _ _ Hz); lia|].
  now repeat split.
Qed.

(** X18: the value that [calculate_max_flow] returns is the greatest
    there is.  On a network built by the public operations with plain edge
    ids, integer capacities that add up to at most 2^53 and no flow yet,
    when the computation returns, the flows it leaves on the edges respect
    every capacity and are conserved at every node but the source and the
    sink, the source sends out the returned value, and no other assignment
    of integer flows to the same edges that respects the capacities and is
    conserved sends more out of the source. *)
Theorem max_flow_is_maximal (set_order : list string -> list string)
    (fuel : nat) (net net' : FlowNetwork.t) (v : Z) (S T : list string) :
  reachable net -> exact (FlowNetwork.graph net) ->
  all_zero (FlowNetwork.graph net) ->
  FlowNetwork.calculate_max_flow set_order fuel net = Ret (v, S, T, net') ->
  exists source sink,
    FlowNetwork.get_source_node net = Ret source
    /\ FlowNetwork.get_sink_node net = Ret sink
    /\ same_network (FlowNetwork.graph net) (FlowNetwork.graph net')
    /\ within_capacity (FlowNetwork.graph net')
    /\ conserved (FlowNetwork.graph net') (Node.id source) (Node.id sink)
    /\ outflow (FlowNetwork.graph net') (Node.id source)
       - inflow (FlowNetwork.graph net') (Node.id source) = v
    /\ forall g,
         same_network (FlowNetwork.graph net) g ->
         within_capacity g ->
         conserved g (Node.id source) (Node.id sink) ->
         outflow g (Node.id source) - inflow g (Node.id source) <= v.
Proof.
  intros Hr _ Hz Hcalc.
  destruct (computed_flow _ _ _ _ _ _ _ Hr Hz Hcalc)
    as (source & sink & V & Hs & Ht & Hst & _ & _ & H' & Hsame & Hcap'
        & Hcons' & Hv & ND & HsV & HtV & Hclosed).
  destruct (reachable_invariants net Hr) as (H & _ & _).
  exists source, sink. split; [exact Hs|]. split; [exact Ht|].
  split; [exact Hsame|]. split; [exact Hcap'|]. split; [exact Hcons'|].
  split; [exact Hv|].
  intros g Hg Hcapg Hconsg. fold (net_out g (Node.id source)).
  set (T0 := filter (fun node_id => negb (mem_str node_id V))
                    (Dict.keys (Graph.nodes (FlowNetwork.graph net)))).
  assert (Hcut : v = cut_capacity (FlowNetwork.graph net) V T0).
  { rewrite <- Hv, <- (same_network_cut _ _ V T0 Hsame).
    apply (flow_value_is_cut _ _ (Node.id sink) V); try assumption.
    - reflexivity.
    - unfold T0. now rewrite (same_network_nodes _ _ Hsame). }
  rewrite Hcut, <- (same_network_cut _ _ V T0 Hg). unfold T0.
  rewrite <- (same_network_nodes _ _ Hg).
  apply (flow_value_under_cut g _ (Node.id sink)); try assumption.
  intros e He. destruct (same_network_ends _ _ e Hg He)
    as (e0 & He0 & _ & _ & Hend & _).
  rewrite (same_network_nodes _ _ Hg), <- Hend.
  pose proof (wf_edges _ H) as Hok. rewrite Forall_forall in Hok.
  now destruct (Hok e0 He0) as (_ & Hv0 & _).
Qed.

Lemma chain_zero : all_zero (FlowNetwork.graph chain_net).
Proof. repeat constructor. Qed.

Lemma max_flow_is_maximal_witness :
  reachable chain_net /\ exact (FlowNetwork.graph chain_net)
  /\ all_zero (FlowNetwork.graph chain_net)
  /\ FlowNetwork.calculate_max_flow (fun l => l) 12 chain_net
     = Ret (5, ["A"; "s"], ["t"], chain_net_solved)
  /\ forall g,
       same_network (FlowNetwork.graph chain_net) g ->
       within_capacity g -> conserved g "s" "t" ->
       outflow g "s" - inflow g "s" <= 5.
Proof.
  split; [exact chain_reachable|]. split; [exact chain_exact|].
  split; [exact chain_zero|]. split; [exact chain_first_run|].
  destruct (max_flow_is_maximal (fun l => l) 12 chain_net chain_net_solved 5
              ["A"; "s"] ["t"] chain_reachable chain_exact chain_zero
              chain_first_run)
    as (source & sink & Hs & Ht & _ & _ & _ & _ & Hmax).
  injection Hs as <-. injection Ht as <-. exact Hmax.
Defined.

(** X19: what the source sends is what the sink receives.  On a network
    built by the public operations with plain edge ids, integer capacities
    that add up to at most 2^53 and no flow yet, the value that
    [calculate_max_flow] returns is the flow on the edges into the sink less
    the flow on the edges out of it, and it is not negative. *)
Theorem flow_value_reaches_sink (set_order : list string -> list string)
    (fuel : nat) (net net' : FlowNetwork.t) (v : Z) (S T : list string) :
  reachable net -> exact (FlowNetwork.graph net) ->
  all_zero (FlowNetwork.graph net) ->
  FlowNetwork.calculate_max_flow set_order fuel net = Ret (v, S, T, net') ->
  exists sink,
    FlowNetwork.get_sink_node net = Ret sink
    /\ v = inflow (FlowNetwork.graph net') (Node.id sink)
           - outflow (FlowNetwork.graph net') (Node.id sink)
    /\ 0 <= v.
Proof.
  intros Hr _ Hz Hcalc.
  destruct (computed_flow _ _ _ _ _ _ _ Hr Hz Hcalc)
    as (source & sink & V & Hs & Ht & Hst & Hsk & _ & H' & _ & _
        & Hcons' & Hv & _).
  destruct (reachable_invariants net Hr) as (H & Hd & Hcap).
  destruct (facade_returned _ _ _ _ _ _ _ H Hd Hcap Hcalc)
    as (_ & _ & _ & _ & _ & _ & _ & _ & _ & _ & _ & Hv0 & _).
  exists sink. split; [exact Ht|]. split; [|exact Hv0].
  pose proof (net_out_source_sink _ _ _ H' Hcons' Hst Hsk) as Hsum.
  rewrite Hv in Hsum. unfold net_out in Hsum. lia.
Qed.

Lemma flow_value_reaches_sink_witness :
  reachable chain_net /\ exact (FlowNetwork.graph chain_net)
  /\ all_zero (FlowNetwork.graph chain_net)
  /\ FlowNetwork.calculate_max_flow (fun l => l) 12 chain_net
     = Ret (5, ["A"; "s"], ["t"], chain_net_solved)
  /\ 5 = inflow (FlowNetwork.graph chain_net_solved) "t"
         - outflow (FlowNetwork.graph chain_net_solved) "t".
Proof.
  split; [exact chain_reachable|]. split; [exact chain_exact|].
  split; [exact chain_zero|]. split; [exact chain_first_run|].
  destruct (flow_value_reaches_sink (fun l => l) 12 chain_net chain_net_solved
              5 ["A"; "s"] ["t"] chain_reachable chain_exact chain_zero
              chain_first_run)
    as (sink & Ht & Hv & _).
  injection Ht as <-. exact Hv.
Defined.

(** X20: the two lists that [calculate_max_flow] returns are a cut that
    the final flow fills.  On a network built by the public operations with
    plain edge ids, whatever the flows at the start, when [list(visited)]
    keeps the members of the set: every node id is in exactly one of S and
    T, the source is in S and the sink in T; and when the capacities are
    integers that add up to at most 2^53 after every [add_edge] and
    [update_edge_capacity], every edge from S to T carries its whole
    capacity, and every edge from T to S carries nothing. *)
Theorem min_cut_is_saturated (set_order : list string -> list string)
    (fuel : nat) (net net' : FlowNetwork.t) (v : Z) (S T : list string) :
  (forall V x, In x (set_order V) <-> In x V) ->
  reachable net ->
  FlowNetwork.calculate_max_flow set_order fuel net = Ret (v, S, T, net') ->
  exists source sink,
    FlowNetwork.get_source_node net = Ret source
    /\ FlowNetwork.get_sink_node net = Ret sink
    /\ In (Node.id source) S /\ In (Node.id sink) T
    /\ (forall x, In x (Dict.keys (Graph.nodes (FlowNetwork.graph net')))
                  <-> In x S \/ In x T)
    /\ (forall x, In x S -> ~ In x T)
    /\ (exact_run net ->
        (forall e, In e (FlowNetwork.get_all_edges net') ->
           In (Edge.start_node_id e) S -> In (Edge.end_node_id e) T ->
           Edge.flow e = Edge.capacity e)
        /\ (forall e, In e (FlowNetwork.get_all_edges net') ->
              In (Edge.start_node_id e) T -> In (Edge.end_node_id e) S ->
              Edge.flow e = 0)).
Proof.
  intros Hset Hr Hcalc.
  destruct (reachable_invariants net Hr) as (H & Hd & Hcap).
  destruct (cut_inside _ _ _ _ _ _ _ H Hcalc) as (V & HS & HT & Hin).
  destruct (facade_set_order _ _ _ _ _ _ _ Hcalc) as (V0 & HS0 & Hany).
  specialize (Hany (fun l => l)). cbn beta in Hany.
  destruct (cut_inside _ _ _ _ _ _ _ H Hany) as (V1 & HV1 & _ & Hin1).
  cbn beta in HV1. subst V1.
  destruct (facade_returned _ _ _ _ _ _ _ H Hd Hcap Hany)
    as (source & sink & f & V2 & Hs & Ht & Hst & Hg & HV2 & HT2 & _ & _
        & Hcap' & _ & ND & HsV & HtV & Hclosed).
  cbn beta in HV2. subst V2.
  assert (Hnodes : Graph.nodes (FlowNetwork.graph net')
                   = Graph.nodes (FlowNetwork.graph net))
    by now rewrite Hg.
  assert (HinS : forall x, In x S <-> In x V0) by (intros x; rewrite HS0; apply Hset).
  assert (HinT : forall x, In x T <->
            In x (Dict.keys (Graph.nodes (FlowNetwork.graph net')))
            /\ ~ In x V0).
  { intros x. rewrite HT2, Hnodes, filter_In, negb_true_iff.
    now rewrite mem_str_not_In. }
  assert (Hsink : In (Node.id sink)
                     (Dict.keys (Graph.nodes (FlowNetwork.graph net')))).
  { rewrite Hnodes. apply (get_Some_key _ _ sink). apply node_lookup; [exact H|].
    unfold FlowNetwork.get_sink_node in Ht.
    destruct (Graph.get_sink_nodes _) as [|a l] eqn:E; [discriminate|].
    injection Ht as ->.
    assert (Hi : In sink (Graph.get_sink_nodes (FlowNetwork.graph net)))
      by (rewrite E; now left).
    now apply filter_In in Hi. }
  exists source, sink. split; [exact Hs|]. split; [exact Ht|].
  split; [now apply HinS|]. split; [now apply HinT|]. split.
  { intros x. rewrite HinS, HinT. split.
    - intros Hx. destruct (in_dec string_dec x V0); [now left | now right].
    - intros [Hx|[Hx _]]; [now apply Hin1 | exact Hx]. }
  split; [intros x Hx Hx'; apply HinT in Hx'; apply HinS in Hx; tauto|].
  intros _.
  unfold within_capacity in Hcap'. rewrite Forall_forall in Hcap'.
  unfold FlowNetwork.get_all_edges. split.
  - intros e He Hu Hv. apply HinS in Hu. apply HinT in Hv as [_ Hv].
    pose proof (saturated_across _ V0 e Hclosed He Hu Hv) as Hsat.
    specialize (Hcap' e He). unfold Edge.residual_capacity in Hsat. lia.
  - intros e He Hu Hv. apply HinS in Hv. apply HinT in Hu as [_ Hu].
    pose proof (empty_across _ V0 e Hclosed He Hu Hv) as Hemp.
    specialize (Hcap' e He). lia.
Qed.

Lemma min_cut_is_saturated_witness :
  reachable chain_net /\ exact_run chain_net
  /\ FlowNetwork.calculate_max_flow (fun l => l) 12 chain_net
     = Ret (5, ["A"; "s"], ["t"], chain_net_solved)
  /\ forall e, In e (FlowNetwork.get_all_edges chain_net_solved) ->
       In (Edge.start_node_id e) ["A"; "s"] -> In (Edge.end_node_id e) ["t"] ->
       Edge.flow e = Edge.capacity e.
Proof.
  split; [exact chain_reachable|]. split; [exact chain_exact_run|].
  split; [exact chain_first_run|].
  destruct (min_cut_is_saturated (fun l => l) 12 chain_net chain_net_solved 5
              ["A"; "s"] ["t"] (fun V x => iff_refl _) chain_reachable
              chain_first_run)
    as (source & sink & _ & _ & _ & _ & _ & _ & Hsat).
  exact (proj1 (Hsat chain_exact_run)).
Defined.

(** X21: a computation changes flows and nothing else.  For every
    network and every edge ids, when [calculate_max_flow] returns, the
    nodes and their roles, the adjacency index, and the ids, ends and
    capacities of the edges, in their order, are what they were. *)
Theorem max_flow_changes_only_flows (set_order : list string -> list string)
    (fuel : nat) (net net' : FlowNetwork.t) (v : Z) (S T : list string) :
  FlowNetwork.calculate_max_flow set_order fuel net = Ret (v, S, T, net') ->
  FlowNetwork.get_all_nodes net' = FlowNetwork.get_all_nodes net
  /\ Graph.adjacency_list (FlowNetwork.graph net')
     = Graph.adjacency_list (FlowNetwork.graph net)
  /\ Dict.keys (Graph.edges (FlowNetwork.graph net'))
     = Dict.keys (Graph.edges (FlowNetwork.graph net))
  /\ map (fun e => (Edge.id e, Edge.start_node_id e, Edge.end_node_id e,
                    Edge.capacity e)) (FlowNetwork.get_all_edges net')
     = map (fun e => (Edge.id e, Edge.start_node_id e, Edge.end_node_id e,
                      Edge.capacity e)) (FlowNetwork.get_all_edges net).
Proof.
  intros Hcalc. apply facade_solver in Hcalc as (source & sink & _ & _ & Hc & _).
  destruct (solver_final _ _ _ _ _ _ Hc) as (_ & _ & Hz).
  fold (same_network (FordFulkerson.graph net) (FordFulkerson.graph net')) in Hz.
  split.
  { unfold FlowNetwork.get_all_nodes, Graph.get_all_nodes, FlowNetwork.graph.
    now rewrite (same_network_nodes _ _ Hz). }
  split; [now apply (f_equal Graph.adjacency_list) in Hz|]. split.
  { apply (f_equal Graph.edges) in Hz. simpl in Hz.
    apply (f_equal (map fst)) in Hz. rewrite !map_map in Hz. exact Hz. }
  apply same_network_edges in Hz.
  apply (f_equal (map (fun e => (Edge.id e, Edge.start_node_id e,
                                 Edge.end_node_id e, Edge.capacity e)))) in Hz.
  rewrite !map_map in Hz. exact Hz.
Qed.

Lemma max_flow_changes_only_flows_witness :
  FlowNetwork.calculate_max_flow (fun l => l) 12 crossed_net
  = Ret (5, ["m"; "s"], ["x"; "t"], crossed_net_solved)
  /\ FlowNetwork.get_all_nodes crossed_net_solved
     = FlowNetwork.get_all_nodes crossed_net.
Proof.
  assert (Hrun : FlowNetwork.calculate_max_flow (fun l => l) 12 crossed_net
                 = Ret (5, ["m"; "s"], ["x"; "t"], crossed_net_solved))
    by (vm_compute; reflexivity).
  split; [exact Hrun|].
  exact (proj1 (max_flow_changes_only_flows _ _ _ _ _ _ _ Hrun)).
Defined.




Lemma capacity_bound_with_plain_ids_witness :
  exact_run chain_net_solved
  /\ Forall (fun e => 0 <= Edge.flow e <= Edge.capacity e)
            (Graph.get_all_edges (FlowNetwork.graph chain_net_solved)).
Proof.
  split; [exact chain_solved_exact_run|].
  exact (capacity_bound_with_plain_ids chain_net_solved
           chain_solved_exact_run).
Defined.

Lemma conservation_with_plain_ids_witness :
  reachable chain_net /\ exact (FlowNetwork.graph chain_net)
  /\ all_zero (FlowNetwork.graph chain_net)
  /\ FlowNetwork.calculate_max_flow (fun l => l) 12 chain_net
     = Ret (5, ["A"; "s"], ["t"], chain_net_solved)
  /\ inflow (FlowNetwork.graph chain_net_solved) "A"
     = outflow (FlowNetwork.graph chain_net_solved) "A".
Proof.
  split; [exact chain_reachable|]. split; [exact chain_exact|].
  split; [exact chain_zero|]. split; [exact chain_first_run|].
  destruct (conservation_with_plain_ids (fun l => l) 12 chain_net
              chain_net_solved 5 ["A"; "s"] ["t"] chain_reachable chain_exact
              chain_zero chain_first_run) as (source & sink & Hs & Ht & Hcons).
  injection Hs as <-. injection Ht as <-. apply Hcons; discriminate.
Defined.



(** X26: flows are kept between computations, and a new computation
    completes them.  On a network built by the public operations with plain
    edge ids and integer capacities that add up to at most 2^53 after every
    [add_edge] and [update_edge_capacity], whose flows are conserved at
    every node but the source and the sink (those a computation left, also
    after capacities were raised or nodes and edges added),
    [calculate_max_flow] returns the increase only: what the source sends
    afterwards is what it sent before plus the returned value, the new
    flows respect the capacities and are conserved, and no integer flow on
    this network sends more. *)
Theorem recomputation_completes_the_flow
    (set_order : list string -> list string) (fuel : nat)
    (net net' : FlowNetwork.t) (v : Z) (S T : list string)
    (source sink : Node.t) :
  exact_run net ->
  FlowNetwork.get_source_node net = Ret source ->
  FlowNetwork.get_sink_node net = Ret sink ->
  conserved (FlowNetwork.graph net) (Node.id source) (Node.id sink) ->
  FlowNetwork.calculate_max_flow set_order fuel net = Ret (v, S, T, net') ->
  let sent g := outflow g (Node.id source) - inflow g (Node.id source) in
  0 <= v
  /\ sent (FlowNetwork.graph net') = sent (FlowNetwork.graph net) + v
  /\ within_capacity (FlowNetwork.graph net')
  /\ conserved (FlowNetwork.graph net') (Node.id source) (Node.id sink)
  /\ forall g,
       same_network (FlowNetwork.graph net) g ->
       within_capacity g ->
       conserved g (Node.id source) (Node.id sink) ->
       sent g <= sent (FlowNetwork.graph net) + v.
Proof.
  intros Hr Hs Ht Hcons Hcalc sent. apply exact_run_reachable in Hr.
  destruct (reachable_invariants net Hr) as (H & Hd & Hcap).
  destruct (facade_returned _ _ _ _ _ _ _ H Hd Hcap Hcalc)
    as (source' & sink' & f & V & Hs' & Ht' & Hst & Hg & _ & _ & Hv & Hv0
        & Hcap' & Hkeep & ND & HsV & HtV & Hclosed).
  rewrite Hs in Hs'. rewrite Ht in Ht'.
  injection Hs' as <-. injection Ht' as <-.
  destruct (facade_solver _ _ _ _ _ _ _ Hcalc)
    as (source' & sink' & Hs' & Ht' & Hc & _).
  rewrite Hs in Hs'. rewrite Ht in Ht'.
  injection Hs' as <-. injection Ht' as <-.
  assert (Hsame : same_network (FlowNetwork.graph net)
                               (FlowNetwork.graph net'))
    by now destruct (solver_final _ _ _ _ _ _ Hc) as (_ & _ & Hz).
  pose proof (solver_wf _ _ _ _ _ _ H Hc) as H'.
  assert (Hcons' : conserved (FlowNetwork.graph net') (Node.id source)
                             (Node.id sink)).
  { apply conserved_iff_net_out. intros x Hxs Hxt.
    rewrite Hkeep by assumption. now apply (conserved_net_out _ _ _ _ Hcons). }
  subst sent. cbn beta.
  fold (net_out (FlowNetwork.graph net') (Node.id source)).
  fold (net_out (FlowNetwork.graph net) (Node.id source)).
  split; [exact Hv0|]. split; [lia|]. split; [exact Hcap'|].
  split; [exact Hcons'|].
  intros g Hsg Hcapg Hconsg. fold (net_out g (Node.id source)).
  set (T0 := filter (fun node_id => negb (mem_str node_id V))
                    (Dict.keys (Graph.nodes (FlowNetwork.graph net)))).
  assert (Hcut : net_out (FlowNetwork.graph net') (Node.id source)
                 = cut_capacity (FlowNetwork.graph net) V T0).
  { rewrite <- (same_network_cut _ _ V T0 Hsame).
    apply (flow_value_is_cut _ _ (Node.id sink) V); try assumption.
    - reflexivity.
    - unfold T0. now rewrite (same_network_nodes _ _ Hsame). }
  replace (net_out (FlowNetwork.graph net) (Node.id source) + v)
    with (net_out (FlowNetwork.graph net') (Node.id source)) by lia.
  rewrite Hcut, <- (same_network_cut _ _ V T0 Hsg). unfold T0.
  rewrite <- (same_network_nodes _ _ Hsg).
  apply (flow_value_under_cut g _ (Node.id sink)); try assumption.
  intros e He. destruct (same_network_ends _ _ e Hsg He)
    as (e0 & He0 & _ & _ & Hend & _).
  rewrite (same_network_nodes _ _ Hsg), <- Hend.
  pose proof (wf_edges _ H) as Hok. rewrite Forall_forall in Hok.
  now destruct (Hok e0 He0) as (_ & Hv1 & _).
Qed.

Lemma chain_raised_reachable : reachable chain_net_raised.
Proof.
  apply (reach_update_capacity chain_net_solved chain_net_raised "e2" 10
           chain_solved_reachable).
  reflexivity.
Qed.

Lemma chain_raised_conserved :
  conserved (FlowNetwork.graph chain_net_raised) "s" "t".
Proof.
  destruct (computed_flow _ _ _ _ _ _ _ chain_reachable chain_zero
              chain_first_run)
    as (source & sink & V & Hs & Ht & _ & _ & _ & _ & _ & _ & Hcons & _).
  injection Hs as <-. injection Ht as <-.
  intros x Hxs Hxt.
  change (inflow (FlowNetwork.graph chain_net_solved) x
          = outflow (FlowNetwork.graph chain_net_solved) x).
  now apply Hcons.
Qed.

Lemma chain_raised_exact_run : exact_run chain_net_raised.
Proof.
  apply (exact_update_capacity chain_net_solved chain_net_raised "e2" 10
           chain_solved_exact_run); [reflexivity|].
  unfold exact. vm_compute. discriminate.
Qed.

Lemma recomputation_completes_the_flow_witness :
  exact_run chain_net_raised
  /\ FlowNetwork.update_edge_capacity chain_net_solved "e2" 10
     = Ret chain_net_raised
  /\ FlowNetwork.calculate_max_flow (fun l => l) 12 chain_net_raised
     = Ret (5, ["s"], ["A"; "t"], chain_net_raised_solved)
  /\ outflow (FlowNetwork.graph chain_net_raised_solved) "s"
     - inflow (FlowNetwork.graph chain_net_raised_solved) "s"
     = outflow (FlowNetwork.graph chain_net_raised) "s"
       - inflow (FlowNetwork.graph chain_net_raised) "s" + 5.
Proof.
  assert (Hrun : FlowNetwork.calculate_max_flow (fun l => l) 12
                   chain_net_raised
                 = Ret (5, ["s"], ["A"; "t"], chain_net_raised_solved))
    by (vm_compute; reflexivity).
  split; [exact chain_raised_exact_run|].
  split; [reflexivity|]. split; [exact Hrun|].
  apply (recomputation_completes_the_flow (fun l => l) 12 chain_net_raised
           chain_net_raised_solved 5 ["s"] ["A"; "t"]
           (Node.mk "s" "Source" true false) (Node.mk "t" "Sink" false true)
           chain_raised_exact_run eq_refl eq_refl chain_raised_conserved Hrun).
Defined.

Lemma zeroed_twice (g : Graph.t) : zeroed (zeroed g) = zeroed g.
Proof.
  unfold zeroed. simpl. f_equal. rewrite map_map. apply map_ext.
  intros [k e]. reflexivity.
Qed.

(** A flow that fills a cut is a greatest flow. *)
Lemma no_flow_sends_more (g0 g' : Graph.t) (s t : string) (V : list string) :
  graph_wf g' -> same_network g0 g' -> within_capacity g' ->
  conserved g' s t -> NoDup V -> In s V -> ~ In t V ->
  arc_closed (residual_arcs (Graph.get_all_edges g')) V ->
  forall g, same_network g0 g -> within_capacity g -> conserved g s t ->
            net_out g s <= net_out g' s.
Proof.
  intros H' Hsame Hcap' Hcons' ND HsV HtV Hclosed g Hg Hcapg Hconsg.
  assert (Hgg : same_network g' g).
  { unfold same_network in *. congruence. }
  set (T0 := filter (fun node_id => negb (mem_str node_id V))
                    (Dict.keys (Graph.nodes g'))).
  rewrite (flow_value_is_cut g' s t V V T0); try assumption; try reflexivity.
  rewrite <- (same_network_cut _ _ V T0 Hgg). unfold T0.
  rewrite <- (same_network_nodes _ _ Hgg).
  apply (flow_value_under_cut g s t); try assumption.
  intros e He. destruct (same_network_ends _ _ e Hgg He)
    as (e0 & He0 & _ & _ & Hend & _).
  rewrite (same_network_nodes _ _ Hgg), <- Hend.
  pose proof (wf_edges _ H') as Hok. rewrite Forall_forall in Hok.
  now destruct (Hok e0 He0) as (_ & Hv1 & _).
Qed.

(** X30: [reset_flows] followed by [calculate_max_flow] gives the maximum
    flow of the network as it is, whatever happened to it before.  On a
    network built by the public operations with plain edge ids whose
    capacities are integers that add up to at most 2^53, when the
    computation on the reset network returns: the flows it leaves respect
    the capacities and are conserved, the source sends out the returned
    value, no integer flow on this network sends more, and the value is at
    most the total capacity of the edges that leave the source and at most
    that of the edges that enter the sink. *)
Theorem reset_then_max_flow_is_the_maximum
    (set_order : list string -> list string) (fuel : nat)
    (net net' : FlowNetwork.t) (v : Z) (S T : list string) :
  reachable net -> exact (FlowNetwork.graph net) ->
  FlowNetwork.calculate_max_flow set_order fuel (FlowNetwork.reset_flows net)
  = Ret (v, S, T, net') ->
  exists source sink,
    FlowNetwork.get_source_node net = Ret source
    /\ FlowNetwork.get_sink_node net = Ret sink
    /\ same_network (FlowNetwork.graph net) (FlowNetwork.graph net')
    /\ within_capacity (FlowNetwork.graph net')
    /\ conserved (FlowNetwork.graph net') (Node.id source) (Node.id sink)
    /\ outflow (FlowNetwork.graph net') (Node.id source)
       - inflow (FlowNetwork.graph net') (Node.id source) = v
    /\ (forall g,
          same_network (FlowNetwork.graph net) g ->
          within_capacity g ->
          conserved g (Node.id source) (Node.id sink) ->
          outflow g (Node.id source) - inflow g (Node.id source) <= v)
    /\ v <= sumZ (fun e => if String.eqb (Edge.start_node_id e) (Node.id source)
                           then Edge.capacity e else 0)
                 (FlowNetwork.get_all_edges net)
    /\ v <= sumZ (fun e => if String.eqb (Edge.end_node_id e) (Node.id sink)
                           then Edge.capacity e else 0)
                 (FlowNetwork.get_all_edges net).
Proof.
  intros Hr _ Hcalc.
  assert (Hr0 : reachable (FlowNetwork.reset_flows net)) by now apply reach_reset.
  destruct (reachable_invariants net Hr) as (H & _ & Hcap).
  destruct (reset_flows_wf net H Hcap) as (_ & _ & Hz).
  destruct (computed_flow _ _ _ _ _ _ _ Hr0 Hz Hcalc)
    as (source & sink & V & Hs & Ht & Hst & Hsk & Htk & H' & Hsame & Hcap'
        & Hcons' & Hv & ND & HsV & HtV & Hclosed).
  assert (Hsame' : same_network (FlowNetwork.graph net) (FlowNetwork.graph net')).
  { unfold same_network in *. rewrite Hsame, reset_flows_zeroed.
    apply zeroed_twice. }
  unfold within_capacity in Hcap'. rewrite Forall_forall in Hcap'.
  exists source, sink. split; [exact Hs|]. split; [exact Ht|].
  split; [exact Hsame'|].
  split; [unfold within_capacity; now rewrite Forall_forall|].
  split; [exact Hcons'|]. split; [exact Hv|]. split.
  { intros g Hg Hcapg Hconsg. rewrite <- Hv.
    apply (no_flow_sends_more (FlowNetwork.graph net) (FlowNetwork.graph net')
             _ (Node.id sink) V); try assumption.
    unfold within_capacity. now rewrite Forall_forall. }
  unfold FlowNetwork.get_all_edges. split.
  - rewrite <- (same_network_sum _ _ _ Hsame') by reflexivity.
    rewrite <- Hv. unfold net_out, outflow, inflow.
    assert (0 <= sumZ (fun e => if String.eqb (Edge.end_node_id e)
                                     (Node.id source)
                                then Edge.flow e else 0)
                      (Graph.get_all_edges (FlowNetwork.graph net'))).
    { apply sumZ_nonneg. intros e He. specialize (Hcap' e He).
      destruct (String.eqb _ _); lia. }
    assert (sumZ (fun e => if String.eqb (Edge.start_node_id e)
                                (Node.id source)
                           then Edge.flow e else 0)
                 (Graph.get_all_edges (FlowNetwork.graph net'))
            <= sumZ (fun e => if String.eqb (Edge.start_node_id e)
                                   (Node.id source)
                              then Edge.capacity e else 0)
                    (Graph.get_all_edges (FlowNetwork.graph net'))).
    { apply sumZ_le. intros e He. specialize (Hcap' e He).
      destruct (String.eqb _ _); lia. }
    lia.
  - rewrite <- (same_network_sum _ _ _ Hsame') by reflexivity.
    pose proof (net_out_source_sink _ _ _ H' Hcons' Hst Hsk) as Hsum.
    rewrite Hv in Hsum. unfold net_out, outflow, inflow in Hsum.
    assert (0 <= sumZ (fun e => if String.eqb (Edge.start_node_id e)
                                     (Node.id sink)
                                then Edge.flow e else 0)
                      (Graph.get_all_edges (FlowNetwork.graph net'))).
    { apply sumZ_nonneg. intros e He. specialize (Hcap' e He).
      destruct (String.eqb _ _); lia. }
    assert (sumZ (fun e => if String.eqb (Edge.end_node_id e)
                                (Node.id sink)
                           then Edge.flow e else 0)
                 (Graph.get_all_edges (FlowNetwork.graph net'))
            <= sumZ (fun e => if String.eqb (Edge.end_node_id e)
                                   (Node.id sink)
                              then Edge.capacity e else 0)
                    (Graph.get_all_edges (FlowNetwork.graph net'))).
    { apply sumZ_le. intros e He. specialize (Hcap' e He).
      destruct (String.eqb _ _); lia. }
    lia.
Qed.

Lemma chain_solved_exact : exact (FlowNetwork.graph chain_net_solved).
Proof. unfold exact. vm_compute. discriminate. Qed.

Lemma reset_then_max_flow_is_the_maximum_witness :
  reachable chain_net_solved /\ exact (FlowNetwork.graph chain_net_solved)
  /\ FlowNetwork.calculate_max_flow (fun l => l) 12
       (FlowNetwork.reset_flows chain_net_solved)
     = Ret (5, ["A"; "s"], ["t"], chain_net_solved)
  /\ forall g,
       same_network (FlowNetwork.graph chain_net_solved) g ->
       within_capacity g -> conserved g "s" "t" ->
       outflow g "s" - inflow g "s" <= 5.
Proof.
  assert (Hrun : FlowNetwork.calculate_max_flow (fun l => l) 12
                   (FlowNetwork.reset_flows chain_net_solved)
                 = Ret (5, ["A"; "s"], ["t"], chain_net_solved))
    by (vm_compute; reflexivity).
  split; [exact chain_solved_reachable|]. split; [exact chain_solved_exact|].
  split; [exact Hrun|].
  destruct (reset_then_max_flow_is_the_maximum (fun l => l) 12
              chain_net_solved chain_net_solved 5 ["A"; "s"] ["t"]
              chain_solved_reachable chain_solved_exact Hrun)
    as (source & sink & Hs & Ht & _ & _ & _ & _ & Hmax & _).
  injection Hs as <-. injection Ht as <-. exact Hmax.
Defined.

(** * algorithms.py: the steps of the solver *)




(** X28: what [_find_augmenting_path] finds, for a solver made for a
    graph that the public operations built (any edge ids, any flows).  With
    fuel for two steps per edge and two more, and a source other than the
    sink: either it returns None, and then no chain of arcs of the residual
    graph leads from the source to the sink; or it returns a positive
    amount and the ids of a chain of residual arcs from the source to the
    sink that enters no node twice, and the amount is the least capacity on
    that chain.  With the source as the sink it returns None. *)
Theorem augmenting_path_is_a_bottleneck_chain (net : FlowNetwork.t)
    (self : FordFulkerson.t) (source_id sink_id : string) (fuel : nat) :
  built net ->
  FordFulkerson.new (FlowNetwork.graph net) = Ret self ->
  let arcs := Graph.get_all_edges (FordFulkerson.residual_graph self) in
  (source_id = sink_id ->
   FordFulkerson._find_augmenting_path (S fuel) self source_id sink_id
   = Ret None)
  /\ (source_id <> sink_id ->
      (2 * List.length (FlowNetwork.get_all_edges net) + 1 < fuel)%nat ->
      (FordFulkerson._find_augmenting_path fuel self source_id sink_id
       = Ret None
       /\ forall l, ~ arc_chain arcs source_id sink_id l)
      \/ (exists delta l,
            FordFulkerson._find_augmenting_path fuel self source_id sink_id
            = Ret (Some (delta, map Edge.id l))
            /\ arc_chain arcs source_id sink_id l
            /\ NoDup (map Edge.end_node_id l)
            /\ delta > 0
            /\ (forall a, In a l -> delta <= Edge.capacity a)
            /\ (exists a, In a l /\ Edge.capacity a = delta)
            /\ forall l', arc_chain arcs source_id sink_id l' ->
                          (List.length l <= List.length l')%nat)).
Proof.
  intros Hb Hnew arcs. apply built_wf in Hb as H.
  unfold FordFulkerson.new in Hnew.
  rewrite (build_residual_graph_of _ H) in Hnew. injection Hnew as <-.
  subst arcs. cbn [FordFulkerson.residual_graph]. unfold residual_of.
  rewrite edges_graph_of. fold (residual_of (FlowNetwork.graph net)).
  split.
  - intros ->. apply find_augmenting_path_same.
  - intros Hst Hfuel.
    apply (find_augmenting_path_chain
             (FordFulkerson.mk (FlowNetwork.graph net)
                               (residual_of (FlowNetwork.graph net)))
             (residual_arcs (Graph.get_all_edges (FlowNetwork.graph net)))
             source_id sink_id
             (fun u => residual_get_edges _ u H)
             (fun a Ha => residual_get_edge _ a H Ha)
             (fun a Ha => residual_arc_positive _ a Ha) fuel Hst).
    pose proof (residual_arcs_length
                  (Graph.get_all_edges (FlowNetwork.graph net))) as Hlen.
    unfold FlowNetwork.get_all_edges in Hfuel. lia.
Qed.

Lemma augmenting_path_is_a_bottleneck_chain_witness :
  built chain_net
  /\ exists self,
       FordFulkerson.new (FlowNetwork.graph chain_net) = Ret self
       /\ FordFulkerson._find_augmenting_path 6 self "s" "t"
          = Ret (Some (5, ["e1_forward"; "e2_forward"]))
       /\ FordFulkerson._find_augmenting_path 6 self "s" "s" = Ret None.
Proof.
  assert (Hb : built chain_net) by exact (reachable_built _ chain_reachable).
  split; [exact Hb|].
  destruct (FordFulkerson.new (FlowNetwork.graph chain_net))
    as [self| | |] eqn:E; try discriminate.
  exists self. split; [reflexivity|].
  destruct (augmenting_path_is_a_bottleneck_chain chain_net self "s" "s" 5
              Hb E) as [Hsame _].
  split; [|now apply Hsame].
  vm_compute in E. injection E as <-. reflexivity.
Defined.
